(** * Semantic analysis and multi-target orchestration of the ispc module layer

    A shallow embedding of [src/module.cpp]: the declaration validator
    ([Module::AddGlobalVariable], [Module::AddFunctionDeclaration] and the
    export-legality check), the global reconciler ([lCompatibleTypes],
    [lExtractOrCheckGlobals]), the dispatch synthesizer
    ([lCreateDispatchFunction]), the multi-target driver
    ([Module::CompileAndOutput]) and the output helpers
    ([lGetTargetFileName], [RegisterDependency], [Module::writeDeps]).

    Part I holds the data model and the embedded functions, Part II the
    properties proved about them. *)

From Stdlib Require Import ZArith Ascii String List Bool Lia Sorted.
From stdpp Require Import base gmap sets list strings sorting.

Set Warnings "-register-all".
Open Scope string_scope.
Open Scope list_scope.

(* ===================================================================== *)
(** * Part I: data model and embedded functions                          *)
(* ===================================================================== *)

(** ** Outcomes of code that can hit an [Assert] *)

(** [Assert(e)] aborts the process when [e] is false.  A function that can
    reach an assertion returns an [Outcome]. *)
Inductive Outcome (A : Type) : Type :=
| Returned (a : A)
| AssertionFailed.
Arguments Returned {A} a.
Arguments AssertionFailed {A}.

(** ** C strings *)

Module CString.

(** The contents of a NUL-terminated buffer are modelled by the [string]
    of the characters before the terminator. *)

Definition strlen (s : string) : nat := String.length s.

Fixpoint take (n : nat) (s : string) : string :=
  match n, s with
  | S k, String c s' => String c (take k s')
  | _, _ => EmptyString
  end.

Fixpoint drop (n : nat) (s : string) : string :=
  match n, s with
  | S k, String _ s' => drop k s'
  | _, _ => s
  end.

(** [strrchr s c]: offset of the last occurrence of [c] in [s]
    (the C function returns the pointer [s + offset], or NULL). *)
Fixpoint strrchr (s : string) (c : ascii) : option nat :=
  match s with
  | EmptyString => None
  | String a s' =>
      match strrchr s' c with
      | Some k => Some (S k)
      | None => if Ascii.eqb a c then Some 0 else None
      end
  end.

(** [strncpy(dst, src, n)] followed by the explicit terminator the
    callers write at offset [n]. *)
Definition strncpy (src : string) (n : nat) : string := take n src.

(** [strncat(dst, src, n)]: append at most [n] characters of [src]. *)
Definition strncat (dst src : string) (n : nat) : string :=
  dst +:+ take n src.

(** [s[0]] of a [std::string]: the terminator for the empty string. *)
Definition front (s : string) : ascii :=
  match s with
  | EmptyString => Ascii.zero
  | String c _ => c
  end.

End CString.

(** ** Output helpers *)

(** [lGetTargetFileName], module.cpp:1998-2022. *)
Definition lGetTargetFileName (outFileName isaString : string) : string :=
  let bufferSize := CString.strlen outFileName + 16 in
  match CString.strrchr outFileName "." with
  | Some count =>
      (* Copy everything up to the last '.' *)
      let targetOutFileName := CString.strncpy outFileName count in
      (* Add the ISA name *)
      let targetOutFileName :=
        CString.strncat targetOutFileName "_"
          (bufferSize - CString.strlen targetOutFileName - 1) in
      let targetOutFileName :=
        CString.strncat targetOutFileName isaString
          (bufferSize - CString.strlen targetOutFileName - 1) in
      (* And finish with the original file suffix *)
      CString.strncat targetOutFileName (CString.drop count outFileName)
        (bufferSize - CString.strlen targetOutFileName - 1)
  | None =>
      let targetOutFileName := CString.strncpy outFileName (bufferSize - 1) in
      let targetOutFileName :=
        CString.strncat targetOutFileName "_"
          (bufferSize - CString.strlen targetOutFileName - 1) in
      CString.strncat targetOutFileName isaString
        (bufferSize - CString.strlen targetOutFileName - 1)
  end.

(** Modelled from the spec: [IsStdin] (util.cpp is not among the sources);
    the "streamed source input" of the spec is the file name "-". *)
Definition IsStdin (filepath : string) : bool := String.eqb filepath "-".

Module Deps.

(** [registeredDependencies] is a [std::set<std::string>]. *)
Abbreviation DependencySet := (gset string).

(** [RegisterDependency], module.cpp:101-104. *)
Definition RegisterDependency (fileName : string) (registeredDependencies : DependencySet)
  : DependencySet :=
  if negb (Ascii.eqb (CString.front fileName) "<")
     && negb (String.eqb fileName "stdlib.ispc")
  then {[fileName]} ∪ registeredDependencies
  else registeredDependencies.

(** The escape sequences of the [UNESCAPE_SEQ] table, module.cpp:1304-1313. *)
Definition unescape_seq (c : ascii) : option ascii :=
  if Ascii.eqb c "'" then Some "'"%char
  else if Ascii.eqb c "?" then Some "?"%char
  else if Ascii.eqb c "\" then Some "\"%char
  else if Ascii.eqb c "a" then Some (ascii_of_nat 7)
  else if Ascii.eqb c "b" then Some (ascii_of_nat 8)
  else if Ascii.eqb c "f" then Some (ascii_of_nat 12)
  else if Ascii.eqb c "n" then Some (ascii_of_nat 10)
  else if Ascii.eqb c "r" then Some (ascii_of_nat 13)
  else if Ascii.eqb c "t" then Some (ascii_of_nat 9)
  else if Ascii.eqb c "v" then Some (ascii_of_nat 11)
  else None.

(** [lUnescapeStringInPlace], module.cpp:1289-1318: one left-to-right pass;
    a recognised pair is replaced by its character, which is not scanned
    again; an unrecognised or trailing backslash stays. *)
Fixpoint lUnescapeString (str : string) : string :=
  match str with
  | EmptyString => EmptyString
  | String c rest =>
      if Ascii.eqb c "\" then
        match rest with
        | String next rest' =>
            match unescape_seq next with
            | Some esc => String esc (lUnescapeString rest')
            | None => String c (lUnescapeString rest)
            end
        | EmptyString => String c EmptyString
        end
      else String c (lUnescapeString rest)
  end.

(** One [fprintf] of [Module::writeDeps]. *)
Inductive DepsLine : Set :=
| RuleTarget (tn : string)      (* "%s:"       *)
| RuleSource (sn : string)      (* " %s \\\n"  *)
| RuleDep (name : string)       (* " %s \\\n"  *)
| PlainDep (name : string).     (* "%s\n"      *)

Definition newline : string := String (ascii_of_nat 10) EmptyString.

Definition render (l : DepsLine) : string :=
  match l with
  | RuleTarget tn => tn +:+ ":"
  | RuleSource sn => " " +:+ sn +:+ " \" +:+ newline
  | RuleDep name => " " +:+ name +:+ " \" +:+ newline
  | PlainDep name => name +:+ newline
  end.

(** [!IsStdin(sn) && 0 == strcmp(sn, unescaped.c_str())]: the entry is
    the source file, which the rule has already listed. *)
Definition isSource (sn unescaped : string) : bool :=
  negb (IsStdin sn) && String.eqb sn unescaped.

(** The loop of the make-rule branch, module.cpp:1334-1341. *)
Definition ruleDeps (sn : string) (names : list string) : list DepsLine :=
  foldr (fun name acc =>
           let unescaped := lUnescapeString name in
           if isSource sn unescaped then acc else RuleDep unescaped :: acc)
        [] names.

(** The order of [std::less<std::string>]: byte-wise lexicographic, a
    proper prefix before its extensions. *)
Definition less_equal (a b : string) : Prop := String.leb a b = true.

#[global] Instance less_equal_dec (a b : string) : Decision (less_equal a b).
Proof. unfold less_equal. apply _. Defined.

(** The names from [registeredDependencies.begin()] to [.end()]: a
    [std::set] is iterated in increasing order. *)
Definition inOrder (registeredDependencies : DependencySet) : list string :=
  merge_sort less_equal (elements registeredDependencies).

(** [Module::writeDeps], module.cpp:1320-1349.  [fopen_ok] tells whether
    the output file could be opened; the result is the sequence of
    [fprintf] calls, [None] when the function returns false.  In
    make-rule mode the callers pass the target and source names. *)
Definition writeDeps (fopen_ok : bool) (generateMakeRule : bool) (tn sn : string)
    (registeredDependencies : DependencySet) : option (list DepsLine) :=
  if negb fopen_ok then None
  else if generateMakeRule then
    Some (RuleTarget tn
          :: (if negb (IsStdin sn) then [RuleSource sn] else [])
          ++ ruleDeps sn (inOrder registeredDependencies))
  else
    Some (PlainDep <$> inOrder registeredDependencies).

(** The text written to the file. *)
Definition fileText (ls : list DepsLine) : string :=
  foldr (fun l acc => render l +:+ acc) EmptyString ls.

(** The entries of a listing that come from the dependency registry. *)
Definition depEntries (ls : list DepsLine) : list string :=
  omap (fun l => match l with
                 | RuleDep n | PlainDep n => Some n
                 | _ => None
                 end) ls.

(** The registry after the parser has reported [names], in this order,
    starting from the empty set. *)
Definition reportAll (names : list string) : DependencySet :=
  foldl (fun deps fileName => RegisterDependency fileName deps) ∅ names.

(** A name is recorded when it passes the filter of [RegisterDependency]. *)
Definition recordable (f : string) : Prop :=
  CString.front f <> "<"%char /\ f <> "stdlib.ispc".

(** Characters that a pass of [lUnescapeString] can leave where the input
    had an escape: the backslash and the images of the escape table. *)
Definition special (c : ascii) : bool :=
  existsb (Ascii.eqb c)
    ["\"%char; "'"%char; "?"%char; ascii_of_nat 7; ascii_of_nat 8;
     ascii_of_nat 12; ascii_of_nat 10; ascii_of_nat 13; ascii_of_nat 9;
     ascii_of_nat 11].

Fixpoint plain (s : string) : bool :=
  match s with
  | EmptyString => true
  | String c s' => negb (special c) && plain s'
  end.

End Deps.

(** ** LLVM IR types *)

Module LLVM.

Inductive TypeID : Set :=
| VoidTyID | HalfTyID | FloatTyID | DoubleTyID | LabelTyID | MetadataTyID
| IntegerTyID | FunctionTyID | StructTyID | ArrayTyID | PointerTyID
| VectorTyID.

(** Types are uniqued in their context, so that pointer equality of
    [llvm::Type*] is equality of the terms below. *)
Inductive llvmType : Set :=
| VoidTy | HalfTy | FloatTy | DoubleTy | LabelTy | MetadataTy
| IntegerTy (bits : nat)
| FunctionTy (ret : llvmType) (params : list llvmType) (isVarArg : bool)
| StructTy (name : option string) (isPacked : bool) (elements : list llvmType)
| ArrayTy (numElements : nat) (elem : llvmType)
| PointerTy (elem : llvmType) (addressSpace : nat)
| VectorTy (numElements : nat) (elem : llvmType).

Definition getTypeID (t : llvmType) : TypeID :=
  match t with
  | VoidTy => VoidTyID | HalfTy => HalfTyID | FloatTy => FloatTyID
  | DoubleTy => DoubleTyID | LabelTy => LabelTyID | MetadataTy => MetadataTyID
  | IntegerTy _ => IntegerTyID
  | FunctionTy _ _ _ => FunctionTyID
  | StructTy _ _ _ => StructTyID
  | ArrayTy _ _ => ArrayTyID
  | PointerTy _ _ => PointerTyID
  | VectorTy _ _ => VectorTyID
  end.

Definition TypeID_eq_dec (a b : TypeID) : {a = b} + {a <> b}.
Proof. decide equality. Defined.

Definition llvmType_eq_dec : forall a b : llvmType, {a = b} + {a <> b}.
Proof.
  fix IH 1.
  decide equality;
    try apply Nat.eq_dec; try apply Bool.bool_dec;
    try (apply List.list_eq_dec; exact IH).
  decide equality. apply String.string_dec.
Defined.

(** [Ty1 == Ty2] on [llvm::Type*]. *)
Definition sameType (a b : llvmType) : bool :=
  if llvmType_eq_dec a b then true else false.

(** [StructType::isLayoutIdentical]: the same type, or the same packing
    and the same sequence of element types. *)
Definition isLayoutIdentical (a b : llvmType) : bool :=
  match a, b with
  | StructTy _ p1 es1, StructTy _ p2 es2 =>
      if sameType a b then true
      else if negb (Bool.eqb p1 p2) then false
      else if List.list_eq_dec llvmType_eq_dec es1 es2 then true else false
  | _, _ => false
  end.

End LLVM.

(** [lCompatibleTypes], module.cpp:2296-2319.  The [while] loop descends
    into the element type of arrays and pointers, so it is written by
    recursion on [Ty1]; the last equation is the [default] case guarded by
    the loop condition [Ty1->getTypeID() == Ty2->getTypeID()]. *)
Fixpoint lCompatibleTypes (Ty1 Ty2 : LLVM.llvmType) : bool :=
  match Ty1 with
  | LLVM.ArrayTy n1 e1 =>
      match Ty2 with
      | LLVM.ArrayTy n2 e2 =>
          if negb (Nat.eqb n1 n2) then false else lCompatibleTypes e1 e2
      | _ => false
      end
  | LLVM.PointerTy e1 _ =>
      match Ty2 with
      | LLVM.PointerTy e2 _ => lCompatibleTypes e1 e2
      | _ => false
      end
  | LLVM.StructTy _ _ _ =>
      match Ty2 with
      | LLVM.StructTy _ _ _ => LLVM.isLayoutIdentical Ty1 Ty2
      | _ => false
      end
  | _ =>
      if LLVM.TypeID_eq_dec (LLVM.getTypeID Ty1) (LLVM.getTypeID Ty2)
      then LLVM.sameType Ty1 Ty2
      else false
  end.

(** ** Diagnostics *)

Record SourcePos : Set := { pos_name : string; first_line : nat }.

#[global] Instance SourcePos_eq_dec : EqDecision SourcePos.
Proof. solve_decision. Defined.

(** The messages of [Error] and [Warning] calls, named as in §4 and §7 of
    the specification; the comment gives the start of the format string. *)
Inductive Message : Set :=
| VariableShadowsFunction (name : string)
    (* "Global variable '%s' shadows previously-declared function." *)
| ExternCVariable
    (* "extern 'C' qualifier can only be used for functions." *)
| VoidVariable
    (* "'void' type global variable is illegal." *)
| UnsizedArrayError
    (* "Illegal to declare a global variable with unsized array dimensions ..." *)
| ExternInitializerError (name : string)
    (* "Initializer can't be provided with 'extern' global variable '%s'." *)
| NonConstantInitializerError (name : string)
    (* "Initializer for global variable '%s' must be a constant." *)
| ConflictingDeclarationError (name : string) (previous : SourcePos)
    (* "Definition of variable '%s' conflicts with definition at %s:%d." *)
| RedefinitionError (name : string) (previous : SourcePos)
    (* "Redefinition of variable '%s' is illegal. (Previous definition at %s:%d.)" *)
| FunctionShadowsVariable (name : string)
    (* "Function '%s' shadows previously-declared global variable. ..." *)
| ExportOverloadError (previous : SourcePos)
    (* "Illegal to provide 'export' qualifier for functions with the same name but different types. ..." *)
| ReturnOverloadError (previous : SourcePos)
    (* "Illegal to overload function by return type only. ..." *)
| TaskLinkageError (name : string)
    (* "'task' qualifier is illegal with C-linkage extern function '%s'. ..." *)
| ForeignLinkageOverloadError (name : string)
    (* "Can't overload extern 'C' function '%s' ..." *)
| QualifierConflictError (name : string)
    (* "Illegal to use 'noinline' and 'inline' qualifiers together on function '%s'." *)
| ExportReturnTypeError (name : string)
    (* "Illegal to return a 'varying' or vector type from exported function '%s'" *)
| TaskReturnTypeError
    (* "Task-qualified functions must have void return type." *)
| StructByValueError
    (* "Passing structs to/from application functions by value is currently not supported. ..." *)
| VaryingPointerParameter (name : string)
    (* "Varying pointer type parameter '%s' is illegal in an exported function." *)
| StructVectorMemberParameter (name : string)
    (* "Struct parameter '%s' with vector typed member(s) is illegal in an exported function." *)
| VectorParameter (name : string)
    (* "Vector-typed parameter '%s' is illegal in an exported function." *)
| VaryingParameter (name : string)
    (* "Varying parameter '%s' is illegal in an exported function." *)
| ParameterShadowsFunction (name : string)
    (* "Function parameter '%s' shadows a function declared in global scope." *)
| DefaultOrderError (name : string)
    (* "Parameter '%s' is missing default: ..." *)
| GlobalLayoutMismatch (name : string)
    (* "Mismatch in size/layout of global variable '%s' with different targets. ..." *)
| CollaboratorMessage (id : nat).
    (* a message reported by the type checker or another collaborator *)

Inductive Severity : Set := SevError | SevWarning.

Record Diagnostic : Set :=
  { severity : Severity; diag_pos : SourcePos; message : Message }.

Definition isError (d : Diagnostic) : bool :=
  match severity d with SevError => true | SevWarning => false end.

(** ** Constants and initializer expressions *)

Inductive Constant : Set :=
| NullValue (ty : LLVM.llvmType)                    (* Constant::getNullValue *)
| ConstantData (ty : LLVM.llvmType) (bits : list Z).

(** The expression classes that [AddGlobalVariable] tells apart with
    [llvm::dyn_cast]; any other expression is opaque here. *)
Inductive Expr : Set :=
| ConstExpr (pos : SourcePos) (value : Constant)
| ExprList (pos : SourcePos) (exprs : list Expr)
| OtherExpr (pos : SourcePos) (id : nat).

Definition expr_pos (e : Expr) : SourcePos :=
  match e with
  | ConstExpr pos _ | ExprList pos _ | OtherExpr pos _ => pos
  end.

Definition dyn_cast_ExprList (e : Expr) : option (list Expr) :=
  match e with ExprList _ exprs => Some exprs | _ => None end.

Definition dyn_cast_ConstExpr (e : Expr) : option Expr :=
  match e with ConstExpr _ _ => Some e | _ => None end.

(** ** Source-language types *)

Inductive StorageClass : Set :=
| SC_NONE | SC_EXTERN | SC_STATIC | SC_TYPEDEF | SC_EXTERN_C.

#[global] Instance StorageClass_eq_dec : EqDecision StorageClass.
Proof. solve_decision. Defined.

Inductive Variability : Set := Unbound | Uniform | Varying | SOA.

#[global] Instance Variability_eq_dec : EqDecision Variability.
Proof. solve_decision. Defined.

Inductive BasicType : Set :=
| TYPE_VOID | TYPE_BOOL | TYPE_INT8 | TYPE_UINT8 | TYPE_INT16 | TYPE_UINT16
| TYPE_INT32 | TYPE_UINT32 | TYPE_FLOAT | TYPE_INT64 | TYPE_UINT64 | TYPE_DOUBLE.

#[global] Instance BasicType_eq_dec : EqDecision BasicType.
Proof. solve_decision. Defined.

(** Modelled from the spec: the type classes of type.h, which is not among
    the sources: the closed set {Atomic, Pointer, Reference,
    Sequence (Array/Vector), Struct, Enum, Function, Undefined} of §9, each
    with the attributes module.cpp reads.  The element types of a struct
    are the resolved ones returned by [GetElementType].  A function type
    holds its parameter types, names, default values and positions
    (§3, Function Type) and the qualifiers. *)
Inductive ispcType : Set :=
| AtomicType (basicType : BasicType) (variability : Variability) (isConst : bool)
| EnumType (name : string) (variability : Variability) (isConst : bool)
| PointerType (baseType : ispcType) (variability : Variability) (isConst isSlice : bool)
| ReferenceType (targetType : ispcType)
| ArrayType (child : ispcType) (numElements : nat)
| VectorType (base : ispcType) (numElements : nat)
| StructType (name : string) (elementTypes : list ispcType)
             (variability : Variability) (isConst : bool)
| UndefinedStructType (name : string) (variability : Variability) (isConst : bool)
| FunctionTy (returnType : ispcType) (paramTypes : list ispcType)
             (paramNames : list string) (paramDefaults : list (option Expr))
             (paramPositions : list SourcePos)
             (isTask isExported isExternC : bool).

Module Ty.

(** Modelled from the spec: [Type::GetVariability] (type.cpp): a sequence
    or a reference varies as its element or target does, a function is
    uniform, every other type carries its own variability. *)
Fixpoint GetVariability (t : ispcType) : Variability :=
  match t with
  | AtomicType _ v _ | EnumType _ v _ | PointerType _ v _ _
  | StructType _ _ v _ | UndefinedStructType _ v _ => v
  | ReferenceType target => GetVariability target
  | ArrayType child _ => GetVariability child
  | VectorType base _ => GetVariability base
  | FunctionTy _ _ _ _ _ _ _ _ => Uniform
  end.

Definition IsVaryingType (t : ispcType) : bool :=
  bool_decide (GetVariability t = Varying).

Definition IsUniformType (t : ispcType) : bool :=
  bool_decide (GetVariability t = Uniform).

(** Modelled from the spec: [Type::IsVoidType] (type.cpp). *)
Definition IsVoidType (t : ispcType) : bool :=
  match t with AtomicType TYPE_VOID _ _ => true | _ => false end.

(** Modelled from the spec: [Type::IsConstType] (type.cpp). *)
Fixpoint IsConstType (t : ispcType) : bool :=
  match t with
  | AtomicType _ _ c | EnumType _ _ c | PointerType _ _ c _
  | StructType _ _ _ c | UndefinedStructType _ _ c => c
  | ReferenceType target => IsConstType target
  | ArrayType child _ => IsConstType child
  | VectorType base _ => IsConstType base
  | FunctionTy _ _ _ _ _ _ _ _ => false
  end.

(** Modelled from the spec: [Type::GetBaseType] (type.cpp): the pointee
    of a pointer, the element type under all array dimensions, the
    element of a vector, the base of the target of a reference; any
    other type is its own base. *)
Fixpoint GetBaseType (t : ispcType) : ispcType :=
  match t with
  | PointerType base _ _ _ => base
  | ReferenceType target => GetBaseType target
  | ArrayType child _ =>
      match child with
      | ArrayType _ _ => GetBaseType child
      | _ => child
      end
  | VectorType base _ => base
  | _ => t
  end.

(** Modelled from the spec: [ArrayType::TotalElementCount] (type.cpp):
    the product of the dimensions; an unsized dimension counts 0. *)
Fixpoint TotalElementCount (child : ispcType) (numElements : nat) : nat :=
  match child with
  | ArrayType child' n' => numElements * TotalElementCount child' n'
  | _ => numElements
  end.

(** Modelled from the spec: [Type::Equal] (type.cpp): equality of the
    two types, which for function types compares the return type, the
    qualifiers and the parameter types and count, and "ignores parameter
    names and defaults".  (The return type takes part: module.cpp first
    tests [Type::Equal] on two function types and only then reports
    overloads that differ in the return type alone.) *)
Fixpoint Equal (a b : ispcType) {struct a} : bool :=
  let fix EqualAll (l1 l2 : list ispcType) {struct l1} : bool :=
    match l1, l2 with
    | [], [] => true
    | x :: l1', y :: l2' => Equal x y && EqualAll l1' l2'
    | _, _ => false
    end in
  match a, b with
  | AtomicType b1 v1 c1, AtomicType b2 v2 c2 =>
      bool_decide (b1 = b2) && bool_decide (v1 = v2) && Bool.eqb c1 c2
  | EnumType n1 v1 c1, EnumType n2 v2 c2 =>
      String.eqb n1 n2 && bool_decide (v1 = v2) && Bool.eqb c1 c2
  | PointerType t1 v1 c1 s1, PointerType t2 v2 c2 s2 =>
      Equal t1 t2 && bool_decide (v1 = v2) && Bool.eqb c1 c2 && Bool.eqb s1 s2
  | ReferenceType t1, ReferenceType t2 => Equal t1 t2
  | ArrayType t1 n1, ArrayType t2 n2 => Equal t1 t2 && Nat.eqb n1 n2
  | VectorType t1 n1, VectorType t2 n2 => Equal t1 t2 && Nat.eqb n1 n2
  | StructType n1 es1 v1 c1, StructType n2 es2 v2 c2 =>
      String.eqb n1 n2 && EqualAll es1 es2 && bool_decide (v1 = v2) && Bool.eqb c1 c2
  | UndefinedStructType n1 v1 c1, UndefinedStructType n2 v2 c2 =>
      String.eqb n1 n2 && bool_decide (v1 = v2) && Bool.eqb c1 c2
  | FunctionTy r1 ps1 _ _ _ t1 e1 x1, FunctionTy r2 ps2 _ _ _ t2 e2 x2 =>
      Equal r1 r2 && Bool.eqb t1 t2 && Bool.eqb e1 e2 && Bool.eqb x1 x2
      && EqualAll ps1 ps2
  | _, _ => false
  end.

(** Pairwise [Equal] on two lists of the same length. *)
Fixpoint EqualAll (l1 l2 : list ispcType) : bool :=
  match l1, l2 with
  | [], [] => true
  | x :: l1', y :: l2' => Equal x y && EqualAll l1' l2'
  | _, _ => false
  end.

End Ty.

(** [const FunctionType *]: a function type given by its parts. *)
Record FunctionType : Set :=
  { returnType : ispcType;
    paramTypes : list ispcType;
    paramNames : list string;
    paramDefaults : list (option Expr);
    paramPositions : list SourcePos;
    isTask : bool;
    isExported : bool;
    isExternC : bool }.

Definition funType (ft : FunctionType) : ispcType :=
  FunctionTy (returnType ft) (paramTypes ft) (paramNames ft) (paramDefaults ft)
             (paramPositions ft) (isTask ft) (isExported ft) (isExternC ft).

Module CastType.

Definition toFunctionType (t : ispcType) : option FunctionType :=
  match t with
  | FunctionTy r ps ns ds pp t e x =>
      Some {| returnType := r; paramTypes := ps; paramNames := ns;
              paramDefaults := ds; paramPositions := pp;
              isTask := t; isExported := e; isExternC := x |}
  | _ => None
  end.

Definition isStructType (t : ispcType) : bool :=
  match t with StructType _ _ _ _ => true | _ => false end.

Definition isVectorType (t : ispcType) : bool :=
  match t with VectorType _ _ => true | _ => false end.

Definition isPointerType (t : ispcType) : bool :=
  match t with PointerType _ _ _ _ => true | _ => false end.

Definition isArrayType (t : ispcType) : bool :=
  match t with ArrayType _ _ => true | _ => false end.

Definition isReferenceType (t : ispcType) : bool :=
  match t with ReferenceType _ => true | _ => false end.

End CastType.

Definition GetNumParameters (ft : FunctionType) : nat := length (paramTypes ft).


(** ** Symbols, the symbol table and the module under construction *)

Inductive LinkageTypes : Set := ExternalLinkage | InternalLinkage.

#[global] Instance LinkageTypes_eq_dec : EqDecision LinkageTypes.
Proof. solve_decision. Defined.

(** An [llvm::GlobalVariable]: [gv_initializer] is [None] for a
    declaration ([hasInitializer()] is false). *)
Record GlobalVariable : Set :=
  { gv_name : string;
    gv_valueType : LLVM.llvmType;
    gv_isConstant : bool;
    gv_linkage : LinkageTypes;
    gv_initializer : option Constant }.

Definition hasInitializer (gv : GlobalVariable) : bool :=
  match gv_initializer gv with Some _ => true | None => false end.

(** [gv->getType()]: a global has the type "pointer to its value type". *)
Definition gv_getType (gv : GlobalVariable) : LLVM.llvmType :=
  LLVM.PointerTy (gv_valueType gv) 0.

Definition setInitializer (init : option Constant) (gv : GlobalVariable) : GlobalVariable :=
  {| gv_name := gv_name gv; gv_valueType := gv_valueType gv;
     gv_isConstant := gv_isConstant gv; gv_linkage := gv_linkage gv;
     gv_initializer := init |}.

(** The global variables of an [llvm::Module], in module order. *)
Abbreviation llvmModule := (list GlobalVariable).

(** [Module::getNamedValue(name)] for a global variable. *)
Definition getNamedGlobal (M : llvmModule) (name : string) : option GlobalVariable :=
  List.find (fun gv => String.eqb (gv_name gv) name) M.

(** [Module::getGlobalVariable(name)]: globals with local linkage are not
    returned. *)
Definition getGlobalVariable (M : llvmModule) (name : string) : option GlobalVariable :=
  match getNamedGlobal M name with
  | Some gv => if bool_decide (gv_linkage gv = InternalLinkage) then None else Some gv
  | None => None
  end.

(** A [Symbol]; [sym_storagePtr] points into the module's globals and is
    represented by the name of the global it points to. *)
Record Symbol : Set :=
  { sym_name : string;
    sym_pos : SourcePos;
    sym_type : ispcType;
    sym_storageClass : StorageClass;
    sym_constValue : option Expr;
    sym_storagePtr : option string }.

(** Modelled from the spec: the symbol table (sym.cpp is not among the
    sources) at global scope: one Symbol per variable name, and for each
    function name its overload set in declaration order. *)
Record SymbolTable : Type :=
  { variables : gmap string Symbol;
    functions : gmap string (list Symbol) }.

Module SymTab.

Definition empty : SymbolTable := {| variables := ∅; functions := ∅ |}.

Definition LookupVariable (st : SymbolTable) (name : string) : option Symbol :=
  variables st !! name.

(** [LookupFunction(name, &funcs)]: all overloads of the name. *)
Definition LookupFunctions (st : SymbolTable) (name : string) : list Symbol :=
  default [] (functions st !! name).

(** [LookupFunction(name)]: is there a function of this name? *)
Definition LookupFunction (st : SymbolTable) (name : string) : bool :=
  match LookupFunctions st name with [] => false | _ :: _ => true end.

(** [AddVariable] when the name is not yet bound, and the write-back of
    a Symbol updated through its pointer. *)
Definition SetVariable (sym : Symbol) (st : SymbolTable) : SymbolTable :=
  {| variables := <[sym_name sym := sym]> (variables st);
     functions := functions st |}.

(** [AddFunction]: false ([None]) when an overload of the same name and
    [Equal] type is already present. *)
Definition AddFunction (sym : Symbol) (st : SymbolTable) : option SymbolTable :=
  let overloads := LookupFunctions st (sym_name sym) in
  if List.existsb (fun s => Ty.Equal (sym_type s) (sym_type sym)) overloads then None
  else Some {| variables := variables st;
               functions := <[sym_name sym := overloads ++ [sym]]> (functions st) |}.

End SymTab.

(** The state of a [Module] that declarations read and write: the error
    counter, the diagnostics printed so far, the symbol table and the
    global variables of the [llvm::Module]. *)
Record IspcModule : Type :=
  { errorCount : nat;
    diagnostics : list Diagnostic;
    symbolTable : SymbolTable;
    module : llvmModule }.

Definition newModule : IspcModule :=
  {| errorCount := 0; diagnostics := []; symbolTable := SymTab.empty; module := [] |}.

(** Modelled from the spec: [Error] (util.cpp): prints the message and
    "increments a per-build error counter". *)
Definition Error (pos : SourcePos) (msg : Message) (m : IspcModule) : IspcModule :=
  {| errorCount := S (errorCount m);
     diagnostics := diagnostics m ++ [{| severity := SevError; diag_pos := pos; message := msg |}];
     symbolTable := symbolTable m;
     module := module m |}.

(** Modelled from the spec: [Warning] (util.cpp): "non-fatal, advisory";
    the error counter is untouched. *)
Definition Warning (pos : SourcePos) (msg : Message) (m : IspcModule) : IspcModule :=
  {| errorCount := errorCount m;
     diagnostics := diagnostics m ++ [{| severity := SevWarning; diag_pos := pos; message := msg |}];
     symbolTable := symbolTable m;
     module := module m |}.

(** The diagnostics a collaborator printed while it ran. *)
Definition report (ds : list Diagnostic) (m : IspcModule) : IspcModule :=
  {| errorCount := errorCount m + length (filter (fun d => isError d = true) ds);
     diagnostics := diagnostics m ++ ds;
     symbolTable := symbolTable m;
     module := module m |}.

Definition warnings (m : IspcModule) : list Diagnostic :=
  filter (fun d => isError d = false) (diagnostics m).

(** The collaborators of the declaration validator that live outside
    module.cpp (§6): type lowering, array sizing, and type checking,
    conversion, folding and constant evaluation of initializers.  A NULL
    result is [None]; the diagnostics a collaborator prints come with its
    result. *)
Class Collaborators : Type :=
  { LLVMType : ispcType -> option LLVM.llvmType;
    SizeUnsizedArrays : ispcType -> option Expr -> option ispcType;
    TypeCheck : Expr -> option Expr * list Diagnostic;
    TypeConvertExpr : Expr -> ispcType -> option Expr * list Diagnostic;
    OptimizeExpr : Expr -> Expr;
    GetConstant : Expr -> ispcType -> option Constant;
    LLVMFunctionType : FunctionType -> bool -> option LLVM.llvmType }.

(** ** Module::AddGlobalVariable *)

Section AddGlobalVariable.
Context `{Collaborators}.

Definition isExternClass (sc : StorageClass) : bool :=
  bool_decide (sc = SC_EXTERN) || bool_decide (sc = SC_EXTERN_C).

(** module.cpp:316-362: the initializer of the global.  The result is
    the module (with the diagnostics printed on the way),
    [llvmInitializer] and [constValue]. *)
Definition lGlobalInitializer (m : IspcModule) (name : string) (type : ispcType)
    (llvmType : LLVM.llvmType) (initExpr : option Expr)
    (storageClass : StorageClass) (pos : SourcePos)
  : IspcModule * option Constant * option Expr :=
  if isExternClass storageClass then
    match initExpr with
    | Some _ => (Error pos (ExternInitializerError name) m, None, None)
    | None => (m, None, None)
    end
  else
    let '(m, llvmInitializer, constValue) :=
      match initExpr with
      | None => (m, None, None)
      | Some initExpr =>
          let '(checked, ds) := TypeCheck initExpr in
          let m := report ds m in
          match checked with
          | None => (m, None, None)
          | Some initExpr =>
              let '(converted, m) :=
                match dyn_cast_ExprList initExpr with
                | Some _ => (Some initExpr, m)
                | None =>
                    let '(converted, ds) := TypeConvertExpr initExpr type in
                    (converted, report ds m)
                end in
              match converted with
              | None => (m, None, None)
              | Some initExpr =>
                  let initExpr := OptimizeExpr initExpr in
                  match GetConstant initExpr type with
                  | Some c =>
                      (m, Some c,
                       if Ty.IsConstType type then dyn_cast_ConstExpr initExpr else None)
                  | None =>
                      (Error (expr_pos initExpr) (NonConstantInitializerError name) m,
                       None, None)
                  end
              end
          end
      end in
    (* no initializer, or no value for it: initialize with zeros *)
    match llvmInitializer with
    | Some c => (m, Some c, constValue)
    | None => (m, Some (NullValue llvmType), constValue)
    end.

(** module.cpp:400-416: record the constant value, create the new
    [llvm::GlobalVariable] under the Symbol's name and, when an earlier
    global exists, remove it in favour of the new one. *)
Definition lDefineGlobal (m : IspcModule) (sym : Symbol) (oldGV : option GlobalVariable)
    (llvmType : LLVM.llvmType) (isConst : bool)
    (llvmInitializer : option Constant) (constValue : option Expr) : IspcModule :=
  let linkage :=
    if bool_decide (sym_storageClass sym = SC_STATIC)
    then InternalLinkage else ExternalLinkage in
  let gv := {| gv_name := sym_name sym; gv_valueType := llvmType;
               gv_isConstant := isConst; gv_linkage := linkage;
               gv_initializer := llvmInitializer |} in
  let sym := {| sym_name := sym_name sym; sym_pos := sym_pos sym;
                sym_type := sym_type sym;
                sym_storageClass := sym_storageClass sym;
                sym_constValue := constValue;
                sym_storagePtr := Some (gv_name gv) |} in
  let globals :=
    match oldGV with
    | Some old =>
        filter (fun g => gv_name g <> gv_name old) (module m) ++ [gv]
    | None => module m ++ [gv]
    end in
  {| errorCount := errorCount m;
     diagnostics := diagnostics m;
     symbolTable := SymTab.SetVariable sym (symbolTable m);
     module := globals |}.

(** module.cpp:364-416: bind the declaration to the Symbol of an
    earlier declaration of the name, or to a new Symbol, and emit the
    global. *)
Definition lResolveGlobal (m : IspcModule) (name : string) (type : ispcType)
    (llvmType : LLVM.llvmType) (isConst : bool) (storageClass : StorageClass)
    (pos : SourcePos) (llvmInitializer : option Constant)
    (constValue : option Expr) : Outcome IspcModule :=
  match SymTab.LookupVariable (symbolTable m) name with
  | Some sym =>
      (* a declaration or a definition of this global has been seen *)
      if negb (Ty.Equal (sym_type sym) type)
         || (negb (isExternClass (sym_storageClass sym))
             && negb (bool_decide (sym_storageClass sym = storageClass)))
      then Returned (Error pos (ConflictingDeclarationError name (sym_pos sym)) m)
      else
        match sym_storagePtr sym ≫= getNamedGlobal (module m) with
        | None => AssertionFailed
        | Some gv =>
            if hasInitializer gv && negb (isExternClass (sym_storageClass sym))
            then Returned (Error pos (RedefinitionError (sym_name sym) (sym_pos sym)) m)
            else Returned (lDefineGlobal m sym (Some gv) llvmType isConst
                                         llvmInitializer constValue)
        end
  | None =>
      let sym := {| sym_name := name; sym_pos := pos; sym_type := type;
                    sym_storageClass := storageClass;
                    sym_constValue := None; sym_storagePtr := None |} in
      Returned (lDefineGlobal m sym None llvmType isConst llvmInitializer constValue)
  end.

(** Is the type an array without elements (an unsized dimension that
    no initializer has sized)? *)
Definition isUnsizedArray (type : ispcType) : bool :=
  match type with
  | ArrayType child n => Nat.eqb (Ty.TotalElementCount child n) 0
  | _ => false
  end.

(** [Module::AddGlobalVariable], module.cpp:270-432 (the debug-info
    part, which changes none of the modelled state, is left out). *)
Definition AddGlobalVariable (m : IspcModule) (name : string) (type : option ispcType)
    (initExpr : option Expr) (isConst : bool) (storageClass : StorageClass)
    (pos : SourcePos) : Outcome IspcModule :=
  match type with
  | None => if Nat.ltb 0 (errorCount m) then Returned m else AssertionFailed
  | Some type =>
  if String.eqb name "" then
    if Nat.ltb 0 (errorCount m) then Returned m else AssertionFailed
  else if SymTab.LookupFunction (symbolTable m) name then
    Returned (Error pos (VariableShadowsFunction name) m)
  else if bool_decide (storageClass = SC_EXTERN_C) then
    Returned (Error pos ExternCVariable m)
  else if Ty.IsVoidType type then
    Returned (Error pos VoidVariable m)
  else
  match SizeUnsizedArrays type initExpr with
  | None => Returned m
  | Some type =>
  if isUnsizedArray type then Returned (Error pos UnsizedArrayError m)
  else
  match LLVMType type with
  | None => Returned m
  | Some llvmType =>
  let '(m, llvmInitializer, constValue) :=
    lGlobalInitializer m name type llvmType initExpr storageClass pos in
  lResolveGlobal m name type llvmType isConst storageClass pos
                 llvmInitializer constValue
  end
  end
  end.

(** The declarations that pass the checks of module.cpp:274-312. *)
Record wellFormedGlobal (m : IspcModule) (name : string) (type : ispcType)
    (initExpr : option Expr) (storageClass : StorageClass)
    (sized : ispcType) (llvmType : LLVM.llvmType) : Prop :=
  { wf_name : name <> "";
    wf_no_function : SymTab.LookupFunction (symbolTable m) name = false;
    wf_storage : storageClass <> SC_EXTERN_C;
    wf_not_void : Ty.IsVoidType type = false;
    wf_sized : SizeUnsizedArrays type initExpr = Some sized;
    wf_elements : isUnsizedArray sized = false;
    wf_llvm : LLVMType sized = Some llvmType }.

(** The state after the first declaration of a global: the Symbol and
    the emitted global. *)
Definition declared (m : IspcModule) (name : string) (type : ispcType)
    (llvmType : LLVM.llvmType) (isConst : bool) (storageClass : StorageClass)
    (pos : SourcePos) (init : option Constant) (m' : IspcModule) : Prop :=
  errorCount m' = errorCount m
  /\ diagnostics m' = diagnostics m
  /\ functions (symbolTable m') = functions (symbolTable m)
  /\ SymTab.LookupVariable (symbolTable m') name
     = Some {| sym_name := name; sym_pos := pos; sym_type := type;
               sym_storageClass := storageClass; sym_constValue := None;
               sym_storagePtr := Some name |}
  /\ module m'
     = module m ++ [{| gv_name := name; gv_valueType := llvmType;
                       gv_isConstant := isConst; gv_linkage := ExternalLinkage;
                       gv_initializer := init |}].

End AddGlobalVariable.


(** ** Export legality *)

(** [lRecursiveCheckValidParamType], module.cpp:445-478: true when the
    type is legal in the signature of an exported function. *)
Fixpoint lRecursiveCheckValidParamType (t : ispcType) (vectorOk : bool) {struct t} : bool :=
  match t with
  | StructType _ elementTypes _ _ =>
      (fix elements (es : list ispcType) : bool :=
         match es with
         | [] => true
         | e :: es' =>
             if negb (lRecursiveCheckValidParamType e vectorOk) then false
             else elements es'
         end) elementTypes
  | VectorType base _ =>
      (* vector types are not supported; pointers to them are *)
      if negb vectorOk then false
      else lRecursiveCheckValidParamType base vectorOk
  | ArrayType child _ => lRecursiveCheckValidParamType child vectorOk
  | PointerType baseType _ _ _ =>
      (* only uniform pointers; uniform pointers to varying data are ok *)
      if Ty.IsVaryingType t then false
      else lRecursiveCheckValidParamType baseType true
  | _ =>
      if Ty.IsVaryingType t && negb vectorOk then false else true
  end.

(** The types that reach the last test of the function. *)
Definition isLeafType (t : ispcType) : bool :=
  negb (CastType.isStructType t) && negb (CastType.isVectorType t)
  && negb (CastType.isArrayType t) && negb (CastType.isPointerType t).

(** [lCheckExportedParameterTypes], module.cpp:485-505. *)
Definition lCheckExportedParameterTypes (type : ispcType) (name : string)
    (pos : SourcePos) (m : IspcModule) : IspcModule :=
  if negb (lRecursiveCheckValidParamType type false) then
    let m := if CastType.isPointerType type
             then Error pos (VaryingPointerParameter name) m else m in
    if CastType.isStructType (Ty.GetBaseType type)
    then Error pos (StructVectorMemberParameter name) m
    else if CastType.isVectorType type
    then Error pos (VectorParameter name) m
    else Error pos (VaryingParameter name) m
  else m.

(** [lCheckForStructParameters], module.cpp:511-521: one error for the
    first struct-typed parameter. *)
Definition lCheckForStructParameters (ftype : FunctionType) (pos : SourcePos)
    (m : IspcModule) : IspcModule :=
  if List.existsb CastType.isStructType (paramTypes ftype)
  then Error pos StructByValueError m
  else m.

(** ** Module::AddFunctionDeclaration *)

Section AddFunctionDeclaration.
Context `{Collaborators}.

(** How the scan of the overload set ends: by a [return] of the whole
    function, by an assertion, or by falling out of the loop. *)
Inductive ScanResult : Type :=
| ScanReturn (m : IspcModule)
| ScanAssert
| ScanDone (m : IspcModule).

(** The inner loop of module.cpp:573-579: have all parameters of the two
    functions [Equal] types? *)
Definition sameParameterTypes (ofType functionType : FunctionType) : bool :=
  Nat.eqb (GetNumParameters ofType) (GetNumParameters functionType)
  && Ty.EqualAll (paramTypes ofType) (paramTypes functionType).

(** The loop over [overloadFuncs], module.cpp:546-591. *)
Fixpoint lScanOverloads (m : IspcModule) (functionType : FunctionType)
    (pos : SourcePos) (overloadFuncs : list Symbol) : ScanResult :=
  match overloadFuncs with
  | [] => ScanDone m
  | overloadFunc :: rest =>
      match CastType.toFunctionType (sym_type overloadFunc) with
      | None =>
          if Nat.eqb (errorCount m) 0
          then lScanOverloads m functionType pos rest
          else ScanAssert
      | Some overloadType =>
          (* a redeclaration of a function with the same name and type *)
          if Ty.Equal (sym_type overloadFunc) (funType functionType)
          then ScanReturn m
          else
            let m :=
              if isExported functionType || isExported overloadType
              then Error pos (ExportOverloadError (sym_pos overloadFunc)) m
              else m in
            (* all parameter types match but the types differ:
               overloading by return type is not allowed *)
            if sameParameterTypes overloadType functionType
            then ScanReturn (Error pos (ReturnOverloadError (sym_pos overloadFunc)) m)
            else lScanOverloads m functionType pos rest
      end
  end.

(** An overload that the scan passes without a word on its way to a later
    one: another type, other parameter types, no [export] involved. *)
Definition passedSilently (functionType : FunctionType) (o : Symbol) : Prop :=
  exists ot, sym_type o = funType ot
             /\ Ty.Equal (funType ot) (funType functionType) = false
             /\ isExported functionType || isExported ot = false
             /\ sameParameterTypes ot functionType = false.

(** An overload with other parameter types; the scan goes on after it,
    with an export-qualifier error when [export] is involved. *)
Definition otherParameters (functionType : FunctionType) (o : Symbol) : Prop :=
  exists ot, sym_type o = funType ot
             /\ Ty.Equal (funType ot) (funType functionType) = false
             /\ sameParameterTypes ot functionType = false.

(** The export-qualifier errors that the scan reports, at [pos], for the
    overloads that it passes: one for each overload when the new function
    is exported, one for each exported overload otherwise. *)
Definition exportOverloadErrors (functionType : FunctionType) (pos : SourcePos)
    (overloadFuncs : list Symbol) : list Diagnostic :=
  flat_map
    (fun overloadFunc =>
       match CastType.toFunctionType (sym_type overloadFunc) with
       | Some overloadType =>
           if isExported functionType || isExported overloadType
           then [{| severity := SevError; diag_pos := pos;
                    message := ExportOverloadError (sym_pos overloadFunc) |}]
           else []
       | None => []
       end)
    overloadFuncs.

(** The loop over the parameters, module.cpp:694-744, for parameters
    [i], [i+1], ...; the state is the module and [seenDefaultArg]. *)
Fixpoint lCheckParameters (functionType : FunctionType) (m : IspcModule)
    (seenDefaultArg : bool) (i : nat) (argTypes : list ispcType) : IspcModule :=
  match argTypes with
  | [] => m
  | argType :: argTypes' =>
      let argName := default "" (paramNames functionType !! i) in
      let defaultValue := default None (paramDefaults functionType !! i) in
      let argPos := default {| pos_name := ""; first_line := 0 |}
                            (paramPositions functionType !! i) in
      let m := if isExported functionType
               then lCheckExportedParameterTypes argType argName argPos m
               else m in
      let m := if SymTab.LookupFunction (symbolTable m) argName
               then Warning argPos (ParameterShadowsFunction argName) m
               else m in
      match defaultValue with
      | Some _ => lCheckParameters functionType m true (S i) argTypes'
      | None =>
          let m := if seenDefaultArg
                   then Error argPos (DefaultOrderError argName) m
                   else m in
          lCheckParameters functionType m seenDefaultArg (S i) argTypes'
      end
  end.

(** [Module::AddFunctionDeclaration], module.cpp:529-761.  The
    [llvm::Function] that is created, its attributes and its mangled
    name change neither the diagnostics nor the symbol table and are
    left out. *)
Definition AddFunctionDeclaration (m : IspcModule) (name : string)
    (functionType : FunctionType) (storageClass : StorageClass)
    (isInline isNoInline : bool) (pos : SourcePos) : Outcome IspcModule :=
  match SymTab.LookupVariable (symbolTable m) name with
  | Some _ => Returned (Error pos (FunctionShadowsVariable name) m)
  | None =>
  match lScanOverloads m functionType pos (SymTab.LookupFunctions (symbolTable m) name) with
  | ScanReturn m => Returned m
  | ScanAssert => AssertionFailed
  | ScanDone m =>
  let externC := bool_decide (storageClass = SC_EXTERN_C) in
  if externC && isTask functionType then
    Returned (Error pos (TaskLinkageError name) m)
  else
  match (if externC then SymTab.LookupFunctions (symbolTable m) name else []) with
  | _ :: _ :: _ => Returned (Error pos (ForeignLinkageOverloadError name) m)
  | [f] =>
      if Ty.Equal (sym_type f) (funType functionType) then Returned m
      else Returned (Error pos (ForeignLinkageOverloadError name) m)
  | [] =>
  match LLVMFunctionType functionType externC with
  | None => Returned m
  | Some _ =>
  if isNoInline && isInline then
    Returned (Error pos (QualifierConflictError name) m)
  else
  (* the return type of an exported function is neither varying nor a vector *)
  let m := if isExported functionType
              && negb (lRecursiveCheckValidParamType (returnType functionType) false)
           then Error pos (ExportReturnTypeError name) m else m in
  let m := if isTask functionType && negb (Ty.IsVoidType (returnType functionType))
           then Error pos TaskReturnTypeError m else m in
  let m := if isExported functionType || isExternC functionType
           then lCheckForStructParameters functionType pos m else m in
  let m := lCheckParameters functionType m false 0 (paramTypes functionType) in
  (* finally, add the function to the symbol table *)
  let funSym := {| sym_name := name; sym_pos := pos;
                   sym_type := funType functionType;
                   sym_storageClass := storageClass;
                   sym_constValue := None; sym_storagePtr := None |} in
  match SymTab.AddFunction funSym (symbolTable m) with
  | None => AssertionFailed
  | Some st =>
      Returned {| errorCount := errorCount m; diagnostics := diagnostics m;
                  symbolTable := st; module := module m |}
  end
  end
  end
  end
  end.

End AddFunctionDeclaration.


(** ** Dispatch synthesis *)

Module Dispatch.

(** [FunctionTargetVariants]: the [func] array, indexed by the
    [Target::ISA] enumerant; a variant is represented by the name of the
    compiled function, an absent one ([NULL]) by [None].  ([Target::NUM_ISAS]
    is declared in ispc.h, which is not among the sources; it is the
    length of the array.) *)
Abbreviation FunctionTargetVariants := (list (option string)).

Inductive Instruction : Set :=
| CallSetISA                  (* call void @__set_system_isa() *)
| LoadSystemISA               (* %system_isa = load i32, i32* @__system_best_isa *)
| ICmpSGE (candidate : Z)     (* %isa_ok = icmp sge i32 %system_isa, candidate *)
| CallTarget (f : string)     (* [%ret_value =] call @f(args...) *)
| CallAbort.                  (* call void @abort() *)

Inductive ReturnedValue : Set := RetVoid | RetValue | RetUndef.

(** The basic blocks of the dispatch function.  Every block that
    [lCreateDispatchFunction] creates is the target of exactly one
    branch, so the control-flow graph is a tree: a block ends either in
    [br i1 %isa_ok, label %do_call, label %next_try] or in [ret]. *)
Inductive BasicBlock : Set :=
| Br (insts : list Instruction) (callBBlock nextBBlock : BasicBlock)
| Ret (insts : list Instruction) (value : ReturnedValue).

(** The loop of module.cpp:2181-2223 for the candidates [i-1], ..., [0];
    [bblock] holds the instructions already emitted into the current
    block. *)
Fixpoint lEmitCandidates (targetFuncs : list (option string)) (voidReturn : bool)
    (i : nat) (bblock : list Instruction) : BasicBlock :=
  match i with
  | 0 =>
      (* no match: call abort(); the block still needs a terminator *)
      Ret (bblock ++ [CallAbort]) (if voidReturn then RetVoid else RetUndef)
  | S i' =>
      match targetFuncs !! i' with
      | Some (Some f) =>
          Br (bblock ++ [ICmpSGE (Z.of_nat i')])
             (Ret [CallTarget f] (if voidReturn then RetVoid else RetValue))
             (lEmitCandidates targetFuncs voidReturn i' [])
      | _ => lEmitCandidates targetFuncs voidReturn i' bblock
      end
  end.

(** [lGetVaryingDispatchType], module.cpp:2074-2116.  The loop visits the
    levels from 0 upwards and leaves in [resultFuncTy] the type of the last
    variant present, here represented by that variant; the rewriting of
    the parameter types that point to varying data is left out.  With no
    variant at all, [Assert(resultFuncTy)] fails. *)
Definition lGetVaryingDispatchType (NUM_ISAS : nat) (funcs : FunctionTargetVariants)
  : Outcome string :=
  let resultFuncTy :=
    foldl (fun resultFuncTy i =>
             match funcs !! i with
             | Some (Some f) => Some f
             | _ => resultFuncTy
             end)
          None (seq 0 NUM_ISAS) in
  match resultFuncTy with
  | Some ft => Returned ft
  | None => AssertionFailed
  end.

(** [lCreateDispatchFunction], module.cpp:2135-2243: the entry block of
    the dispatch function for the given variants.  [abortFunc] tells
    whether [module->getFunction("abort")] finds the function, and
    [voidReturn] whether the return type of [ftype] is void.  The argument
    forwarding and its pointer casts are left out. *)
Definition lCreateDispatchFunction (NUM_ISAS : nat) (abortFunc : bool)
    (funcs : FunctionTargetVariants) (voidReturn : bool) : Outcome BasicBlock :=
  match lGetVaryingDispatchType NUM_ISAS funcs with
  | AssertionFailed => AssertionFailed
  | Returned ftype =>
      let targetFuncs := funcs in
      (* Assert(abortFunc) *)
      if abortFunc then
        Returned (lEmitCandidates targetFuncs voidReturn NUM_ISAS
                    [CallSetISA; LoadSystemISA])
      else AssertionFailed
  end.

(** Some level below [NUM_ISAS] has a variant. *)
Definition hasVariant (NUM_ISAS : nat) (funcs : FunctionTargetVariants) : Prop :=
  exists j f, (j < NUM_ISAS)%nat /\ funcs !! j = Some (Some f).

(** *** Execution of a dispatch function *)

(** The registers [%system_isa] and [%isa_ok] and the target functions
    called so far. *)
Record Machine : Set :=
  { system_isa : Z; isa_ok : bool; calls : list string }.

Inductive Run : Set :=
| Finished (calls : list string)    (* reached a [ret] *)
| Aborted (calls : list string).    (* [abort()] does not return *)

(** One instruction; [detected] is the value that [__set_system_isa]
    leaves in [__system_best_isa].  [None]: the process was aborted. *)
Definition execInstruction (detected : Z) (mc : Machine) (i : Instruction)
  : option Machine :=
  match i with
  | CallSetISA => Some mc
  | LoadSystemISA =>
      Some {| system_isa := detected; isa_ok := isa_ok mc; calls := calls mc |}
  | ICmpSGE candidate =>
      Some {| system_isa := system_isa mc;
              isa_ok := Z.geb (system_isa mc) candidate;
              calls := calls mc |}
  | CallTarget f =>
      Some {| system_isa := system_isa mc; isa_ok := isa_ok mc;
              calls := calls mc ++ [f] |}
  | CallAbort => None
  end.

Fixpoint execInstructions (detected : Z) (mc : Machine) (insts : list Instruction)
  : Machine + list string :=
  match insts with
  | [] => inl mc
  | i :: insts' =>
      match execInstruction detected mc i with
      | Some mc' => execInstructions detected mc' insts'
      | None => inr (calls mc)
      end
  end.

Fixpoint execBlock (detected : Z) (mc : Machine) (b : BasicBlock) : Run :=
  match b with
  | Br insts callBBlock nextBBlock =>
      match execInstructions detected mc insts with
      | inl mc' =>
          if isa_ok mc' then execBlock detected mc' callBBlock
          else execBlock detected mc' nextBBlock
      | inr cs => Aborted cs
      end
  | Ret insts _ =>
      match execInstructions detected mc insts with
      | inl mc' => Finished (calls mc')
      | inr cs => Aborted cs
      end
  end.

(** A call of the dispatch function on a system whose best supported
    ISA is [detected]. *)
Definition run (detected : Z) (entry : BasicBlock) : Run :=
  execBlock detected {| system_isa := 0; isa_ok := false; calls := [] |} entry.

(** The candidate levels compared against, in the order in which the
    fall-through path tests them. *)
Fixpoint candidates (b : BasicBlock) : list Z :=
  match b with
  | Br insts _ nextBBlock =>
      omap (fun i => match i with ICmpSGE c => Some c | _ => None end) insts
      ++ candidates nextBBlock
  | Ret _ _ => []
  end.

(** The state in which the comparisons run: [%system_isa] holds the
    detected level. *)
Definition loaded (detected : Z) (mc : Machine) (bblock : list Instruction)
    (mc' : Machine) : Prop :=
  execInstructions detected mc bblock = inl mc' /\ system_isa mc' = detected.

(** The levels that the comparisons of a block test against. *)
Definition comparisons (insts : list Instruction) : list Z :=
  omap (fun i => match i with ICmpSGE c => Some c | _ => None end) insts.

End Dispatch.

(** ** Reconciliation of globals across targets *)

(** [lExtractOrCheckGlobals], module.cpp:2326-2368, for the globals of
    [msrc] from the iterator on: the result is the module [m] (with the
    warnings issued), the remaining globals of [msrc] as the loop leaves
    them, and [mdst]. *)
Fixpoint lExtractOrCheckGlobals (m : IspcModule) (msrc mdst : llvmModule) (check : bool)
  : Outcome (IspcModule * llvmModule * llvmModule) :=
  match msrc with
  | [] => Returned (m, [], mdst)
  | gv :: rest =>
      let continue (m : IspcModule) (gv : GlobalVariable) (mdst : llvmModule) :=
        match lExtractOrCheckGlobals m rest mdst check with
        | Returned (m, rest, mdst) => Returned (m, gv :: rest, mdst)
        | AssertionFailed => AssertionFailed
        end in
      (* is it a global definition? *)
      if bool_decide (gv_linkage gv = ExternalLinkage) && hasInitializer gv then
        (* turn it into an 'extern' declaration by clearing its initializer *)
        let init := gv_initializer gv in
        let type := gv_valueType gv in
        match SymTab.LookupVariable (symbolTable m) (gv_name gv) with
        | None => AssertionFailed
        | Some sym =>
            if check then
              (* check presence and compatibility for the current global *)
              match getGlobalVariable mdst (gv_name gv) with
              | None => AssertionFailed
              | Some existing =>
                  let m :=
                    if negb (lCompatibleTypes (gv_getType existing) (gv_getType gv))
                    then Warning (sym_pos sym) (GlobalLayoutMismatch (gv_name gv)) m
                    else m in
                  continue m (setInitializer None gv) mdst
              end
            else
              (* create it anew and make it match the original *)
              let newGlobal :=
                {| gv_name := gv_name gv; gv_valueType := type;
                   gv_isConstant := gv_isConstant gv;
                   gv_linkage := ExternalLinkage; gv_initializer := init |} in
              continue m (setInitializer None gv) (mdst ++ [newGlobal])
        end
      else continue m gv mdst
  end.


(** "Is it a global definition?": external linkage and an initializer. *)
Definition isDefinition (gv : GlobalVariable) : bool :=
  bool_decide (gv_linkage gv = ExternalLinkage) && hasInitializer gv.

(** What the loop leaves of a global of the source module. *)
Definition demote (gv : GlobalVariable) : GlobalVariable :=
  if isDefinition gv then setInitializer None gv else gv.

(** The definition created in the reconciled module. *)
Definition canonical (gv : GlobalVariable) : GlobalVariable :=
  {| gv_name := gv_name gv; gv_valueType := gv_valueType gv;
     gv_isConstant := gv_isConstant gv; gv_linkage := ExternalLinkage;
     gv_initializer := gv_initializer gv |}.

(** The warnings of a checking pass. *)
Definition mismatches (st : SymbolTable) (mdst msrc : llvmModule) : list Diagnostic :=
  flat_map
    (fun gv =>
       if isDefinition gv then
         match SymTab.LookupVariable st (gv_name gv), getGlobalVariable mdst (gv_name gv) with
         | Some sym, Some existing =>
             if negb (lCompatibleTypes (gv_getType existing) (gv_getType gv))
             then [{| severity := SevWarning; diag_pos := sym_pos sym;
                      message := GlobalLayoutMismatch (gv_name gv) |}]
             else []
         | _, _ => []
         end
       else [])
    msrc.


(** ** The multi-target driver *)

(** [lGetExportedFunctions], module.cpp:2064-2072, for the module of the
    target with ISA [isa]: [syms] are the Symbols with an
    [exportedFunction], each given by its name and by the name of that
    function; [functions[name]] default-constructs a record without
    variants.  [isa] is a [Target::ISA] enumerant, hence below [NUM_ISAS];
    the list is left alone for any other index, where the C++ code would
    write outside the array. *)
Definition lGetExportedFunctions (NUM_ISAS : nat) (syms : list (string * string))
    (isa : nat) (functions : gmap string Dispatch.FunctionTargetVariants)
  : gmap string Dispatch.FunctionTargetVariants :=
  foldl (fun functions sym =>
           let ftv := default (replicate NUM_ISAS None) (functions !! sym.1) in
           <[sym.1 := <[isa := Some sym.2]> ftv]> functions)
        functions syms.

(** The calls of [lGetExportedFunctions] in the loop over the targets of
    [CompileAndOutput], module.cpp:2528, one for each compiled unit, given
    by the ISA of its target and its exported Symbols. *)
Definition lCollectExportedFunctions (NUM_ISAS : nat)
    (units : list (nat * list (string * string)))
  : gmap string Dispatch.FunctionTargetVariants :=
  foldl (fun functions unit => lGetExportedFunctions NUM_ISAS unit.2 unit.1 functions)
        ∅ units.

(** The variant recorded for a function at an ISA, [None] for NULL. *)
Definition variant (functions : gmap string Dispatch.FunctionTargetVariants)
    (name : string) (isa : nat) : option string :=
  match functions !! name with
  | Some ftv => default None (ftv !! isa)
  | None => None
  end.


(** Every record of variants has one entry for each ISA. *)
Definition sized (NUM_ISAS : nat) (functions : gmap string Dispatch.FunctionTargetVariants)
  : Prop :=
  forall name ftv, functions !! name = Some ftv -> length ftv = NUM_ISAS.

Module Driver.

Inductive OutputType : Set :=
| Asm | Bitcode | BitcodeText | Object | CXX | Header | Deps | DevStub | HostStub.

#[global] Instance OutputType_eq_dec : EqDecision OutputType.
Proof. solve_decision. Defined.

Record OutputFlags : Set :=
  { GeneratePIC : bool; GenerateMakeRuleForDeps : bool; OutputDepsToStdout : bool }.

(** What the driver observes of a [Target] object. *)
Record Target : Set :=
  { isValid : bool; getISA : nat; GetISAString : string }.

(** What the driver observes of [new Module(srcFile)] followed by
    [CompileFile()]: whether the source could be opened, and the
    module's error and warning counts when [CompileFile] returns. *)
Record Compilation : Set :=
  { sourceOpened : bool; compileErrors : nat; compileWarnings : nat }.

(** The value returned by [Module::CompileFile], module.cpp:201-262:
    1 when the source cannot be opened, the error count otherwise. *)
Definition CompileFile (c : Compilation) : nat :=
  if sourceOpened c then compileErrors c else 1.

(** What the driver observes of [writeOutput]: its result, and the
    errors reported while writing. *)
Record Written : Set := { written : bool; writeErrors : nat }.

(** The collaborators of the driver: target construction, compilation
    of one unit, emission of one output, opening the dispatch header. *)
Class Environment : Type :=
  { newTarget : option string -> option string -> option string -> Target;
    compileUnit : string -> Target -> Compilation;
    writeOutput : Target -> OutputType -> option string -> Written;
    fopenHeader : string -> bool;
    ISAToTargetString : nat -> string }.

(** The result of [CompileAndOutput] and, beside it, two counts taken
    when it returns.  [accumulatedErrors] is the count that the function
    keeps: [m->errorCount] in single-target mode, the local [errorCount]
    in multi-target mode, 0 before any unit has been compiled.
    [reportedErrors] is the number of errors counted in the [errorCount]
    of the Modules that the call has built. *)
Record Exit : Set :=
  { status : nat; accumulatedErrors : nat; reportedErrors : nat }.

(** An exit at which the two counts agree. *)
Definition exit (status errors : nat) : Exit :=
  {| status := status; accumulatedErrors := errors; reportedErrors := errors |}.

(** What the driver observes of the modules in multi-target mode, beside
    the collaborators above: [Target::NUM_ISAS]; the symbol table and the
    globals of [m] when [CompileFile] returns; the Symbols that
    [SymbolTable::GetMatchingFunctions] finds with an [exportedFunction],
    each by its name and by the name of that function; the globals that
    [AddBitcodeToModule] links into a new dispatch module from
    builtins-dispatch; whether [getFunction] finds a function of a given
    name in the dispatch module (the functions of a module are not
    modelled); whether the return type of a compiled function is void;
    whether the file for the dispatch module can be opened; and whether
    [addPassesToEmitFile] fails for the target machine of an ISA and a
    file type. *)
Class Units : Type :=
  { NUM_ISAS : nat;
    unitSymbolTable : string -> Target -> SymbolTable;
    unitGlobals : string -> Target -> llvmModule;
    GetMatchingFunctions : string -> Target -> list (string * string);
    builtinsDispatchGlobals : llvmModule;
    getFunction : string -> bool;
    isVoidTy : string -> bool;
    openOutputFile : string -> bool;
    addPassesToEmitFile : nat -> OutputType -> bool }.

(** [lExtractTargets], module.cpp:2027-2041: the pieces of a
    comma-delimited string. *)
Fixpoint lExtractTargets (target : string) : list string :=
  match target with
  | EmptyString => [EmptyString]
  | String c rest =>
      let targets := lExtractTargets rest in
      if Ascii.eqb c "," then EmptyString :: targets
      else match targets with
           | t :: targets' => String c t :: targets'
           | [] => [String c EmptyString]
           end
  end.

(** [strchr(target, ',') != NULL]: a comma occurs in the string. *)
Definition hasComma (target : string) : bool :=
  match CString.strrchr target "," with Some _ => true | None => false end.

(** [strncmp(target, "generic-", 8) == 0]. *)
Definition isGenericTarget (target : string) : bool :=
  String.prefix "generic-" target.

Section CompileAndOutput.
Context `{Environment} {U : Units}.

(** A sequence of [if (name != NULL) if (!m->writeOutput(...)) return 1;]
    steps of the single-target path; [errors] is [m->errorCount]. *)
Fixpoint lWriteOutputs (t : Target) (errors : nat)
    (outputs : list (OutputType * option string)) : Exit + nat :=
  match outputs with
  | [] => inr errors
  | (outputType, fileName) :: outputs' =>
      let w := writeOutput t outputType fileName in
      let errors := errors + writeErrors w in
      if negb (written w) then inl (exit 1 errors)
      else lWriteOutputs t errors outputs'
  end.

(** The single-target branch, module.cpp:2374-2437. *)
Definition lCompileSingle (srcFile : string) (arch cpu target : option string)
    (outputFlags : OutputFlags) (outputType : OutputType)
    (outFileName headerFileName depsFileName hostStubFileName devStubFileName
       : option string) : Exit :=
  let t := newTarget arch cpu target in
  if negb (isValid t) then exit 1 0
  else
    let c := compileUnit srcFile t in
    let errors := compileErrors c in
    if Nat.eqb (CompileFile c) 0 then
      let generic := match target with
                     | Some tg => isGenericTarget tg
                     | None => false
                     end in
      if bool_decide (outputType = CXX) && negb generic then
        (* "When generating C++ output, one of the generic-* targets must be used." *)
        exit 1 (S errors)
      else if (bool_decide (outputType = Asm) || bool_decide (outputType = Object))
              && generic then
        (* "When using a generic-* compilation target, ... output can not be used." *)
        exit 1 (S errors)
      else
        let present (ty : OutputType) (f : option string) :=
          match f with Some _ => [(ty, f)] | None => [] end in
        let outputs :=
          present outputType outFileName
          ++ present Header headerFileName
          ++ (if (match depsFileName with Some _ => true | None => false end)
                 || OutputDepsToStdout outputFlags
              then [(Deps, depsFileName)] else [])
          ++ present HostStub hostStubFileName
          ++ present DevStub devStubFileName in
        match lWriteOutputs t errors outputs with
        | inl e => e
        | inr errors => exit (if Nat.ltb 0 errors then 1 else 0) errors
        end
    else
      let errors := S errors in
      exit (if Nat.ltb 0 errors then 1 else 0) errors.

(** [lInitDispatchModule], module.cpp:2246-2267: a new module into which
    the definitions of builtins-dispatch are linked. *)
Definition lInitDispatchModule : llvmModule := builtinsDispatchGlobals.

(** The loop of [lEmitDispatchModule], module.cpp:2284-2285, over the
    exported functions in the order of the map. *)
Fixpoint lCreateDispatchFunctions
    (functions : list (string * Dispatch.FunctionTargetVariants))
  : Outcome (list (string * Dispatch.BasicBlock)) :=
  match functions with
  | [] => Returned []
  | (name, funcs) :: functions' =>
      let voidReturn :=
        match Dispatch.lGetVaryingDispatchType NUM_ISAS funcs with
        | Returned ftype => isVoidTy ftype
        | AssertionFailed => false
        end in
      match Dispatch.lCreateDispatchFunction NUM_ISAS (getFunction "abort")
              funcs voidReturn with
      | AssertionFailed => AssertionFailed
      | Returned dispatchFunc =>
          match lCreateDispatchFunctions functions' with
          | AssertionFailed => AssertionFailed
          | Returned dispatchFuncs => Returned ((name, dispatchFunc) :: dispatchFuncs)
          end
      end
  end.

(** The entries of a [std::map] from [begin()] to [end()]: in increasing
    order of the keys. *)
Definition inOrder (functions : gmap string Dispatch.FunctionTargetVariants)
  : list (string * Dispatch.FunctionTargetVariants) :=
  omap (fun name => pair name <$> functions !! name) (Deps.inOrder (dom functions)).

(** [lEmitDispatchModule], module.cpp:2275-2293: the dispatch functions
    created, by name.  The passes run over the module at the end (dead
    code elimination and the verifier) are left out. *)
Definition lEmitDispatchModule (module : llvmModule)
    (functions : gmap string Dispatch.FunctionTargetVariants)
  : Outcome (list (string * Dispatch.BasicBlock)) :=
  (* Assert(setFunc != NULL) *)
  if negb (getFunction "__set_system_isa") then AssertionFailed
  else
    (* Assert(systemBestISAPtr != NULL) *)
    match getNamedGlobal module "__system_best_isa" with
    | None => AssertionFailed
    | Some systemBestISAPtr => lCreateDispatchFunctions (inOrder functions)
    end.

(** [Module::writeBitcode], module.cpp:894-926: a file that cannot be
    opened is reported with [perror], not with [Error]. *)
Definition writeBitcode (outFileName : string) : Written :=
  if String.eqb outFileName "-" then {| written := true; writeErrors := 0 |}
  else {| written := openOutputFile outFileName; writeErrors := 0 |}.

(** [Module::writeObjectFileOrAssembly], module.cpp:933-975, for the target
    machine of the ISA [targetMachine]: a file that cannot be opened is an
    [Error]; [FATAL] aborts the process as a failed assertion does. *)
Definition writeObjectFileOrAssembly (targetMachine : nat) (outputType : OutputType)
    (outFileName : string) : Outcome Written :=
  if negb (openOutputFile outFileName) then
    (* "Cannot open output file" *)
    Returned {| written := false; writeErrors := 1 |}
  else if addPassesToEmitFile targetMachine outputType then
    (* FATAL("Failed to add passes to emit object file!") *)
    AssertionFailed
  else Returned {| written := true; writeErrors := 0 |}.

(** [m] when [CompileFile] has returned: the error count of the unit, its
    symbol table and its globals; the diagnostics are those printed from
    here on. *)
Definition compiledModule (srcFile : string) (t : Target) : IspcModule :=
  {| errorCount := compileErrors (compileUnit srcFile t); diagnostics := [];
     symbolTable := unitSymbolTable srcFile t;
     module := unitGlobals srcFile t |}.

(** One unit of the loop over the targets, module.cpp:2517-2541:
    [m = new Module(srcFile)], its compilation, the reconciliation of its
    globals, its exported functions and its output.  The result is
    [m->errorCount] with the dispatch module and the exported functions,
    or ([inl]) [m->errorCount] when the output could not be written. *)
Definition lCompileUnit (srcFile : string) (outputType : OutputType)
    (outFileName : option string) (t : Target) (dispatchModule : option llvmModule)
    (exportedFunctions : gmap string Dispatch.FunctionTargetVariants)
  : Outcome (nat + (nat * option llvmModule
                    * gmap string Dispatch.FunctionTargetVariants)) :=
  let c := compileUnit srcFile t in
  let m := compiledModule srcFile t in
  if Nat.eqb (CompileFile c) 0 then
    (* create the dispatch module, unless already created;
       in the latter case, just do the checking *)
    let check := match dispatchModule with Some _ => true | None => false end in
    let dispatchModule := match dispatchModule with
                          | Some dispatchModule => dispatchModule
                          | None => lInitDispatchModule
                          end in
    match lExtractOrCheckGlobals m (module m) dispatchModule check with
    | AssertionFailed => AssertionFailed
    | Returned (m, _, dispatchModule) =>
        let exportedFunctions :=
          lGetExportedFunctions NUM_ISAS (GetMatchingFunctions srcFile t) (getISA t)
            exportedFunctions in
        match outFileName with
        | Some out =>
            let w := writeOutput t outputType
                       (Some (lGetTargetFileName out (GetISAString t))) in
            if negb (written w) then Returned (inl (errorCount m + writeErrors w))
            else Returned (inr (errorCount m + writeErrors w, Some dispatchModule,
                                exportedFunctions))
        | None => Returned (inr (errorCount m, Some dispatchModule, exportedFunctions))
        end
    end
  else Returned (inr (S (errorCount m), dispatchModule, exportedFunctions)).

(** The loop over the targets, module.cpp:2499-2576.  [targetMachines]
    holds the ISAs whose entry is set (the target machine of a valid
    target is taken not to be NULL), [errorCount] is the local accumulator
    and [reported] the number of errors counted in the Modules so far.
    [inr] holds the variables when the loop is left normally. *)
Fixpoint lCompileTargets (srcFile : string) (arch cpu : option string)
    (outputType : OutputType) (outFileName headerFileName : option string)
    (targetMachines : list nat) (dispatchModule : option llvmModule)
    (exportedFunctions : gmap string Dispatch.FunctionTargetVariants)
    (errorCount reported : nat) (targets : list string)
  : Outcome (Exit + (list nat * option llvmModule
                     * gmap string Dispatch.FunctionTargetVariants * nat * nat)) :=
  match targets with
  | [] => Returned (inr (targetMachines, dispatchModule, exportedFunctions,
                         errorCount, reported))
  | target :: targets' =>
      let t := newTarget arch cpu (Some target) in
      if negb (isValid t) then
        Returned (inl {| status := 1; accumulatedErrors := errorCount;
                         reportedErrors := reported |})
      else if bool_decide (getISA t ∈ targetMachines) then
        (* "Can't compile to multiple variants of %s target!", counted in the
           Module of the unit before *)
        Returned (inl {| status := 1; accumulatedErrors := errorCount;
                         reportedErrors := S reported |})
      else
        let targetMachines := getISA t :: targetMachines in
        match lCompileUnit srcFile outputType outFileName t dispatchModule
                exportedFunctions with
        | AssertionFailed => AssertionFailed
        | Returned (inl moduleErrors) =>
            Returned (inl {| status := 1; accumulatedErrors := errorCount;
                             reportedErrors := reported + moduleErrors |})
        | Returned (inr (moduleErrors, dispatchModule, exportedFunctions)) =>
            let errorCount := errorCount + moduleErrors in
            let reported := reported + moduleErrors in
            if negb (Nat.eqb errorCount 0) then
              Returned (inl {| status := 1; accumulatedErrors := errorCount;
                               reportedErrors := reported |})
            else
              match headerFileName with
              | Some header =>
                  let w := writeOutput t Header (Some header) in
                  let reported := reported + writeErrors w in
                  if negb (written w) then
                    Returned (inl {| status := 1; accumulatedErrors := errorCount;
                                     reportedErrors := reported |})
                  else
                    let w := writeOutput t Header
                               (Some (lGetTargetFileName header (GetISAString t))) in
                    let reported := reported + writeErrors w in
                    if negb (written w) then
                      Returned (inl {| status := 1; accumulatedErrors := errorCount;
                                       reportedErrors := reported |})
                    else lCompileTargets srcFile arch cpu outputType outFileName
                           headerFileName targetMachines dispatchModule
                           exportedFunctions errorCount reported targets'
              | None =>
                  lCompileTargets srcFile arch cpu outputType outFileName
                    headerFileName targetMachines dispatchModule exportedFunctions
                    errorCount reported targets'
              end
        end
  end.

(** The loop of module.cpp:2582-2588: the first ISA, in enumerant order,
    whose target machine is set. *)
Definition lFirstTargetMachine (targetMachines : list nat) : option nat :=
  List.find (fun i => bool_decide (i ∈ targetMachines)) (seq 0 NUM_ISAS).

(** The dispatch module is written when an output file was asked for,
    module.cpp:2599-2604. *)
Definition lWriteDispatchModule (firstTargetMachine : nat) (outputType : OutputType)
    (outFileName : option string) : Outcome Written :=
  match outFileName with
  | Some out =>
      if bool_decide (outputType = Bitcode) || bool_decide (outputType = BitcodeText)
      then Returned (writeBitcode out)
      else writeObjectFileOrAssembly firstTargetMachine outputType out
  | None => Returned {| written := true; writeErrors := 0 |}
  end.

(** The multi-target branch, module.cpp:2438-2614.  The [Error] calls of
    its guards come before any Module exists whose count they could
    increment.  The result of writing the dispatch module is ignored; an
    error reported there is counted in the Module of the last unit, after
    the local [errorCount] was computed. *)
Definition lCompileMulti (srcFile : string) (arch cpu : option string)
    (target : string) (outputFlags : OutputFlags) (outputType : OutputType)
    (outFileName headerFileName depsFileName : option string) : Outcome Exit :=
  if bool_decide (outputType = CXX) then Returned (exit 1 0)
  else if IsStdin srcFile then Returned (exit 1 0)
  else if (match cpu with Some _ => true | None => false end) then Returned (exit 1 0)
  else
    let targets := lExtractTargets target in
    (* Assert(targets.size() > 1) *)
    if Nat.leb (length targets) 1 then AssertionFailed
    else if bool_decide (outFileName = Some "-") then Returned (exit 1 0)
    else if (match headerFileName with
             | Some header => negb (fopenHeader header)
             | None => false
             end)
    then Returned (exit 0 0)      (* [return false] *)
    else
      match lCompileTargets srcFile arch cpu outputType outFileName headerFileName
              [] None ∅ 0 0 targets with
      | AssertionFailed => AssertionFailed
      | Returned (inl e) => Returned e
      | Returned (inr (targetMachines, dispatchModule, exportedFunctions,
                       errorCount, reported)) =>
          match lFirstTargetMachine targetMachines with
          | None => AssertionFailed     (* Assert(firstTargetMachine != NULL) *)
          | Some firstTargetMachine =>
              let firstISA := ISAToTargetString firstTargetMachine in
              (* Assert(strcmp(firstISA, "") != 0) *)
              if String.eqb firstISA "" then AssertionFailed
              else
                let t := newTarget arch cpu (Some firstISA) in
                if negb (isValid t) then
                  Returned {| status := 1; accumulatedErrors := errorCount;
                              reportedErrors := reported |}
                else
                  match dispatchModule with
                  | None => AssertionFailed   (* not reached: a unit was compiled *)
                  | Some dispatchModule =>
                      match lEmitDispatchModule dispatchModule exportedFunctions with
                      | AssertionFailed => AssertionFailed
                      | Returned _ =>
                          match lWriteDispatchModule firstTargetMachine outputType
                                  outFileName with
                          | AssertionFailed => AssertionFailed
                          | Returned w =>
                              let reported := reported + writeErrors w in
                              let d := match depsFileName with
                                       | Some _ => writeOutput t Deps depsFileName
                                       | None => {| written := true; writeErrors := 0 |}
                                       end in
                              let reported := reported + writeErrors d in
                              if negb (written d) then
                                Returned {| status := 1; accumulatedErrors := errorCount;
                                            reportedErrors := reported |}
                              else
                                Returned {| status := if Nat.ltb 0 errorCount then 1 else 0;
                                            accumulatedErrors := errorCount;
                                            reportedErrors := reported |}
                          end
                      end
                  end
          end
      end.

(** [Module::CompileAndOutput], module.cpp:2370-2615. *)
Definition CompileAndOutput (srcFile : string) (arch cpu target : option string)
    (outputFlags : OutputFlags) (outputType : OutputType)
    (outFileName headerFileName includeFileName depsFileName depsTargetName
       hostStubFileName devStubFileName : option string) : Outcome Exit :=
  match target with
  | Some tg =>
      if hasComma tg
      then lCompileMulti srcFile arch cpu tg outputFlags outputType
             outFileName headerFileName depsFileName
      else Returned (lCompileSingle srcFile arch cpu target outputFlags outputType
                       outFileName headerFileName depsFileName hostStubFileName
                       devStubFileName)
  | None =>
      Returned (lCompileSingle srcFile arch cpu target outputFlags outputType
                  outFileName headerFileName depsFileName hostStubFileName
                  devStubFileName)
  end.

End CompileAndOutput.

(** The condition of the single-target branch:
    [target == NULL || strchr(target, ',') == NULL]. *)
Definition singleTarget (target : option string) : Prop :=
  match target with
  | Some tg => hasComma tg = false
  | None => True
  end.




End Driver.


(** ** Example inputs *)

Module Examples.

Definition int32 : ispcType := AtomicType TYPE_INT32 Uniform false.
Definition float : ispcType := AtomicType TYPE_FLOAT Uniform false.

Definition line (n : nat) : SourcePos := {| pos_name := "x.ispc"; first_line := n |}.

(** A front end that lowers the atomic types of the examples, leaves
    initializers as they are and evaluates constant expressions. *)
Definition collaborators : Collaborators :=
  {| LLVMType := fun t =>
       match t with
       | AtomicType TYPE_INT32 _ _ => Some (LLVM.IntegerTy 32)
       | AtomicType TYPE_FLOAT _ _ => Some LLVM.FloatTy
       | _ => None
       end;
     SizeUnsizedArrays := fun t _ => Some t;
     TypeCheck := fun e => (Some e, []);
     TypeConvertExpr := fun e _ => (Some e, []);
     OptimizeExpr := fun e => e;
     GetConstant := fun e _ =>
       match e with ConstExpr _ c => Some c | _ => None end;
     LLVMFunctionType := fun _ _ => Some (LLVM.FunctionTy LLVM.VoidTy [] false) |}.

Definition one : Expr := ConstExpr (line 1) (ConstantData (LLVM.IntegerTy 32) [1%Z]).

End Examples.


Module FunctionExamples.
Import Examples.

(** [int f(int a)] and [float f(int a)]. *)
Definition int_of_int : FunctionType :=
  {| returnType := int32; paramTypes := [int32]; paramNames := ["a"];
     paramDefaults := [None]; paramPositions := [line 1];
     isTask := false; isExported := false; isExternC := false |}.

Definition float_of_int : FunctionType :=
  {| returnType := float; paramTypes := [int32]; paramNames := ["a"];
     paramDefaults := [None]; paramPositions := [line 3];
     isTask := false; isExported := false; isExternC := false |}.

Definition int_of_float : FunctionType :=
  {| returnType := int32; paramTypes := [float]; paramNames := ["a"];
     paramDefaults := [None]; paramPositions := [line 0];
     isTask := false; isExported := false; isExternC := false |}.

Definition declare (ft : FunctionType) (pos : SourcePos) (m : IspcModule) : IspcModule :=
  match AddFunctionDeclaration (H := collaborators) m "f" ft SC_NONE false false pos with
  | Returned m' => m'
  | AssertionFailed => m
  end.

(** The module after the declarations [int f(float a)] at line 0 and
    [int f(int a)] at line 1. *)
Definition declaredTwice : IspcModule :=
  declare int_of_int (line 1) (declare int_of_float (line 0) newModule).

Definition otherDeclaration : Symbol :=
  {| sym_name := "f"; sym_pos := line 0; sym_type := funType int_of_float;
     sym_storageClass := SC_NONE; sym_constValue := None; sym_storagePtr := None |}.

Definition firstDeclaration : Symbol :=
  {| sym_name := "f"; sym_pos := line 1; sym_type := funType int_of_int;
     sym_storageClass := SC_NONE; sym_constValue := None; sym_storagePtr := None |}.

(** [export int f(int a)]. *)
Definition exported_int_of_int : FunctionType :=
  {| returnType := int32; paramTypes := [int32]; paramNames := ["a"];
     paramDefaults := [None]; paramPositions := [line 1];
     isTask := false; isExported := true; isExternC := false |}.

(** The module after the declarations [export int f(int a)] at line 1 and
    [int f(float a)] at line 2. *)
Definition exportedThenOverloaded : IspcModule :=
  declare int_of_float (line 2) (declare exported_int_of_int (line 1) newModule).

Definition exportedDeclaration : Symbol :=
  {| sym_name := "f"; sym_pos := line 1; sym_type := funType exported_int_of_int;
     sym_storageClass := SC_NONE; sym_constValue := None; sym_storagePtr := None |}.

Definition overloadDeclaration : Symbol :=
  {| sym_name := "f"; sym_pos := line 2; sym_type := funType int_of_float;
     sym_storageClass := SC_NONE; sym_constValue := None; sym_storagePtr := None |}.

End FunctionExamples.


Module GlobalsExamples.
Import Examples.

(** The module of a target that defines [int counter = 1] and keeps a
    static [float scratch]. *)
Definition counter : GlobalVariable :=
  {| gv_name := "counter"; gv_valueType := LLVM.IntegerTy 32; gv_isConstant := false;
     gv_linkage := ExternalLinkage;
     gv_initializer := Some (ConstantData (LLVM.IntegerTy 32) [1%Z]) |}.

Definition scratch : GlobalVariable :=
  {| gv_name := "scratch"; gv_valueType := LLVM.FloatTy; gv_isConstant := false;
     gv_linkage := InternalLinkage;
     gv_initializer := Some (NullValue LLVM.FloatTy) |}.

Definition firstTarget : IspcModule :=
  {| errorCount := 0; diagnostics := [];
     symbolTable :=
       SymTab.SetVariable
         {| sym_name := "counter"; sym_pos := line 1; sym_type := int32;
            sym_storageClass := SC_NONE; sym_constValue := None;
            sym_storagePtr := Some "counter" |}
         SymTab.empty;
     module := [counter; scratch] |}.

End GlobalsExamples.


Module DriverExamples.
Import Driver.

Definition flags : OutputFlags :=
  {| GeneratePIC := false; GenerateMakeRuleForDeps := false; OutputDepsToStdout := false |}.

(** A system on which the requested target is known ([validTarget]) and
    the source compiles without errors, with [warn] warnings, but the
    output file cannot be opened when [writable] is false
    ([writeBitcode] then prints with [perror] and returns false, without a
    call of [Error]). *)
Definition environment (validTarget writable : bool) (warn : nat) : Environment :=
  {| newTarget := fun _ _ _ =>
       {| isValid := validTarget; getISA := 3; GetISAString := "avx2" |};
     compileUnit := fun _ _ =>
       {| sourceOpened := true; compileErrors := 0; compileWarnings := warn |};
     writeOutput := fun _ _ _ => {| written := writable; writeErrors := 0 |};
     fopenHeader := fun _ => true;
     ISAToTargetString := fun _ => "avx2" |}.

(** The variable [__system_best_isa] of builtins-dispatch. *)
Definition system_best_isa : GlobalVariable :=
  {| gv_name := "__system_best_isa"; gv_valueType := LLVM.IntegerTy 32;
     gv_isConstant := false; gv_linkage := InternalLinkage;
     gv_initializer := Some (ConstantData (LLVM.IntegerTy 32) [(-1)%Z]) |}.

(** Units without globals and without exported functions, and a dispatch
    module with the definitions of builtins-dispatch, which can be written
    when [writable] is true. *)
Definition units (writable : bool) : Units :=
  {| NUM_ISAS := 5;
     unitSymbolTable := fun _ _ => SymTab.empty;
     unitGlobals := fun _ _ => [];
     GetMatchingFunctions := fun _ _ => [];
     builtinsDispatchGlobals := [system_best_isa];
     getFunction := fun name => bool_decide (name ∈ ["__set_system_isa"; "abort"]);
     isVoidTy := fun _ => true;
     openOutputFile := fun _ => writable;
     addPassesToEmitFile := fun _ _ => false |}.

(** [ispc a.ispc --target=avx2 --emit-llvm -o a.bc] *)
Definition compile (env : Environment) : Outcome Exit :=
  CompileAndOutput (H := env) (U := units true) "a.ispc" None None (Some "avx2")
    flags Bitcode (Some "a.bc") None None None None None None.

End DriverExamples.

(** ** Further notions used in the statements of Part III *)

(** The number of commas of a string. *)
Fixpoint commas (s : string) : nat :=
  match s with
  | EmptyString => 0
  | String c s' => (if Ascii.eqb c "," then 1 else 0) + commas s'
  end.


(** [m'] is [m] after further diagnostics were printed, the errors among
    them counted. *)
Definition reports (m m' : IspcModule) : Prop :=
  exists ds, diagnostics m' = diagnostics m ++ ds
             /\ errorCount m' = errorCount m + length (filter (fun d => isError d = true) ds).

(** The state that the declarations leave behind: every variable Symbol
    is stored under its name and points to the one global of that name,
    which has an initializer when the Symbol is not [extern] and internal
    linkage exactly for a [static] one; every global belongs to a variable;
    the overloads of a function name carry that name, have function types,
    and no two of them have [Equal] types; no name is both a variable and a
    function; and the error counter counts the errors printed. *)
Record consistent (m : IspcModule) : Prop :=
  { variables_named : forall name sym,
      variables (symbolTable m) !! name = Some sym ->
      sym_name sym = name /\ sym_storagePtr sym = Some name;
    variables_emitted : forall name sym,
      variables (symbolTable m) !! name = Some sym ->
      exists gv, getNamedGlobal (module m) name = Some gv
                 /\ (isExternClass (sym_storageClass sym) = false ->
                     hasInitializer gv = true)
                 /\ gv_linkage gv
                    = (if bool_decide (sym_storageClass sym = SC_STATIC)
                       then InternalLinkage else ExternalLinkage);
    globals_declared : forall gv,
      gv ∈ module m -> is_Some (variables (symbolTable m) !! gv_name gv);
    globals_once : NoDup (gv_name <$> module m);
    functions_typed : forall name overloads s,
      functions (symbolTable m) !! name = Some overloads -> s ∈ overloads ->
      sym_name s = name /\ is_Some (CastType.toFunctionType (sym_type s));
    overloads_distinct : forall name overloads i j si sj,
      functions (symbolTable m) !! name = Some overloads ->
      overloads !! i = Some si -> overloads !! j = Some sj -> i < j ->
      Ty.Equal (sym_type si) (sym_type sj) = false;
    names_disjoint : forall name,
      is_Some (variables (symbolTable m) !! name) ->
      SymTab.LookupFunction (symbolTable m) name = false;
    errors_counted :
      errorCount m = length (filter (fun d => isError d = true) (diagnostics m)) }.


(** [m'] differs from [m] in its diagnostics only. *)
Definition frame (m m' : IspcModule) : Prop :=
  symbolTable m' = symbolTable m /\ module m' = module m /\ reports m m'.


Module StateExamples.
Import Examples.

(** The state after [int x = 1;] in an empty module. *)
Definition defined : IspcModule :=
  lDefineGlobal newModule
    {| sym_name := "x"; sym_pos := line 1; sym_type := int32;
       sym_storageClass := SC_NONE; sym_constValue := None; sym_storagePtr := None |}
    None (LLVM.IntegerTy 32) false
    (Some (ConstantData (LLVM.IntegerTy 32) [1%Z])) None.

(** The state after [extern int x;] in an empty module. *)
Definition declaredExtern : IspcModule :=
  lDefineGlobal newModule
    {| sym_name := "x"; sym_pos := line 1; sym_type := int32;
       sym_storageClass := SC_EXTERN; sym_constValue := None; sym_storagePtr := None |}
    None (LLVM.IntegerTy 32) false None None.

End StateExamples.


(** ** Character classes of <ctype.h> *)

Module CType.

(** [isdigit], [isalpha], [toupper] and [tolower] in the "C" locale, on
    the value of the character as an [unsigned char]. *)
Definition isdigit (c : ascii) : bool :=
  Nat.leb 48 (nat_of_ascii c) && Nat.leb (nat_of_ascii c) 57.

Definition isupper (c : ascii) : bool :=
  Nat.leb 65 (nat_of_ascii c) && Nat.leb (nat_of_ascii c) 90.

Definition islower (c : ascii) : bool :=
  Nat.leb 97 (nat_of_ascii c) && Nat.leb (nat_of_ascii c) 122.

Definition isalpha (c : ascii) : bool := isupper c || islower c.

Definition toupper (c : ascii) : ascii :=
  if islower c then ascii_of_nat (nat_of_ascii c - 32) else c.

Definition tolower (c : ascii) : ascii :=
  if isupper c then ascii_of_nat (nat_of_ascii c + 32) else c.

(** [strcasecmp(a, b) != 0]: the strings differ even when the case of
    letters is ignored. *)
Fixpoint strcasecmp (a b : string) : bool :=
  match a, b with
  | EmptyString, EmptyString => false
  | String x a', String y b' =>
      if Ascii.eqb (tolower x) (tolower y) then strcasecmp a' b' else true
  | _, _ => true
  end.

End CType.

(** ** The include guard of a generated header *)

(** The loop of [Module::writeHeader], module.cpp:1651-1659, over the
    characters of the file name from [p] on. *)
Fixpoint lGuardCharacters (p : string) : string :=
  match p with
  | EmptyString => EmptyString
  | String c p' =>
      String (if CType.isdigit c then c
              else if CType.isalpha c then CType.toupper c
              else "_"%char)
             (lGuardCharacters p')
  end.

(** The guard string of [Module::writeHeader], module.cpp:1649-1659. *)
Definition guard (fn : string) : string := "ISPC_" +:+ lGuardCharacters fn.

(** A character of a C identifier written in capitals. *)
Definition isGuardCharacter (c : ascii) : bool :=
  CType.isdigit c || CType.isupper c || Ascii.eqb c "_".

(** ** The suffix check of Module::writeOutput *)

(** The [switch] of [Module::writeOutput], module.cpp:818-856: the kind
    of file to name in the warning, [None] when the suffix is one that the
    output type expects. *)
Definition lSuffixFileType (outputType : Driver.OutputType) (suffix : string)
  : option string :=
  let cxx := CType.strcasecmp suffix "c" && CType.strcasecmp suffix "cc"
             && CType.strcasecmp suffix "c++" && CType.strcasecmp suffix "cxx"
             && CType.strcasecmp suffix "cpp" in
  match outputType with
  | Driver.Asm => if CType.strcasecmp suffix "s" then Some "assembly" else None
  | Driver.Bitcode => if CType.strcasecmp suffix "bc" then Some "LLVM bitcode" else None
  | Driver.BitcodeText =>
      if CType.strcasecmp suffix "ll" then Some "LLVM assembly" else None
  | Driver.Object =>
      if CType.strcasecmp suffix "o" && CType.strcasecmp suffix "obj"
      then Some "object" else None
  | Driver.CXX => if cxx then Some "c++" else None
  | Driver.Header =>
      if CType.strcasecmp suffix "h" && CType.strcasecmp suffix "hh"
         && CType.strcasecmp suffix "hpp"
      then Some "header" else None
  | Driver.Deps => None
  | Driver.DevStub => if cxx then Some "dev-side offload stub" else None
  | Driver.HostStub => if cxx then Some "host-side offload stub" else None
  end.

(** The suffix check at the head of [Module::writeOutput],
    module.cpp:809-862: the file type and the suffix named in the warning
    "Emitting %s file, but filename ... has suffix ...?", [None] when no
    warning is issued. *)
Definition lSuffixWarning (outputType : Driver.OutputType) (outFileName : option string)
  : option (string * string) :=
  match outFileName with
  | None => None
  | Some outFileName =>
      match CString.strrchr outFileName "." with
      | None => None
      | Some dot =>
          let suffix := CString.drop (S dot) outFileName in
          match lSuffixFileType outputType suffix with
          | Some fileType => Some (fileType, suffix)
          | None => None
          end
      end
  end.

(** The file name with the letters of its suffix in capitals. *)
Fixpoint upcase (s : string) : string :=
  match s with
  | EmptyString => EmptyString
  | String c s' => String (CType.toupper c) (upcase s')
  end.


(** "Parameter [i] has a default value." *)
Definition hasDefault (functionType : FunctionType) (i : nat) : Prop :=
  default None (paramDefaults functionType !! i) <> None.


(** ** What a multi-target build asks of each target *)

Module DriverUnits.
Import Driver.

Section Units.
Context `{Environment} {U : Units}.

(** The ISA of the [Target] built for a target string. *)
Definition targetISA (arch cpu : option string) (target : string) : nat :=
  getISA (newTarget arch cpu (Some target)).

(** One pass of the loop over the targets goes through: the target is
    valid, the unit compiles without error, the per-target output is
    written without error and the two headers are written. *)
Definition unitSucceeds (srcFile : string) (arch cpu : option string)
    (outputType : OutputType) (outFileName headerFileName : option string)
    (target : string) : bool :=
  let t := newTarget arch cpu (Some target) in
  isValid t
  && Nat.eqb (CompileFile (compileUnit srcFile t)) 0
  && match outFileName with
     | Some out =>
         let w := writeOutput t outputType
                    (Some (lGetTargetFileName out (GetISAString t))) in
         written w && Nat.eqb (writeErrors w) 0
     | None => true
     end
  && match headerFileName with
     | Some header =>
         written (writeOutput t Header (Some header))
         && written (writeOutput t Header
                       (Some (lGetTargetFileName header (GetISAString t))))
     | None => true
     end.

(** The passes of [lExtractOrCheckGlobals] over the units of the targets,
    in order, from the dispatch module [dispatchModule] on ([None]: not
    created yet): the dispatch module that they leave. *)
Fixpoint reconciled (srcFile : string) (arch cpu : option string)
    (dispatchModule : option llvmModule) (targets : list string)
  : Outcome (option llvmModule) :=
  match targets with
  | [] => Returned dispatchModule
  | target :: targets' =>
      let t := newTarget arch cpu (Some target) in
      let m := compiledModule srcFile t in
      match lExtractOrCheckGlobals m (module m)
              (default lInitDispatchModule dispatchModule)
              (bool_decide (is_Some dispatchModule)) with
      | AssertionFailed => AssertionFailed
      | Returned (_, _, dispatchModule) =>
          reconciled srcFile arch cpu (Some dispatchModule) targets'
      end
  end.

(** The calls of [lGetExportedFunctions] for the units of the targets, in
    order, from the map [exportedFunctions] on. *)
Definition exported (srcFile : string) (arch cpu : option string)
    (exportedFunctions : gmap string Dispatch.FunctionTargetVariants)
    (targets : list string) : gmap string Dispatch.FunctionTargetVariants :=
  foldl (fun functions target =>
           let t := newTarget arch cpu (Some target) in
           lGetExportedFunctions NUM_ISAS (GetMatchingFunctions srcFile t) (getISA t)
             functions)
        exportedFunctions targets.

End Units.

End DriverUnits.


Module MultiTargetExamples.
Import Driver.

(** A system that knows the targets "sse4" (ISA 1) and "avx2" (ISA 3), on
    which every unit compiles and every file can be written. *)
Definition environment : Environment :=
  {| newTarget := fun _ _ target =>
       if bool_decide (target = Some "avx2")
       then {| isValid := true; getISA := 3; GetISAString := "avx2" |}
       else {| isValid := bool_decide (target = Some "sse4");
               getISA := 1; GetISAString := "sse4" |};
     compileUnit := fun _ _ =>
       {| sourceOpened := true; compileErrors := 0; compileWarnings := 0 |};
     writeOutput := fun _ _ _ => {| written := true; writeErrors := 0 |};
     fopenHeader := fun _ => true;
     ISAToTargetString := fun isa => if Nat.eqb isa 3 then "avx2" else "sse4" |}.

(** Units that define the global [counter] and export the function [f],
    compiled to [f_sse4] and [f_avx2]; the file of the dispatch module can
    be opened when [writable] is true. *)
Definition units (writable : bool) : Units :=
  {| NUM_ISAS := 5;
     unitSymbolTable := fun _ _ => symbolTable GlobalsExamples.firstTarget;
     unitGlobals := fun _ _ => module GlobalsExamples.firstTarget;
     GetMatchingFunctions := fun _ t => [("f", "f_" +:+ GetISAString t)];
     builtinsDispatchGlobals := [DriverExamples.system_best_isa];
     getFunction := fun name => bool_decide (name ∈ ["__set_system_isa"; "abort"]);
     isVoidTy := fun _ => true;
     openOutputFile := fun _ => writable;
     addPassesToEmitFile := fun _ _ => false |}.

(** [ispc a.ispc --target=... --emit-llvm -o a.bc -h a.h] *)
Definition compile (target : string) : Outcome Exit :=
  CompileAndOutput (H := environment) (U := units true) "a.ispc" None None
    (Some target) DriverExamples.flags Bitcode (Some "a.bc") (Some "a.h")
    None None None None None.

(** Units as before, except that the unit compiled for "avx2" defines a
    second global, [extra], which the unit compiled for "sse4" lacks. *)
Definition extra : GlobalVariable :=
  {| gv_name := "extra"; gv_valueType := LLVM.FloatTy; gv_isConstant := false;
     gv_linkage := ExternalLinkage;
     gv_initializer := Some (NullValue LLVM.FloatTy) |}.

Definition unequalUnits : Units :=
  {| NUM_ISAS := 5;
     unitSymbolTable := fun _ t =>
       if Nat.eqb (getISA t) 3 then
         SymTab.SetVariable
           {| sym_name := "extra"; sym_pos := Examples.line 2;
              sym_type := Examples.float; sym_storageClass := SC_NONE;
              sym_constValue := None; sym_storagePtr := Some "extra" |}
           (symbolTable GlobalsExamples.firstTarget)
       else symbolTable GlobalsExamples.firstTarget;
     unitGlobals := fun _ t =>
       if Nat.eqb (getISA t) 3 then module GlobalsExamples.firstTarget ++ [extra]
       else module GlobalsExamples.firstTarget;
     GetMatchingFunctions := fun _ t => [("f", "f_" +:+ GetISAString t)];
     builtinsDispatchGlobals := [DriverExamples.system_best_isa];
     getFunction := fun name => bool_decide (name ∈ ["__set_system_isa"; "abort"]);
     isVoidTy := fun _ => true;
     openOutputFile := fun _ => true;
     addPassesToEmitFile := fun _ _ => false |}.


End MultiTargetExamples.


(** The outputs that the single-target branch of [CompileAndOutput]
    writes, in order (module.cpp:2399-2426). *)
Definition requestedOutputs (outputFlags : Driver.OutputFlags)
    (outputType : Driver.OutputType)
    (outFileName headerFileName depsFileName hostStubFileName devStubFileName
       : option string) : list (Driver.OutputType * option string) :=
  let present (ty : Driver.OutputType) (f : option string) :=
    match f with Some _ => [(ty, f)] | None => [] end in
  present outputType outFileName
  ++ present Driver.Header headerFileName
  ++ (if (match depsFileName with Some _ => true | None => false end)
         || Driver.OutputDepsToStdout outputFlags
      then [(Driver.Deps, depsFileName)] else [])
  ++ present Driver.HostStub hostStubFileName
  ++ present Driver.DevStub devStubFileName.

(** "The target string names one of the generic targets." *)
Definition genericTarget (target : option string) : bool :=
  match target with
  | Some tg => Driver.isGenericTarget tg
  | None => false
  end.


(** ** Struct declarations of a generated header *)

(** The comparison of type.cpp (not among the sources) that
    [lEmitStructDecl] relies on; nothing is assumed about it. *)
Class TypeComparison : Type :=
  { EqualIgnoringConst : ispcType -> ispcType -> bool }.

(** [lGetElementStructType], module.cpp:980-990: the struct type that a
    member is, or is an array of. *)
Fixpoint lGetElementStructType (t : ispcType) : option ispcType :=
  match t with
  | StructType _ _ _ _ => Some t
  | ArrayType child _ => lGetElementStructType child
  | _ => None
  end.

(** [lContainsPtrToVarying], module.cpp:992-1003: some member is varying. *)
Definition lContainsPtrToVarying (st : ispcType) : bool :=
  match st with
  | StructType _ elementTypes _ _ => List.existsb Ty.IsVaryingType elementTypes
  | _ => false
  end.

Section StructDeclarations.
Context `{TypeComparison}.

(** [lEmitStructDecl], module.cpp:1009-1080.  The result is
    [emittedStructs] after the call; a struct is printed when it is pushed,
    so that this is also the order of the declarations in the file.  The
    text of a declaration is left out. *)
Fixpoint lEmitStructDecl (emitUnifs : bool) (st : ispcType)
    (emittedStructs : list ispcType) {struct st} : list ispcType :=
  match st with
  | StructType _ elementTypes _ _ =>
      if negb emitUnifs && negb (lContainsPtrToVarying st) then emittedStructs
      (* has this struct type already been declared? *)
      else if List.existsb (EqualIgnoringConst st) emittedStructs then emittedStructs
      else
        (* first make sure any contained structs have been declared *)
        let emittedStructs :=
          (fix members (es : list ispcType) (emitted : list ispcType) : list ispcType :=
             match es with
             | [] => emitted
             | e :: es' =>
                 members es'
                   ((fix element (t : ispcType) (emitted : list ispcType)
                       : list ispcType :=
                       match t with
                       | StructType _ _ _ _ => lEmitStructDecl emitUnifs t emitted
                       | ArrayType child _ => element child emitted
                       | _ => emitted
                       end) e emitted)
             end) elementTypes emittedStructs in
        (* and now it is safe to declare this one *)
        emittedStructs ++ [st]
  | _ => emittedStructs
  end.

(** The step of the loop over the members: the struct type of the
    member, if it has one, is declared. *)
Definition lEmitElementDecl (emitUnifs : bool) (t : ispcType)
    (emittedStructs : list ispcType) : list ispcType :=
  match lGetElementStructType t with
  | Some elementStructType => lEmitStructDecl emitUnifs elementStructType emittedStructs
  | None => emittedStructs
  end.

(** [lEmitStructDecls], module.cpp:1085-1102. *)
Definition lEmitStructDecls (structTypes : list ispcType) (emitUnifs : bool)
  : list ispcType :=
  foldl (fun emittedStructs st => lEmitStructDecl emitUnifs st emittedStructs)
        [] structTypes.

(** A struct type [e] has been declared in [emitted]: the list holds it,
    or a type that the comparison takes for it. *)
Definition declaredIn (emitted : list ispcType) (e : ispcType) : Prop :=
  exists x, x ∈ emitted /\ (x = e \/ EqualIgnoringConst e x = true).

(** The struct types that the members of a struct are, or are arrays of. *)
Definition memberStructs (st : ispcType) : list ispcType :=
  match st with
  | StructType _ elementTypes _ _ => omap lGetElementStructType elementTypes
  | _ => []
  end.

(** Every declaration comes after the declarations of the structs that
    its members need. *)
Definition declaredBeforeUse (emitted : list ispcType) : Prop :=
  forall i st e,
    emitted !! i = Some st -> e ∈ memberStructs st ->
    declaredIn (take i emitted) e.

End StructDeclarations.


Section StructDeclarationOrder.
Context `{TypeComparison}.

(** What a call of [lEmitStructDecl] for [st] does to any list: it
    extends the list, [st] is declared afterwards, and declaration before
    use is kept. *)
Definition emits (st : ispcType) : Prop :=
  forall emitted,
    emitted `prefix_of` lEmitStructDecl true st emitted
    /\ declaredIn (lEmitStructDecl true st emitted) st
    /\ (declaredBeforeUse emitted -> declaredBeforeUse (lEmitStructDecl true st emitted)).

End StructDeclarationOrder.




(** ** The types that a generated header declares *)

(** The conversion of type.cpp (not among the sources) that
    [lAddTypeIfNew] applies; nothing is assumed about it. *)
Class TypeConversion : Type :=
  { GetAsNonConstType : ispcType -> ispcType }.

Definition isEnumType (t : ispcType) : bool :=
  match t with EnumType _ _ _ => true | _ => false end.

(** The three vectors that [lGetExportedTypes] fills. *)
Record ExportedTypeLists : Set :=
  { exportedStructTypes : list ispcType;
    exportedEnumTypes : list ispcType;
    exportedVectorTypes : list ispcType }.

Section ExportedTypes.
Context `{TypeConversion}.

(** [lAddTypeIfNew<T>], module.cpp:1181-1193; [cast] is [CastType<T>]. *)
Definition lAddTypeIfNew (cast : ispcType -> bool) (type : ispcType)
    (exportedTypes : list ispcType) : Outcome (list ispcType) :=
  let type := GetAsNonConstType type in
  if List.existsb (fun exported => Ty.Equal exported type) exportedTypes
  then Returned exportedTypes
  else if cast type then Returned (exportedTypes ++ [type])
  else AssertionFailed.

(** [lGetExportedTypes], module.cpp:1199-1233. *)
Fixpoint lGetExportedTypes (type : ispcType) (lists : ExportedTypeLists) {struct type}
  : Outcome ExportedTypeLists :=
  match type with
  | ReferenceType target => lGetExportedTypes target lists
  | PointerType baseType _ _ _ => lGetExportedTypes baseType lists
  | ArrayType child _ => lGetExportedTypes child lists
  | StructType _ elementTypes _ _ =>
      match lAddTypeIfNew CastType.isStructType type (exportedStructTypes lists) with
      | AssertionFailed => AssertionFailed
      | Returned structs =>
          (fix elements (es : list ispcType) (lists : ExportedTypeLists)
             : Outcome ExportedTypeLists :=
             match es with
             | [] => Returned lists
             | e :: es' =>
                 match lGetExportedTypes e lists with
                 | Returned lists => elements es' lists
                 | AssertionFailed => AssertionFailed
                 end
             end)
            elementTypes
            {| exportedStructTypes := structs;
               exportedEnumTypes := exportedEnumTypes lists;
               exportedVectorTypes := exportedVectorTypes lists |}
      end
  | UndefinedStructType _ _ _ => Returned lists    (* do nothing *)
  | EnumType _ _ _ =>
      match lAddTypeIfNew isEnumType type (exportedEnumTypes lists) with
      | AssertionFailed => AssertionFailed
      | Returned enums =>
          Returned {| exportedStructTypes := exportedStructTypes lists;
                      exportedEnumTypes := enums;
                      exportedVectorTypes := exportedVectorTypes lists |}
      end
  | VectorType _ _ =>
      match lAddTypeIfNew CastType.isVectorType type (exportedVectorTypes lists) with
      | AssertionFailed => AssertionFailed
      | Returned vectors =>
          Returned {| exportedStructTypes := exportedStructTypes lists;
                      exportedEnumTypes := exportedEnumTypes lists;
                      exportedVectorTypes := vectors |}
      end
  | FunctionTy returnType paramTypes _ _ _ _ _ _ =>
      (* the return type, and then the parameter types *)
      match lGetExportedTypes returnType lists with
      | AssertionFailed => AssertionFailed
      | Returned lists =>
          (fix parameters (ps : list ispcType) (lists : ExportedTypeLists)
             : Outcome ExportedTypeLists :=
             match ps with
             | [] => Returned lists
             | p :: ps' =>
                 match lGetExportedTypes p lists with
                 | Returned lists => parameters ps' lists
                 | AssertionFailed => AssertionFailed
                 end
             end) paramTypes lists
      end
  | AtomicType _ _ _ => Returned lists    (* Assert(CastType<AtomicType>(type) != NULL) *)
  end.

(** The loops over the members of a struct and over the parameters of a
    function. *)
Fixpoint lGetExportedTypesOfAll (types : list ispcType) (lists : ExportedTypeLists)
  : Outcome ExportedTypeLists :=
  match types with
  | [] => Returned lists
  | t :: types' =>
      match lGetExportedTypes t lists with
      | Returned lists => lGetExportedTypesOfAll types' lists
      | AssertionFailed => AssertionFailed
      end
  end.

(** [lGetExportedParamTypes], module.cpp:1238-1251, for functions given
    by their types. *)
Fixpoint lGetExportedParamTypes (funcs : list FunctionType) (lists : ExportedTypeLists)
  : Outcome ExportedTypeLists :=
  match funcs with
  | [] => Returned lists
  | ftype :: funcs' =>
      match lGetExportedTypes (returnType ftype) lists with
      | AssertionFailed => AssertionFailed
      | Returned lists =>
          match lGetExportedTypesOfAll (paramTypes ftype) lists with
          | AssertionFailed => AssertionFailed
          | Returned lists => lGetExportedParamTypes funcs' lists
          end
      end
  end.

(** The conversion keeps a struct a struct, an enum an enum and a vector
    a vector: the cast of [lAddTypeIfNew] does not fail. *)
Definition keepsClass : Prop :=
  forall t,
    CastType.isStructType (GetAsNonConstType t) = CastType.isStructType t
    /\ isEnumType (GetAsNonConstType t) = isEnumType t
    /\ CastType.isVectorType (GetAsNonConstType t) = CastType.isVectorType t.

(** No two entries of a list are [Equal]. *)
Definition distinctTypes (l : list ispcType) : Prop :=
  forall i j x y, l !! i = Some x -> l !! j = Some y -> i < j -> Ty.Equal x y = false.

(** The lists hold types of their class, each once. *)
Record wellSorted (lists : ExportedTypeLists) : Prop :=
  { structs_distinct : distinctTypes (exportedStructTypes lists);
    enums_distinct : distinctTypes (exportedEnumTypes lists);
    vectors_distinct : distinctTypes (exportedVectorTypes lists);
    structs_are_structs :
      Forall (fun t => CastType.isStructType t = true) (exportedStructTypes lists);
    enums_are_enums : Forall (fun t => isEnumType t = true) (exportedEnumTypes lists);
    vectors_are_vectors :
      Forall (fun t => CastType.isVectorType t = true) (exportedVectorTypes lists) }.

(** The lists only grow. *)
Definition extends (lists lists' : ExportedTypeLists) : Prop :=
  exportedStructTypes lists `prefix_of` exportedStructTypes lists'
  /\ exportedEnumTypes lists `prefix_of` exportedEnumTypes lists'
  /\ exportedVectorTypes lists `prefix_of` exportedVectorTypes lists'.

(** The type, without [const], is in the list: an entry is [Equal] to it. *)
Definition listed (l : list ispcType) (type : ispcType) : Prop :=
  exists x, x ∈ l /\ Ty.Equal x (GetAsNonConstType type) = true.

End ExportedTypes.


(** [t'] appears in the interface type [t]: it is [t], or it is reached
    from [t] through references, pointers, arrays, the members of structs
    and the return and parameter types of functions. *)
Inductive appearsIn (t' : ispcType) : ispcType -> Prop :=
| appears_here : appearsIn t' t'
| appears_target target :
    appearsIn t' target -> appearsIn t' (ReferenceType target)
| appears_pointee baseType v c s :
    appearsIn t' baseType -> appearsIn t' (PointerType baseType v c s)
| appears_element child n :
    appearsIn t' child -> appearsIn t' (ArrayType child n)
| appears_member name elementTypes v c e :
    e ∈ elementTypes -> appearsIn t' e ->
    appearsIn t' (StructType name elementTypes v c)
| appears_return r ps ns ds pp tk ex xc :
    appearsIn t' r -> appearsIn t' (FunctionTy r ps ns ds pp tk ex xc)
| appears_parameter r ps ns ds pp tk ex xc p :
    p ∈ ps -> appearsIn t' p -> appearsIn t' (FunctionTy r ps ns ds pp tk ex xc).

Section ExportedTypesCoverage.
Context `{TypeConversion}.

(** The type is listed in the list of its class, if it has one. *)
Definition listedByClass (lists : ExportedTypeLists) (t : ispcType) : Prop :=
  (CastType.isStructType t = true -> listed (exportedStructTypes lists) t)
  /\ (isEnumType t = true -> listed (exportedEnumTypes lists) t)
  /\ (CastType.isVectorType t = true -> listed (exportedVectorTypes lists) t).

(** What a call for [type] that returns has done. *)
Definition collects (type : ispcType) : Prop :=
  forall lists,
    match lGetExportedTypes type lists with
    | Returned lists' =>
        extends lists lists'
        /\ (wellSorted lists -> wellSorted lists')
        /\ forall t', appearsIn t' type -> listedByClass lists' t'
    | AssertionFailed => ~ keepsClass
    end.

End ExportedTypesCoverage.


Module StructExamples.
Import Examples.

(** A comparison for the examples: the types are the same. *)
Definition comparison : TypeComparison := {| EqualIgnoringConst := Ty.Equal |}.

(** [struct Point { int x; }] and [struct Path { Point points[4]; int n; }]. *)
Definition Point : ispcType := StructType "Point" [int32] Uniform false.
Definition Path : ispcType :=
  StructType "Path" [ArrayType Point 4; int32] Uniform false.

(** A conversion for the examples, whose types have no [const]. *)
Definition conversion : TypeConversion := {| GetAsNonConstType := fun t => t |}.

(** [export void walk(uniform Path * uniform path)]. *)
Definition walk : FunctionType :=
  {| returnType := AtomicType TYPE_VOID Uniform false;
     paramTypes := [PointerType Path Uniform false false];
     paramNames := ["path"]; paramDefaults := [None]; paramPositions := [line 1];
     isTask := false; isExported := true; isExternC := false |}.

Definition noTypes : ExportedTypeLists :=
  {| exportedStructTypes := []; exportedEnumTypes := []; exportedVectorTypes := [] |}.

End StructExamples.

(* ===================================================================== *)
(** * Part II: properties                                                *)
(* ===================================================================== *)

(** ** C strings *)

Module CStringFacts.
Import CString.

Lemma app_nil_l (s : string) : "" +:+ s = s.
Proof. reflexivity. Qed.

Lemma app_cons (c : ascii) (a b : string) :
  String c a +:+ b = String c (a +:+ b).
Proof. reflexivity. Qed.

Ltac str_simpl := repeat (rewrite ?app_cons, ?app_nil_l; simpl).

Lemma length_app (a b : string) :
  String.length (a +:+ b) = String.length a + String.length b.
Proof. induction a as [|c a IH]; str_simpl; [reflexivity | now rewrite IH]. Qed.

Lemma take_all (n : nat) (s : string) : String.length s <= n -> take n s = s.
Proof.
  revert n; induction s as [|c s IH]; intros [|n] Hn; simpl in *;
    try reflexivity; try lia.
  f_equal. apply IH. lia.
Qed.

Lemma app_assoc (a b c : string) : (a +:+ b) +:+ c = a +:+ (b +:+ c).
Proof. induction a as [|x a IH]; str_simpl; [reflexivity | now rewrite IH]. Qed.

Lemma take_app_length (a b : string) : take (String.length a) (a +:+ b) = a.
Proof. induction a as [|x a IH]; str_simpl; [now destruct b | now rewrite IH]. Qed.

Lemma drop_app_length (a b : string) : drop (String.length a) (a +:+ b) = b.
Proof. induction a as [|x a IH]; str_simpl; [now destruct b | exact IH]. Qed.

(** [strrchr] finds nothing exactly in the strings without the character. *)
Lemma strrchr_None (s : string) (c : ascii) :
  strrchr s c = None <-> forall i, String.get i s <> Some c.
Proof.
  induction s as [|a s IH]; simpl.
  - split; [intros _ i; discriminate | reflexivity].
  - destruct (strrchr s c) as [k|] eqn:Hk.
    + split; [discriminate |]. intros H. exfalso.
      assert (Hs : forall i, String.get i s <> Some c)
        by (intros i; apply (H (S i))).
      apply IH in Hs. discriminate.
    + destruct (Ascii.eqb_spec a c) as [->|Hne].
      * split; [discriminate |]. intros H. exfalso. now apply (H 0).
      * split; [| reflexivity]. intros _ [|i]; simpl.
        -- congruence.
        -- now apply IH.
Qed.

(** The offset returned for [pre ++ c ++ ext] when [c] does not occur in
    [ext] is the length of [pre]: the last occurrence. *)
Lemma strrchr_last (pre ext : string) (c : ascii) :
  (forall i, String.get i ext <> Some c) ->
  strrchr (pre +:+ String c ext) c = Some (String.length pre).
Proof.
  intros Hext. induction pre as [|a pre IH]; str_simpl.
  - apply strrchr_None in Hext. rewrite Hext.
    now rewrite Ascii.eqb_refl.
  - now rewrite IH.
Qed.

End CStringFacts.

(** ** Per-target output file names *)

Section TargetFileName.
Import CString CStringFacts.

Lemma lGetTargetFileName_suffix (pre ext isaString : string) :
  (forall i, String.get i ext <> Some "."%char) ->
  String.length isaString <= 14 ->
  lGetTargetFileName (pre +:+ String "." ext) isaString
  = pre +:+ "_" +:+ isaString +:+ String "." ext.
Proof.
  intros Hext Hisa. unfold lGetTargetFileName.
  rewrite (strrchr_last pre ext "." Hext).
  cbv zeta. unfold strncpy, strncat, strlen.
  rewrite take_app_length, drop_app_length.
  rewrite !take_all; repeat (rewrite ?length_app; simpl); try lia.
  now rewrite !app_assoc.
Qed.

Lemma lGetTargetFileName_no_suffix (outFileName isaString : string) :
  (forall i, String.get i outFileName <> Some "."%char) ->
  String.length isaString <= 14 ->
  lGetTargetFileName outFileName isaString = outFileName +:+ "_" +:+ isaString.
Proof.
  intros Hno Hisa. unfold lGetTargetFileName.
  apply strrchr_None in Hno. rewrite Hno.
  cbv zeta. unfold strncpy, strncat, strlen.
  rewrite !take_all; repeat (rewrite ?length_app; simpl); try lia.
  now rewrite app_assoc.
Qed.

End TargetFileName.

(** C8.  For an ISA string of at most 14 characters (the buffer reserves 16
    bytes beyond the base name): a base name [pre.ext] whose last '.' is the
    one shown yields [pre_ISA.ext], the ISA string being spliced in before
    the final suffix, and a base name without '.' yields [base_ISA]; in
    particular "foo.o" with "avx2" gives "foo_avx2.o" and "foo" with "sse4"
    gives "foo_sse4". *)
Theorem lGetTargetFileName_splices_isa (isaString : string) :
  String.length isaString <= 14 ->
  (forall pre ext : string,
      (forall i, String.get i ext <> Some "."%char) ->
      lGetTargetFileName (pre +:+ String "." ext) isaString
      = pre +:+ "_" +:+ isaString +:+ String "." ext) /\
  (forall outFileName : string,
      (forall i, String.get i outFileName <> Some "."%char) ->
      lGetTargetFileName outFileName isaString
      = outFileName +:+ "_" +:+ isaString) /\
  lGetTargetFileName "foo.o" "avx2" = "foo_avx2.o" /\
  lGetTargetFileName "foo" "sse4" = "foo_sse4".
Proof.
  intros Hisa. repeat split.
  - intros pre ext Hext. now apply lGetTargetFileName_suffix.
  - intros outFileName Hno. now apply lGetTargetFileName_no_suffix.
Qed.

Lemma lGetTargetFileName_splices_isa_witness :
  lGetTargetFileName ("foo" +:+ String "." "o") "avx2"
  = "foo" +:+ "_" +:+ "avx2" +:+ String "." "o"
  /\ lGetTargetFileName "foo" "avx2" = "foo" +:+ "_" +:+ "avx2".
Proof.
  assert (Hlen : String.length "avx2" <= 14) by (simpl; lia).
  destruct (lGetTargetFileName_splices_isa "avx2" Hlen) as (Hsuf & Hno & _).
  split.
  - apply (Hsuf "foo" "o"). intros [|[|i]]; simpl; discriminate.
  - apply (Hno "foo"). intros [|[|[|[|i]]]]; simpl; discriminate.
Defined.

(** ** Structural compatibility of IR types *)

Section CompatibleTypes.
Import LLVM.

Lemma sameType_true (a b : llvmType) : sameType a b = true <-> a = b.
Proof. unfold sameType. destruct (llvmType_eq_dec a b); split; congruence. Qed.

Lemma sameType_refl (a : llvmType) : sameType a a = true.
Proof. now apply sameType_true. Qed.

Lemma sameType_sym (a b : llvmType) : sameType a b = sameType b a.
Proof.
  unfold sameType.
  destruct (llvmType_eq_dec a b), (llvmType_eq_dec b a); congruence.
Qed.

Lemma isLayoutIdentical_sym (a b : llvmType) :
  isLayoutIdentical a b = isLayoutIdentical b a.
Proof.
  destruct a, b; try reflexivity. simpl.
  rewrite (sameType_sym (StructTy name0 isPacked0 elements0)).
  destruct (sameType _ _); [reflexivity |].
  destruct isPacked, isPacked0; simpl; try reflexivity;
    destruct (List.list_eq_dec llvmType_eq_dec elements elements0),
             (List.list_eq_dec llvmType_eq_dec elements0 elements);
    congruence.
Qed.

(** Two struct types are layout-identical exactly when they agree on
    packing and on the sequence of element types. *)
Lemma isLayoutIdentical_spec n1 p1 es1 n2 p2 es2 :
  isLayoutIdentical (StructTy n1 p1 es1) (StructTy n2 p2 es2) = true
  <-> p1 = p2 /\ es1 = es2.
Proof.
  simpl. destruct (sameType _ _) eqn:Hs.
  - apply sameType_true in Hs. injection Hs as _ -> ->. tauto.
  - destruct p1, p2; simpl;
      try destruct (List.list_eq_dec llvmType_eq_dec es1 es2);
      split; intros; try tauto; try discriminate;
      destruct H; congruence.
Qed.

Lemma lCompatibleTypes_refl (t : llvmType) : lCompatibleTypes t t = true.
Proof.
  induction t; simpl; try apply sameType_refl;
    try (destruct (TypeID_eq_dec _ _); [apply sameType_refl | congruence]).
  - now rewrite sameType_refl.
  - now rewrite Nat.eqb_refl.
  - exact IHt.
Qed.

Lemma lCompatibleTypes_sym (a b : llvmType) :
  lCompatibleTypes a b = lCompatibleTypes b a.
Proof.
  revert b. induction a; intros b; destruct b; try reflexivity.
  - simpl. apply sameType_sym.
  - simpl. apply sameType_sym.
  - apply isLayoutIdentical_sym.
  - simpl. rewrite (Nat.eqb_sym numElements0 numElements).
    destruct (Nat.eqb numElements numElements0); simpl; [apply IHa | reflexivity].
  - simpl. apply IHa.
  - simpl. apply sameType_sym.
Qed.

End CompatibleTypes.

(** C7.  [lCompatibleTypes] is reflexive and symmetric; array types with
    different element counts are never compatible, whatever their element
    types; struct types are compatible exactly when they are
    layout-identical (same packing, same element types); pointer types are
    compared recursively on their pointee types. *)
Theorem lCompatibleTypes_structural :
  (forall t, lCompatibleTypes t t = true) /\
  (forall a b, lCompatibleTypes a b = lCompatibleTypes b a) /\
  (forall n1 n2 e1 e2,
      n1 <> n2 ->
      lCompatibleTypes (LLVM.ArrayTy n1 e1) (LLVM.ArrayTy n2 e2) = false) /\
  (forall n1 p1 es1 n2 p2 es2,
      lCompatibleTypes (LLVM.StructTy n1 p1 es1) (LLVM.StructTy n2 p2 es2)
      = LLVM.isLayoutIdentical (LLVM.StructTy n1 p1 es1) (LLVM.StructTy n2 p2 es2)
      /\ (lCompatibleTypes (LLVM.StructTy n1 p1 es1) (LLVM.StructTy n2 p2 es2) = true
          <-> p1 = p2 /\ es1 = es2)) /\
  (forall e1 a1 e2 a2,
      lCompatibleTypes (LLVM.PointerTy e1 a1) (LLVM.PointerTy e2 a2)
      = lCompatibleTypes e1 e2).
Proof.
  split; [exact lCompatibleTypes_refl |].
  split; [exact lCompatibleTypes_sym |].
  split.
  { intros n1 n2 e1 e2 Hne. simpl.
    destruct (Nat.eqb_spec n1 n2); [contradiction | reflexivity]. }
  split.
  { intros. split; [reflexivity |]. apply isLayoutIdentical_spec. }
  reflexivity.
Qed.

Lemma lCompatibleTypes_structural_witness :
  lCompatibleTypes (LLVM.ArrayTy 4 LLVM.FloatTy) (LLVM.ArrayTy 8 LLVM.FloatTy) = false
  /\ (lCompatibleTypes (LLVM.StructTy (Some "a") false [LLVM.FloatTy])
                       (LLVM.StructTy (Some "b") false [LLVM.FloatTy]) = true).
Proof.
  destruct lCompatibleTypes_structural as (_ & _ & Harr & Hst & _).
  split.
  - apply Harr. lia.
  - apply Hst. split; reflexivity.
Defined.

(** ** The dependency registry and its listing *)

Module DepsFacts.
Import CString Deps.

Lemma elem_of_RegisterDependency (f n : string) (d : gset string) :
  f ∈ RegisterDependency n d <-> (f = n /\ recordable n) \/ f ∈ d.
Proof.
  unfold RegisterDependency, recordable.
  destruct (Ascii.eqb_spec (front n) "<"); simpl.
  - split; [tauto | intros [[_ [H _]] | H]; [contradiction | exact H]].
  - destruct (String.eqb_spec n "stdlib.ispc"); simpl.
    + split; [tauto | intros [[_ [_ H]] | H]; [contradiction | exact H]].
    + rewrite elem_of_union, elem_of_singleton. tauto.
Qed.

Lemma elem_of_foldl_Register (names : list string) (d : gset string) (f : string) :
  f ∈ foldl (fun deps fileName => RegisterDependency fileName deps) d names
  <-> f ∈ d \/ (f ∈ names /\ recordable f).
Proof.
  revert d. induction names as [|n names IH]; intros d; simpl.
  - rewrite elem_of_nil. tauto.
  - rewrite IH, elem_of_RegisterDependency, elem_of_cons.
    split.
    + intros [[[-> Hr] | Hd] | [Hin Hr]]; auto.
    + intros [Hd | [[-> | Hin] Hr]]; auto.
Qed.

Lemma elem_of_reportAll (names : list string) (f : string) :
  f ∈ reportAll names <-> f ∈ names /\ recordable f.
Proof.
  unfold reportAll. rewrite elem_of_foldl_Register, elem_of_empty. tauto.
Qed.

(** Registering is idempotent: a second report of a name changes nothing. *)
Lemma RegisterDependency_idemp (n : string) (d : gset string) :
  RegisterDependency n (RegisterDependency n d) = RegisterDependency n d.
Proof.
  apply set_eq. intros f. rewrite !elem_of_RegisterDependency. tauto.
Qed.

Lemma unescape_seq_special (n e : ascii) :
  unescape_seq n = Some e -> special e = true.
Proof.
  unfold unescape_seq.
  repeat (destruct (Ascii.eqb n _); [intros [= <-]; reflexivity |]).
  discriminate.
Qed.

Lemma backslash_special (c : ascii) : Ascii.eqb c "\" = true -> special c = true.
Proof. intros H. apply Ascii.eqb_eq in H. now subst. Qed.

(** A result without special characters is the input itself: the pass
    met no backslash. *)
Lemma lUnescapeString_plain (s : string) :
  (plain (lUnescapeString s) = true -> lUnescapeString s = s)
  /\ (forall c, plain (lUnescapeString (String c s)) = true ->
                lUnescapeString (String c s) = String c s).
Proof.
  induction s as [|a s [IHs IHc]].
  - split; [reflexivity |]. intros c. simpl.
    destruct (Ascii.eqb c "\"); reflexivity.
  - split; [apply IHc |]. intros c.
    change (lUnescapeString (String c (String a s)))
      with (if Ascii.eqb c "\" then
              match unescape_seq a with
              | Some esc => String esc (lUnescapeString s)
              | None => String c (lUnescapeString (String a s))
              end
            else String c (lUnescapeString (String a s))).
    destruct (Ascii.eqb c "\") eqn:Hc.
    + apply backslash_special in Hc.
      destruct (unescape_seq a) as [esc|] eqn:Ha; cbn [plain].
      * apply unescape_seq_special in Ha. rewrite Ha. discriminate.
      * rewrite Hc. discriminate.
    + cbn [plain]. intros H. apply andb_prop in H as [_ H].
      f_equal. now apply IHc.
Qed.

Lemma lUnescapeString_stdlib (s : string) :
  lUnescapeString s = "stdlib.ispc" -> s = "stdlib.ispc".
Proof.
  intros H. rewrite <- H. symmetry.
  apply (proj1 (lUnescapeString_plain s)). now rewrite H.
Qed.

Lemma lUnescapeString_front (s : string) :
  front (lUnescapeString s) = "<"%char -> front s = "<"%char.
Proof.
  destruct s as [|c s]; [discriminate |]. simpl.
  destruct (Ascii.eqb c "\") eqn:Hc; [| trivial].
  destruct s as [|n s]; [trivial |].
  destruct (unescape_seq n) as [esc|] eqn:Hn; [| trivial].
  simpl. intros ->. apply unescape_seq_special in Hn. discriminate.
Qed.

Lemma depEntries_plain (l : list string) : depEntries (PlainDep <$> l) = l.
Proof. induction l as [|x l IH]; [reflexivity |]. cbn. now f_equal. Qed.

Lemma depEntries_ruleDeps (sn : string) (l : list string) :
  depEntries (ruleDeps sn l)
  = lUnescapeString <$> filter (fun f => isSource sn (lUnescapeString f) = false) l.
Proof.
  induction l as [|x l IH]; [reflexivity |].
  rewrite filter_cons. simpl.
  destruct (isSource sn (lUnescapeString x)) eqn:Hx.
  - rewrite decide_False by discriminate. exact IH.
  - rewrite decide_True by reflexivity. cbn. now f_equal.
Qed.

Lemma depEntries_rule (tn sn : string) (l : list string) :
  depEntries (RuleTarget tn :: (if negb (IsStdin sn) then [RuleSource sn] else [])
              ++ ruleDeps sn l)
  = depEntries (ruleDeps sn l).
Proof. destruct (IsStdin sn); reflexivity. Qed.

(** The order of the set is a total order on strings. *)
Lemma ascii_compare_trans (a b c : ascii) :
  Ascii.compare a b = Lt -> Ascii.compare b c = Lt -> Ascii.compare a c = Lt.
Proof.
  unfold Ascii.compare. rewrite !N.compare_lt_iff. lia.
Qed.

Lemma string_compare_trans (a b c : string) :
  String.compare a b = Lt -> String.compare b c = Lt -> String.compare a c = Lt.
Proof.
  revert b c. induction a as [|x a IH]; intros [|y b] [|z c]; simpl;
    try discriminate; try reflexivity.
  destruct (Ascii.compare x y) eqn:Hxy; try discriminate.
  - apply Ascii.compare_eq_iff in Hxy. subst y.
    destruct (Ascii.compare x z); try discriminate; [apply IH | reflexivity].
  - intros _. destruct (Ascii.compare y z) eqn:Hyz; try discriminate; intros _.
    + apply Ascii.compare_eq_iff in Hyz. subst z. now rewrite Hxy.
    + now rewrite (ascii_compare_trans x y z).
Qed.

#[local] Instance less_equal_total : Total less_equal.
Proof. intros a b. apply String.leb_total. Qed.

#[local] Instance less_equal_trans : Transitive less_equal.
Proof.
  intros a b c. unfold less_equal, String.leb.
  destruct (String.compare a b) eqn:Hab; try discriminate; intros _.
  - apply String.compare_eq_iff in Hab. now subst b.
  - destruct (String.compare b c) eqn:Hbc; try discriminate; intros _.
    + apply String.compare_eq_iff in Hbc. subst c. now rewrite Hab.
    + now rewrite (string_compare_trans a b c).
Qed.

(** The iteration visits every element of the set once, in increasing
    order. *)
Lemma elem_of_inOrder (d : gset string) (f : string) : f ∈ inOrder d <-> f ∈ d.
Proof.
  unfold inOrder. rewrite merge_sort_Permutation. apply elem_of_elements.
Qed.

Lemma NoDup_inOrder (d : gset string) : NoDup (inOrder d).
Proof.
  unfold inOrder. rewrite merge_sort_Permutation. apply NoDup_elements.
Qed.

Lemma inOrder_sorted (d : gset string) : StronglySorted less_equal (inOrder d).
Proof. apply StronglySorted_merge_sort; apply _. Qed.

Lemma sorted_lookup (l : list string) (i j : nat) (a b : string) :
  StronglySorted less_equal l ->
  l !! i = Some a -> l !! j = Some b -> i < j -> less_equal a b.
Proof.
  intros Hs. revert i j.
  induction Hs as [|x l Hs IH Hall]; intros i j Hi Hj Hij; [discriminate |].
  destruct j as [|j]; [lia |]. simpl in Hj.
  destruct i as [|i]; simpl in Hi.
  - injection Hi as ->. rewrite Forall_forall in Hall. apply Hall.
    eapply list_elem_of_lookup_2. exact Hj.
  - apply (IH i j Hi Hj). lia.
Qed.

(** Strictly increasing, as the elements are distinct. *)
Lemma inOrder_increasing (d : gset string) (i j : nat) (a b : string) :
  inOrder d !! i = Some a -> inOrder d !! j = Some b -> i < j ->
  String.compare a b = Lt.
Proof.
  intros Hi Hj Hij.
  pose proof (sorted_lookup _ i j a b (inOrder_sorted d) Hi Hj Hij) as Hle.
  unfold less_equal, String.leb in Hle.
  destruct (String.compare a b) eqn:Hab; [| reflexivity | discriminate].
  apply String.compare_eq_iff in Hab. subst b.
  pose proof (NoDup_lookup _ _ _ _ (NoDup_inOrder d) Hi Hj). lia.
Qed.

End DepsFacts.

(** C9.  With the registry obtained from any sequence of reported file
    names: a name is recorded exactly when it was reported and neither
    begins with '<' nor is "stdlib.ispc".  [writeDeps] produces a listing
    in either mode, and no entry of it is "stdlib.ispc" or begins with '<'.
    The plain listing consists of the recorded dependencies, each exactly
    once, in increasing order.  The make-rule listing has one (unescaped)
    entry for each recorded dependency other than the source file.  The
    registry, hence the listing, depends only on which names were reported,
    not on how often. *)
Theorem registered_dependencies_listing (names : list string) :
  (forall f, f ∈ Deps.reportAll names
             <-> f ∈ names /\ CString.front f <> "<"%char /\ f <> "stdlib.ispc") /\
  (forall generateMakeRule tn sn, exists ls,
      Deps.writeDeps true generateMakeRule tn sn (Deps.reportAll names) = Some ls /\
      forall e, e ∈ Deps.depEntries ls ->
                e <> "stdlib.ispc" /\ CString.front e <> "<"%char) /\
  (forall tn sn, exists ls,
      Deps.writeDeps true false tn sn (Deps.reportAll names) = Some ls /\
      ls = Deps.PlainDep <$> Deps.depEntries ls /\
      NoDup (Deps.depEntries ls) /\
      (forall f, f ∈ Deps.depEntries ls <-> f ∈ Deps.reportAll names) /\
      (forall i j a b, Deps.depEntries ls !! i = Some a ->
                       Deps.depEntries ls !! j = Some b ->
                       i < j -> String.compare a b = Lt)) /\
  (forall tn sn, exists ls l,
      Deps.writeDeps true true tn sn (Deps.reportAll names) = Some ls /\
      NoDup l /\
      (forall f, f ∈ l <-> f ∈ Deps.reportAll names
                           /\ Deps.isSource sn (Deps.lUnescapeString f) = false) /\
      Deps.depEntries ls = Deps.lUnescapeString <$> l) /\
  (forall names', (forall f, f ∈ names <-> f ∈ names') ->
                  Deps.reportAll names' = Deps.reportAll names).
Proof.
  assert (Hrec : forall f, f ∈ Deps.reportAll names -> Deps.recordable f).
  { intros f Hf. now apply DepsFacts.elem_of_reportAll in Hf. }
  split; [intros f; apply DepsFacts.elem_of_reportAll |].
  split.
  { intros mk tn sn. unfold Deps.writeDeps. simpl.
    destruct mk; (eexists; split; [reflexivity |]); intros e He.
    - rewrite DepsFacts.depEntries_rule, DepsFacts.depEntries_ruleDeps in He.
      apply list_elem_of_fmap in He as (f & -> & Hf).
      apply list_elem_of_filter in Hf as [_ Hf].
      apply DepsFacts.elem_of_inOrder, Hrec in Hf. destruct Hf as [Hfront Hstd].
      split.
      + intros H. apply Hstd. now apply DepsFacts.lUnescapeString_stdlib.
      + intros H. apply Hfront. now apply DepsFacts.lUnescapeString_front.
    - rewrite DepsFacts.depEntries_plain in He.
      apply DepsFacts.elem_of_inOrder, Hrec in He. destruct He. now split. }
  split.
  { intros tn sn. eexists. split; [reflexivity |].
    rewrite DepsFacts.depEntries_plain. split; [reflexivity |]. split; [| split].
    - apply DepsFacts.NoDup_inOrder.
    - intros f. apply DepsFacts.elem_of_inOrder.
    - apply DepsFacts.inOrder_increasing. }
  split.
  { intros tn sn. eexists. eexists. split; [reflexivity |].
    rewrite DepsFacts.depEntries_rule, DepsFacts.depEntries_ruleDeps.
    split; [| split; [| reflexivity]].
    - apply NoDup_filter, DepsFacts.NoDup_inOrder.
    - intros f. rewrite list_elem_of_filter, DepsFacts.elem_of_inOrder. tauto. }
  intros names' Hsame. apply set_eq. intros f.
  rewrite !DepsFacts.elem_of_reportAll, Hsame. tauto.
Qed.

Lemma registered_dependencies_listing_witness :
  exists ls,
    Deps.writeDeps true false "" ""
      (Deps.reportAll ["c.h"; "a.h"; "<built-in>"; "stdlib.ispc"; "b.h"; "a.h"]) = Some ls
    /\ ls = [Deps.PlainDep "a.h"; Deps.PlainDep "b.h"; Deps.PlainDep "c.h"]
    /\ NoDup (Deps.depEntries ls)
    /\ ("a.h" ∈ Deps.depEntries ls)
    /\ ("stdlib.ispc" ∉ Deps.depEntries ls)
    /\ Deps.reportAll ["stdlib.ispc"; "b.h"; "c.h"; "a.h"; "<built-in>"]
       = Deps.reportAll ["c.h"; "a.h"; "<built-in>"; "stdlib.ispc"; "b.h"; "a.h"].
Proof.
  destruct (registered_dependencies_listing
              ["c.h"; "a.h"; "<built-in>"; "stdlib.ispc"; "b.h"; "a.h"])
    as (Hin & Hclean & Hplain & _ & Hsame).
  destruct (Hplain "" "") as (ls & Hw & _ & Hnd & Hall & _).
  exists ls. split; [exact Hw |].
  split; [| split; [exact Hnd | split; [| split]]].
  - vm_compute in Hw. now injection Hw as <-.
  - apply Hall, Hin.
    repeat split; [| discriminate | discriminate].
    apply list_elem_of_further, list_elem_of_here.
  - intros He. destruct (Hclean false "" "") as (ls' & Hw' & Hc).
    rewrite Hw in Hw'. injection Hw' as <-.
    now destruct (Hc _ He).
  - apply Hsame. intros f. rewrite !elem_of_cons, !elem_of_nil. tauto.
Defined.

(** ** Source-language types *)

Section ispcType_induction.
Variable P : ispcType -> Prop.
Hypothesis HAtomic : forall b v c, P (AtomicType b v c).
Hypothesis HEnum : forall n v c, P (EnumType n v c).
Hypothesis HPointer : forall t v c s, P t -> P (PointerType t v c s).
Hypothesis HReference : forall t, P t -> P (ReferenceType t).
Hypothesis HArray : forall t n, P t -> P (ArrayType t n).
Hypothesis HVector : forall t n, P t -> P (VectorType t n).
Hypothesis HStruct : forall n es v c, Forall P es -> P (StructType n es v c).
Hypothesis HUndefined : forall n v c, P (UndefinedStructType n v c).
Hypothesis HFunction : forall r ps ns ds pp t e x,
    P r -> Forall P ps -> P (FunctionTy r ps ns ds pp t e x).

(** Induction over types that reaches the members of structs and the
    parameters of function types. *)
Fixpoint ispcType_nested_ind (t : ispcType) : P t :=
  let fix all (l : list ispcType) : Forall P l :=
    match l with
    | [] => List.Forall_nil P
    | x :: l' => List.Forall_cons P x l' (ispcType_nested_ind x) (all l')
    end in
  match t with
  | AtomicType b v c => HAtomic b v c
  | EnumType n v c => HEnum n v c
  | PointerType t v c s => HPointer t v c s (ispcType_nested_ind t)
  | ReferenceType t => HReference t (ispcType_nested_ind t)
  | ArrayType t n => HArray t n (ispcType_nested_ind t)
  | VectorType t n => HVector t n (ispcType_nested_ind t)
  | StructType n es v c => HStruct n es v c (all es)
  | UndefinedStructType n v c => HUndefined n v c
  | FunctionTy r ps ns ds pp t e x =>
      HFunction r ps ns ds pp t e x (ispcType_nested_ind r) (all ps)
  end.
End ispcType_induction.

Module TyFacts.
Import Ty.

Lemma Equal_struct n1 es1 v1 c1 n2 es2 v2 c2 :
  Equal (StructType n1 es1 v1 c1) (StructType n2 es2 v2 c2)
  = String.eqb n1 n2 && EqualAll es1 es2 && bool_decide (v1 = v2) && Bool.eqb c1 c2.
Proof. reflexivity. Qed.

Lemma Equal_function r1 ps1 ns1 ds1 pp1 t1 e1 x1 r2 ps2 ns2 ds2 pp2 t2 e2 x2 :
  Equal (FunctionTy r1 ps1 ns1 ds1 pp1 t1 e1 x1) (FunctionTy r2 ps2 ns2 ds2 pp2 t2 e2 x2)
  = Equal r1 r2 && Bool.eqb t1 t2 && Bool.eqb e1 e2 && Bool.eqb x1 x2
    && EqualAll ps1 ps2.
Proof. reflexivity. Qed.

Lemma EqualAll_refl (l : list ispcType) :
  Forall (fun t => Equal t t = true) l -> EqualAll l l = true.
Proof.
  induction 1 as [|x l Hx _ IH]; [reflexivity |]. simpl. now rewrite Hx, IH.
Qed.

Lemma Equal_refl (t : ispcType) : Equal t t = true.
Proof.
  induction t using ispcType_nested_ind;
    rewrite ?Equal_struct, ?Equal_function; simpl;
    rewrite ?String.eqb_refl, ?Bool.eqb_reflx, ?Nat.eqb_refl, ?IHt,
      ?bool_decide_eq_true_2 by reflexivity;
    try reflexivity.
  - now rewrite EqualAll_refl.
  - now rewrite EqualAll_refl.
Qed.

End TyFacts.

(** ** Export legality *)

Section ExportLegality.

(** A struct is legal exactly when each of its members is. *)
Lemma lRecursiveCheckValidParamType_struct n es v c vectorOk :
  lRecursiveCheckValidParamType (StructType n es v c) vectorOk
  = forallb (fun e => lRecursiveCheckValidParamType e vectorOk) es.
Proof.
  simpl. induction es as [|e es IH]; [reflexivity |]. simpl.
  destruct (lRecursiveCheckValidParamType e vectorOk); simpl; [exact IH | reflexivity].
Qed.

Lemma lRecursiveCheckValidParamType_leaf t vectorOk :
  isLeafType t = true ->
  lRecursiveCheckValidParamType t vectorOk = negb (Ty.IsVaryingType t && negb vectorOk).
Proof.
  destruct t; try discriminate; intros _; simpl; try reflexivity;
    match goal with
    | |- (if ?b then false else true) = negb ?b => destruct b; reflexivity
    end.
Qed.

End ExportLegality.

(** C2, as the code has it.  With vector-allowed false at the top call the
    check rejects a varying pointer type, rejects a struct that has an
    illegal member (a struct is legal exactly when every member is legal
    under the same flag), in particular one with a varying member that is
    neither struct, sequence nor pointer, with a varying pointer member or
    with a vector member; rejects a bare vector type; rejects any other
    per-lane-varying type that is neither struct, sequence nor pointer; it
    accepts a uniform pointer exactly when the pointee is legal in
    vector-allowed mode, so a uniform pointer to varying data is accepted;
    and it accepts a struct all of whose members are uniform types that are
    neither struct, sequence nor pointer. *)
Theorem export_legality_rule :
  (forall base v c s,
      Ty.IsVaryingType (PointerType base v c s) = true ->
      lRecursiveCheckValidParamType (PointerType base v c s) false = false) /\
  (forall n es v c vectorOk,
      lRecursiveCheckValidParamType (StructType n es v c) vectorOk = true
      <-> forall e, e ∈ es -> lRecursiveCheckValidParamType e vectorOk = true) /\
  (forall n es v c e,
      e ∈ es ->
      (isLeafType e = true /\ Ty.IsVaryingType e = true)
      \/ (CastType.isPointerType e = true /\ Ty.IsVaryingType e = true)
      \/ CastType.isVectorType e = true ->
      lRecursiveCheckValidParamType (StructType n es v c) false = false) /\
  (forall base n, lRecursiveCheckValidParamType (VectorType base n) false = false) /\
  (forall t,
      isLeafType t = true -> Ty.IsVaryingType t = true ->
      lRecursiveCheckValidParamType t false = false) /\
  (forall base v c s,
      Ty.IsVaryingType (PointerType base v c s) = false ->
      lRecursiveCheckValidParamType (PointerType base v c s) false
      = lRecursiveCheckValidParamType base true) /\
  (forall b c v c' s,
      v <> Varying ->
      lRecursiveCheckValidParamType
        (PointerType (AtomicType b Varying c) v c' s) false = true) /\
  (forall n es v c,
      (forall e, e ∈ es -> isLeafType e = true /\ Ty.IsUniformType e = true) ->
      lRecursiveCheckValidParamType (StructType n es v c) false = true).
Proof.
  assert (Hstruct : forall n es v c vectorOk,
             lRecursiveCheckValidParamType (StructType n es v c) vectorOk = true
             <-> forall e, e ∈ es -> lRecursiveCheckValidParamType e vectorOk = true).
  { intros. rewrite lRecursiveCheckValidParamType_struct, forallb_forall.
    split; intros Hall e He; apply Hall; now apply list_elem_of_In. }
  split; [| split; [exact Hstruct | split; [| split; [| split; [| split; [| split]]]]]].
  - intros base v c s Hv. simpl in *. now rewrite Hv.
  - intros n es v c e He Hbad.
    apply not_true_is_false. intros Hok.
    rewrite Hstruct in Hok. specialize (Hok e He).
    destruct Hbad as [[Hleaf Hv] | [[Hptr Hv] | Hvec]].
    + rewrite lRecursiveCheckValidParamType_leaf, Hv in Hok by assumption. discriminate.
    + destruct e; try discriminate. simpl in Hok, Hv. rewrite Hv in Hok. discriminate.
    + destruct e; discriminate.
  - reflexivity.
  - intros t Hleaf Hv. now rewrite lRecursiveCheckValidParamType_leaf, Hv.
  - intros base v c s Hv. simpl in *. now rewrite Hv.
  - intros b c v c' s Hv. simpl. unfold Ty.IsVaryingType. simpl.
    now rewrite bool_decide_eq_false_2.
  - intros n es v c Hall. apply Hstruct. intros e He.
    destruct (Hall e He) as [Hleaf Hu].
    rewrite lRecursiveCheckValidParamType_leaf by assumption.
    unfold Ty.IsUniformType, Ty.IsVaryingType in *.
    apply bool_decide_eq_true in Hu. rewrite Hu. reflexivity.
Qed.

Lemma export_legality_rule_witness :
  lRecursiveCheckValidParamType
    (StructType "S" [AtomicType TYPE_INT32 Uniform false;
                     AtomicType TYPE_FLOAT Varying false] Uniform false) false = false
  /\ lRecursiveCheckValidParamType
       (StructType "U" [AtomicType TYPE_INT32 Uniform false] Uniform false) false = true.
Proof.
  destruct export_legality_rule as (_ & _ & Hrej & _ & _ & _ & _ & Hacc).
  split.
  - apply (Hrej _ _ _ _ (AtomicType TYPE_FLOAT Varying false)).
    + apply list_elem_of_further, list_elem_of_here.
    + left. split; reflexivity.
  - apply Hacc. intros e He. apply list_elem_of_singleton in He as ->.
    split; reflexivity.
Defined.

(** C2 as stated fails in two places: a struct with a varying-typed member
    is accepted when that member is a varying struct whose own members are
    all uniform, and a struct all of whose members are uniform is rejected
    when one of them is a vector. *)
Lemma export_legality_counterexample :
  let inner := StructType "T" [AtomicType TYPE_INT32 Uniform false] Varying false in
  let vec := VectorType (AtomicType TYPE_FLOAT Uniform false) 4 in
  (Ty.IsVaryingType inner = true
   /\ lRecursiveCheckValidParamType (StructType "S" [inner] Uniform false) false = true)
  /\ (Ty.IsUniformType vec = true
      /\ lRecursiveCheckValidParamType (StructType "V" [vec] Uniform false) false = false).
Proof. repeat split. Qed.

(** ** The dispatch function *)

Module DispatchFacts.
Import Dispatch.

Lemma execInstructions_app detected mc a b :
  execInstructions detected mc (a ++ b)
  = match execInstructions detected mc a with
    | inl mc' => execInstructions detected mc' b
    | inr cs => inr cs
    end.
Proof.
  revert mc. induction a as [|i a IH]; intros mc; [reflexivity |]. simpl.
  destruct (execInstruction detected mc i); [apply IH | reflexivity].
Qed.

Section Loop.
Variable targetFuncs : list (option string).
Variable voidReturn : bool.
Variable detected : Z.

(** The variant at level [j] is invoked when the system reaches level
    [j] and no present variant above [j] is within its reach. *)
Lemma lEmitCandidates_invokes (i : nat) :
  forall bblock mc mc' j f,
    loaded detected mc bblock mc' ->
    (j < i)%nat ->
    targetFuncs !! j = Some (Some f) ->
    (Z.of_nat j <= detected)%Z ->
    (forall k g, (j < k < i)%nat -> targetFuncs !! k = Some (Some g) ->
                 (detected < Z.of_nat k)%Z) ->
    execBlock detected mc (lEmitCandidates targetFuncs voidReturn i bblock)
    = Finished (calls mc' ++ [f]).
Proof.
  induction i as [|i IH]; intros bblock mc mc' j f [Hex Hisa] Hj Hf Hle Habove;
    [lia |].
  simpl. destruct (targetFuncs !! i) as [[g|]|] eqn:Hi.
  - simpl. rewrite execInstructions_app, Hex. simpl. rewrite Hisa.
    destruct (decide (j = i)) as [->|Hne].
    + assert (g = f) by congruence. subst g.
      replace (Z.geb detected (Z.of_nat i)) with true
        by (symmetry; apply Z.geb_le; lia).
      reflexivity.
    + assert (Hlt : (detected < Z.of_nat i)%Z) by (apply (Habove i g); [lia | exact Hi]).
      replace (Z.geb detected (Z.of_nat i)) with false
        by (symmetry; rewrite Z.geb_leb; apply Z.leb_gt; lia).
      simpl.
      apply (IH [] _ {| system_isa := detected; isa_ok := false;
                        calls := calls mc' |} j f);
        try assumption; try lia.
      * split; reflexivity.
      * intros k g' Hk. apply Habove. lia.
  - assert (j <> i) by congruence.
    apply (IH bblock mc mc' j f); try assumption; try lia.
    + now split.
    + intros k g' Hk. apply Habove. lia.
  - assert (j <> i) by congruence.
    apply (IH bblock mc mc' j f); try assumption; try lia.
    + now split.
    + intros k g' Hk. apply Habove. lia.
Qed.

(** When every present variant is above the detected level the abort
    call is reached, and no variant is invoked on the way. *)
Lemma lEmitCandidates_aborts (i : nat) :
  forall bblock mc mc',
    loaded detected mc bblock mc' ->
    (forall k g, (k < i)%nat -> targetFuncs !! k = Some (Some g) ->
                 (detected < Z.of_nat k)%Z) ->
    execBlock detected mc (lEmitCandidates targetFuncs voidReturn i bblock)
    = Aborted (calls mc').
Proof.
  induction i as [|i IH]; intros bblock mc mc' [Hex Hisa] Habove.
  - simpl. rewrite execInstructions_app, Hex. reflexivity.
  - simpl. destruct (targetFuncs !! i) as [[g|]|] eqn:Hi.
    + simpl. rewrite execInstructions_app, Hex. simpl. rewrite Hisa.
      assert (Hlt : (detected < Z.of_nat i)%Z) by (apply (Habove i g); [lia | exact Hi]).
      replace (Z.geb detected (Z.of_nat i)) with false
        by (symmetry; rewrite Z.geb_leb; apply Z.leb_gt; lia).
      simpl.
      apply (IH [] _ {| system_isa := detected; isa_ok := false;
                        calls := calls mc' |}).
      * split; reflexivity.
      * intros k g' Hk. apply Habove. lia.
    + apply IH; [now split |]. intros k g' Hk. apply Habove. lia.
    + apply IH; [now split |]. intros k g' Hk. apply Habove. lia.
Qed.

Lemma comparisons_app a b : comparisons (a ++ b) = comparisons a ++ comparisons b.
Proof. apply omap_app. Qed.

(** The levels compared against are exactly the present ones. *)
Lemma elem_of_candidates (i : nat) :
  forall bblock c,
    comparisons bblock = [] ->
    c ∈ candidates (lEmitCandidates targetFuncs voidReturn i bblock)
    <-> exists j f, (j < i)%nat /\ targetFuncs !! j = Some (Some f) /\ c = Z.of_nat j.
Proof.
  induction i as [|i IH]; intros bblock c Hb.
  - simpl. rewrite elem_of_nil. split; [tauto | intros (j & f & Hj & _); lia].
  - simpl. destruct (targetFuncs !! i) as [[g|]|] eqn:Hi.
    + simpl. fold (comparisons (bblock ++ [ICmpSGE (Z.of_nat i)])).
      rewrite comparisons_app, Hb. simpl.
      rewrite elem_of_cons, (IH [] c eq_refl). split.
      * intros [-> | (j & f & Hj & Hf & ->)].
        -- exists i, g. repeat split; [lia | exact Hi].
        -- exists j, f. repeat split; [lia | exact Hf].
      * intros (j & f & Hj & Hf & ->).
        destruct (decide (j = i)) as [-> | Hne]; [now left |].
        right. exists j, f. repeat split; [lia | exact Hf].
    + rewrite (IH bblock c Hb). split; intros (j & f & Hj & Hf & ->);
        exists j, f; (repeat split; [| exact Hf]);
        [lia | destruct (decide (j = i)); [congruence | lia]].
    + rewrite (IH bblock c Hb). split; intros (j & f & Hj & Hf & ->);
        exists j, f; (repeat split; [| exact Hf]);
        [lia | destruct (decide (j = i)); [congruence | lia]].
Qed.

(** They are compared against from the most to the least capable. *)
Lemma candidates_descending (i : nat) :
  forall bblock,
    comparisons bblock = [] ->
    StronglySorted Z.gt (candidates (lEmitCandidates targetFuncs voidReturn i bblock)).
Proof.
  induction i as [|i IH]; intros bblock Hb.
  - simpl. constructor.
  - simpl. destruct (targetFuncs !! i) as [[g|]|] eqn:Hi; try (now apply IH).
    simpl. fold (comparisons (bblock ++ [ICmpSGE (Z.of_nat i)])).
    rewrite comparisons_app, Hb. simpl.
    constructor; [now apply IH |].
    apply List.Forall_forall. intros c Hc.
    apply list_elem_of_In in Hc.
    apply (elem_of_candidates i [] c eq_refl) in Hc as (j & f & Hj & _ & ->). lia.
Qed.

End Loop.

Lemma entry_loaded detected :
  loaded detected {| system_isa := 0; isa_ok := false; calls := [] |}
         [CallSetISA; LoadSystemISA]
         {| system_isa := detected; isa_ok := false; calls := [] |}.
Proof. split; reflexivity. Qed.

(** The assertion of [lGetVaryingDispatchType] holds exactly when a variant
    is present. *)
Lemma lGetVaryingDispatchType_loop funcs (n : nat) :
  match foldl (fun resultFuncTy i =>
                 match funcs !! i with
                 | Some (Some f) => Some f
                 | _ => resultFuncTy
                 end) None (seq 0 n) with
  | Some _ => hasVariant n funcs
  | None => ~ hasVariant n funcs
  end.
Proof.
  induction n as [|n IH].
  - simpl. intros (j & f & Hj & _). lia.
  - rewrite seq_S, foldl_app. simpl.
    destruct (funcs !! n) as [[f|]|] eqn:Hn.
    + exists n, f. split; [lia | exact Hn].
    + destruct (foldl _ None (seq 0 n)).
      * destruct IH as (j & f & Hj & Hf). exists j, f. split; [lia | exact Hf].
      * intros (j & f & Hj & Hf). apply IH. exists j, f. split; [| exact Hf].
        destruct (decide (j = n)) as [-> | Hne]; [congruence | lia].
    + destruct (foldl _ None (seq 0 n)).
      * destruct IH as (j & f & Hj & Hf). exists j, f. split; [lia | exact Hf].
      * intros (j & f & Hj & Hf). apply IH. exists j, f. split; [| exact Hf].
        destruct (decide (j = n)) as [-> | Hne]; [congruence | lia].
Qed.

Lemma lGetVaryingDispatchType_returns NUM_ISAS funcs :
  hasVariant NUM_ISAS funcs ->
  exists ft, lGetVaryingDispatchType NUM_ISAS funcs = Returned ft.
Proof.
  intros Hv. unfold lGetVaryingDispatchType.
  pose proof (lGetVaryingDispatchType_loop funcs NUM_ISAS) as Hloop.
  destruct (foldl _ None (seq 0 NUM_ISAS)) as [ft|]; [now exists ft | contradiction].
Qed.

Lemma lGetVaryingDispatchType_fails NUM_ISAS funcs :
  ~ hasVariant NUM_ISAS funcs ->
  lGetVaryingDispatchType NUM_ISAS funcs = AssertionFailed.
Proof.
  intros Hv. unfold lGetVaryingDispatchType.
  pose proof (lGetVaryingDispatchType_loop funcs NUM_ISAS) as Hloop.
  destruct (foldl _ None (seq 0 NUM_ISAS)) as [ft|]; [contradiction | reflexivity].
Qed.

(** The dispatch function is built exactly when a variant is present and
    the module declares [abort]. *)
Lemma lCreateDispatchFunction_returns NUM_ISAS funcs voidReturn :
  hasVariant NUM_ISAS funcs ->
  lCreateDispatchFunction NUM_ISAS true funcs voidReturn
  = Returned (lEmitCandidates funcs voidReturn NUM_ISAS [CallSetISA; LoadSystemISA]).
Proof.
  intros Hv. unfold lCreateDispatchFunction.
  now destruct (lGetVaryingDispatchType_returns NUM_ISAS funcs Hv) as [ft ->].
Qed.

Lemma lCreateDispatchFunction_fails NUM_ISAS abortFunc funcs voidReturn :
  ~ hasVariant NUM_ISAS funcs \/ abortFunc = false ->
  lCreateDispatchFunction NUM_ISAS abortFunc funcs voidReturn = AssertionFailed.
Proof.
  unfold lCreateDispatchFunction. intros [Hv | ->].
  - now rewrite lGetVaryingDispatchType_fails.
  - now destruct (lGetVaryingDispatchType NUM_ISAS funcs).
Qed.

(** In general: the variant invoked is the most capable present one that
    does not exceed the detected level; without one the call aborts. *)
Lemma lCreateDispatchFunction_best NUM_ISAS funcs voidReturn detected :
  let dispatchFunc :=
    lEmitCandidates funcs voidReturn NUM_ISAS [CallSetISA; LoadSystemISA] in
  (forall j f,
      (j < NUM_ISAS)%nat -> funcs !! j = Some (Some f) ->
      (Z.of_nat j <= detected)%Z ->
      (forall k g, (j < k < NUM_ISAS)%nat -> funcs !! k = Some (Some g) ->
                   (detected < Z.of_nat k)%Z) ->
      run detected dispatchFunc = Finished [f])
  /\ ((forall k g, (k < NUM_ISAS)%nat -> funcs !! k = Some (Some g) ->
                   (detected < Z.of_nat k)%Z) ->
      run detected dispatchFunc = Aborted []).
Proof.
  intros dispatchFunc. split.
  - intros j f Hj Hf Hle Habove.
    apply (lEmitCandidates_invokes funcs voidReturn detected NUM_ISAS _ _ _ j f
             (entry_loaded detected)); assumption.
  - intros Habove.
    apply (lEmitCandidates_aborts funcs voidReturn detected NUM_ISAS _ _ _
             (entry_loaded detected)); assumption.
Qed.

End DispatchFacts.

(** C3.  For variants at the levels 2 and 5 only, the dispatch function
    is built (provided the module declares [abort]; the build fails an
    assertion otherwise).  It compares the detected level against the
    present candidate levels in strictly descending order, with
    "detected >= candidate": a detected level of 5 invokes the level-5
    variant, a detected level of 3 the level-2 variant, and a detected
    level below 2 reaches the abort call without invoking any variant. *)
Theorem dispatch_selects_best_variant
    (NUM_ISAS : nat) (funcs : list (option string)) (voidReturn : bool) (f2 f5 : string) :
  length funcs = NUM_ISAS ->
  funcs !! 2%nat = Some (Some f2) ->
  funcs !! 5%nat = Some (Some f5) ->
  (forall i f, funcs !! i = Some (Some f) -> i = 2%nat \/ i = 5%nat) ->
  Dispatch.lCreateDispatchFunction NUM_ISAS false funcs voidReturn = AssertionFailed /\
  exists dispatchFunc,
    Dispatch.lCreateDispatchFunction NUM_ISAS true funcs voidReturn
    = Returned dispatchFunc /\
    StronglySorted Z.gt (Dispatch.candidates dispatchFunc) /\
    (forall c, c ∈ Dispatch.candidates dispatchFunc <-> c = 5%Z \/ c = 2%Z) /\
    Dispatch.run 5 dispatchFunc = Dispatch.Finished [f5] /\
    Dispatch.run 3 dispatchFunc = Dispatch.Finished [f2] /\
    (forall detected, (detected < 2)%Z ->
                      Dispatch.run detected dispatchFunc = Dispatch.Aborted []).
Proof.
  intros Hlen H2 H5 Honly.
  assert (Hn2 : (2 < NUM_ISAS)%nat) by (rewrite <- Hlen; eapply lookup_lt_Some, H2).
  assert (Hn5 : (5 < NUM_ISAS)%nat) by (rewrite <- Hlen; eapply lookup_lt_Some, H5).
  split; [apply DispatchFacts.lCreateDispatchFunction_fails; now right |].
  eexists. split.
  { apply DispatchFacts.lCreateDispatchFunction_returns. now exists 5%nat, f5. }
  split; [apply DispatchFacts.candidates_descending; reflexivity |].
  split.
  { intros c.
    rewrite DispatchFacts.elem_of_candidates by reflexivity. split.
    - intros (j & f & _ & Hf & ->). destruct (Honly j f Hf) as [-> | ->]; auto.
    - intros [-> | ->]; [exists 5%nat, f5 | exists 2%nat, f2]; auto. }
  split.
  { apply (proj1 (DispatchFacts.lCreateDispatchFunction_best _ _ _ _) 5%nat f5);
      try assumption; try lia;
      intros k g Hk Hg; destruct (Honly k g Hg); lia. }
  split.
  { apply (proj1 (DispatchFacts.lCreateDispatchFunction_best _ _ _ _) 2%nat f2);
      try assumption; try lia;
      intros k g Hk Hg; destruct (Honly k g Hg); lia. }
  intros detected Hd.
  apply (proj2 (DispatchFacts.lCreateDispatchFunction_best _ _ _ _)).
  intros k g Hk Hg. destruct (Honly k g Hg); lia.
Qed.

Lemma dispatch_selects_best_variant_witness :
  let funcs := [None; None; Some "f_sse4"; None; None; Some "f_avx2"; None] in
  exists dispatchFunc,
    Dispatch.lCreateDispatchFunction 7 true funcs true = Returned dispatchFunc
    /\ Dispatch.run 5 dispatchFunc = Dispatch.Finished ["f_avx2"]
    /\ Dispatch.run 3 dispatchFunc = Dispatch.Finished ["f_sse4"]
    /\ Dispatch.run 0 dispatchFunc = Dispatch.Aborted [].
Proof.
  intros funcs.
  assert (Honly : forall i f, funcs !! i = Some (Some f) -> i = 2%nat \/ i = 5%nat).
  { intros [|[|[|[|[|[|[|i]]]]]]] f; simpl; try discriminate; auto. }
  destruct (dispatch_selects_best_variant 7 funcs true "f_sse4" "f_avx2"
              eq_refl eq_refl eq_refl Honly)
    as (_ & dispatchFunc & Hbuilt & _ & _ & H5 & H3 & Hlow).
  exists dispatchFunc.
  split; [exact Hbuilt | split; [exact H5 | split; [exact H3 |]]].
  apply Hlow. lia.
Defined.

(** ** Global variable declarations *)

Section GlobalVariableFacts.
Context `{Collaborators}.

Lemma AddGlobalVariable_wellFormed m name type initExpr isConst storageClass pos
      sized llvmType :
  wellFormedGlobal m name type initExpr storageClass sized llvmType ->
  AddGlobalVariable m name (Some type) initExpr isConst storageClass pos
  = let '(m', llvmInitializer, constValue) :=
      lGlobalInitializer m name sized llvmType initExpr storageClass pos in
    lResolveGlobal m' name sized llvmType isConst storageClass pos
                   llvmInitializer constValue.
Proof.
  intros [Hname Hfun Hsc Hvoid Hsized Helems Hllvm]. unfold AddGlobalVariable.
  apply String.eqb_neq in Hname. rewrite Hname, Hfun.
  rewrite bool_decide_eq_false_2 by assumption.
  now rewrite Hvoid, Hsized, Helems, Hllvm.
Qed.

Lemma getNamedGlobal_app (M : llvmModule) (gv : GlobalVariable) (name : string) :
  getNamedGlobal M name = None ->
  getNamedGlobal (M ++ [gv]) name
  = if String.eqb (gv_name gv) name then Some gv else None.
Proof.
  unfold getNamedGlobal. induction M as [|g M IH]; simpl; [reflexivity |].
  destruct (String.eqb (gv_name g) name); [discriminate | exact IH].
Qed.

Lemma getNamedGlobal_None (M : llvmModule) (name : string) :
  getNamedGlobal M name = None ->
  filter (fun g => gv_name g = name) M = []
  /\ filter (fun g => gv_name g <> name) M = M.
Proof.
  unfold getNamedGlobal. induction M as [|g M IH]; simpl; [intros _; now split |].
  destruct (String.eqb_spec (gv_name g) name) as [Heq|Hne]; [discriminate |].
  intros Hnone. destruct (IH Hnone) as [IH1 IH2].
  rewrite !filter_cons.
  rewrite decide_False by assumption. rewrite decide_True by assumption.
  split; [exact IH1 | now rewrite IH2].
Qed.

Lemma lResolveGlobal_fresh m name type llvmType isConst storageClass pos init :
  SymTab.LookupVariable (symbolTable m) name = None ->
  storageClass <> SC_STATIC ->
  exists m',
    lResolveGlobal m name type llvmType isConst storageClass pos init None
    = Returned m'
    /\ declared m name type llvmType isConst storageClass pos init m'.
Proof.
  intros Hvar Hstatic. unfold lResolveGlobal. rewrite Hvar.
  eexists. split; [reflexivity |].
  unfold declared, lDefineGlobal; simpl.
  rewrite bool_decide_eq_false_2 by assumption.
  repeat split. unfold SymTab.LookupVariable. simpl. apply lookup_insert_eq.
Qed.

End GlobalVariableFacts.

(** C10.  An [extern] declaration with an initializer, of a name not yet
    declared and of a type that passes the earlier checks, reports one
    error and increments the error count, and is processed all the same:
    the Symbol is registered and the global is emitted as an external
    declaration without initializer, the expression being ignored. *)
Theorem extern_with_initializer_is_still_declared `{Collaborators}
    (m : IspcModule) (name : string) (type sized : ispcType)
    (llvmType : LLVM.llvmType) (initExpr : Expr) (isConst : bool) (pos : SourcePos) :
  wellFormedGlobal m name type (Some initExpr) SC_EXTERN sized llvmType ->
  SymTab.LookupVariable (symbolTable m) name = None ->
  exists m',
    AddGlobalVariable m name (Some type) (Some initExpr) isConst SC_EXTERN pos
    = Returned m'
    /\ errorCount m' = S (errorCount m)
    /\ diagnostics m'
       = diagnostics m ++ [{| severity := SevError; diag_pos := pos;
                              message := ExternInitializerError name |}]
    /\ SymTab.LookupVariable (symbolTable m') name
       = Some {| sym_name := name; sym_pos := pos; sym_type := sized;
                 sym_storageClass := SC_EXTERN; sym_constValue := None;
                 sym_storagePtr := Some name |}
    /\ module m'
       = module m ++ [{| gv_name := name; gv_valueType := llvmType;
                         gv_isConstant := isConst; gv_linkage := ExternalLinkage;
                         gv_initializer := None |}].
Proof.
  intros Hwf Hvar.
  rewrite (AddGlobalVariable_wellFormed _ _ _ _ _ _ _ _ _ Hwf).
  change (lGlobalInitializer m name sized llvmType (Some initExpr) SC_EXTERN pos)
    with (Error pos (ExternInitializerError name) m, @None Constant, @None Expr).
  cbv beta iota zeta.
  destruct (lResolveGlobal_fresh (Error pos (ExternInitializerError name) m)
              name sized llvmType isConst SC_EXTERN pos None Hvar ltac:(discriminate))
    as (m' & Hm' & Herr & Hdiag & _ & Hsym & Hmod).
  exists m'. repeat split; assumption.
Qed.

Lemma extern_with_initializer_is_still_declared_witness :
  exists m',
    AddGlobalVariable (H := Examples.collaborators) newModule "x"
      (Some Examples.int32) (Some Examples.one) false SC_EXTERN (Examples.line 1)
    = Returned m'
    /\ errorCount m' = 1
    /\ module m'
       = [{| gv_name := "x"; gv_valueType := LLVM.IntegerTy 32;
             gv_isConstant := false; gv_linkage := ExternalLinkage;
             gv_initializer := None |}].
Proof.
  destruct (extern_with_initializer_is_still_declared (H := Examples.collaborators)
              newModule "x" Examples.int32 Examples.int32 (LLVM.IntegerTy 32)
              Examples.one false (Examples.line 1))
    as (m' & Hm' & Herr & _ & _ & Hmod).
  - split; (reflexivity || discriminate).
  - reflexivity.
  - exists m'. repeat split; assumption.
Defined.

Section Redeclaration.
Context `{Collaborators}.

(** A later declaration of a name whose Symbol has another type is a
    conflict, whatever the storage classes. *)
Lemma lResolveGlobal_type_conflict m name type llvmType isConst storageClass pos
      init constValue sym :
  SymTab.LookupVariable (symbolTable m) name = Some sym ->
  Ty.Equal (sym_type sym) type = false ->
  lResolveGlobal m name type llvmType isConst storageClass pos init constValue
  = Returned (Error pos (ConflictingDeclarationError name (sym_pos sym)) m).
Proof. intros Hsym Hne. unfold lResolveGlobal. now rewrite Hsym, Hne. Qed.

(** A later declaration with another storage class conflicts with an
    earlier one that is not [extern]. *)
Lemma lResolveGlobal_storage_conflict m name type llvmType isConst storageClass pos
      init constValue sym :
  SymTab.LookupVariable (symbolTable m) name = Some sym ->
  isExternClass (sym_storageClass sym) = false ->
  sym_storageClass sym <> storageClass ->
  lResolveGlobal m name type llvmType isConst storageClass pos init constValue
  = Returned (Error pos (ConflictingDeclarationError name (sym_pos sym)) m).
Proof.
  intros Hsym Hext Hsc. unfold lResolveGlobal. rewrite Hsym, Hext.
  rewrite (bool_decide_eq_false_2 _ Hsc). now rewrite orb_true_r.
Qed.

Lemma wellFormedGlobal_declared m m' name type initExpr storageClass sized llvmType
      name' type' llvmType' isConst' storageClass' pos' init' :
  wellFormedGlobal m name type initExpr storageClass sized llvmType ->
  declared m name' type' llvmType' isConst' storageClass' pos' init' m' ->
  wellFormedGlobal m' name type initExpr storageClass sized llvmType.
Proof.
  intros [] (_ & _ & Hfun & _). split; try assumption.
  unfold SymTab.LookupFunction, SymTab.LookupFunctions in *. now rewrite Hfun.
Qed.

End Redeclaration.

(** C1, as the code has it.  For a name not yet declared and a type that
    passes the earlier checks: [extern T x] followed by [T x] succeeds, with
    no error and no warning, one Symbol for the name and one global, now
    defined (zero-initialized).  The opposite order, [T x] followed by
    [extern T x], fails with ConflictingDeclarationError at the second
    declaration, and so does a later [extern T' x] with a different type. *)
Theorem extern_then_definition_resolves `{Collaborators}
    (m : IspcModule) (name : string) (type type' : ispcType)
    (llvmType llvmType' : LLVM.llvmType) (isConst : bool) (pos1 pos2 pos3 : SourcePos) :
  wellFormedGlobal m name type None SC_EXTERN type llvmType ->
  wellFormedGlobal m name type' None SC_EXTERN type' llvmType' ->
  SymTab.LookupVariable (symbolTable m) name = None ->
  getNamedGlobal (module m) name = None ->
  Ty.Equal type type' = false ->
  (exists m1 m2 sym,
      AddGlobalVariable m name (Some type) None isConst SC_EXTERN pos1 = Returned m1
      /\ AddGlobalVariable m1 name (Some type) None isConst SC_NONE pos2 = Returned m2
      /\ errorCount m2 = errorCount m
      /\ diagnostics m2 = diagnostics m
      /\ SymTab.LookupVariable (symbolTable m2) name = Some sym
      /\ sym_type sym = type /\ sym_pos sym = pos1
      /\ filter (fun g => gv_name g = name) (module m2)
         = [{| gv_name := name; gv_valueType := llvmType; gv_isConstant := isConst;
               gv_linkage := ExternalLinkage;
               gv_initializer := Some (NullValue llvmType) |}]
      /\ AddGlobalVariable m2 name (Some type') None isConst SC_EXTERN pos3
         = Returned (Error pos3 (ConflictingDeclarationError name pos1) m2))
  /\ (exists m1,
         AddGlobalVariable m name (Some type) None isConst SC_NONE pos1 = Returned m1
         /\ errorCount m1 = errorCount m
         /\ diagnostics m1 = diagnostics m
         /\ AddGlobalVariable m1 name (Some type) None isConst SC_EXTERN pos2
            = Returned (Error pos2 (ConflictingDeclarationError name pos1) m1)).
Proof.
  intros Hwf Hwf' Hvar Hglob Hne.
  assert (Hwf0 : wellFormedGlobal m name type None SC_NONE type llvmType)
    by (destruct Hwf; split; (assumption || discriminate)).
  split.
  - (* extern T x; T x; extern T' x *)
    destruct (lResolveGlobal_fresh m name type llvmType isConst SC_EXTERN pos1 None
                Hvar ltac:(discriminate)) as (m1 & Hm1 & Hd1).
    pose proof Hd1 as (Herr1 & Hdiag1 & Hfun1 & Hsym1 & Hmod1).
    set (gv1 := {| gv_name := name; gv_valueType := llvmType; gv_isConstant := isConst;
                   gv_linkage := ExternalLinkage; gv_initializer := None |}) in *.
    set (sym1 := {| sym_name := name; sym_pos := pos1; sym_type := type;
                    sym_storageClass := SC_EXTERN; sym_constValue := None;
                    sym_storagePtr := Some name |}) in *.
    set (m2 := lDefineGlobal m1 sym1 (Some gv1) llvmType isConst
                 (Some (NullValue llvmType)) None).
    assert (Hstep2 : AddGlobalVariable m1 name (Some type) None isConst SC_NONE pos2
                     = Returned m2).
    { rewrite (AddGlobalVariable_wellFormed _ _ _ _ _ _ _ _ _
                 (wellFormedGlobal_declared _ _ _ _ _ _ _ _ _ _ _ _ _ _ _ Hwf0 Hd1)).
      change (lGlobalInitializer m1 name type llvmType None SC_NONE pos2)
        with (m1, Some (NullValue llvmType), @None Expr).
      cbv beta iota zeta. unfold lResolveGlobal. rewrite Hsym1.
      simpl. rewrite TyFacts.Equal_refl. simpl.
      rewrite Hmod1, (getNamedGlobal_app _ _ _ Hglob). simpl.
      now rewrite String.eqb_refl. }
    exists m1, m2, {| sym_name := name; sym_pos := pos1; sym_type := type;
                      sym_storageClass := SC_EXTERN; sym_constValue := None;
                      sym_storagePtr := Some name |}.
    split; [| split; [exact Hstep2 |]].
    { rewrite (AddGlobalVariable_wellFormed _ _ _ _ _ _ _ _ _ Hwf). exact Hm1. }
    assert (Hsym2 : SymTab.LookupVariable (symbolTable m2) name
                    = Some {| sym_name := name; sym_pos := pos1; sym_type := type;
                              sym_storageClass := SC_EXTERN; sym_constValue := None;
                              sym_storagePtr := Some name |}).
    { unfold SymTab.LookupVariable. simpl. apply lookup_insert_eq. }
    split; [exact Herr1 |]. split; [exact Hdiag1 |].
    split; [exact Hsym2 |]. split; [reflexivity |]. split; [reflexivity |].
    split.
    + unfold m2, lDefineGlobal. cbn [module gv_name gv1 sym_name sym1].
      rewrite Hmod1. destruct (getNamedGlobal_None _ _ Hglob) as [Hnone Hall].
      rewrite !filter_app, Hall, Hnone.
      rewrite !filter_cons, !filter_nil. subst gv1 sym1. simpl.
      repeat case_decide; simpl in *; congruence.
    + assert (Hwf2 : wellFormedGlobal m2 name type' None SC_EXTERN type' llvmType').
      { destruct Hwf'. split; try assumption.
        unfold SymTab.LookupFunction, SymTab.LookupFunctions in *.
        cbn [m2 lDefineGlobal symbolTable SymTab.SetVariable functions].
        now rewrite Hfun1. }
      rewrite (AddGlobalVariable_wellFormed _ _ _ _ _ _ _ _ _ Hwf2).
      change (lGlobalInitializer m2 name type' llvmType' None SC_EXTERN pos3)
        with (m2, @None Constant, @None Expr).
      cbv beta iota zeta.
      now rewrite (lResolveGlobal_type_conflict _ _ _ _ _ _ _ _ _ _ Hsym2 Hne).
  - (* T x; extern T x *)
    destruct (lResolveGlobal_fresh m name type llvmType isConst SC_NONE pos1
                (Some (NullValue llvmType)) Hvar ltac:(discriminate))
      as (m1 & Hm1 & Hd1).
    pose proof Hd1 as (Herr1 & Hdiag1 & Hfun1 & Hsym1 & Hmod1).
    exists m1. split; [| split; [exact Herr1 | split; [exact Hdiag1 |]]].
    { rewrite (AddGlobalVariable_wellFormed _ _ _ _ _ _ _ _ _ Hwf0). exact Hm1. }
    rewrite (AddGlobalVariable_wellFormed _ _ _ _ _ _ _ _ _
               (wellFormedGlobal_declared _ _ _ _ _ _ _ _ _ _ _ _ _ _ _ Hwf Hd1)).
    change (lGlobalInitializer m1 name type llvmType None SC_EXTERN pos2)
      with (m1, @None Constant, @None Expr).
    cbv beta iota zeta.
    apply (lResolveGlobal_storage_conflict m1 name type llvmType isConst SC_EXTERN
             pos2 None None _ Hsym1); [reflexivity | discriminate].
Qed.

Lemma extern_then_definition_resolves_witness :
  exists m1 m2,
    AddGlobalVariable (H := Examples.collaborators) newModule "x"
      (Some Examples.int32) None false SC_EXTERN (Examples.line 1) = Returned m1
    /\ AddGlobalVariable (H := Examples.collaborators) m1 "x"
         (Some Examples.int32) None false SC_NONE (Examples.line 2) = Returned m2
    /\ errorCount m2 = 0
    /\ AddGlobalVariable (H := Examples.collaborators) m2 "x"
         (Some Examples.float) None false SC_EXTERN (Examples.line 3)
       = Returned (Error (Examples.line 3)
                     (ConflictingDeclarationError "x" (Examples.line 1)) m2).
Proof.
  destruct (extern_then_definition_resolves (H := Examples.collaborators)
              newModule "x" Examples.int32 Examples.float
              (LLVM.IntegerTy 32) LLVM.FloatTy false
              (Examples.line 1) (Examples.line 2) (Examples.line 3))
    as [(m1 & m2 & sym & H1 & H2 & Herr & _ & _ & _ & _ & _ & H3) _].
  - split; (reflexivity || discriminate).
  - split; (reflexivity || discriminate).
  - reflexivity.
  - reflexivity.
  - reflexivity.
  - exists m1, m2. repeat split; assumption.
Defined.

(** C1 as stated fails: after [int x], the declaration [extern int x] is
    rejected with ConflictingDeclarationError and the error count is 1. *)
Lemma definition_then_extern_conflicts :
  exists m1 m2,
    AddGlobalVariable (H := Examples.collaborators) newModule "x"
      (Some Examples.int32) None false SC_NONE (Examples.line 1) = Returned m1
    /\ errorCount m1 = 0
    /\ AddGlobalVariable (H := Examples.collaborators) m1 "x"
         (Some Examples.int32) None false SC_EXTERN (Examples.line 2) = Returned m2
    /\ errorCount m2 = 1
    /\ diagnostics m2
       = [{| severity := SevError; diag_pos := Examples.line 2;
             message := ConflictingDeclarationError "x" (Examples.line 1) |}].
Proof.
  eexists. eexists.
  split; [vm_compute; reflexivity |].
  split; [reflexivity |].
  split; [vm_compute; reflexivity |].
  split; reflexivity.
Qed.

(** ** Function declarations *)

Section FunctionDeclarationFacts.
Context `{Collaborators}.

Lemma toFunctionType_funType (ft : FunctionType) :
  CastType.toFunctionType (funType ft) = Some ft.
Proof. now destruct ft. Qed.

Lemma EqualAll_length (l1 l2 : list ispcType) :
  Ty.EqualAll l1 l2 = true -> length l1 = length l2.
Proof.
  revert l2. induction l1 as [|x l1 IH]; intros [|y l2]; simpl;
    try discriminate; [reflexivity |].
  intros Hall. apply andb_prop in Hall as [_ Hall]. f_equal. now apply IH.
Qed.

(** Function types with different return types are not [Equal]. *)
Lemma Equal_funType_return (ft1 ft2 : FunctionType) :
  Ty.Equal (returnType ft1) (returnType ft2) = false ->
  Ty.Equal (funType ft1) (funType ft2) = false.
Proof.
  intros Hret. unfold funType. rewrite TyFacts.Equal_function, Hret. reflexivity.
Qed.

Lemma exportOverloadErrors_app functionType pos l1 l2 :
  exportOverloadErrors functionType pos (l1 ++ l2)
  = exportOverloadErrors functionType pos l1 ++ exportOverloadErrors functionType pos l2.
Proof. apply flat_map_app. Qed.

Lemma exportOverloadErrors_cons functionType pos o ot l :
  sym_type o = funType ot ->
  exportOverloadErrors functionType pos (o :: l)
  = (if isExported functionType || isExported ot
     then [{| severity := SevError; diag_pos := pos;
              message := ExportOverloadError (sym_pos o) |}]
     else [])
    ++ exportOverloadErrors functionType pos l.
Proof.
  intros Ho. unfold exportOverloadErrors. simpl.
  now rewrite Ho, toFunctionType_funType.
Qed.

Lemma exportOverloadErrors_errors functionType pos l :
  Forall (fun d => exists previous,
              d = {| severity := SevError; diag_pos := pos;
                     message := ExportOverloadError previous |})
         (exportOverloadErrors functionType pos l).
Proof.
  induction l as [|o l IH]; [constructor |].
  unfold exportOverloadErrors. simpl. apply Forall_app. split; [| exact IH].
  destruct (CastType.toFunctionType (sym_type o)) as [ot|]; [| constructor].
  destruct (isExported functionType || isExported ot); repeat constructor. eauto.
Qed.

(** No error is reported for overloads that are passed silently. *)
Lemma exportOverloadErrors_silent functionType pos l :
  Forall (passedSilently functionType) l ->
  exportOverloadErrors functionType pos l = [].
Proof.
  induction 1 as [|o l (ot & Ho & _ & Hexp & _) _ IH]; [reflexivity |].
  rewrite (exportOverloadErrors_cons _ _ _ _ _ Ho), Hexp. exact IH.
Qed.

(** A module is determined by its four parts. *)
Lemma IspcModule_eq (m m' : IspcModule) :
  errorCount m' = errorCount m -> diagnostics m' = diagnostics m ->
  symbolTable m' = symbolTable m -> module m' = module m -> m' = m.
Proof. destruct m, m'; simpl; intros; now subst. Qed.

(** The scan up to an overload of the same type: it returns there, having
    reported the export-qualifier errors of the overloads passed. *)
Lemma lScanOverloads_same (functionType : FunctionType) (pos : SourcePos)
      (before : list Symbol) (first : Symbol) (rest : list Symbol)
      (firstType : FunctionType) :
  Forall (otherParameters functionType) before ->
  sym_type first = funType firstType ->
  Ty.Equal (funType firstType) (funType functionType) = true ->
  forall m, exists m',
    lScanOverloads m functionType pos (before ++ first :: rest) = ScanReturn m'
    /\ symbolTable m' = symbolTable m
    /\ module m' = module m
    /\ diagnostics m' = diagnostics m ++ exportOverloadErrors functionType pos before
    /\ errorCount m'
       = errorCount m + length (exportOverloadErrors functionType pos before).
Proof.
  intros Hbefore Hty Heq.
  induction Hbefore as [|o before (ot & Ho & Hne & Hpar) _ IH]; intros m.
  - simpl. rewrite Hty, toFunctionType_funType, Heq. exists m.
    rewrite app_nil_r. repeat split. lia.
  - rewrite <- app_comm_cons. cbn [lScanOverloads].
    rewrite (exportOverloadErrors_cons _ _ _ _ _ Ho).
    rewrite Ho, toFunctionType_funType, Hne, Hpar.
    destruct (isExported functionType || isExported ot).
    + destruct (IH (Error pos (ExportOverloadError (sym_pos o)) m))
        as (m' & -> & Hst & Hmod & Hdiag & Herr).
      exists m'. split; [reflexivity |]. simpl in *.
      rewrite Hdiag, <- app_assoc. repeat split; try assumption. lia.
    + destruct (IH m) as (m' & -> & Hst & Hmod & Hdiag & Herr).
      exists m'. repeat split; assumption.
Qed.

(** The scan up to an overload with the same parameter types and another
    function type: it returns there with the error about overloading by
    return type, after the export-qualifier errors of the overloads passed
    and of this one. *)
Lemma lScanOverloads_return_type (functionType : FunctionType)
      (pos : SourcePos) (before : list Symbol) (first : Symbol) (rest : list Symbol)
      (firstType : FunctionType) :
  Forall (otherParameters functionType) before ->
  sym_type first = funType firstType ->
  Ty.EqualAll (paramTypes firstType) (paramTypes functionType) = true ->
  Ty.Equal (funType firstType) (funType functionType) = false ->
  forall m, exists m',
    lScanOverloads m functionType pos (before ++ first :: rest) = ScanReturn m'
    /\ symbolTable m' = symbolTable m
    /\ module m' = module m
    /\ diagnostics m'
       = diagnostics m ++ exportOverloadErrors functionType pos (before ++ [first])
         ++ [{| severity := SevError; diag_pos := pos;
                message := ReturnOverloadError (sym_pos first) |}]
    /\ errorCount m'
       = errorCount m
         + length (exportOverloadErrors functionType pos (before ++ [first])) + 1.
Proof.
  intros Hbefore Hty Hparams Hne1.
  induction Hbefore as [|o before (ot & Ho & Hne & Hpar) _ IH]; intros m.
  - cbn [app lScanOverloads]. rewrite Hty, toFunctionType_funType, Hne1.
    unfold sameParameterTypes, GetNumParameters.
    rewrite (EqualAll_length _ _ Hparams), Nat.eqb_refl, Hparams.
    cbn [andb]. rewrite (exportOverloadErrors_cons _ _ _ _ _ Hty).
    destruct (isExported functionType || isExported firstType).
    + eexists. split; [reflexivity |]. simpl.
      rewrite <- app_assoc. repeat split; try reflexivity; try lia.
    + eexists. split; [reflexivity |]. simpl.
      repeat split; try reflexivity; try lia.
  - rewrite <- !app_comm_cons. cbn [lScanOverloads].
    rewrite (exportOverloadErrors_cons _ _ _ _ _ Ho).
    rewrite Ho, toFunctionType_funType, Hne, Hpar.
    destruct (isExported functionType || isExported ot).
    + destruct (IH (Error pos (ExportOverloadError (sym_pos o)) m))
        as (m' & -> & Hst & Hmod & Hdiag & Herr).
      eexists. split; [reflexivity |].
      simpl in *. rewrite Hdiag, <- app_assoc. simpl.
      repeat split; try assumption; try lia.
    + destruct (IH m) as (m' & -> & Hst & Hmod & Hdiag & Herr).
      exists m'. repeat split; assumption.
Qed.

End FunctionDeclarationFacts.

(** C5.  For a declaration that follows an earlier declaration of the
    same name, the overloads declared before the earlier one, if any,
    having other parameter types.  When its function type is [Equal] to
    the earlier one (same return type, qualifiers, parameter types and
    count), it returns without registering anything, the symbol table and
    the globals unchanged; what it reports is one ExportOverloadError for
    each overload passed on the way when it is exported, and for each
    exported overload passed otherwise; it is silent and changes nothing
    exactly when there is none.  When its parameter types and count all
    match the earlier one but the function types are not [Equal], as when
    the return types differ, it fails with ReturnOverloadError (after the
    ExportOverloadErrors for the overloads met) and is not registered: the
    symbol table is unchanged. *)
Theorem function_redeclaration_rules `{Collaborators}
    (m : IspcModule) (name : string) (before : list Symbol) (first : Symbol)
    (rest : list Symbol) (firstType functionType : FunctionType)
    (storageClass : StorageClass) (isInline isNoInline : bool) (pos : SourcePos) :
  SymTab.LookupVariable (symbolTable m) name = None ->
  SymTab.LookupFunctions (symbolTable m) name = before ++ first :: rest ->
  sym_type first = funType firstType ->
  Forall (otherParameters functionType) before ->
  (Ty.Equal (funType firstType) (funType functionType) = true ->
   exists m',
     AddFunctionDeclaration m name functionType storageClass isInline isNoInline pos
     = Returned m'
     /\ symbolTable m' = symbolTable m
     /\ module m' = module m
     /\ diagnostics m' = diagnostics m ++ exportOverloadErrors functionType pos before
     /\ errorCount m'
        = errorCount m + length (exportOverloadErrors functionType pos before)
     /\ (m' = m <-> exportOverloadErrors functionType pos before = [])
     /\ (Forall (passedSilently functionType) before -> m' = m))
  /\ (Ty.EqualAll (paramTypes firstType) (paramTypes functionType) = true ->
      Ty.Equal (funType firstType) (funType functionType) = false ->
      exists m',
        AddFunctionDeclaration m name functionType storageClass isInline isNoInline pos
        = Returned m'
        /\ symbolTable m' = symbolTable m
        /\ module m' = module m
        /\ diagnostics m'
           = diagnostics m ++ exportOverloadErrors functionType pos (before ++ [first])
             ++ [{| severity := SevError; diag_pos := pos;
                    message := ReturnOverloadError (sym_pos first) |}]
        /\ errorCount m < errorCount m')
  /\ (Ty.Equal (returnType firstType) (returnType functionType) = false ->
      Ty.Equal (funType firstType) (funType functionType) = false)
  /\ Forall (fun d => exists previous,
                 d = {| severity := SevError; diag_pos := pos;
                        message := ExportOverloadError previous |})
            (exportOverloadErrors functionType pos (before ++ [first])).
Proof.
  intros Hvar Hfuns Hty Hbefore. unfold AddFunctionDeclaration. rewrite Hvar, Hfuns.
  split; [| split; [| split]].
  - intros Heq.
    destruct (lScanOverloads_same functionType pos before first rest firstType
                Hbefore Hty Heq m) as (m' & -> & Hst & Hmod & Hdiag & Herr).
    exists m'. split; [reflexivity |].
    split; [exact Hst |]. split; [exact Hmod |]. split; [exact Hdiag |].
    split; [exact Herr |].
    assert (Hsilent : exportOverloadErrors functionType pos before = [] -> m' = m).
    { intros Hnone. rewrite Hnone in Hdiag, Herr. simpl in Herr.
      rewrite app_nil_r in Hdiag. apply IspcModule_eq; try assumption. lia. }
    split; [split; [| exact Hsilent] |].
    + intros ->. apply (f_equal (@length _)) in Hdiag.
      rewrite length_app in Hdiag.
      destruct (exportOverloadErrors functionType pos before); [reflexivity |].
      simpl in Hdiag. lia.
    + intros Hpassed. apply Hsilent. now apply exportOverloadErrors_silent.
  - intros Hparams Hne.
    destruct (lScanOverloads_return_type functionType pos before first rest firstType
                Hbefore Hty Hparams Hne m)
      as (m' & -> & Hst & Hmod & Hdiag & Herr).
    exists m'. repeat split; try assumption. lia.
  - apply Equal_funType_return.
  - apply exportOverloadErrors_errors.
Qed.

Lemma function_redeclaration_rules_witness :
  SymTab.LookupFunctions (symbolTable FunctionExamples.declaredTwice) "f"
  = [FunctionExamples.otherDeclaration; FunctionExamples.firstDeclaration]
  /\ AddFunctionDeclaration (H := Examples.collaborators) FunctionExamples.declaredTwice
       "f" FunctionExamples.int_of_int SC_NONE false false (Examples.line 2)
     = Returned FunctionExamples.declaredTwice
  /\ exists m',
      AddFunctionDeclaration (H := Examples.collaborators) FunctionExamples.declaredTwice
        "f" FunctionExamples.float_of_int SC_NONE false false (Examples.line 3)
      = Returned m'
      /\ symbolTable m' = symbolTable FunctionExamples.declaredTwice
      /\ errorCount m' = 1.
Proof.
  assert (Hfuns : SymTab.LookupFunctions (symbolTable FunctionExamples.declaredTwice) "f"
                  = [FunctionExamples.otherDeclaration]
                    ++ FunctionExamples.firstDeclaration :: []) by reflexivity.
  split; [exact Hfuns |].
  split.
  - destruct (function_redeclaration_rules (H := Examples.collaborators)
                FunctionExamples.declaredTwice "f"
                [FunctionExamples.otherDeclaration]
                FunctionExamples.firstDeclaration []
                FunctionExamples.int_of_int FunctionExamples.int_of_int
                SC_NONE false false (Examples.line 2) eq_refl Hfuns eq_refl)
      as (Hsame & _).
    + repeat constructor. exists FunctionExamples.int_of_float. repeat split.
    + destruct (Hsame eq_refl) as (m' & Hm' & _ & _ & _ & _ & Hsilent & _).
      rewrite Hm'. f_equal. now apply Hsilent.
  - destruct (function_redeclaration_rules (H := Examples.collaborators)
                FunctionExamples.declaredTwice "f"
                [FunctionExamples.otherDeclaration]
                FunctionExamples.firstDeclaration []
                FunctionExamples.int_of_int FunctionExamples.float_of_int
                SC_NONE false false (Examples.line 3) eq_refl Hfuns eq_refl)
      as (_ & Hother & _).
    + repeat constructor. exists FunctionExamples.int_of_float. repeat split.
    + destruct (Hother eq_refl eq_refl) as (m' & Hm' & Hst & _).
      exists m'. split; [exact Hm' | split; [exact Hst |]].
      vm_compute in Hm'. injection Hm' as <-. reflexivity.
Defined.

(** C5 as stated fails for a redeclaration with the identical signature:
    after [export int f(int a)] and the overload [int f(float a)], the
    declaration [int f(float a)] once more is not a silent success.  The
    scan meets the exported overload first and reports an
    ExportOverloadError, which is counted, before it reaches the earlier
    declaration of the same type. *)
Lemma function_redeclaration_rules_counterexample :
  let m := FunctionExamples.exportedThenOverloaded in
  SymTab.LookupFunctions (symbolTable m) "f"
  = [FunctionExamples.exportedDeclaration; FunctionExamples.overloadDeclaration]
  /\ Ty.Equal (sym_type FunctionExamples.overloadDeclaration)
              (funType FunctionExamples.int_of_float) = true
  /\ exists m',
      AddFunctionDeclaration (H := Examples.collaborators) m "f"
        FunctionExamples.int_of_float SC_NONE false false (Examples.line 3)
      = Returned m'
      /\ m' <> m
      /\ errorCount m' = S (errorCount m)
      /\ diagnostics m'
         = diagnostics m
           ++ [{| severity := SevError; diag_pos := Examples.line 3;
                  message := ExportOverloadError (Examples.line 1) |}].
Proof.
  intros m. split; [reflexivity |]. split; [reflexivity |].
  eexists. split; [reflexivity |].
  split; [| split; reflexivity].
  intros Heq. apply (f_equal errorCount) in Heq. vm_compute in Heq. discriminate.
Qed.

(** ** Reconciliation of globals *)

Module GlobalsFacts.

Lemma gv_name_demote gv : gv_name (demote gv) = gv_name gv.
Proof. unfold demote. now destruct (isDefinition gv). Qed.

Lemma demote_definition gv : isDefinition gv = true -> demote gv = setInitializer None gv.
Proof. unfold demote. now intros ->. Qed.

(** Extraction: every definition is demoted in the source module and
    copied, in order, to the end of the destination module. *)
Lemma lExtractOrCheckGlobals_extract (m : IspcModule) (msrc : llvmModule) :
  forall mdst,
    (forall gv, gv ∈ msrc -> isDefinition gv = true ->
                is_Some (SymTab.LookupVariable (symbolTable m) (gv_name gv))) ->
    lExtractOrCheckGlobals m msrc mdst false
    = Returned (m, demote <$> msrc,
                mdst ++ (canonical <$> filter (fun gv => isDefinition gv = true) msrc)).
Proof.
  induction msrc as [|gv msrc IH]; intros mdst Hsym.
  - simpl. now rewrite app_nil_r.
  - cbn [lExtractOrCheckGlobals]. fold (isDefinition gv).
    assert (Hrest : forall g, g ∈ msrc -> isDefinition g = true ->
                              is_Some (SymTab.LookupVariable (symbolTable m) (gv_name g)))
      by (intros g Hg; apply Hsym; now right).
    rewrite filter_cons, fmap_cons.
    assert (Hgv : demote gv = if isDefinition gv then setInitializer None gv else gv)
      by reflexivity.
    destruct (isDefinition gv) eqn:Hdef; rewrite Hgv.
    + destruct (Hsym gv ltac:(left) Hdef) as [sym ->].
      rewrite decide_True by reflexivity.
      rewrite (IH _ Hrest). rewrite fmap_cons, <- app_assoc. reflexivity.
    + rewrite decide_False by discriminate. now rewrite (IH _ Hrest).
Qed.

(** Checking: the destination module is left as it is, the definitions
    of the source module are demoted, and only warnings are issued. *)
Lemma lExtractOrCheckGlobals_check (msrc : llvmModule) :
  forall m mdst,
    (forall gv, gv ∈ msrc -> isDefinition gv = true ->
                is_Some (SymTab.LookupVariable (symbolTable m) (gv_name gv))
                /\ is_Some (getGlobalVariable mdst (gv_name gv))) ->
    exists m',
      lExtractOrCheckGlobals m msrc mdst true = Returned (m', demote <$> msrc, mdst)
      /\ errorCount m' = errorCount m
      /\ symbolTable m' = symbolTable m
      /\ module m' = module m
      /\ diagnostics m' = diagnostics m ++ mismatches (symbolTable m) mdst msrc.
Proof.
  induction msrc as [|gv msrc IH]; intros m mdst Hok.
  - exists m. simpl. now rewrite app_nil_r.
  - cbn [lExtractOrCheckGlobals mismatches flat_map]. fold (isDefinition gv).
    fold (mismatches (symbolTable m) mdst msrc).
    assert (Hrest : forall m0, symbolTable m0 = symbolTable m ->
               forall g, g ∈ msrc -> isDefinition g = true ->
                         is_Some (SymTab.LookupVariable (symbolTable m0) (gv_name g))
                         /\ is_Some (getGlobalVariable mdst (gv_name g))).
    { intros m0 -> g Hg. apply Hok. now right. }
    rewrite fmap_cons.
    assert (Hgv : demote gv = if isDefinition gv then setInitializer None gv else gv)
      by reflexivity.
    destruct (isDefinition gv) eqn:Hdef; rewrite Hgv.
    + destruct (Hok gv ltac:(left) Hdef) as [[sym ->] [existing ->]].
      destruct (lCompatibleTypes (gv_getType existing) (gv_getType gv)); simpl.
      * destruct (IH m mdst (Hrest m eq_refl)) as (m' & -> & He & Hs & Hm & Hd).
        exists m'. repeat split; assumption.
      * destruct (IH (Warning (sym_pos sym) (GlobalLayoutMismatch (gv_name gv)) m) mdst
                    (Hrest _ eq_refl)) as (m' & -> & He & Hs & Hm & Hd).
        exists m'. repeat split; try assumption.
        rewrite Hd. simpl. now rewrite <- app_assoc.
    + destruct (IH m mdst (Hrest m eq_refl)) as (m' & -> & He & Hs & Hm & Hd).
      exists m'. repeat split; assumption.
Qed.

(** A checking pass that returns has found every definition. *)
Lemma lExtractOrCheckGlobals_check_found (msrc : llvmModule) :
  forall m mdst r,
    lExtractOrCheckGlobals m msrc mdst true = Returned r ->
    forall gv, gv ∈ msrc -> isDefinition gv = true ->
               is_Some (getGlobalVariable mdst (gv_name gv)).
Proof.
  induction msrc as [|g msrc IH]; intros m mdst r Hret gv Hgv Hdef.
  - now apply elem_of_nil in Hgv.
  - cbn [lExtractOrCheckGlobals] in Hret. fold (isDefinition g) in Hret.
    apply elem_of_cons in Hgv as [-> | Hgv].
    + rewrite Hdef in Hret.
      destruct (SymTab.LookupVariable (symbolTable m) (gv_name g)); [| discriminate].
      destruct (getGlobalVariable mdst (gv_name g)); [eauto | discriminate].
    + destruct (isDefinition g).
      * destruct (SymTab.LookupVariable (symbolTable m) (gv_name g)); [| discriminate].
        destruct (getGlobalVariable mdst (gv_name g)); [| discriminate].
        match type of Hret with
        | context [lExtractOrCheckGlobals ?m0 msrc mdst true] =>
            destruct (lExtractOrCheckGlobals m0 msrc mdst true) as [r0|] eqn:Hrec;
            [apply (IH _ _ _ Hrec gv Hgv Hdef) | discriminate]
        end.
      * match type of Hret with
        | context [lExtractOrCheckGlobals ?m0 msrc mdst true] =>
            destruct (lExtractOrCheckGlobals m0 msrc mdst true) as [r0|] eqn:Hrec;
            [apply (IH _ _ _ Hrec gv Hgv Hdef) | discriminate]
        end.
Qed.

Lemma mismatches_warnings st mdst msrc :
  Forall (fun d => severity d = SevWarning) (mismatches st mdst msrc).
Proof.
  unfold mismatches. induction msrc as [|gv msrc IH]; simpl; [constructor |].
  apply Forall_app. split; [| exact IH].
  destruct (isDefinition gv); [| constructor].
  destruct (SymTab.LookupVariable st (gv_name gv)); [| constructor].
  destruct (getGlobalVariable mdst (gv_name gv)); [| constructor].
  destruct (lCompatibleTypes _ _); simpl; repeat constructor.
Qed.

Lemma mismatches_reported st mdst msrc gv sym existing :
  gv ∈ msrc -> isDefinition gv = true ->
  SymTab.LookupVariable st (gv_name gv) = Some sym ->
  getGlobalVariable mdst (gv_name gv) = Some existing ->
  lCompatibleTypes (gv_getType existing) (gv_getType gv) = false ->
  {| severity := SevWarning; diag_pos := sym_pos sym;
     message := GlobalLayoutMismatch (gv_name gv) |} ∈ mismatches st mdst msrc.
Proof.
  intros Hgv Hdef Hsym Hex Hcompat. unfold mismatches.
  apply list_elem_of_In, in_flat_map. exists gv. split; [now apply list_elem_of_In |].
  rewrite Hdef, Hsym, Hex, Hcompat. now left.
Qed.

Lemma filter_name_absent (M : llvmModule) (name : string) :
  (forall g, g ∈ M -> gv_name g <> name) ->
  filter (fun g => gv_name g = name) M = [].
Proof.
  induction M as [|g M IH]; intros Hne; [reflexivity |].
  rewrite filter_cons, decide_False by (apply Hne; now left).
  apply IH. intros g' Hg'. apply Hne. now right.
Qed.

(** With distinct names, the globals of a name among the images of the
    selected globals are the image of the one global of that name. *)
Lemma filter_name_unique (f : GlobalVariable -> GlobalVariable) (P : GlobalVariable -> bool)
      (M : llvmModule) (gv : GlobalVariable) :
  (forall g, gv_name (f g) = gv_name g) ->
  NoDup (gv_name <$> M) -> gv ∈ M -> P gv = true ->
  filter (fun g => gv_name g = gv_name gv) (f <$> filter (fun g => P g = true) M) = [f gv].
Proof.
  intros Hf. induction M as [|g M IH]; intros Hnd Hgv HP.
  - now apply elem_of_nil in Hgv.
  - rewrite fmap_cons in Hnd. apply NoDup_cons in Hnd as [Hfresh Hnd].
    rewrite filter_cons. apply elem_of_cons in Hgv as [<- | Hgv].
    + rewrite decide_True by assumption.
      rewrite fmap_cons, filter_cons, decide_True by apply Hf.
      f_equal. apply filter_name_absent. intros g' Hg'.
      apply list_elem_of_fmap in Hg' as (g0 & -> & Hg0).
      apply list_elem_of_filter in Hg0 as [_ Hg0]. rewrite Hf.
      intros Heq. apply Hfresh. rewrite <- Heq. apply list_elem_of_fmap. eauto.
    + assert (Hne : gv_name g <> gv_name gv).
      { intros Heq. apply Hfresh. rewrite Heq. apply list_elem_of_fmap. eauto. }
      destruct (decide (P g = true)).
      * rewrite fmap_cons, filter_cons, decide_False by (rewrite Hf; exact Hne).
        now apply IH.
      * now apply IH.
Qed.

(** What is left of a global is never a definition, and differs from the
    global in the initializer only. *)
Lemma demote_not_definition gv : isDefinition (demote gv) = false.
Proof.
  unfold demote. destruct (isDefinition gv) eqn:Hdef; [| exact Hdef].
  unfold isDefinition, hasInitializer. simpl. apply andb_false_r.
Qed.

Lemma demote_cleared gv :
  isDefinition gv = true ->
  gv_initializer (demote gv) = None
  /\ hasInitializer (demote gv) = false
  /\ gv_name (demote gv) = gv_name gv
  /\ gv_valueType (demote gv) = gv_valueType gv
  /\ gv_isConstant (demote gv) = gv_isConstant gv
  /\ gv_linkage (demote gv) = gv_linkage gv.
Proof. intros Hdef. rewrite (demote_definition gv Hdef). repeat split. Qed.

Lemma not_definition_demote (msrc : llvmModule) :
  Forall (fun own => isDefinition own = false) (demote <$> msrc).
Proof.
  apply Forall_fmap, Forall_forall. intros gv _. apply demote_not_definition.
Qed.

Lemma getNamedGlobal_fmap (f : GlobalVariable -> GlobalVariable) (M : llvmModule)
      (gv : GlobalVariable) :
  (forall g, gv_name (f g) = gv_name g) ->
  NoDup (gv_name <$> M) -> gv ∈ M ->
  getNamedGlobal (f <$> M) (gv_name gv) = Some (f gv).
Proof.
  intros Hf. unfold getNamedGlobal. induction M as [|g M IH]; intros Hnd Hgv.
  - now apply elem_of_nil in Hgv.
  - rewrite fmap_cons in Hnd. apply NoDup_cons in Hnd as [Hfresh Hnd].
    simpl. rewrite Hf. apply elem_of_cons in Hgv as [<- | Hgv].
    + now rewrite String.eqb_refl.
    + destruct (String.eqb_spec (gv_name g) (gv_name gv)) as [Heq | _].
      * exfalso. apply Hfresh. rewrite Heq. apply list_elem_of_fmap. eauto.
      * now apply IH.
Qed.

(** A pass reports warnings only: whatever it finds, it leaves the error
    count and the symbol table of the module as they are. *)
Lemma lExtractOrCheckGlobals_errorCount (msrc : llvmModule) :
  forall m mdst check m' msrc' mdst',
    lExtractOrCheckGlobals m msrc mdst check = Returned (m', msrc', mdst') ->
    errorCount m' = errorCount m /\ symbolTable m' = symbolTable m.
Proof.
  induction msrc as [|gv msrc IH]; intros m mdst check m' msrc' mdst' Hret.
  - simpl in Hret. injection Hret as <- _ _. now split.
  - cbn [lExtractOrCheckGlobals] in Hret. fold (isDefinition gv) in Hret.
    assert (Hstep : forall m0 kept mdst0,
              match lExtractOrCheckGlobals m0 msrc mdst0 check with
              | Returned (m1, rest, mdst1) => Returned (m1, kept :: rest, mdst1)
              | AssertionFailed => AssertionFailed
              end = Returned (m', msrc', mdst') ->
              errorCount m' = errorCount m0 /\ symbolTable m' = symbolTable m0).
    { intros m0 kept mdst0 H0.
      destruct (lExtractOrCheckGlobals m0 msrc mdst0 check) as [[[m1 rest] mdst1]|] eqn:Hrec;
        [| discriminate].
      injection H0 as <- _ _. exact (IH _ _ _ _ _ _ Hrec). }
    destruct (isDefinition gv); [| exact (Hstep _ _ _ Hret)].
    destruct (SymTab.LookupVariable (symbolTable m) (gv_name gv)) as [sym|];
      [| discriminate].
    destruct check; [| exact (Hstep _ _ _ Hret)].
    destruct (getGlobalVariable mdst (gv_name gv)) as [existing|]; [| discriminate].
    apply Hstep in Hret.
    destruct (negb (lCompatibleTypes (gv_getType existing) (gv_getType gv)));
      exact Hret.
Qed.

End GlobalsFacts.

(** C4.  Extraction from the module of the first target (whose globals
    have distinct names, each definition having its Symbol, and none being
    defined yet in the reconciled module) returns, and leaves in the
    reconciled module exactly one global, the definition with its
    initializer, for each externally-linked initialized global of that
    module.  The module's own copy of such a global has its initializer
    cleared: the global found under the name in the source module has no
    initializer and is otherwise unchanged, and no global of the source
    module is a definition any more.  For the module of any later target
    the reconciled module is only read: a pass that returns has found every
    definition (the lookup is asserted), it leaves the reconciled module
    and the error count as they are, it clears the initializers of the
    module's own definitions in the same way, and what it reports are
    warnings only, one for each definition whose type is not compatible. *)
Theorem globals_reconciled_once (m : IspcModule) (msrc mdst0 : llvmModule) :
  NoDup (gv_name <$> msrc) ->
  (forall gv, gv ∈ msrc -> isDefinition gv = true ->
              is_Some (SymTab.LookupVariable (symbolTable m) (gv_name gv))
              /\ getNamedGlobal mdst0 (gv_name gv) = None) ->
  exists mdst,
    lExtractOrCheckGlobals m msrc mdst0 false
    = Returned (m, demote <$> msrc, mdst)
    /\ (forall gv, gv ∈ msrc -> isDefinition gv = true ->
          filter (fun g => gv_name g = gv_name gv) mdst = [canonical gv]
          /\ gv_initializer (canonical gv) = gv_initializer gv
          /\ getNamedGlobal (demote <$> msrc) (gv_name gv)
             = Some (setInitializer None gv))
    /\ (forall gv, gv ∈ msrc -> isDefinition gv = true ->
          exists own,
            getNamedGlobal (demote <$> msrc) (gv_name gv) = Some own
            /\ gv_initializer own = None
            /\ hasInitializer own = false
            /\ gv_name own = gv_name gv
            /\ gv_valueType own = gv_valueType gv
            /\ gv_isConstant own = gv_isConstant gv
            /\ gv_linkage own = gv_linkage gv)
    /\ Forall (fun own => isDefinition own = false) (demote <$> msrc)
    /\ (forall m2 msrc2,
          (forall r, lExtractOrCheckGlobals m2 msrc2 mdst true = Returned r ->
                     forall gv, gv ∈ msrc2 -> isDefinition gv = true ->
                                is_Some (getGlobalVariable mdst (gv_name gv)))
          /\ ((forall gv, gv ∈ msrc2 -> isDefinition gv = true ->
                 is_Some (SymTab.LookupVariable (symbolTable m2) (gv_name gv))
                 /\ is_Some (getGlobalVariable mdst (gv_name gv))) ->
              exists m2',
                lExtractOrCheckGlobals m2 msrc2 mdst true
                = Returned (m2', demote <$> msrc2, mdst)
                /\ errorCount m2' = errorCount m2
                /\ diagnostics m2'
                   = diagnostics m2 ++ mismatches (symbolTable m2) mdst msrc2
                /\ Forall (fun d => severity d = SevWarning)
                          (mismatches (symbolTable m2) mdst msrc2)
                /\ (forall gv sym existing,
                      gv ∈ msrc2 -> isDefinition gv = true ->
                      SymTab.LookupVariable (symbolTable m2) (gv_name gv) = Some sym ->
                      getGlobalVariable mdst (gv_name gv) = Some existing ->
                      lCompatibleTypes (gv_getType existing) (gv_getType gv) = false ->
                      {| severity := SevWarning; diag_pos := sym_pos sym;
                         message := GlobalLayoutMismatch (gv_name gv) |}
                      ∈ mismatches (symbolTable m2) mdst msrc2)
                /\ Forall (fun own => isDefinition own = false) (demote <$> msrc2)
                /\ (forall i gv, msrc2 !! i = Some gv -> isDefinition gv = true ->
                      exists own,
                        (demote <$> msrc2) !! i = Some own
                        /\ gv_initializer own = None
                        /\ hasInitializer own = false
                        /\ gv_name own = gv_name gv
                        /\ gv_valueType own = gv_valueType gv
                        /\ gv_isConstant own = gv_isConstant gv
                        /\ gv_linkage own = gv_linkage gv))).
Proof.
  intros Hnd Hdefs.
  eexists. split; [| split; [| split; [| split]]].
  - apply GlobalsFacts.lExtractOrCheckGlobals_extract.
    intros gv Hgv Hdef. now destruct (Hdefs gv Hgv Hdef).
  - intros gv Hgv Hdef. destruct (Hdefs gv Hgv Hdef) as [_ Hfresh].
    split; [| split; [reflexivity |]].
    + rewrite filter_app.
      destruct (getNamedGlobal_None _ _ Hfresh) as [-> _]. simpl.
      now apply GlobalsFacts.filter_name_unique.
    + rewrite <- (GlobalsFacts.demote_definition gv Hdef).
      apply GlobalsFacts.getNamedGlobal_fmap;
        [apply GlobalsFacts.gv_name_demote | assumption | assumption].
  - intros gv Hgv Hdef. exists (demote gv). split.
    + apply GlobalsFacts.getNamedGlobal_fmap;
        [apply GlobalsFacts.gv_name_demote | assumption | assumption].
    + now apply GlobalsFacts.demote_cleared.
  - apply GlobalsFacts.not_definition_demote.
  - intros m2 msrc2. split.
    + intros r Hr. apply (GlobalsFacts.lExtractOrCheckGlobals_check_found _ _ _ _ Hr).
    + intros Hok.
      destruct (GlobalsFacts.lExtractOrCheckGlobals_check msrc2 m2 _ Hok)
        as (m2' & Hret & Herr & _ & _ & Hdiag).
      exists m2'. split; [exact Hret |]. split; [exact Herr |].
      split; [exact Hdiag |].
      split; [apply GlobalsFacts.mismatches_warnings |].
      split; [intros gv sym existing; apply GlobalsFacts.mismatches_reported |].
      split; [apply GlobalsFacts.not_definition_demote |].
      intros i gv Hi Hdef. exists (demote gv). split.
      * rewrite list_lookup_fmap, Hi. reflexivity.
      * now apply GlobalsFacts.demote_cleared.
Qed.

Lemma globals_reconciled_once_witness :
  exists msrc mdst own,
    lExtractOrCheckGlobals GlobalsExamples.firstTarget
      (module GlobalsExamples.firstTarget) [] false
    = Returned (GlobalsExamples.firstTarget, msrc, mdst)
    /\ filter (fun g => gv_name g = "counter") mdst
       = [canonical GlobalsExamples.counter]
    /\ hasInitializer GlobalsExamples.counter = true
    /\ getNamedGlobal msrc "counter" = Some own
    /\ gv_initializer own = None
    /\ hasInitializer own = false
    /\ gv_valueType own = LLVM.IntegerTy 32
    /\ gv_linkage own = ExternalLinkage.
Proof.
  destruct (globals_reconciled_once GlobalsExamples.firstTarget
              (module GlobalsExamples.firstTarget) [])
    as (mdst & Hret & Hone & Hown & _).
  - apply (bool_decide_unpack _). vm_compute. exact I.
  - intros gv Hgv Hdef. simpl in Hgv.
    apply elem_of_cons in Hgv as [-> | Hgv].
    + split; [eexists; reflexivity | reflexivity].
    + apply list_elem_of_singleton in Hgv as ->. discriminate.
  - destruct (Hown GlobalsExamples.counter) as (own & Hfound & Hinit & Hhas & _ & Hty & _ & Hlink);
      [apply list_elem_of_here | reflexivity |].
    exists (demote <$> module GlobalsExamples.firstTarget), mdst, own.
    split; [exact Hret |]. split.
    { apply (Hone GlobalsExamples.counter); [apply list_elem_of_here | reflexivity]. }
    split; [reflexivity |]. split; [exact Hfound |].
    split; [exact Hinit |]. split; [exact Hhas |]. split; [exact Hty | exact Hlink].
Defined.

(** ** The result of the driver *)

Module DriverFacts.
Import Driver.



Section Sound.
Context `{Environment} {U : Units}.






End Sound.



End DriverFacts.




(* ===================================================================== *)
(** * Part III: further properties of the embedded code                  *)
(* ===================================================================== *)

(** ** Compatibility of IR types is an equivalence *)

Section CompatibleTypesMore.
Import LLVM.

(** What a successful comparison says about the second type. *)
Lemma lCompatibleTypes_inv (a b : llvmType) :
  lCompatibleTypes a b = true ->
  match a with
  | ArrayTy n e1 => exists e2, b = ArrayTy n e2 /\ lCompatibleTypes e1 e2 = true
  | PointerTy e1 _ => exists e2 s, b = PointerTy e2 s /\ lCompatibleTypes e1 e2 = true
  | StructTy _ p es => exists n, b = StructTy n p es
  | _ => b = a
  end.
Proof.
  destruct a; intros Hc; cbn [lCompatibleTypes] in Hc;
    try (destruct (TypeID_eq_dec _ _) in Hc; [| discriminate];
         apply sameType_true in Hc; now subst).
  - destruct b; try discriminate.
    apply isLayoutIdentical_spec in Hc as [-> ->]. eauto.
  - destruct b; try discriminate.
    destruct (Nat.eqb_spec numElements numElements0); [| discriminate].
    subst. eauto.
  - destruct b; try discriminate. eauto.
Qed.

Lemma lCompatibleTypes_trans (a : llvmType) :
  forall b c,
    lCompatibleTypes a b = true -> lCompatibleTypes b c = true ->
    lCompatibleTypes a c = true.
Proof.
  induction a; intros b c Hab Hbc;
    pose proof (lCompatibleTypes_inv _ _ Hab) as Hb; cbn beta iota in Hb;
    try (subst b; exact Hbc).
  - destruct Hb as (n & ->).
    pose proof (lCompatibleTypes_inv _ _ Hbc) as (n' & ->).
    apply (proj2 (isLayoutIdentical_spec _ _ _ _ _ _)). now split.
  - destruct Hb as (e2 & -> & He).
    pose proof (lCompatibleTypes_inv _ _ Hbc) as (e3 & -> & He').
    simpl. rewrite Nat.eqb_refl. simpl. now apply (IHa e2 e3).
  - destruct Hb as (e2 & s & -> & He).
    pose proof (lCompatibleTypes_inv _ _ Hbc) as (e3 & s' & -> & He').
    simpl. now apply (IHa e2 e3).
Qed.

End CompatibleTypesMore.

(** X1.  Compatibility is transitive (with C7: an equivalence relation),
    and compatible types always have the same type id. *)
Theorem lCompatibleTypes_equivalence (a b c : LLVM.llvmType) :
  lCompatibleTypes a b = true ->
  (lCompatibleTypes b c = true -> lCompatibleTypes a c = true)
  /\ LLVM.getTypeID a = LLVM.getTypeID b.
Proof.
  intros Hab. split.
  - intros Hbc. now apply (lCompatibleTypes_trans a b c).
  - pose proof (lCompatibleTypes_inv _ _ Hab) as Hb.
    destruct a; cbn beta iota in Hb;
      try (now subst);
      try (destruct Hb as (? & -> & _); reflexivity);
      try (destruct Hb as (? & ? & -> & _); reflexivity).
    destruct Hb as (? & ->); reflexivity.
Qed.

Lemma lCompatibleTypes_equivalence_witness :
  lCompatibleTypes (LLVM.PointerTy (LLVM.StructTy (Some "a") false [LLVM.FloatTy]) 0)
                   (LLVM.PointerTy (LLVM.StructTy (Some "c") false [LLVM.FloatTy]) 2)
  = true.
Proof.
  apply (lCompatibleTypes_equivalence
           (LLVM.PointerTy (LLVM.StructTy (Some "a") false [LLVM.FloatTy]) 0)
           (LLVM.PointerTy (LLVM.StructTy (Some "b") false [LLVM.FloatTy]) 1)
           (LLVM.PointerTy (LLVM.StructTy (Some "c") false [LLVM.FloatTy]) 2));
    reflexivity.
Defined.

(** ** Unescaping of dependency paths *)

Module UnescapeFacts.
Import Deps.

Lemma lUnescapeString_no_backslash (s : string) :
  (forall i, String.get i s <> Some "\"%char) -> lUnescapeString s = s.
Proof.
  induction s as [|c s IH]; intros Hno; [reflexivity |].
  assert (Hc : Ascii.eqb c "\" = false).
  { apply Ascii.eqb_neq. intros ->. now apply (Hno 0). }
  cbn [lUnescapeString]. rewrite Hc. f_equal. apply IH.
  intros i. apply (Hno (S i)).
Qed.

(** One pass never lengthens the string; proved for a string and for the
    string with one more character in front, as the pass looks ahead. *)
Lemma lUnescapeString_length_step (s : string) :
  String.length (lUnescapeString s) <= String.length s
  /\ forall c, String.length (lUnescapeString (String c s)) <= S (String.length s).
Proof.
  induction s as [|a s [IHs IHc]].
  - split; [simpl; lia |]. intros c. simpl. destruct (Ascii.eqb c "\"); simpl; lia.
  - split; [apply IHc |]. intros c.
    change (lUnescapeString (String c (String a s)))
      with (if Ascii.eqb c "\" then
              match unescape_seq a with
              | Some esc => String esc (lUnescapeString s)
              | None => String c (lUnescapeString (String a s))
              end
            else String c (lUnescapeString (String a s))).
    specialize (IHc a).
    destruct (Ascii.eqb c "\"); [destruct (unescape_seq a) |];
      cbn [String.length] in *; lia.
Qed.

(** A recognised escape pair at the front becomes one character, and the
    pass goes on behind it. *)
Lemma lUnescapeString_pair (next esc : ascii) (rest : string) :
  unescape_seq next = Some esc ->
  lUnescapeString (String "\" (String next rest)) = String esc (lUnescapeString rest).
Proof. intros Hseq. cbn [lUnescapeString]. simpl. now rewrite Hseq. Qed.

End UnescapeFacts.

(** X2.  [lUnescapeStringInPlace] leaves a path without backslash as it
    is, never lengthens a string, and turns a recognised escape pair into
    its one character (so an escaped backslash becomes one backslash that
    is not read again as the start of an escape). *)
Theorem lUnescapeString_behaviour (s : string) :
  ((forall i, String.get i s <> Some "\"%char) -> Deps.lUnescapeString s = s)
  /\ String.length (Deps.lUnescapeString s) <= String.length s
  /\ (forall next esc,
        Deps.unescape_seq next = Some esc ->
        Deps.lUnescapeString (String "\" (String next s))
        = String esc (Deps.lUnescapeString s))
  /\ Deps.lUnescapeString (String "\" (String "\" (String "n" s)))
     = String "\" (String "n" (Deps.lUnescapeString s)).
Proof.
  split; [apply UnescapeFacts.lUnescapeString_no_backslash |].
  split; [apply UnescapeFacts.lUnescapeString_length_step |].
  split; [intros next esc; apply UnescapeFacts.lUnescapeString_pair |].
  rewrite (UnescapeFacts.lUnescapeString_pair "\" "\" _ eq_refl).
  reflexivity.
Qed.

Lemma lUnescapeString_behaviour_witness :
  Deps.lUnescapeString "src/a b.h" = "src/a b.h"
  /\ Deps.lUnescapeString (String "\" (String "\" "x")) = String "\" "x".
Proof.
  destruct (lUnescapeString_behaviour "src/a b.h") as (Hplain & _).
  destruct (lUnescapeString_behaviour "x") as (_ & _ & Hpair & _).
  split.
  - apply Hplain. intros i.
    do 10 (destruct i as [|i]; [discriminate |]). discriminate.
  - rewrite (Hpair "\"%char "\"%char eq_refl). reflexivity.
Defined.

(** ** Splitting the target list *)

Module ExtractTargetsFacts.
Import Driver.

Lemma lExtractTargets_nonempty (s : string) : lExtractTargets s <> [].
Proof.
  destruct s as [|c s]; [discriminate |]. simpl.
  destruct (Ascii.eqb c ","); [discriminate |].
  destruct (lExtractTargets s); discriminate.
Qed.

Lemma concat_cons_char (c : ascii) (t : string) (ts : list string) :
  String.concat "," (String c t :: ts) = String c (String.concat "," (t :: ts)).
Proof. destruct ts; reflexivity. Qed.

Lemma lExtractTargets_concat (s : string) :
  String.concat "," (lExtractTargets s) = s.
Proof.
  induction s as [|c s IH]; [reflexivity |]. simpl.
  destruct (Ascii.eqb_spec c ",") as [-> | Hne].
  - pose proof (lExtractTargets_nonempty s) as Hn.
    destruct (lExtractTargets s) as [|t ts]; [contradiction |].
    change (String.concat "," ("" :: t :: ts))
      with ("" +:+ "," +:+ String.concat "," (t :: ts)).
    now rewrite IH.
  - pose proof (lExtractTargets_nonempty s) as Hn.
    destruct (lExtractTargets s) as [|t ts]; [contradiction |].
    rewrite concat_cons_char. now rewrite IH.
Qed.

Lemma lExtractTargets_no_comma (s : string) :
  Forall (fun t => CString.strrchr t "," = None) (lExtractTargets s).
Proof.
  induction s as [|c s IH]; [repeat constructor |]. simpl.
  destruct (Ascii.eqb c ",") eqn:Hc.
  - constructor; [reflexivity | exact IH].
  - destruct (lExtractTargets s) as [|t ts]; [repeat constructor; simpl; now rewrite Hc |].
    apply Forall_cons in IH as [Ht Hts]. constructor; [| exact Hts].
    simpl. now rewrite Ht, Hc.
Qed.

Lemma lExtractTargets_length (s : string) :
  length (lExtractTargets s) = S (commas s).
Proof.
  induction s as [|c s IH]; [reflexivity |]. simpl.
  destruct (Ascii.eqb c ","); simpl; [now rewrite IH |].
  destruct (lExtractTargets s); simpl in *; [discriminate | exact IH].
Qed.

Lemma hasComma_commas (s : string) : hasComma s = true <-> 0 < commas s.
Proof.
  unfold hasComma. induction s as [|c s IH]; simpl; [split; [discriminate | lia] |].
  destruct (CString.strrchr s ",").
  - split; [| reflexivity]. intros _.
    assert (0 < commas s) by now apply IH. lia.
  - destruct (Ascii.eqb c ","); simpl; [split; [lia | reflexivity] |].
    exact IH.
Qed.

End ExtractTargetsFacts.

(** X3.  [lExtractTargets] splits at the commas and nowhere else: joining
    the pieces with commas gives the string back, no piece holds a comma,
    there is one piece more than there are commas, so a string with a
    comma gives at least two targets (the [Assert] that follows the call in
    [CompileAndOutput] holds) and a string without comma is its own single
    target. *)
Theorem lExtractTargets_round_trip (target : string) :
  String.concat "," (Driver.lExtractTargets target) = target
  /\ Forall (fun t => CString.strrchr t "," = None) (Driver.lExtractTargets target)
  /\ length (Driver.lExtractTargets target) = S (commas target)
  /\ (Driver.hasComma target = true -> 1 < length (Driver.lExtractTargets target))
  /\ (Driver.hasComma target = false -> Driver.lExtractTargets target = [target]).
Proof.
  pose proof (ExtractTargetsFacts.lExtractTargets_concat target) as Hcat.
  pose proof (ExtractTargetsFacts.lExtractTargets_length target) as Hlen.
  split; [exact Hcat |].
  split; [apply ExtractTargetsFacts.lExtractTargets_no_comma |].
  split; [exact Hlen |].
  split.
  - intros Hc. apply ExtractTargetsFacts.hasComma_commas in Hc. lia.
  - intros Hc.
    assert (Hz : commas target = 0).
    { destruct (commas target) eqn:Hn; [reflexivity |].
      assert (Driver.hasComma target = true)
        by (apply ExtractTargetsFacts.hasComma_commas; lia).
      congruence. }
    rewrite Hz in Hlen.
    destruct (Driver.lExtractTargets target) as [|t [|t' ts]]; try discriminate.
    simpl in Hcat. now subst.
Qed.

Lemma lExtractTargets_round_trip_witness :
  1 < length (Driver.lExtractTargets "sse4,avx2,")
  /\ Driver.lExtractTargets "avx2" = ["avx2"].
Proof.
  split.
  - apply (lExtractTargets_round_trip "sse4,avx2,"). reflexivity.
  - apply (lExtractTargets_round_trip "avx2"). reflexivity.
Defined.

(** ** The make rule of the dependency listing *)

Module MakeRuleFacts.
Import Deps.

Lemma ruleDeps_entries (sn : string) (names : list string) :
  ruleDeps sn names = RuleDep <$> depEntries (ruleDeps sn names).
Proof.
  induction names as [|x names IH]; [reflexivity |]. simpl.
  destruct (isSource sn (lUnescapeString x)); [exact IH |].
  cbn. f_equal. exact IH.
Qed.

Lemma isSource_false (sn x : string) :
  IsStdin sn = false -> isSource sn x = false -> x <> sn.
Proof.
  unfold isSource. intros -> Hx. simpl in Hx.
  apply String.eqb_neq in Hx. congruence.
Qed.

End MakeRuleFacts.

(** X4.  A make rule is always written.  Its source file comes first,
    right after the target, and is not listed again among the dependencies
    even when the preprocessor reported it; every other registered name is
    listed, unescaped, in the increasing order of the registered names.
    When the source is standard input no source line is written and every
    registered name is listed. *)
Theorem make_rule_lists_source_once (tn sn : string) (deps : gset string) :
  exists ls,
    Deps.writeDeps true true tn sn deps = Some ls
    /\ (IsStdin sn = false ->
        ls = Deps.RuleTarget tn :: Deps.RuleSource sn
             :: (Deps.RuleDep <$> Deps.depEntries ls)
        /\ (sn ∉ Deps.depEntries ls)
        /\ Deps.depEntries ls
           = filter (fun e => e <> sn) (Deps.lUnescapeString <$> Deps.inOrder deps)
        /\ (forall f, f ∈ deps -> Deps.lUnescapeString f <> sn ->
                      Deps.lUnescapeString f ∈ Deps.depEntries ls))
    /\ (IsStdin sn = true ->
        ls = Deps.RuleTarget tn :: (Deps.RuleDep <$> Deps.depEntries ls)
        /\ Deps.depEntries ls = Deps.lUnescapeString <$> Deps.inOrder deps)
    /\ (forall f, f ∈ Deps.inOrder deps <-> f ∈ deps)
    /\ (forall i j a b, Deps.inOrder deps !! i = Some a ->
                        Deps.inOrder deps !! j = Some b ->
                        i < j -> String.compare a b = Lt).
Proof.
  eexists. split; [reflexivity |].
  rewrite DepsFacts.depEntries_rule.
  pose proof (MakeRuleFacts.ruleDeps_entries sn (Deps.inOrder deps)) as Hrule.
  split; [| split; [| split;
    [apply DepsFacts.elem_of_inOrder | apply DepsFacts.inOrder_increasing]]];
    intros Hstdin; rewrite Hstdin; simpl.
  - split; [now rewrite <- Hrule |].
    rewrite DepsFacts.depEntries_ruleDeps. split; [| split].
    + intros Hin. apply list_elem_of_fmap in Hin as (f & Hf & Hin).
      apply list_elem_of_filter in Hin as [Hsrc _].
      now apply (MakeRuleFacts.isSource_false sn (Deps.lUnescapeString f) Hstdin Hsrc).
    + clear Hrule. induction (Deps.inOrder deps) as [|x l IH]; [reflexivity |].
      rewrite fmap_cons, !filter_cons, <- IH.
      assert (Hsrc : Deps.isSource sn (Deps.lUnescapeString x)
                     = String.eqb sn (Deps.lUnescapeString x))
        by (unfold Deps.isSource; now rewrite Hstdin).
      destruct (String.eqb_spec sn (Deps.lUnescapeString x)) as [Heq | Hne].
      * rewrite decide_False by (rewrite Hsrc; discriminate).
        now rewrite decide_False by (intros Hx; now apply Hx).
      * rewrite decide_True by (now rewrite Hsrc).
        now rewrite decide_True by congruence.
    + intros f Hf Hne. apply list_elem_of_fmap. exists f. split; [reflexivity |].
      apply list_elem_of_filter. split; [| now apply DepsFacts.elem_of_inOrder].
      unfold Deps.isSource. rewrite Hstdin. simpl.
      apply String.eqb_neq. congruence.
  - split; [now rewrite <- Hrule |].
    rewrite DepsFacts.depEntries_ruleDeps. f_equal. clear Hrule.
    induction (Deps.inOrder deps) as [|x l IH]; [reflexivity |].
    rewrite filter_cons, decide_True;
      [now rewrite IH | unfold Deps.isSource; now rewrite Hstdin].
Qed.

Lemma make_rule_lists_source_once_witness :
  exists ls,
    Deps.writeDeps true true "a.o" "a.ispc"
      (Deps.reportAll ["c.h"; "a.ispc"; "b.h"]) = Some ls
    /\ ls = [Deps.RuleTarget "a.o"; Deps.RuleSource "a.ispc";
             Deps.RuleDep "b.h"; Deps.RuleDep "c.h"]
    /\ ("a.ispc" ∉ Deps.depEntries ls)
    /\ ("b.h" ∈ Deps.depEntries ls).
Proof.
  destruct (make_rule_lists_source_once "a.o" "a.ispc"
              (Deps.reportAll ["c.h"; "a.ispc"; "b.h"]))
    as (ls & Hw & Hfile & _).
  exists ls. split; [exact Hw |].
  destruct (Hfile eq_refl) as (_ & Hnot & _ & Hall).
  split; [| split; [exact Hnot |]].
  - vm_compute in Hw. now injection Hw as <-.
  - apply (Hall "b.h"); [| discriminate].
    apply DepsFacts.elem_of_reportAll. split.
    + apply list_elem_of_further, list_elem_of_further, list_elem_of_here.
    + split; discriminate.
Defined.

(** ** The dispatch function in general *)

Module DispatchSearch.
Import Dispatch.

(** Among the levels below [i] there is a most capable present variant
    within reach of the detected level, or none is within reach. *)
Lemma best_variant (funcs : list (option string)) (detected : Z) (i : nat) :
  (exists j f, (j < i)%nat /\ funcs !! j = Some (Some f)
               /\ (Z.of_nat j <= detected)%Z
               /\ (forall k g, (j < k < i)%nat -> funcs !! k = Some (Some g) ->
                               (detected < Z.of_nat k)%Z))
  \/ (forall k g, (k < i)%nat -> funcs !! k = Some (Some g) ->
                  (detected < Z.of_nat k)%Z).
Proof.
  induction i as [|i IH]; [right; intros; lia |].
  destruct (funcs !! i) as [[f|]|] eqn:Hi.
  - destruct (Z_le_gt_dec (Z.of_nat i) detected) as [Hle | Hgt].
    + left. exists i, f. split; [lia |]. split; [exact Hi |]. split; [lia |]. intros; lia.
    + destruct IH as [(j & g & Hj & Hg & Hle & Habove) | Hnone].
      * left. exists j, g. split; [lia |]. split; [exact Hg |]. split; [exact Hle |].
        intros k h Hk Hh. destruct (decide (k = i)) as [-> | Hne]; [lia |].
        apply (Habove k h); [lia | exact Hh].
      * right. intros k h Hk Hh. destruct (decide (k = i)) as [-> | Hne]; [lia |].
        apply (Hnone k h); [lia | exact Hh].
  - destruct IH as [(j & g & Hj & Hg & Hle & Habove) | Hnone].
    + left. exists j, g. split; [lia |]. split; [exact Hg |]. split; [exact Hle |].
      intros k h Hk Hh. destruct (decide (k = i)) as [-> | Hne]; [congruence |].
      apply (Habove k h); [lia | exact Hh].
    + right. intros k h Hk Hh. destruct (decide (k = i)) as [-> | Hne]; [congruence |].
      apply (Hnone k h); [lia | exact Hh].
  - destruct IH as [(j & g & Hj & Hg & Hle & Habove) | Hnone].
    + left. exists j, g. split; [lia |]. split; [exact Hg |]. split; [exact Hle |].
      intros k h Hk Hh. destruct (decide (k = i)) as [-> | Hne]; [congruence |].
      apply (Habove k h); [lia | exact Hh].
    + right. intros k h Hk Hh. destruct (decide (k = i)) as [-> | Hne]; [congruence |].
      apply (Hnone k h); [lia | exact Hh].
Qed.

End DispatchSearch.

(** X5.  The dispatch function of a set of variants is built exactly when
    at least one variant is present and the module declares [abort]; the
    build fails an assertion otherwise.  Once built, for any detected level
    a call of it does one of two things: it invokes exactly one variant,
    the present one of the highest level that the detected level reaches,
    and returns; or no present variant is within reach, and it reaches the
    call of [abort] without having invoked anything.  The levels it compares
    against are exactly those of the present variants, from the highest
    down. *)
Theorem dispatch_invokes_one_variant_or_aborts
    (NUM_ISAS : nat) (abortFunc : bool) (funcs : list (option string))
    (voidReturn : bool) :
  (Dispatch.lCreateDispatchFunction NUM_ISAS abortFunc funcs voidReturn = AssertionFailed
   <-> ~ Dispatch.hasVariant NUM_ISAS funcs \/ abortFunc = false)
  /\ (Dispatch.hasVariant NUM_ISAS funcs -> abortFunc = true ->
      exists dispatchFunc,
        Dispatch.lCreateDispatchFunction NUM_ISAS abortFunc funcs voidReturn
        = Returned dispatchFunc
        /\ (forall detected,
              (exists j f, (j < NUM_ISAS)%nat /\ funcs !! j = Some (Some f)
                           /\ (Z.of_nat j <= detected)%Z
                           /\ (forall k g, (j < k < NUM_ISAS)%nat ->
                                           funcs !! k = Some (Some g) ->
                                           (detected < Z.of_nat k)%Z)
                           /\ Dispatch.run detected dispatchFunc = Dispatch.Finished [f])
              \/ ((forall k g, (k < NUM_ISAS)%nat -> funcs !! k = Some (Some g) ->
                               (detected < Z.of_nat k)%Z)
                  /\ Dispatch.run detected dispatchFunc = Dispatch.Aborted []))
        /\ StronglySorted Z.gt (Dispatch.candidates dispatchFunc)
        /\ (forall c, c ∈ Dispatch.candidates dispatchFunc
                      <-> exists j f, (j < NUM_ISAS)%nat /\ funcs !! j = Some (Some f)
                                      /\ c = Z.of_nat j)).
Proof.
  split.
  - split; [| apply DispatchFacts.lCreateDispatchFunction_fails].
    intros Hfail.
    destruct abortFunc; [left | now right].
    intros Hv. rewrite DispatchFacts.lCreateDispatchFunction_returns in Hfail by exact Hv.
    discriminate.
  - intros Hv ->. eexists.
    split; [now apply DispatchFacts.lCreateDispatchFunction_returns |].
    split; [| split].
    + intros detected.
      destruct (DispatchFacts.lCreateDispatchFunction_best NUM_ISAS funcs voidReturn
                  detected) as [Hbest Habort].
      destruct (DispatchSearch.best_variant funcs detected NUM_ISAS)
        as [(j & f & Hj & Hf & Hle & Habove) | Hnone].
      * left. exists j, f. split; [exact Hj |]. split; [exact Hf |].
        split; [exact Hle |]. split; [exact Habove |]. now apply (Hbest j f).
      * right. split; [exact Hnone | now apply Habort].
    + apply DispatchFacts.candidates_descending. reflexivity.
    + intros c. apply DispatchFacts.elem_of_candidates. reflexivity.
Qed.

Lemma dispatch_invokes_one_variant_or_aborts_witness :
  let funcs := [None; Some "f_sse2"; None; Some "f_avx"] in
  Dispatch.lCreateDispatchFunction 4 true [None; None; None; None] true = AssertionFailed
  /\ exists dispatchFunc,
       Dispatch.lCreateDispatchFunction 4 true funcs true = Returned dispatchFunc
       /\ Dispatch.run 2 dispatchFunc = Dispatch.Finished ["f_sse2"]
       /\ Dispatch.run 0 dispatchFunc = Dispatch.Aborted []
       /\ Dispatch.candidates dispatchFunc = [3%Z; 1%Z].
Proof.
  intros funcs. split.
  - apply (dispatch_invokes_one_variant_or_aborts 4 true [None; None; None; None] true).
    left. intros (j & f & Hj & Hf).
    destruct j as [|[|[|[|j]]]]; simpl in Hf; try discriminate; lia.
  - destruct (dispatch_invokes_one_variant_or_aborts 4 true funcs true) as [_ Hbuilt].
    destruct Hbuilt as (dispatchFunc & Hbuilt & _);
      [exists 1%nat, "f_sse2"; split; [lia | reflexivity] | reflexivity |].
    exists dispatchFunc. split; [exact Hbuilt |].
    vm_compute in Hbuilt. injection Hbuilt as <-. repeat split.
Defined.

(** ** The state kept by the declarations *)

Module StateFacts.

Lemma reports_refl m : reports m m.
Proof. exists []. rewrite app_nil_r. split; [reflexivity | simpl; lia]. Qed.

Lemma reports_trans m1 m2 m3 : reports m1 m2 -> reports m2 m3 -> reports m1 m3.
Proof.
  intros (ds1 & Hd1 & He1) (ds2 & Hd2 & He2). exists (ds1 ++ ds2).
  rewrite Hd2, Hd1, He2, He1, filter_app, length_app, <- app_assoc.
  split; [reflexivity | lia].
Qed.

Lemma reports_errorCount m m' : reports m m' -> errorCount m <= errorCount m'.
Proof. intros (ds & _ & He). lia. Qed.

Lemma frame_refl m : frame m m.
Proof. repeat split. apply reports_refl. Qed.

Lemma frame_trans m1 m2 m3 : frame m1 m2 -> frame m2 m3 -> frame m1 m3.
Proof.
  intros (Hs1 & Hm1 & Hr1) (Hs2 & Hm2 & Hr2).
  split; [congruence | split; [congruence | eapply reports_trans; eassumption]].
Qed.

Lemma frame_Error pos msg m : frame m (Error pos msg m).
Proof.
  split; [reflexivity | split; [reflexivity |]].
  eexists. split; [reflexivity |]. simpl. lia.
Qed.

Lemma frame_Warning pos msg m : frame m (Warning pos msg m).
Proof.
  split; [reflexivity | split; [reflexivity |]].
  eexists. split; [reflexivity |]. simpl. lia.
Qed.

Lemma frame_report ds m : frame m (report ds m).
Proof.
  split; [reflexivity | split; [reflexivity |]].
  exists ds. split; reflexivity.
Qed.

Lemma Error_errorCount pos msg m : errorCount m < errorCount (Error pos msg m).
Proof. simpl. lia. Qed.

(** Consistency does not depend on the diagnostics, as long as the errors
    are counted. *)
Lemma consistent_frame m m' : consistent m -> frame m m' -> consistent m'.
Proof.
  intros [Hn He Hd Ho Hf Hdis Hnd Hc] (Hs & Hm & ds & Hds & Herr).
  split; rewrite ?Hs, ?Hm; try assumption.
  rewrite Herr, Hds, filter_app, length_app, Hc. reflexivity.
Qed.

End StateFacts.

Module GlobalListFacts.

Lemma getNamedGlobal_Some (M : llvmModule) (n : string) (g : GlobalVariable) :
  getNamedGlobal M n = Some g -> g ∈ M /\ gv_name g = n.
Proof.
  unfold getNamedGlobal. intros Hfind. apply List.find_some in Hfind as [Hin Heq].
  split; [now apply list_elem_of_In | now apply String.eqb_eq].
Qed.

Lemma getNamedGlobal_elem_of (M : llvmModule) (g : GlobalVariable) :
  g ∈ M -> is_Some (getNamedGlobal M (gv_name g)).
Proof.
  unfold getNamedGlobal. induction M as [|g' M IH]; intros Hin.
  - now apply elem_of_nil in Hin.
  - simpl. destruct (String.eqb_spec (gv_name g') (gv_name g)); [eauto |].
    apply elem_of_cons in Hin as [-> | Hin]; [congruence | now apply IH].
Qed.

(** The global that replaces the globals of its name is the one found
    under that name; the globals of other names are found as before. *)
Lemma getNamedGlobal_replace (M : llvmModule) (gv : GlobalVariable) (k : string) :
  getNamedGlobal (filter (fun g => gv_name g <> gv_name gv) M ++ [gv]) k
  = if String.eqb (gv_name gv) k then Some gv else getNamedGlobal M k.
Proof.
  unfold getNamedGlobal. induction M as [|g M IH].
  - simpl. destruct (String.eqb (gv_name gv) k); reflexivity.
  - rewrite filter_cons. destruct (decide (gv_name g <> gv_name gv)) as [Hne | Heq].
    + simpl. destruct (String.eqb_spec (gv_name g) k) as [Hk | Hk].
      * destruct (String.eqb_spec (gv_name gv) k); [congruence | reflexivity].
      * exact IH.
    + assert (Hsame : gv_name g = gv_name gv)
        by (destruct (decide (gv_name g = gv_name gv)); [assumption | contradiction]).
      rewrite IH. simpl. rewrite Hsame.
      destruct (String.eqb (gv_name gv) k); reflexivity.
Qed.

Lemma NoDup_replace (M : llvmModule) (gv : GlobalVariable) :
  NoDup (gv_name <$> M) ->
  NoDup (gv_name <$> (filter (fun g => gv_name g <> gv_name gv) M ++ [gv])).
Proof.
  intros Hnd. rewrite fmap_app. apply NoDup_app. split; [| split].
  - induction M as [|g M IH]; [constructor |].
    rewrite fmap_cons in Hnd. apply NoDup_cons in Hnd as [Hfresh Hnd].
    rewrite filter_cons. destruct (decide (gv_name g <> gv_name gv)); [| now apply IH].
    rewrite fmap_cons. apply NoDup_cons. split; [| now apply IH].
    intros Hin. apply Hfresh. apply list_elem_of_fmap in Hin as (g' & -> & Hg').
    apply list_elem_of_filter in Hg' as [_ Hg']. apply list_elem_of_fmap. eauto.
  - intros n Hin Hin'. simpl in Hin'. apply list_elem_of_singleton in Hin' as ->.
    apply list_elem_of_fmap in Hin as (g' & Heq & Hg').
    apply list_elem_of_filter in Hg' as [Hne _]. congruence.
  - simpl. apply NoDup_singleton.
Qed.

End GlobalListFacts.

Ltac frame_tac :=
  repeat first
    [ apply StateFacts.frame_refl
    | assumption
    | eapply StateFacts.frame_trans;
      [| first [ apply StateFacts.frame_Error
               | apply StateFacts.frame_Warning
               | apply StateFacts.frame_report ] ] ].

Section GlobalState.
Context `{Collaborators}.

Lemma lGlobalInitializer_frame m name type llvmType initExpr sc pos m' init cv :
  lGlobalInitializer m name type llvmType initExpr sc pos = (m', init, cv) ->
  frame m m' /\ (isExternClass sc = false -> is_Some init).
Proof.
  unfold lGlobalInitializer. intros Heq.
  destruct (isExternClass sc) eqn:Hsc.
  - destruct initExpr; injection Heq as <- <- <-; (split; [frame_tac | discriminate]).
  - match type of Heq with
    | match ?X with _ => _ end = _ => destruct X as [[m1 i1] c1] eqn:Hinner
    end.
    assert (Hframe : frame m m1).
    { clear Heq.
      repeat match goal with
             | Hx : context [match ?X with _ => _ end] |- _ => destruct X eqn:?
             end;
        simplify_eq; frame_tac. }
    destruct i1; injection Heq as <- <- <-; (split; [exact Hframe | eauto]).
Qed.

Lemma lDefineGlobal_module m sym oldGV llvmType isConst init cv :
  consistent m ->
  match oldGV with
  | Some old => getNamedGlobal (module m) (sym_name sym) = Some old
  | None => variables (symbolTable m) !! sym_name sym = None
  end ->
  let gv := {| gv_name := sym_name sym; gv_valueType := llvmType;
               gv_isConstant := isConst;
               gv_linkage := if bool_decide (sym_storageClass sym = SC_STATIC)
                             then InternalLinkage else ExternalLinkage;
               gv_initializer := init |} in
  module (lDefineGlobal m sym oldGV llvmType isConst init cv)
  = filter (fun g => gv_name g <> gv_name gv) (module m) ++ [gv].
Proof.
  intros Hm Hold gv. unfold lDefineGlobal. cbn [module].
  destruct oldGV as [old|].
  - apply GlobalListFacts.getNamedGlobal_Some in Hold as [_ Hname].
    rewrite Hname. reflexivity.
  - f_equal. symmetry. apply getNamedGlobal_None.
    destruct (getNamedGlobal (module m) (sym_name sym)) as [g|] eqn:Hg; [| exact Hg].
    apply GlobalListFacts.getNamedGlobal_Some in Hg as [Hin Hname].
    apply (globals_declared m Hm) in Hin. rewrite Hname, Hold in Hin.
    now destruct Hin.
Qed.

Lemma lDefineGlobal_consistent m sym oldGV llvmType isConst init cv :
  consistent m ->
  SymTab.LookupFunction (symbolTable m) (sym_name sym) = false ->
  match oldGV with
  | Some old => getNamedGlobal (module m) (sym_name sym) = Some old
  | None => variables (symbolTable m) !! sym_name sym = None
  end ->
  (isExternClass (sym_storageClass sym) = false -> is_Some init) ->
  consistent (lDefineGlobal m sym oldGV llvmType isConst init cv).
Proof.
  intros Hm Hfun Hold Hinit.
  pose proof (lDefineGlobal_module m sym oldGV llvmType isConst init cv Hm Hold) as Hmod.
  cbv zeta in Hmod.
  destruct Hm as [Hn He Hd Ho Hf Hdis Hnd Hc].
  split; rewrite ?Hmod.
  - intros k s Hk. cbn in Hk.
    apply lookup_insert_Some in Hk as [[<- <-] | [Hne Hk]]; [now split | now apply Hn].
  - intros k s Hk. cbn in Hk. rewrite GlobalListFacts.getNamedGlobal_replace. cbn [gv_name].
    apply lookup_insert_Some in Hk as [[<- <-] | [Hne Hk]].
    + rewrite String.eqb_refl. eexists. split; [reflexivity |]. cbn. split; [| reflexivity].
      intros Hext. destruct (Hinit Hext) as [c ->]. reflexivity.
    + destruct (String.eqb_spec (sym_name sym) k); [contradiction |]. now apply (He k).
  - intros g Hg. cbn. apply elem_of_app in Hg as [Hg | Hg].
    + apply list_elem_of_filter in Hg as [_ Hg]. apply lookup_insert_is_Some'. right.
      now apply Hd.
    + apply list_elem_of_singleton in Hg as ->. cbn. rewrite lookup_insert_eq. eauto.
  - now apply GlobalListFacts.NoDup_replace.
  - exact Hf.
  - exact Hdis.
  - intros k Hk. cbn in Hk. apply lookup_insert_is_Some' in Hk as [<- | Hk].
    + exact Hfun.
    + now apply Hnd.
  - exact Hc.
Qed.

Lemma lDefineGlobal_reports m sym oldGV llvmType isConst init cv :
  reports m (lDefineGlobal m sym oldGV llvmType isConst init cv)
  /\ functions (symbolTable (lDefineGlobal m sym oldGV llvmType isConst init cv))
     = functions (symbolTable m).
Proof.
  split; [| reflexivity]. exists []. cbn. rewrite app_nil_r. split; [reflexivity | lia].
Qed.

Lemma lResolveGlobal_consistent m name type llvmType isConst sc pos init cv :
  consistent m ->
  SymTab.LookupFunction (symbolTable m) name = false ->
  (isExternClass sc = false -> is_Some init) ->
  exists m',
    lResolveGlobal m name type llvmType isConst sc pos init cv = Returned m'
    /\ consistent m' /\ reports m m'
    /\ functions (symbolTable m') = functions (symbolTable m).
Proof.
  intros Hm Hfun Hinit. unfold lResolveGlobal, SymTab.LookupVariable.
  assert (Herror : forall msg,
             consistent (Error pos msg m) /\ reports m (Error pos msg m)
             /\ functions (symbolTable (Error pos msg m)) = functions (symbolTable m)).
  { intros msg. pose proof (StateFacts.frame_Error pos msg m) as Hfr.
    split; [now apply (StateFacts.consistent_frame m) |].
    split; [apply Hfr | reflexivity]. }
  destruct (variables (symbolTable m) !! name) as [sym|] eqn:Hvar.
  - destruct (variables_named m Hm name sym Hvar) as [Hname Hptr].
    destruct (variables_emitted m Hm name sym Hvar) as (gv & Hgv & _ & _).
    destruct (negb (Ty.Equal (sym_type sym) type)
              || negb (isExternClass (sym_storageClass sym))
                 && negb (bool_decide (sym_storageClass sym = sc))) eqn:Hconflict;
      [eexists; split; [reflexivity | apply Herror] |].
    rewrite Hptr. cbn [mbind option_bind]. rewrite Hgv.
    destruct (hasInitializer gv && negb (isExternClass (sym_storageClass sym)));
      [eexists; split; [reflexivity | apply Herror] |].
    eexists. split; [reflexivity |].
    split; [| apply lDefineGlobal_reports].
    apply lDefineGlobal_consistent; rewrite ?Hname; try assumption.
    intros Hext. apply Hinit.
    apply orb_false_iff in Hconflict as [_ Hconflict]. rewrite Hext in Hconflict.
    simpl in Hconflict. apply negb_false_iff, bool_decide_eq_true in Hconflict.
    now rewrite <- Hconflict.
  - eexists. split; [reflexivity |].
    split; [| apply lDefineGlobal_reports].
    apply lDefineGlobal_consistent; cbn [sym_name sym_storageClass]; assumption.
Qed.

(** A later declaration of a variable that has been defined is turned
    down with an error. *)
Lemma lResolveGlobal_defined m name type llvmType isConst sc pos init cv sym :
  consistent m ->
  variables (symbolTable m) !! name = Some sym ->
  isExternClass (sym_storageClass sym) = false ->
  exists msg, lResolveGlobal m name type llvmType isConst sc pos init cv
              = Returned (Error pos msg m).
Proof.
  intros Hm Hvar Hext. unfold lResolveGlobal, SymTab.LookupVariable. rewrite Hvar.
  destruct (variables_named m Hm name sym Hvar) as [Hname Hptr].
  destruct (variables_emitted m Hm name sym Hvar) as (gv & Hgv & Hinit & _).
  destruct (negb (Ty.Equal (sym_type sym) type)
            || negb (isExternClass (sym_storageClass sym))
               && negb (bool_decide (sym_storageClass sym = sc)));
    [eexists; reflexivity |].
  rewrite Hptr. cbn [mbind option_bind]. rewrite Hgv, (Hinit Hext), Hext.
  eexists; reflexivity.
Qed.

End GlobalState.

Lemma consistent_newModule : consistent newModule.
Proof.
  split; cbn; try (intros * Hk; rewrite lookup_empty in Hk; discriminate).
  - intros gv Hgv. now apply elem_of_nil in Hgv.
  - constructor.
  - intros name [s Hk]. rewrite lookup_empty in Hk. discriminate.
  - reflexivity.
Qed.

(** X6.  [AddGlobalVariable] keeps the declaration state consistent, only
    appends diagnostics (counting the errors among them) and leaves the
    functions alone; from a consistent state its only failing assertion is
    the one for a missing name or type when no error has been reported:
    the global that an earlier Symbol points to is always there. *)
Theorem AddGlobalVariable_keeps_consistent `{Collaborators}
    (m : IspcModule) (name : string) (type : option ispcType) (initExpr : option Expr)
    (isConst : bool) (storageClass : StorageClass) (pos : SourcePos) :
  consistent m ->
  match AddGlobalVariable m name type initExpr isConst storageClass pos with
  | Returned m' =>
      consistent m' /\ reports m m'
      /\ functions (symbolTable m') = functions (symbolTable m)
  | AssertionFailed => (name = "" \/ type = None) /\ errorCount m = 0
  end.
Proof.
  intros Hm.
  assert (Hsame : consistent m /\ reports m m
                  /\ functions (symbolTable m) = functions (symbolTable m))
    by (split; [exact Hm | split; [apply StateFacts.reports_refl | reflexivity]]).
  assert (Herror : forall msg,
             consistent (Error pos msg m) /\ reports m (Error pos msg m)
             /\ functions (symbolTable (Error pos msg m)) = functions (symbolTable m)).
  { intros msg. pose proof (StateFacts.frame_Error pos msg m) as Hfr.
    split; [now apply (StateFacts.consistent_frame m) |].
    split; [apply Hfr | reflexivity]. }
  unfold AddGlobalVariable.
  destruct type as [type|].
  2: { destruct (Nat.ltb_spec 0 (errorCount m)); [exact Hsame |].
       split; [now right | lia]. }
  destruct (String.eqb_spec name "") as [Hname | Hname].
  { destruct (Nat.ltb_spec 0 (errorCount m)); [exact Hsame |].
    split; [now left | lia]. }
  destruct (SymTab.LookupFunction (symbolTable m) name) eqn:Hfun; [apply Herror |].
  destruct (bool_decide (storageClass = SC_EXTERN_C)); [apply Herror |].
  destruct (Ty.IsVoidType type); [apply Herror |].
  destruct (SizeUnsizedArrays type initExpr) as [sized|]; [| exact Hsame].
  destruct (isUnsizedArray sized); [apply Herror |].
  destruct (LLVMType sized) as [llvmType|]; [| exact Hsame].
  destruct (lGlobalInitializer m name sized llvmType initExpr storageClass pos)
    as [[m1 init] cv] eqn:Hinit.
  apply lGlobalInitializer_frame in Hinit as [Hframe Hsome].
  destruct (lResolveGlobal_consistent m1 name sized llvmType isConst storageClass pos
              init cv) as (m' & -> & Hm' & Hrep & Hfuns).
  - now apply (StateFacts.consistent_frame m).
  - destruct Hframe as (-> & _). exact Hfun.
  - exact Hsome.
  - split; [exact Hm' |]. destruct Hframe as (Hst & _ & Hrep1).
    split; [eapply StateFacts.reports_trans; eassumption | congruence].
Qed.

Lemma AddGlobalVariable_keeps_consistent_witness :
  match AddGlobalVariable (H := Examples.collaborators) newModule "x"
          (Some Examples.int32) (Some Examples.one) false SC_NONE (Examples.line 1) with
  | Returned m' => consistent m'
  | AssertionFailed => False
  end.
Proof.
  pose proof (AddGlobalVariable_keeps_consistent (H := Examples.collaborators)
                newModule "x" (Some Examples.int32) (Some Examples.one) false SC_NONE
                (Examples.line 1) consistent_newModule) as Hx.
  destruct (AddGlobalVariable newModule "x" (Some Examples.int32) (Some Examples.one)
              false SC_NONE (Examples.line 1)).
  - apply Hx.
  - destruct Hx as [[Hname | Htype] _]; discriminate.
Defined.

Lemma consistent_defined : consistent StateExamples.defined.
Proof.
  apply lDefineGlobal_consistent.
  - apply consistent_newModule.
  - reflexivity.
  - reflexivity.
  - intros _. eauto.
Qed.

(** X7.  A variable that has been defined (its Symbol is not [extern]) is
    final: whatever is declared under its name later, the symbol table and
    the globals stay as they are, and a declaration that passes the
    preliminary checks is answered with an error. *)
Theorem defined_variable_is_final `{Collaborators}
    (m : IspcModule) (name : string) (sym : Symbol) (type : option ispcType)
    (initExpr : option Expr) (isConst : bool) (storageClass : StorageClass)
    (pos : SourcePos) :
  consistent m ->
  SymTab.LookupVariable (symbolTable m) name = Some sym ->
  isExternClass (sym_storageClass sym) = false ->
  match AddGlobalVariable m name type initExpr isConst storageClass pos with
  | Returned m' =>
      frame m m'
      /\ (forall ty sized llvmType,
             type = Some ty ->
             wellFormedGlobal m name ty initExpr storageClass sized llvmType ->
             errorCount m < errorCount m')
  | AssertionFailed => (name = "" \/ type = None) /\ errorCount m = 0
  end.
Proof.
  intros Hm Hvar Hext.
  destruct type as [type|].
  2: { simpl. destruct (Nat.ltb_spec 0 (errorCount m)).
       - split; [apply StateFacts.frame_refl | discriminate].
       - split; [now right | lia]. }
  destruct (String.eqb_spec name "") as [Hname | Hname].
  { unfold AddGlobalVariable. apply String.eqb_eq in Hname. rewrite Hname.
    destruct (Nat.ltb_spec 0 (errorCount m)).
    - split; [apply StateFacts.frame_refl |].
      intros ty sized llvmType _ [Hne _ _ _ _ _ _].
      apply String.eqb_eq in Hname. contradiction.
    - split; [left; now apply String.eqb_eq | lia]. }
  assert (Hearly : forall m', frame m m' ->
             (forall sized llvmType,
                 ~ wellFormedGlobal m name type initExpr storageClass sized llvmType) ->
             frame m m'
             /\ (forall ty sized llvmType,
                    Some type = Some ty ->
                    wellFormedGlobal m name ty initExpr storageClass sized llvmType ->
                    errorCount m < errorCount m')).
  { intros m' Hfr Hnot. split; [exact Hfr |].
    intros ty sized llvmType [= <-] Hwf. now apply Hnot in Hwf. }
  unfold AddGlobalVariable.
  apply String.eqb_neq in Hname. rewrite Hname.
  destruct (SymTab.LookupFunction (symbolTable m) name) eqn:Hfun.
  { apply Hearly; [frame_tac |]. intros ? ? [_ Hf _ _ _ _ _]. congruence. }
  destruct (bool_decide (storageClass = SC_EXTERN_C)) eqn:Hsc.
  { apply Hearly; [frame_tac |]. intros ? ? [_ _ Hs _ _ _ _].
    now apply bool_decide_eq_true in Hsc. }
  destruct (Ty.IsVoidType type) eqn:Hvoid.
  { apply Hearly; [frame_tac |]. intros ? ? [_ _ _ Hv _ _ _]. congruence. }
  destruct (SizeUnsizedArrays type initExpr) as [sized|] eqn:Hsized.
  2: { apply Hearly; [frame_tac |]. intros ? ? [_ _ _ _ Hs _ _]. congruence. }
  destruct (isUnsizedArray sized) eqn:Helems.
  { apply Hearly; [frame_tac |]. intros ? ? [_ _ _ _ Hs He _]. congruence. }
  destruct (LLVMType sized) as [llvmType|] eqn:Hllvm.
  2: { apply Hearly; [frame_tac |]. intros ? ? [_ _ _ _ Hs _ Hl]. congruence. }
  destruct (lGlobalInitializer m name sized llvmType initExpr storageClass pos)
    as [[m1 init] cv] eqn:Hinit.
  apply lGlobalInitializer_frame in Hinit as [Hframe _].
  destruct (lResolveGlobal_defined m1 name sized llvmType isConst storageClass pos
              init cv sym) as [msg ->].
  - now apply (StateFacts.consistent_frame m).
  - destruct Hframe as (-> & _). exact Hvar.
  - exact Hext.
  - split; [frame_tac |]. intros _ _ _ _ _.
    destruct Hframe as (_ & _ & Hrep). apply StateFacts.reports_errorCount in Hrep.
    simpl. lia.
Qed.

Lemma defined_variable_is_final_witness :
  match AddGlobalVariable (H := Examples.collaborators) StateExamples.defined "x"
          (Some Examples.int32) None false SC_NONE (Examples.line 2) with
  | Returned m' =>
      symbolTable m' = symbolTable StateExamples.defined
      /\ module m' = module StateExamples.defined
      /\ errorCount StateExamples.defined < errorCount m'
  | AssertionFailed => False
  end.
Proof.
  pose proof (defined_variable_is_final (H := Examples.collaborators)
                StateExamples.defined "x" _ (Some Examples.int32) None false SC_NONE
                (Examples.line 2) consistent_defined eq_refl eq_refl) as Hx.
  destruct (AddGlobalVariable StateExamples.defined "x" (Some Examples.int32) None
              false SC_NONE (Examples.line 2)) as [m'|].
  - destruct Hx as [(Hst & Hmod & _) Herr].
    split; [exact Hst | split; [exact Hmod |]].
    apply (Herr Examples.int32 Examples.int32 (LLVM.IntegerTy 32) eq_refl).
    split; (reflexivity || discriminate).
  - destruct Hx as [[Hname | Htype] _]; discriminate.
Defined.

Section FunctionState.
Context `{Collaborators}.

Lemma lCheckExportedParameterTypes_frame type name pos m :
  frame m (lCheckExportedParameterTypes type name pos m).
Proof.
  unfold lCheckExportedParameterTypes.
  repeat match goal with
         | |- context [if ?b then _ else _] => destruct b
         end; frame_tac.
Qed.

Lemma lCheckForStructParameters_frame ftype pos m :
  frame m (lCheckForStructParameters ftype pos m).
Proof. unfold lCheckForStructParameters. destruct (List.existsb _ _); frame_tac. Qed.

Lemma lCheckParameters_frame functionType argTypes :
  forall m seenDefaultArg i,
    frame m (lCheckParameters functionType m seenDefaultArg i argTypes).
Proof.
  induction argTypes as [|argType argTypes IH]; intros m seen i; [apply StateFacts.frame_refl |].
  cbn [lCheckParameters]. cbv zeta.
  set (argName := default "" (paramNames functionType !! i)).
  set (argPos := default {| pos_name := ""; first_line := 0 |}
                         (paramPositions functionType !! i)).
  set (m1 := if isExported functionType
             then lCheckExportedParameterTypes argType argName argPos m else m).
  assert (H1 : frame m m1).
  { unfold m1. destruct (isExported functionType);
      [apply lCheckExportedParameterTypes_frame | apply StateFacts.frame_refl]. }
  set (m2 := if SymTab.LookupFunction (symbolTable m1) argName
             then Warning argPos (ParameterShadowsFunction argName) m1 else m1).
  assert (H2 : frame m m2).
  { unfold m2. destruct (SymTab.LookupFunction (symbolTable m1) argName); frame_tac. }
  destruct (default None (paramDefaults functionType !! i)).
  - eapply StateFacts.frame_trans; [exact H2 | apply IH].
  - eapply StateFacts.frame_trans; [| apply IH]. destruct seen; frame_tac.
Qed.

(** From a state whose overloads all have function types the scan hits
    no assertion; when it falls out of the loop no overload has the type
    of the new function. *)
Lemma lScanOverloads_frame functionType pos overloadFuncs :
  forall m,
    (forall s, s ∈ overloadFuncs -> is_Some (CastType.toFunctionType (sym_type s))) ->
    match lScanOverloads m functionType pos overloadFuncs with
    | ScanReturn m' => frame m m'
    | ScanAssert => False
    | ScanDone m' =>
        frame m m'
        /\ forall s, s ∈ overloadFuncs ->
                     Ty.Equal (sym_type s) (funType functionType) = false
    end.
Proof.
  induction overloadFuncs as [|o rest IH]; intros m Htyped.
  - simpl. split; [apply StateFacts.frame_refl |]. intros s Hs. now apply elem_of_nil in Hs.
  - cbn [lScanOverloads].
    destruct (Htyped o ltac:(left)) as [ot Hot]. rewrite Hot.
    destruct (Ty.Equal (sym_type o) (funType functionType)) eqn:Heq;
      [apply StateFacts.frame_refl |].
    set (m1 := if isExported functionType || isExported ot
               then Error pos (ExportOverloadError (sym_pos o)) m else m).
    assert (H1 : frame m m1) by (unfold m1; destruct (_ || _); frame_tac).
    destruct (sameParameterTypes ot functionType); [frame_tac |].
    specialize (IH m1 (fun s Hs => Htyped s ltac:(now right))).
    destruct (lScanOverloads m1 functionType pos rest) as [m'| |m'].
    + eapply StateFacts.frame_trans; eassumption.
    + exact IH.
    + destruct IH as [Hfr Hall].
      split; [eapply StateFacts.frame_trans; eassumption |].
      intros s Hs. apply elem_of_cons in Hs as [-> | Hs]; [exact Heq | now apply Hall].
Qed.

Lemma LookupFunctions_elem_of st name s :
  s ∈ SymTab.LookupFunctions st name ->
  exists overloads, functions st !! name = Some overloads /\ s ∈ overloads.
Proof.
  unfold SymTab.LookupFunctions. destruct (functions st !! name) as [l|]; simpl.
  - eauto.
  - intros Hs. now apply elem_of_nil in Hs.
Qed.

(** Adding a function whose type no overload of its name has. *)
Lemma AddFunction_consistent m sym :
  consistent m ->
  variables (symbolTable m) !! sym_name sym = None ->
  is_Some (CastType.toFunctionType (sym_type sym)) ->
  (forall s, s ∈ SymTab.LookupFunctions (symbolTable m) (sym_name sym) ->
             Ty.Equal (sym_type s) (sym_type sym) = false) ->
  let st := {| variables := variables (symbolTable m);
               functions := <[sym_name sym :=
                                SymTab.LookupFunctions (symbolTable m) (sym_name sym) ++ [sym]]>
                              (functions (symbolTable m)) |} in
  SymTab.AddFunction sym (symbolTable m) = Some st
  /\ consistent {| errorCount := errorCount m; diagnostics := diagnostics m;
                   symbolTable := st; module := module m |}.
Proof.
  intros Hm Hvar Htype Hnew st. split.
  - unfold SymTab.AddFunction.
    destruct (List.existsb _ _) eqn:Hex; [| reflexivity].
    apply List.existsb_exists in Hex as (s & Hin & Heq).
    apply list_elem_of_In in Hin. rewrite (Hnew s Hin) in Heq. discriminate.
  - destruct Hm as [Hn He Hd Ho Hf Hdis Hnd Hc].
    split; cbn; try assumption.
    + intros k overloads s Hk Hs.
      apply lookup_insert_Some in Hk as [[<- <-] | [Hne Hk]]; [| now apply (Hf k overloads)].
      apply elem_of_app in Hs as [Hs | Hs].
      * apply LookupFunctions_elem_of in Hs as (l & Hl & Hs). now apply (Hf _ l).
      * apply list_elem_of_singleton in Hs as ->. now split.
    + intros k overloads i j si sj Hk Hi Hj Hij.
      apply lookup_insert_Some in Hk as [[<- <-] | [Hne Hk]];
        [| now apply (Hdis k overloads i j)].
      set (old := SymTab.LookupFunctions (symbolTable m) (sym_name sym)) in *.
      assert (Hi' : old !! i = Some si).
      { apply lookup_lt_Some in Hj. rewrite length_app in Hj. simpl in Hj.
        rewrite lookup_app_l in Hi by lia. exact Hi. }
      destruct (decide (j < length old)) as [Hlt | Hge].
      * rewrite lookup_app_l in Hj by exact Hlt.
        unfold old, SymTab.LookupFunctions in Hi', Hj.
        destruct (functions (symbolTable m) !! sym_name sym) as [l|] eqn:Hl;
          simpl in Hi', Hj; [| rewrite lookup_nil in Hj; discriminate].
        now apply (Hdis (sym_name sym) l i j).
      * assert (sj = sym).
        { rewrite lookup_app_r in Hj by lia.
          apply list_elem_of_lookup_2, list_elem_of_singleton in Hj. exact Hj. }
        subst sj. apply Hnew. now apply list_elem_of_lookup_2 in Hi'.
    + intros k Hk. unfold SymTab.LookupFunction, SymTab.LookupFunctions. cbn.
      assert (Hne : sym_name sym <> k).
      { intros <-. rewrite Hvar in Hk. now destruct Hk. }
      rewrite lookup_insert_ne by exact Hne. now apply Hnd.
Qed.

End FunctionState.

(** X8.  From a consistent state [AddFunctionDeclaration] fails no
    assertion: the overloads it scans all have function types, and the
    symbol table never turns the new function down.  It keeps the state
    consistent, only appends diagnostics, leaves the variables, the globals
    and the functions of other names alone, and either leaves the overloads
    of the name as they are or appends the new function to them. *)
Theorem AddFunctionDeclaration_keeps_consistent `{Collaborators}
    (m : IspcModule) (name : string) (functionType : FunctionType)
    (storageClass : StorageClass) (isInline isNoInline : bool) (pos : SourcePos) :
  consistent m ->
  exists m',
    AddFunctionDeclaration m name functionType storageClass isInline isNoInline pos
    = Returned m'
    /\ consistent m' /\ reports m m'
    /\ variables (symbolTable m') = variables (symbolTable m)
    /\ module m' = module m
    /\ (forall other, other <> name ->
                      SymTab.LookupFunctions (symbolTable m') other
                      = SymTab.LookupFunctions (symbolTable m) other)
    /\ (SymTab.LookupFunctions (symbolTable m') name
        = SymTab.LookupFunctions (symbolTable m) name
        \/ SymTab.LookupFunctions (symbolTable m') name
           = SymTab.LookupFunctions (symbolTable m) name
             ++ [{| sym_name := name; sym_pos := pos;
                    sym_type := funType functionType;
                    sym_storageClass := storageClass;
                    sym_constValue := None; sym_storagePtr := None |}]).
Proof.
  intros Hm.
  assert (Hquiet : forall m', frame m m' ->
             consistent m' /\ reports m m'
             /\ variables (symbolTable m') = variables (symbolTable m)
             /\ module m' = module m
             /\ (forall other, other <> name ->
                               SymTab.LookupFunctions (symbolTable m') other
                               = SymTab.LookupFunctions (symbolTable m) other)
             /\ (SymTab.LookupFunctions (symbolTable m') name
                 = SymTab.LookupFunctions (symbolTable m) name
                 \/ SymTab.LookupFunctions (symbolTable m') name
                    = SymTab.LookupFunctions (symbolTable m) name
                      ++ [{| sym_name := name; sym_pos := pos;
                             sym_type := funType functionType;
                             sym_storageClass := storageClass;
                             sym_constValue := None; sym_storagePtr := None |}])).
  { intros m' Hfr. split; [now apply (StateFacts.consistent_frame m) |].
    destruct Hfr as (Hst & Hmod & Hrep). rewrite Hst.
    split; [exact Hrep |]. split; [reflexivity |]. split; [exact Hmod |].
    split; [reflexivity | now left]. }
  unfold AddFunctionDeclaration.
  destruct (SymTab.LookupVariable (symbolTable m) name) as [v|] eqn:Hvar.
  { eexists. split; [reflexivity |]. apply Hquiet. frame_tac. }
  pose proof (lScanOverloads_frame functionType pos
                (SymTab.LookupFunctions (symbolTable m) name) m) as Hscan.
  destruct (lScanOverloads m functionType pos
              (SymTab.LookupFunctions (symbolTable m) name)) as [m1| |m1].
  { eexists. split; [reflexivity |]. apply Hquiet, Hscan.
    intros s Hs. apply LookupFunctions_elem_of in Hs as (l & Hl & Hs).
    now apply (functions_typed m Hm name l). }
  { exfalso. apply Hscan.
    intros s Hs. apply LookupFunctions_elem_of in Hs as (l & Hl & Hs).
    now apply (functions_typed m Hm name l). }
  destruct Hscan as [Hfr1 Hnew].
  { intros s Hs. apply LookupFunctions_elem_of in Hs as (l & Hl & Hs).
    now apply (functions_typed m Hm name l). }
  cbv zeta.
  destruct (bool_decide (storageClass = SC_EXTERN_C) && isTask functionType);
    [eexists; split; [reflexivity |]; apply Hquiet; frame_tac |].
  destruct (if bool_decide (storageClass = SC_EXTERN_C)
            then SymTab.LookupFunctions (symbolTable m1) name else [])
    as [|f [|f' fs]].
  2: { destruct (Ty.Equal (sym_type f) (funType functionType));
         eexists; (split; [reflexivity |]); apply Hquiet; frame_tac. }
  2: { eexists; split; [reflexivity |]; apply Hquiet; frame_tac. }
  destruct (LLVMFunctionType functionType (bool_decide (storageClass = SC_EXTERN_C)));
    [| eexists; split; [reflexivity |]; apply Hquiet; frame_tac].
  destruct (isNoInline && isInline);
    [eexists; split; [reflexivity |]; apply Hquiet; frame_tac |].
  set (m2 := if isExported functionType
                && negb (lRecursiveCheckValidParamType (returnType functionType) false)
             then Error pos (ExportReturnTypeError name) m1 else m1).
  set (m3 := if isTask functionType && negb (Ty.IsVoidType (returnType functionType))
             then Error pos TaskReturnTypeError m2 else m2).
  set (m4 := if isExported functionType || isExternC functionType
             then lCheckForStructParameters functionType pos m3 else m3).
  set (m5 := lCheckParameters functionType m4 false 0 (paramTypes functionType)).
  assert (Hfr5 : frame m m5).
  { assert (frame m1 m2)
      by (unfold m2; match goal with |- frame _ (if ?b then _ else _) => destruct b end;
          frame_tac).
    assert (frame m2 m3)
      by (unfold m3; match goal with |- frame _ (if ?b then _ else _) => destruct b end;
          frame_tac).
    assert (frame m3 m4).
    { unfold m4. match goal with |- frame _ (if ?b then _ else _) => destruct b end;
        [apply lCheckForStructParameters_frame | apply StateFacts.frame_refl]. }
    assert (frame m4 m5) by apply lCheckParameters_frame.
    repeat (eapply StateFacts.frame_trans; [eassumption |]). apply StateFacts.frame_refl. }
  set (funSym := {| sym_name := name; sym_pos := pos; sym_type := funType functionType;
                    sym_storageClass := storageClass;
                    sym_constValue := None; sym_storagePtr := None |}).
  destruct Hfr5 as (Hst & Hmod & Hrep).
  destruct (AddFunction_consistent m5 funSym) as [Hadd Hm'].
  - apply (StateFacts.consistent_frame m); [exact Hm | now split].
  - rewrite Hst. exact Hvar.
  - eauto.
  - rewrite Hst. exact Hnew.
  - rewrite Hadd. eexists. split; [reflexivity |].
    split; [exact Hm' |]. cbn [sym_name funSym] in *.
    split; [destruct Hrep as (ds & Hds & Herr); exists ds; split; assumption |].
    cbn. rewrite Hst.
    split; [reflexivity |]. split; [exact Hmod |]. split.
    + intros other Hne. unfold SymTab.LookupFunctions. cbn.
      now rewrite lookup_insert_ne by congruence.
    + right. unfold SymTab.LookupFunctions at 1. cbn.
      now rewrite lookup_insert_eq.
Qed.

Lemma AddFunctionDeclaration_keeps_consistent_witness :
  exists m',
    AddFunctionDeclaration (H := Examples.collaborators) newModule "f"
      FunctionExamples.int_of_int SC_NONE false false (Examples.line 1)
    = Returned m'
    /\ consistent m'.
Proof.
  destruct (AddFunctionDeclaration_keeps_consistent (H := Examples.collaborators)
              newModule "f" FunctionExamples.int_of_int SC_NONE false false
              (Examples.line 1) consistent_newModule) as (m' & Hret & Hm' & _).
  exists m'. split; assumption.
Defined.

(** ** Per-target file names in general *)

Module TargetFileNameFacts.
Import CString CStringFacts.

Lemma length_take (n : nat) (s : string) :
  String.length (take n s) <= n /\ String.length (take n s) <= String.length s.
Proof.
  revert n. induction s as [|c s IH]; intros [|n]; simpl; try lia.
  destruct (IH n). lia.
Qed.

Lemma take_drop (n : nat) (s : string) : take n s +:+ drop n s = s.
Proof.
  revert n. induction s as [|c s IH]; intros [|n]; str_simpl; try reflexivity.
  now rewrite IH.
Qed.

Lemma strrchr_lt (s : string) (c : ascii) (k : nat) :
  strrchr s c = Some k -> k < String.length s.
Proof.
  revert k. induction s as [|a s IH]; intros k; simpl; [discriminate |].
  destruct (strrchr s c) as [k'|].
  - intros [= <-]. specialize (IH k' eq_refl). lia.
  - destruct (Ascii.eqb a c); [intros [= <-]; lia | discriminate].
Qed.

Lemma length_take_le (n : nat) (s : string) :
  n <= String.length s -> String.length (take n s) = n.
Proof.
  revert n. induction s as [|c s IH]; intros [|n]; simpl; try lia.
  intros Hn. rewrite IH; lia.
Qed.

Lemma append_inv_head (a b c : string) : a +:+ b = a +:+ c -> b = c.
Proof. induction a as [|x a IH]; str_simpl; [trivial | intros [= Heq]; auto]. Qed.

Lemma append_inv_tail (a b c : string) : a +:+ c = b +:+ c -> a = b.
Proof.
  revert b. induction a as [|x a IH]; intros [|y b]; str_simpl; intros Heq.
  - reflexivity.
  - apply (f_equal String.length) in Heq. simpl in Heq. rewrite length_app in Heq. lia.
  - apply (f_equal String.length) in Heq. simpl in Heq. rewrite length_app in Heq. lia.
  - injection Heq as -> Heq. f_equal. now apply IH.
Qed.

(** The name for an ISA string that fits the reserve of the buffer, for
    any base name. *)
Lemma lGetTargetFileName_short (outFileName isaString : string) :
  String.length isaString <= 14 ->
  lGetTargetFileName outFileName isaString
  = match strrchr outFileName "." with
    | Some count =>
        take count outFileName +:+ "_" +:+ isaString +:+ drop count outFileName
    | None => outFileName +:+ "_" +:+ isaString
    end.
Proof.
  intros Hisa. unfold lGetTargetFileName.
  destruct (strrchr outFileName ".") as [count|] eqn:Hdot; cbv zeta;
    unfold strncpy, strncat, strlen.
  - apply strrchr_lt in Hdot.
    pose proof (take_drop count outFileName) as Hsplit.
    apply (f_equal String.length) in Hsplit. rewrite length_app in Hsplit.
    assert (Hlen : String.length (take count outFileName) = count)
      by (apply length_take_le; lia).
    rewrite (take_all _ "_") by (simpl; lia).
    rewrite (take_all _ isaString) by (rewrite ?length_app; simpl; lia).
    rewrite (take_all _ (drop count outFileName))
      by (rewrite ?length_app; simpl; lia).
    now rewrite !app_assoc.
  - rewrite !take_all; repeat (rewrite ?length_app; simpl); try lia.
    now rewrite app_assoc.
Qed.

End TargetFileNameFacts.

(** X9.  The name built by [lGetTargetFileName] never exceeds the buffer
    it is built in (the length of the base name plus 15 characters and the
    terminator), whatever the ISA string.  For ISA strings that fit the
    reserve, the names for two different ISAs derived from one base name are
    different, and each differs from the base name, so the per-target files
    of a multi-target build overwrite neither each other nor the common
    file. *)
Theorem lGetTargetFileName_distinct (outFileName isa1 isa2 : string) :
  String.length (lGetTargetFileName outFileName isa1) <= String.length outFileName + 15
  /\ (String.length isa1 <= 14 -> lGetTargetFileName outFileName isa1 <> outFileName)
  /\ (String.length isa1 <= 14 -> String.length isa2 <= 14 -> isa1 <> isa2 ->
      lGetTargetFileName outFileName isa1 <> lGetTargetFileName outFileName isa2).
Proof.
  split; [| split].
  - unfold lGetTargetFileName, CString.strncpy, CString.strncat, CString.strlen.
    destruct (CString.strrchr outFileName ".") as [count|]; cbv zeta;
      repeat (rewrite ?CStringFacts.length_app;
              match goal with
              | |- context [String.length (CString.take ?n ?s)] =>
                  let H := fresh in
                  pose proof (TargetFileNameFacts.length_take n s) as H;
                  generalize dependent (String.length (CString.take n s)); intros
              end);
      lia.
  - intros H1 Heq. rewrite TargetFileNameFacts.lGetTargetFileName_short in Heq by exact H1.
    apply (f_equal String.length) in Heq.
    destruct (CString.strrchr outFileName ".") as [count|].
    + pose proof (TargetFileNameFacts.take_drop count outFileName) as Hsplit.
      apply (f_equal String.length) in Hsplit.
      rewrite !CStringFacts.length_app in *. simpl in Heq. lia.
    + rewrite !CStringFacts.length_app in *. simpl in Heq. lia.
  - intros H1 H2 Hne Heq.
    rewrite !TargetFileNameFacts.lGetTargetFileName_short in Heq by assumption.
    destruct (CString.strrchr outFileName ".") as [count|].
    + apply TargetFileNameFacts.append_inv_head in Heq.
      apply TargetFileNameFacts.append_inv_head in Heq.
      now apply TargetFileNameFacts.append_inv_tail in Heq.
    + apply TargetFileNameFacts.append_inv_head in Heq.
      now apply TargetFileNameFacts.append_inv_head in Heq.
Qed.

Lemma lGetTargetFileName_distinct_witness :
  lGetTargetFileName "out/k.tar.o" "sse4" <> lGetTargetFileName "out/k.tar.o" "avx2"
  /\ lGetTargetFileName "out/k.tar.o" "sse4" <> "out/k.tar.o".
Proof.
  destruct (lGetTargetFileName_distinct "out/k.tar.o" "sse4" "avx2") as (_ & Hbase & Hisa).
  split.
  - apply Hisa; [simpl; lia | simpl; lia | discriminate].
  - apply Hbase. simpl; lia.
Defined.

(** ** The include guard and the suffix check *)

Module CTypeFacts.
Import CType.

Ltac all_characters c :=
  destruct c as [[] [] [] [] [] [] [] []]; vm_compute.

Lemma guard_character (c : ascii) :
  isGuardCharacter (if isdigit c then c
                    else if isalpha c then toupper c else "_"%char) = true.
Proof. all_characters c; reflexivity. Qed.

Lemma guard_character_toupper (c : ascii) :
  (if isdigit (toupper c) then toupper c
   else if isalpha (toupper c) then toupper (toupper c) else "_"%char)
  = (if isdigit c then c else if isalpha c then toupper c else "_"%char).
Proof. all_characters c; reflexivity. Qed.

Lemma tolower_toupper (c : ascii) : tolower (toupper c) = tolower c.
Proof. all_characters c; reflexivity. Qed.

Lemma toupper_dot (c : ascii) : toupper c = "."%char -> c = "."%char.
Proof. all_characters c; intros Heq; first [reflexivity | discriminate Heq]. Qed.

Lemma strcasecmp_upcase (a b : string) : strcasecmp (upcase a) b = strcasecmp a b.
Proof.
  revert b. induction a as [|x a IH]; intros [|y b]; simpl; try reflexivity.
  now rewrite tolower_toupper, IH.
Qed.

Lemma upcase_no_dot (s : string) :
  (forall i, String.get i s <> Some "."%char) ->
  forall i, String.get i (upcase s) <> Some "."%char.
Proof.
  induction s as [|c s IH]; intros Hno i; [destruct i; discriminate |].
  destruct i as [|i]; simpl.
  - intros [= Heq]. apply toupper_dot in Heq. now apply (Hno 0); simpl; f_equal.
  - apply IH. intros j. apply (Hno (S j)).
Qed.

Lemma lSuffixFileType_upcase outputType (s : string) :
  lSuffixFileType outputType (upcase s) = lSuffixFileType outputType s.
Proof. unfold lSuffixFileType. now rewrite !strcasecmp_upcase. Qed.

End CTypeFacts.

(** X10.  The include guard that [writeHeader] derives from the file name
    is always an identifier in capitals: it starts with "ISPC_", has one
    character for each character of the file name, and consists of capital
    letters, digits and underscores only, whatever bytes the file name
    holds.  File names that differ only in the case of letters get the same
    guard. *)
Theorem guard_is_identifier (fn : string) :
  String.length (guard fn) = 5 + String.length fn
  /\ CString.take 5 (guard fn) = "ISPC_"
  /\ (forall i c, String.get i (guard fn) = Some c -> isGuardCharacter c = true)
  /\ guard (upcase fn) = guard fn.
Proof.
  unfold guard. split; [| split; [reflexivity | split]].
  - rewrite CStringFacts.length_app. simpl. f_equal.
    induction fn as [|c fn IH]; simpl; [reflexivity | now rewrite IH].
  - intros i c.
    do 5 (destruct i as [|i]; [intros [= <-]; reflexivity |]).
    change (String.get (S (S (S (S (S i))))) ("ISPC_" +:+ lGuardCharacters fn))
      with (String.get i (lGuardCharacters fn)).
    revert i. induction fn as [|x fn IH]; intros i; [destruct i; discriminate |].
    destruct i as [|i]; simpl.
    + intros [= <-]. apply CTypeFacts.guard_character.
    + apply IH.
  - f_equal. induction fn as [|c fn IH]; simpl; [reflexivity |].
    now rewrite CTypeFacts.guard_character_toupper, IH.
Qed.

(** X11.  The suffix check of [writeOutput] looks at what follows the
    last '.' of the file name and at nothing else: a name without '.' is
    never warned about, nor is any name when dependencies are written; for a
    name [pre.ext] the outcome depends on [ext] alone, and it does not
    change when letters of the suffix change case. *)
Theorem suffix_check_reads_last_suffix (outputType : Driver.OutputType)
    (pre ext : string) :
  (forall i, String.get i ext <> Some "."%char) ->
  lSuffixWarning outputType (Some ext) = None
  /\ lSuffixWarning Driver.Deps (Some (pre +:+ String "." ext)) = None
  /\ lSuffixWarning outputType (Some (pre +:+ String "." ext))
     = match lSuffixFileType outputType ext with
       | Some fileType => Some (fileType, ext)
       | None => None
       end
  /\ (lSuffixWarning outputType (Some (pre +:+ String "." (upcase ext))) = None
      <-> lSuffixWarning outputType (Some (pre +:+ String "." ext)) = None).
Proof.
  intros Hext.
  assert (Hlast : forall e, (forall i, String.get i e <> Some "."%char) ->
             lSuffixWarning outputType (Some (pre +:+ String "." e))
             = match lSuffixFileType outputType e with
               | Some fileType => Some (fileType, e)
               | None => None
               end).
  { intros e He. unfold lSuffixWarning.
    rewrite (CStringFacts.strrchr_last pre e "." He). cbv zeta.
    assert (Hdrop : CString.drop (S (String.length pre)) (pre +:+ String "." e) = e).
    { clear. induction pre as [|c pre IH]; [now destruct e | exact IH]. }
    now rewrite Hdrop. }
  split; [| split; [| split]].
  - unfold lSuffixWarning. apply CStringFacts.strrchr_None in Hext. now rewrite Hext.
  - unfold lSuffixWarning. now destruct (CString.strrchr _ _).
  - now apply Hlast.
  - rewrite (Hlast ext Hext), (Hlast (upcase ext) (CTypeFacts.upcase_no_dot ext Hext)).
    rewrite CTypeFacts.lSuffixFileType_upcase.
    destruct (lSuffixFileType outputType ext); split; intros; (discriminate || reflexivity).
Qed.

Lemma suffix_check_reads_last_suffix_witness :
  lSuffixWarning Driver.Object (Some "k.tar.o") = None
  /\ lSuffixWarning Driver.Object (Some "k.o.bc") = Some ("object", "bc").
Proof.
  split.
  - destruct (suffix_check_reads_last_suffix Driver.Object "k.tar" "o")
      as (_ & _ & Hlast & _); [intros [|[|i]]; discriminate |].
    exact Hlast.
  - destruct (suffix_check_reads_last_suffix Driver.Object "k.o" "bc")
      as (_ & _ & Hlast & _); [intros [|[|[|i]]]; discriminate |].
    exact Hlast.
Defined.

(** ** Errors for the parameters of exported functions *)

Section ExportedParameterFacts.

(** What is legal at the top level of a signature is legal behind a
    pointer. *)
Lemma lRecursiveCheckValidParamType_mono (t : ispcType) :
  lRecursiveCheckValidParamType t false = true ->
  lRecursiveCheckValidParamType t true = true.
Proof.
  induction t using ispcType_nested_ind;
    try (intros _; simpl; rewrite ?andb_false_r; reflexivity).
  - simpl. now destruct (Ty.IsVaryingType _).
  - assumption.
  - discriminate.
  - rewrite !lRecursiveCheckValidParamType_struct, !forallb_forall.
    intros Hall e He.
    match goal with
    | IH : Forall _ _ |- _ => rewrite List.Forall_forall in IH; apply IH
    end; [exact He | now apply Hall].
Qed.

End ExportedParameterFacts.

(** X12.  [lCheckExportedParameterTypes] reports nothing for a type that
    is legal in an exported signature; for an illegal type it reports one
    error, and a second one when the type is a pointer; nothing but the
    diagnostics changes.  What is legal at the top level is legal behind a
    pointer, and a reference type is judged by its variability alone: its
    target is not inspected. *)
Theorem lCheckExportedParameterTypes_errors (type : ispcType) (name : string)
    (pos : SourcePos) (m : IspcModule) :
  frame m (lCheckExportedParameterTypes type name pos m)
  /\ errorCount (lCheckExportedParameterTypes type name pos m)
     = errorCount m
       + (if lRecursiveCheckValidParamType type false then 0
          else if CastType.isPointerType type then 2 else 1)
  /\ (lRecursiveCheckValidParamType type false = true ->
      lCheckExportedParameterTypes type name pos m = m
      /\ lRecursiveCheckValidParamType type true = true)
  /\ (forall target vectorOk,
         lRecursiveCheckValidParamType (ReferenceType target) vectorOk
         = negb (Ty.IsVaryingType (ReferenceType target) && negb vectorOk)).
Proof.
  split; [apply lCheckExportedParameterTypes_frame |].
  split; [| split].
  - unfold lCheckExportedParameterTypes.
    destruct (lRecursiveCheckValidParamType type false); simpl; [lia |].
    destruct (CastType.isPointerType type);
      destruct (CastType.isStructType (Ty.GetBaseType type));
      try destruct (CastType.isVectorType type); simpl; lia.
  - intros Hlegal. split; [| now apply lRecursiveCheckValidParamType_mono].
    unfold lCheckExportedParameterTypes. now rewrite Hlegal.
  - intros target vectorOk. simpl.
    now destruct (Ty.IsVaryingType (ReferenceType target) && negb vectorOk).
Qed.

(** ** Default values of parameters *)

Section DefaultOrder.

Lemma lCheckParameters_defaults functionType argTypes :
  isExported functionType = false ->
  forall m seenDefaultArg i,
    errorCount (lCheckParameters functionType m seenDefaultArg i argTypes) = errorCount m
    <-> forall k, i <= k < i + length argTypes ->
                  (seenDefaultArg = true
                   \/ exists j, i <= j < k /\ hasDefault functionType j) ->
                  hasDefault functionType k.
Proof.
  intros Hexp. induction argTypes as [|argType argTypes IH]; intros m seen i.
  - simpl. split; [intros _ k Hk; lia | reflexivity].
  - cbn [lCheckParameters length]. cbv zeta. rewrite Hexp.
    set (argName := default "" (paramNames functionType !! i)).
    set (argPos := default {| pos_name := ""; first_line := 0 |}
                           (paramPositions functionType !! i)).
    set (m2 := if SymTab.LookupFunction (symbolTable m) argName
               then Warning argPos (ParameterShadowsFunction argName) m else m).
    assert (H2 : errorCount m2 = errorCount m)
      by (unfold m2; now destruct (SymTab.LookupFunction _ _)).
    destruct (default None (paramDefaults functionType !! i)) as [d|] eqn:Hd.
    + rewrite <- H2, IH. split.
      * intros Hall k Hk Hseen.
        destruct (decide (k = i)) as [-> | Hne];
          [unfold hasDefault; now rewrite Hd |].
        apply Hall; [lia | now left].
      * intros Hall k Hk _. apply Hall; [lia |].
        right. exists i. split; [lia |]. unfold hasDefault. now rewrite Hd.
    + destruct seen.
      * split.
        -- intros Herr. exfalso.
           pose proof (lCheckParameters_frame functionType argTypes
                         (Error argPos (DefaultOrderError argName) m2) true (S i))
             as (_ & _ & Hrep).
           apply StateFacts.reports_errorCount in Hrep. simpl in Hrep. lia.
        -- intros Hall. exfalso.
           apply (Hall i); [lia | now left | exact Hd].
      * rewrite <- H2, IH. split.
        -- intros Hall k Hk [Hseen | (j & Hj & Hdef)]; [discriminate |].
           destruct (decide (j = i)) as [-> | Hne]; [now apply Hdef in Hd |].
           apply Hall; [lia |]. right. exists j. split; [lia | exact Hdef].
        -- intros Hall k Hk [Hseen | (j & Hj & Hdef)]; [discriminate |].
           apply Hall; [lia |]. right. exists j. split; [lia | exact Hdef].
Qed.

End DefaultOrder.

(** X13.  For a function that is not exported, the loop over the
    parameters reports an error exactly when the default values are not
    trailing, that is when some parameter without default value follows a
    parameter that has one; shadowing of functions by parameter names only
    draws warnings. *)
Theorem default_values_must_be_trailing
    (functionType : FunctionType) (m : IspcModule) :
  isExported functionType = false ->
  errorCount (lCheckParameters functionType m false 0 (paramTypes functionType))
  = errorCount m
  <-> forall j k, j < k < GetNumParameters functionType ->
                  hasDefault functionType j -> hasDefault functionType k.
Proof.
  intros Hexp. rewrite (lCheckParameters_defaults functionType _ Hexp).
  unfold GetNumParameters. split.
  - intros Hall j k Hjk Hj. apply Hall; [lia |]. right. exists j. split; [lia | exact Hj].
  - intros Hall k Hk [Hseen | (j & Hj & Hdef)]; [discriminate |].
    apply (Hall j k); [lia | exact Hdef].
Qed.

Lemma default_values_must_be_trailing_witness :
  let f := {| returnType := Examples.int32;
              paramTypes := [Examples.int32; Examples.int32];
              paramNames := ["a"; "b"];
              paramDefaults := [None; Some Examples.one];
              paramPositions := [Examples.line 1; Examples.line 1];
              isTask := false; isExported := false; isExternC := false |} in
  errorCount (lCheckParameters f newModule false 0 (paramTypes f)) = errorCount newModule.
Proof.
  intros f. apply (default_values_must_be_trailing f newModule eq_refl).
  intros j k Hjk Hj. unfold GetNumParameters in Hjk. simpl in Hjk.
  assert (k = 1) as -> by lia. discriminate.
Defined.

(** ** Passes over the globals of a target *)

Module GlobalsPassFacts.

Lemma isDefinition_demote gv : isDefinition (demote gv) = false.
Proof.
  unfold demote. destruct (isDefinition gv) eqn:Hdef; [| exact Hdef].
  unfold isDefinition, hasInitializer. simpl. apply andb_false_r.
Qed.

(** A module without definitions is passed over. *)
Lemma lExtractOrCheckGlobals_no_definitions (msrc : llvmModule) :
  forall m mdst check,
    (forall gv, gv ∈ msrc -> isDefinition gv = false) ->
    lExtractOrCheckGlobals m msrc mdst check = Returned (m, msrc, mdst).
Proof.
  induction msrc as [|gv msrc IH]; intros m mdst check Hnone; [reflexivity |].
  cbn [lExtractOrCheckGlobals].
  fold (isDefinition gv). rewrite (Hnone gv ltac:(left)).
  rewrite IH; [reflexivity |]. intros g Hg. apply Hnone. now right.
Qed.

(** What a pass needs of a definition. *)
Lemma lExtractOrCheckGlobals_outcome (msrc : llvmModule) (check : bool) :
  forall m mdst,
    match lExtractOrCheckGlobals m msrc mdst check with
    | Returned (m', msrc', mdst') =>
        msrc' = demote <$> msrc
        /\ forall gv, gv ∈ msrc -> isDefinition gv = true ->
                      is_Some (SymTab.LookupVariable (symbolTable m) (gv_name gv))
                      /\ (check = true -> is_Some (getGlobalVariable mdst (gv_name gv)))
    | AssertionFailed =>
        exists gv, gv ∈ msrc /\ isDefinition gv = true
                   /\ (SymTab.LookupVariable (symbolTable m) (gv_name gv) = None
                       \/ (check = true /\ getGlobalVariable mdst (gv_name gv) = None))
    end.
Proof.
  induction msrc as [|gv msrc IH]; intros m mdst.
  - simpl. split; [reflexivity |]. intros gv Hgv. now apply elem_of_nil in Hgv.
  - cbn [lExtractOrCheckGlobals]. fold (isDefinition gv).
    assert (Hstep : forall m1 mdst1 kept,
               kept = demote gv ->
               symbolTable m1 = symbolTable m ->
               (check = true -> mdst1 = mdst) ->
               (isDefinition gv = true ->
                is_Some (SymTab.LookupVariable (symbolTable m) (gv_name gv))
                /\ (check = true -> is_Some (getGlobalVariable mdst (gv_name gv)))) ->
               match
                 match lExtractOrCheckGlobals m1 msrc mdst1 check with
                 | Returned (m', rest, mdst') => Returned (m', kept :: rest, mdst')
                 | AssertionFailed => AssertionFailed
                 end
               with
               | Returned (m', msrc', mdst') =>
                   msrc' = demote <$> gv :: msrc
                   /\ forall g, g ∈ gv :: msrc -> isDefinition g = true ->
                                is_Some (SymTab.LookupVariable (symbolTable m) (gv_name g))
                                /\ (check = true ->
                                    is_Some (getGlobalVariable mdst (gv_name g)))
               | AssertionFailed =>
                   exists g, g ∈ gv :: msrc /\ isDefinition g = true
                             /\ (SymTab.LookupVariable (symbolTable m) (gv_name g) = None
                                 \/ (check = true
                                     /\ getGlobalVariable mdst (gv_name g) = None))
               end).
    { intros m1 mdst1 kept -> Hst Hdst Hhere. specialize (IH m1 mdst1).
      destruct (lExtractOrCheckGlobals m1 msrc mdst1 check) as [[[m' rest] mdst']|].
      - destruct IH as [-> Hall]. split; [reflexivity |].
        intros g Hg Hdef. apply elem_of_cons in Hg as [-> | Hg]; [now apply Hhere |].
        destruct (Hall g Hg Hdef) as [Hsym Hex]. rewrite Hst in Hsym.
        split; [exact Hsym |]. intros Hc. specialize (Hex Hc). now rewrite (Hdst Hc) in Hex.
      - destruct IH as (g & Hg & Hdef & Hbad). exists g.
        split; [now right |]. split; [exact Hdef |]. rewrite Hst in Hbad.
        destruct Hbad as [Hbad | [Hc Hbad]]; [now left |].
        right. split; [exact Hc |]. now rewrite (Hdst Hc) in Hbad. }
    assert (Hkept : demote gv = if isDefinition gv then setInitializer None gv else gv)
      by reflexivity.
    destruct (isDefinition gv) eqn:Hdef.
    + destruct (SymTab.LookupVariable (symbolTable m) (gv_name gv)) as [sym|] eqn:Hsym.
      2: { exists gv. split; [now left |]. split; [exact Hdef | now left]. }
      destruct check.
      * destruct (getGlobalVariable mdst (gv_name gv)) as [existing|] eqn:Hex.
        2: { exists gv. split; [now left |]. split; [exact Hdef | now right]. }
        apply Hstep.
        -- now symmetry.
        -- now destruct (negb _).
        -- reflexivity.
        -- intros _. split; eauto.
      * apply Hstep.
        -- now symmetry.
        -- reflexivity.
        -- discriminate.
        -- intros _. split; [eauto | discriminate].
    + apply Hstep; try reflexivity; [now symmetry | discriminate].
Qed.

End GlobalsPassFacts.

(** X14.  A pass of [lExtractOrCheckGlobals] fails an assertion exactly
    when the source module has a definition without a Symbol or, when
    checking, without a global of its name in the reconciled module.  A
    pass that returns leaves no definition in the source module, so that
    any further pass over it, extracting or checking, changes nothing and
    consults nothing. *)
Theorem lExtractOrCheckGlobals_once (m : IspcModule) (msrc mdst : llvmModule)
    (check : bool) :
  (lExtractOrCheckGlobals m msrc mdst check = AssertionFailed
   <-> exists gv, gv ∈ msrc /\ isDefinition gv = true
                  /\ (SymTab.LookupVariable (symbolTable m) (gv_name gv) = None
                      \/ (check = true /\ getGlobalVariable mdst (gv_name gv) = None)))
  /\ (forall m' msrc' mdst',
         lExtractOrCheckGlobals m msrc mdst check = Returned (m', msrc', mdst') ->
         (forall gv, gv ∈ msrc' -> isDefinition gv = false)
         /\ forall m2 mdst2 check2,
              lExtractOrCheckGlobals m2 msrc' mdst2 check2 = Returned (m2, msrc', mdst2)).
Proof.
  pose proof (GlobalsPassFacts.lExtractOrCheckGlobals_outcome msrc check m mdst) as Hout.
  split; [split |].
  - intros Hfail. now rewrite Hfail in Hout.
  - intros (gv & Hgv & Hdef & Hbad).
    destruct (lExtractOrCheckGlobals m msrc mdst check) as [[[m' msrc'] mdst']|];
      [| reflexivity].
    destruct Hout as [_ Hall]. destruct (Hall gv Hgv Hdef) as [[sym Hsym] Hex].
    destruct Hbad as [Hbad | [Hc Hbad]]; [congruence |].
    destruct (Hex Hc) as [g Hg]. congruence.
  - intros m' msrc' mdst' Hret. rewrite Hret in Hout. destruct Hout as [-> _].
    assert (Hnone : forall gv, gv ∈ demote <$> msrc -> isDefinition gv = false).
    { intros gv Hgv. apply list_elem_of_fmap in Hgv as (g & -> & _).
      apply GlobalsPassFacts.isDefinition_demote. }
    split; [exact Hnone |]. intros m2 mdst2 check2.
    now apply GlobalsPassFacts.lExtractOrCheckGlobals_no_definitions.
Qed.

Module MatchingTargetsFacts.

(** A checking pass over definitions that all match their counterparts
    says nothing. *)
Lemma lExtractOrCheckGlobals_quiet (mdst msrc : llvmModule) (m : IspcModule) :
  (forall gv, gv ∈ msrc -> isDefinition gv = true ->
     is_Some (SymTab.LookupVariable (symbolTable m) (gv_name gv))
     /\ exists existing,
          getGlobalVariable mdst (gv_name gv) = Some existing
          /\ lCompatibleTypes (gv_getType existing) (gv_getType gv) = true) ->
  lExtractOrCheckGlobals m msrc mdst true = Returned (m, demote <$> msrc, mdst).
Proof.
  induction msrc as [|gv msrc IH]; intros Hok; [reflexivity |].
  cbn [lExtractOrCheckGlobals]. fold (isDefinition gv).
  assert (Hkept : demote gv = if isDefinition gv then setInitializer None gv else gv)
    by reflexivity.
  rewrite fmap_cons.
  assert (Hrest : lExtractOrCheckGlobals m msrc mdst true
                  = Returned (m, demote <$> msrc, mdst)).
  { apply IH. intros g Hg. apply Hok. now right. }
  destruct (isDefinition gv) eqn:Hdef; rewrite Hkept.
  - destruct (Hok gv ltac:(left) Hdef) as [[sym ->] (existing & -> & ->)].
    simpl. now rewrite Hrest.
  - now rewrite Hrest.
Qed.

Lemma getNamedGlobal_app_r (M L : llvmModule) (name : string) :
  getNamedGlobal M name = None ->
  getNamedGlobal (M ++ L) name = getNamedGlobal L name.
Proof.
  unfold getNamedGlobal. induction M as [|g M IH]; simpl; [reflexivity |].
  destruct (String.eqb (gv_name g) name); [discriminate | exact IH].
Qed.

(** The definition that an extraction leaves in the reconciled module. *)
Lemma getGlobalVariable_extracted (mdst0 msrc : llvmModule) (gv : GlobalVariable) :
  NoDup (gv_name <$> msrc) -> gv ∈ msrc -> isDefinition gv = true ->
  getNamedGlobal mdst0 (gv_name gv) = None ->
  getGlobalVariable
    (mdst0 ++ (canonical <$> filter (fun g => isDefinition g = true) msrc)) (gv_name gv)
  = Some (canonical gv).
Proof.
  intros Hnd Hgv Hdef Hfresh. unfold getGlobalVariable.
  rewrite (getNamedGlobal_app_r _ _ _ Hfresh).
  rewrite (GlobalsFacts.getNamedGlobal_fmap canonical _ gv).
  - reflexivity.
  - reflexivity.
  - eapply sublist_NoDup; [exact Hnd | apply fmap_sublist, sublist_filter].
  - apply list_elem_of_filter. now split.
Qed.

End MatchingTargetsFacts.

(** X15.  Extraction followed by checking: when the globals of the first
    target have been extracted, the checking pass over the module of another
    target whose definitions all have a definition of the same name and of a
    compatible type in the first target returns without any diagnostic and
    leaves the reconciled module as it is.  In particular a second target
    with the same globals draws no warning. *)
Theorem matching_targets_draw_no_warning (m m2 : IspcModule)
    (msrc1 msrc2 mdst0 : llvmModule) :
  NoDup (gv_name <$> msrc1) ->
  (forall gv, gv ∈ msrc1 -> isDefinition gv = true ->
              is_Some (SymTab.LookupVariable (symbolTable m) (gv_name gv))
              /\ getNamedGlobal mdst0 (gv_name gv) = None) ->
  (forall gv2, gv2 ∈ msrc2 -> isDefinition gv2 = true ->
               is_Some (SymTab.LookupVariable (symbolTable m2) (gv_name gv2))
               /\ exists gv1, gv1 ∈ msrc1 /\ isDefinition gv1 = true
                              /\ gv_name gv1 = gv_name gv2
                              /\ lCompatibleTypes (gv_valueType gv1) (gv_valueType gv2)
                                 = true) ->
  exists mdst,
    lExtractOrCheckGlobals m msrc1 mdst0 false = Returned (m, demote <$> msrc1, mdst)
    /\ lExtractOrCheckGlobals m2 msrc2 mdst true = Returned (m2, demote <$> msrc2, mdst).
Proof.
  intros Hnd Hfirst Hsecond. eexists. split.
  - apply GlobalsFacts.lExtractOrCheckGlobals_extract.
    intros gv Hgv Hdef. now destruct (Hfirst gv Hgv Hdef).
  - apply MatchingTargetsFacts.lExtractOrCheckGlobals_quiet.
    intros gv2 Hgv2 Hdef2.
    destruct (Hsecond gv2 Hgv2 Hdef2) as [Hsym (gv1 & Hgv1 & Hdef1 & Hname & Hcompat)].
    split; [exact Hsym |]. exists (canonical gv1). split; [| exact Hcompat].
    rewrite <- Hname.
    apply MatchingTargetsFacts.getGlobalVariable_extracted; try assumption.
    now destruct (Hfirst gv1 Hgv1 Hdef1).
Qed.

Lemma matching_targets_draw_no_warning_witness :
  exists mdst,
    lExtractOrCheckGlobals GlobalsExamples.firstTarget
      (module GlobalsExamples.firstTarget) [] false
    = Returned (GlobalsExamples.firstTarget,
                demote <$> module GlobalsExamples.firstTarget, mdst)
    /\ lExtractOrCheckGlobals GlobalsExamples.firstTarget
         (module GlobalsExamples.firstTarget) mdst true
       = Returned (GlobalsExamples.firstTarget,
                   demote <$> module GlobalsExamples.firstTarget, mdst).
Proof.
  assert (Hdefs : forall gv, gv ∈ module GlobalsExamples.firstTarget ->
                             isDefinition gv = true -> gv = GlobalsExamples.counter).
  { intros gv Hgv Hdef. cbn in Hgv.
    rewrite !elem_of_cons, elem_of_nil in Hgv.
    destruct Hgv as [-> | [-> | []]]; [reflexivity | discriminate]. }
  apply matching_targets_draw_no_warning.
  - cbn. repeat constructor; rewrite ?elem_of_cons, ?elem_of_nil; intuition discriminate.
  - intros gv Hgv Hdef. rewrite (Hdefs gv Hgv Hdef). split; [| reflexivity].
    eexists. reflexivity.
  - intros gv Hgv Hdef. rewrite (Hdefs gv Hgv Hdef). split; [eexists; reflexivity |].
    exists GlobalsExamples.counter. split; [now left |]. repeat split.
Defined.

(** ** What a successful multi-target build has done *)

Module MultiTargetFacts.
Import Driver DriverUnits.

(** The first element of a range with a property is the least one. *)
Lemma find_seq (f : nat -> bool) (n : nat) :
  forall a,
    match List.find f (seq a n) with
    | Some i => a <= i < a + n /\ f i = true /\ forall j, a <= j < i -> f j = false
    | None => forall j, a <= j < a + n -> f j = false
    end.
Proof.
  induction n as [|n IH]; intros a; [intros j Hj; lia |].
  cbn [seq List.find]. destruct (f a) eqn:Ha.
  - split; [lia |]. split; [exact Ha |]. intros j Hj. lia.
  - specialize (IH (S a)). destruct (List.find f (seq (S a) n)) as [i|].
    + destruct IH as (Hi & Hfi & Hbelow). split; [lia |]. split; [exact Hfi |].
      intros j Hj. destruct (decide (j = a)) as [-> | Hne]; [exact Ha |].
      apply Hbelow. lia.
    + intros j Hj. destruct (decide (j = a)) as [-> | Hne]; [exact Ha |].
      apply IH. lia.
Qed.

Section Loop.
Context `{Environment} {U : Units}.
Variables (srcFile : string) (arch cpu : option string) (outputType : OutputType).
Variables (outFileName headerFileName : option string).

(** The target machine chosen for the dispatch module is that of the
    least ISA compiled. *)
Lemma lFirstTargetMachine_Some (targetMachines : list nat) (isa : nat) :
  lFirstTargetMachine targetMachines = Some isa
  <-> isa ∈ targetMachines /\ isa < NUM_ISAS
      /\ forall i, i ∈ targetMachines -> isa <= i.
Proof.
  unfold lFirstTargetMachine.
  pose proof (find_seq (fun i => bool_decide (i ∈ targetMachines)) NUM_ISAS 0) as Hfind.
  destruct (List.find _ (seq 0 NUM_ISAS)) as [i0|].
  - destruct Hfind as (Hi0 & Hin0 & Hbelow). apply bool_decide_eq_true in Hin0.
    split.
    + intros [= <-]. split; [exact Hin0 |]. split; [lia |].
      intros i Hi. destruct (le_lt_dec i0 i) as [Hle | Hlt]; [exact Hle |].
      specialize (Hbelow i ltac:(lia)). apply bool_decide_eq_false in Hbelow.
      contradiction.
    + intros (Hin & Hlt & Hleast). f_equal.
      specialize (Hleast i0 Hin0).
      destruct (decide (isa = i0)) as [-> | Hne]; [reflexivity |].
      specialize (Hbelow isa ltac:(lia)). apply bool_decide_eq_false in Hbelow.
      contradiction.
  - split; [discriminate |]. intros (Hin & Hlt & _).
    specialize (Hfind isa ltac:(lia)). apply bool_decide_eq_false in Hfind.
    contradiction.
Qed.

Lemma CompileFile_zero (c : Compilation) : CompileFile c = 0 -> compileErrors c = 0.
Proof. unfold CompileFile. destruct (sourceOpened c); [trivial | discriminate]. Qed.

(** One unit: it is compiled, and when it compiles without error its
    globals are reconciled, its exported functions recorded and its output
    written. *)
Lemma lCompileUnit_outcome t dispatchModule exportedFunctions :
  let m := compiledModule srcFile t in
  if Nat.eqb (CompileFile (compileUnit srcFile t)) 0 then
    match lExtractOrCheckGlobals m (module m)
            (default lInitDispatchModule dispatchModule)
            (bool_decide (is_Some dispatchModule)) with
    | AssertionFailed =>
        lCompileUnit srcFile outputType outFileName t dispatchModule exportedFunctions
        = AssertionFailed
    | Returned (_, _, dispatchModule') =>
        let exportedFunctions' :=
          lGetExportedFunctions NUM_ISAS (GetMatchingFunctions srcFile t) (getISA t)
            exportedFunctions in
        lCompileUnit srcFile outputType outFileName t dispatchModule exportedFunctions
        = match outFileName with
          | Some out =>
              let w := writeOutput t outputType
                         (Some (lGetTargetFileName out (GetISAString t))) in
              if negb (written w) then Returned (inl (writeErrors w))
              else Returned (inr (writeErrors w, Some dispatchModule',
                                  exportedFunctions'))
          | None => Returned (inr (0, Some dispatchModule', exportedFunctions'))
          end
    end
  else exists n,
      lCompileUnit srcFile outputType outFileName t dispatchModule exportedFunctions
      = Returned (inr (S n, dispatchModule, exportedFunctions)).
Proof.
  intros m. unfold lCompileUnit. fold m.
  destruct (Nat.eqb (CompileFile (compileUnit srcFile t)) 0) eqn:Hc;
    [| eexists; reflexivity].
  apply Nat.eqb_eq, CompileFile_zero in Hc.
  assert (Hpass : lExtractOrCheckGlobals m (module m)
                    (default lInitDispatchModule dispatchModule)
                    (bool_decide (is_Some dispatchModule))
                  = lExtractOrCheckGlobals m (module m)
                      match dispatchModule with
                      | Some dispatchModule => dispatchModule
                      | None => lInitDispatchModule
                      end
                      match dispatchModule with Some _ => true | None => false end)
    by (destruct dispatchModule; reflexivity).
  rewrite <- Hpass.
  destruct (lExtractOrCheckGlobals m (module m) _ _) as [[[m1 msrc1] dm1]|] eqn:Hret;
    [| reflexivity].
  destruct (GlobalsFacts.lExtractOrCheckGlobals_errorCount _ _ _ _ _ _ _ Hret)
    as [Herr _].
  cbv zeta. rewrite Herr. unfold m at 1 2 3. cbn [compiledModule errorCount].
  rewrite Hc. reflexivity.
Qed.

(** The loop is left normally exactly when every unit succeeds, the targets
    have pairwise different ISAs and the globals of every unit are
    reconciled; it has then recorded these ISAs and the exported functions
    of the units, and accumulated no error.  It fails an assertion only
    where the reconciliation does. *)
Lemma lCompileTargets_outcome targets :
  forall targetMachines dispatchModule exportedFunctions reported,
    match lCompileTargets srcFile arch cpu outputType outFileName headerFileName
            targetMachines dispatchModule exportedFunctions 0 reported targets with
    | Returned (inr (targetMachines', dispatchModule', exportedFunctions',
                     errorCount, _)) =>
        errorCount = 0
        /\ targetMachines' = rev (targetISA arch cpu <$> targets) ++ targetMachines
        /\ reconciled srcFile arch cpu dispatchModule targets = Returned dispatchModule'
        /\ exportedFunctions' = exported srcFile arch cpu exportedFunctions targets
        /\ Forall (fun target =>
                     unitSucceeds srcFile arch cpu outputType outFileName
                       headerFileName target = true) targets
        /\ NoDup (targetISA arch cpu <$> targets)
        /\ (forall i, i ∈ targetISA arch cpu <$> targets -> i ∉ targetMachines)
    | Returned (inl e) =>
        status e = 1
        /\ ~ (Forall (fun target =>
                        unitSucceeds srcFile arch cpu outputType outFileName
                          headerFileName target = true) targets
              /\ NoDup (targetISA arch cpu <$> targets)
              /\ (forall i, i ∈ targetISA arch cpu <$> targets -> i ∉ targetMachines))
    | AssertionFailed =>
        reconciled srcFile arch cpu dispatchModule targets = AssertionFailed
    end.
Proof.
  induction targets as [|target targets IH];
    intros targetMachines dispatchModule exportedFunctions reported.
  - simpl. split; [reflexivity |]. split; [reflexivity |]. split; [reflexivity |].
    split; [reflexivity |]. split; [constructor |].
    split; [constructor |]. intros i Hi. now apply elem_of_nil in Hi.
  - cbn [lCompileTargets reconciled].
    set (t := newTarget arch cpu (Some target)).
    assert (Hunit : unitSucceeds srcFile arch cpu outputType outFileName
                      headerFileName target
                    = isValid t
                      && Nat.eqb (CompileFile (compileUnit srcFile t)) 0
                      && match outFileName with
                         | Some out =>
                             written (writeOutput t outputType
                                        (Some (lGetTargetFileName out (GetISAString t))))
                             && Nat.eqb (writeErrors
                                           (writeOutput t outputType
                                              (Some (lGetTargetFileName out
                                                       (GetISAString t))))) 0
                         | None => true
                         end
                      && match headerFileName with
                         | Some header =>
                             written (writeOutput t Header (Some header))
                             && written (writeOutput t Header
                                           (Some (lGetTargetFileName header
                                                    (GetISAString t))))
                         | None => true
                         end) by reflexivity.
    assert (Hfailed : unitSucceeds srcFile arch cpu outputType outFileName
                        headerFileName target = false ->
                      ~ (Forall (fun target =>
                                   unitSucceeds srcFile arch cpu outputType outFileName
                                     headerFileName target = true) (target :: targets)
                         /\ NoDup (targetISA arch cpu <$> target :: targets)
                         /\ (forall i, i ∈ targetISA arch cpu <$> target :: targets ->
                                       i ∉ targetMachines))).
    { intros Hno [Hall _]. apply Forall_cons in Hall as [Hok _]. congruence. }
    destruct (isValid t) eqn:Hvalid; cbn [negb];
      [| split; [reflexivity | apply Hfailed; now rewrite Hunit]].
    destruct (bool_decide (getISA t ∈ targetMachines)) eqn:Hseen.
    { split; [reflexivity |]. intros (_ & _ & Hnew).
      apply bool_decide_eq_true in Hseen.
      apply (Hnew (getISA t)); [now left | exact Hseen]. }
    apply bool_decide_eq_false in Hseen.
    pose proof (lCompileUnit_outcome t dispatchModule exportedFunctions) as Hstep.
    cbv zeta in Hstep.
    destruct (Nat.eqb (CompileFile (compileUnit srcFile t)) 0) eqn:Hc.
    2: { destruct Hstep as [n ->]. cbn [Nat.add Nat.eqb negb].
         split; [reflexivity | apply Hfailed; rewrite Hunit, ?Hc; reflexivity]. }
    destruct (lExtractOrCheckGlobals _ _ _ _) as [[[m1 msrc1] dm1]|];
      [| now rewrite Hstep].
    rewrite Hstep. clear Hstep.
    assert (Hnext : forall reported',
              match lCompileTargets srcFile arch cpu outputType outFileName
                      headerFileName (getISA t :: targetMachines) (Some dm1)
                      (lGetExportedFunctions NUM_ISAS (GetMatchingFunctions srcFile t)
                         (getISA t) exportedFunctions) 0 reported' targets with
              | Returned (inr (targetMachines', dispatchModule', exportedFunctions',
                               errorCount, _)) =>
                  errorCount = 0
                  /\ targetMachines'
                     = rev (targetISA arch cpu <$> target :: targets) ++ targetMachines
                  /\ reconciled srcFile arch cpu (Some dm1) targets
                     = Returned dispatchModule'
                  /\ exportedFunctions'
                     = exported srcFile arch cpu exportedFunctions (target :: targets)
                  /\ (unitSucceeds srcFile arch cpu outputType outFileName
                        headerFileName target = true ->
                      Forall (fun target =>
                                unitSucceeds srcFile arch cpu outputType outFileName
                                  headerFileName target = true) (target :: targets)
                      /\ NoDup (targetISA arch cpu <$> target :: targets)
                      /\ (forall i, i ∈ targetISA arch cpu <$> target :: targets ->
                                    i ∉ targetMachines))
              | Returned (inl e) =>
                  status e = 1
                  /\ ~ (Forall (fun target =>
                                  unitSucceeds srcFile arch cpu outputType outFileName
                                    headerFileName target = true) (target :: targets)
                        /\ NoDup (targetISA arch cpu <$> target :: targets)
                        /\ (forall i, i ∈ targetISA arch cpu <$> target :: targets ->
                                      i ∉ targetMachines))
              | AssertionFailed =>
                  reconciled srcFile arch cpu (Some dm1) targets = AssertionFailed
              end).
    { intros reported'.
      specialize (IH (getISA t :: targetMachines) (Some dm1)
                    (lGetExportedFunctions NUM_ISAS (GetMatchingFunctions srcFile t)
                       (getISA t) exportedFunctions) reported').
      destruct (lCompileTargets _ _ _ _ _ _ _ _ _ _ _ _)
        as [[e | [[[[tm' dm'] ef'] ec'] rep']] |]; [| | exact IH].
      - destruct IH as [Hstatus Hnot]. split; [exact Hstatus |].
        intros (Hall & Hnd & Hnew). apply Hnot.
        apply Forall_cons in Hall as [_ Hall]. rewrite fmap_cons in Hnd, Hnew.
        apply NoDup_cons in Hnd as [Hfresh Hnd].
        split; [exact Hall |]. split; [exact Hnd |].
        intros i Hi Hin. apply elem_of_cons in Hin as [-> | Hin]; [contradiction |].
        apply (Hnew i); [now right | exact Hin].
      - destruct IH as (Herr & Htms & Hrec & Hexp & Hall & Hnd & Hnew).
        split; [exact Herr |]. rewrite fmap_cons.
        split; [rewrite Htms; simpl; now rewrite <- app_assoc |].
        split; [exact Hrec |]. split; [exact Hexp |]. intros Hok.
        split; [now constructor |].
        split.
        + apply NoDup_cons. split; [| exact Hnd].
          intros Hin. apply (Hnew _ Hin). now left.
        + intros i Hi Hin. apply elem_of_cons in Hi as [-> | Hi]; [contradiction |].
          apply (Hnew i Hi). now right. }
    assert (Hgo : forall reported',
              unitSucceeds srcFile arch cpu outputType outFileName headerFileName target
              = true ->
              match lCompileTargets srcFile arch cpu outputType outFileName
                      headerFileName (getISA t :: targetMachines) (Some dm1)
                      (lGetExportedFunctions NUM_ISAS (GetMatchingFunctions srcFile t)
                         (getISA t) exportedFunctions) 0 reported' targets with
              | Returned (inr (targetMachines', dispatchModule', exportedFunctions',
                               errorCount, _)) =>
                  errorCount = 0
                  /\ targetMachines'
                     = rev (targetISA arch cpu <$> target :: targets) ++ targetMachines
                  /\ reconciled srcFile arch cpu (Some dm1) targets
                     = Returned dispatchModule'
                  /\ exportedFunctions'
                     = exported srcFile arch cpu exportedFunctions (target :: targets)
                  /\ Forall (fun target =>
                               unitSucceeds srcFile arch cpu outputType outFileName
                                 headerFileName target = true) (target :: targets)
                  /\ NoDup (targetISA arch cpu <$> target :: targets)
                  /\ (forall i, i ∈ targetISA arch cpu <$> target :: targets ->
                                i ∉ targetMachines)
              | Returned (inl e) =>
                  status e = 1
                  /\ ~ (Forall (fun target =>
                                  unitSucceeds srcFile arch cpu outputType outFileName
                                    headerFileName target = true) (target :: targets)
                        /\ NoDup (targetISA arch cpu <$> target :: targets)
                        /\ (forall i, i ∈ targetISA arch cpu <$> target :: targets ->
                                      i ∉ targetMachines))
              | AssertionFailed =>
                  reconciled srcFile arch cpu (Some dm1) targets = AssertionFailed
              end).
    { intros reported' Hok. specialize (Hnext reported').
      destruct (lCompileTargets _ _ _ _ _ _ _ _ _ _ _ _)
        as [[e | [[[[tm' dm'] ef'] ec'] rep']] |]; [exact Hnext | | exact Hnext].
      destruct Hnext as (Herr & Htms & Hrec & Hexp & Hrest).
      repeat (split; [assumption |]). now apply Hrest. }
    clear Hnext.
    assert (Hheaders : forall reported',
      (match outFileName with
       | Some out =>
           written (writeOutput t outputType
                      (Some (lGetTargetFileName out (GetISAString t))))
           && Nat.eqb (writeErrors
                         (writeOutput t outputType
                            (Some (lGetTargetFileName out (GetISAString t))))) 0
       | None => true
       end) = true ->
      match
        match headerFileName with
        | Some header =>
            if negb (written (writeOutput t Header (Some header))) then
              Returned (inl {| status := 1; accumulatedErrors := 0;
                               reportedErrors :=
                                 reported'
                                 + writeErrors (writeOutput t Header (Some header)) |})
            else if negb (written (writeOutput t Header
                                     (Some (lGetTargetFileName header
                                              (GetISAString t))))) then
              Returned (inl {| status := 1; accumulatedErrors := 0;
                               reportedErrors :=
                                 reported'
                                 + writeErrors (writeOutput t Header (Some header))
                                 + writeErrors
                                     (writeOutput t Header
                                        (Some (lGetTargetFileName header
                                                 (GetISAString t)))) |})
            else lCompileTargets srcFile arch cpu outputType outFileName
                   headerFileName (getISA t :: targetMachines) (Some dm1)
                   (lGetExportedFunctions NUM_ISAS (GetMatchingFunctions srcFile t)
                      (getISA t) exportedFunctions) 0
                   (reported'
                    + writeErrors (writeOutput t Header (Some header))
                    + writeErrors
                        (writeOutput t Header
                           (Some (lGetTargetFileName header (GetISAString t)))))
                   targets
        | None =>
            lCompileTargets srcFile arch cpu outputType outFileName
              headerFileName (getISA t :: targetMachines) (Some dm1)
              (lGetExportedFunctions NUM_ISAS (GetMatchingFunctions srcFile t)
                 (getISA t) exportedFunctions) 0 reported' targets
        end
      with
      | Returned (inr (targetMachines', dispatchModule', exportedFunctions',
                       errorCount, _)) =>
          errorCount = 0
          /\ targetMachines'
             = rev (targetISA arch cpu <$> target :: targets) ++ targetMachines
          /\ reconciled srcFile arch cpu (Some dm1) targets = Returned dispatchModule'
          /\ exportedFunctions'
             = exported srcFile arch cpu exportedFunctions (target :: targets)
          /\ Forall (fun target =>
                       unitSucceeds srcFile arch cpu outputType outFileName
                         headerFileName target = true) (target :: targets)
          /\ NoDup (targetISA arch cpu <$> target :: targets)
          /\ (forall i, i ∈ targetISA arch cpu <$> target :: targets ->
                        i ∉ targetMachines)
      | Returned (inl e) =>
          status e = 1
          /\ ~ (Forall (fun target =>
                          unitSucceeds srcFile arch cpu outputType outFileName
                            headerFileName target = true) (target :: targets)
                /\ NoDup (targetISA arch cpu <$> target :: targets)
                /\ (forall i, i ∈ targetISA arch cpu <$> target :: targets ->
                              i ∉ targetMachines))
      | AssertionFailed =>
          reconciled srcFile arch cpu (Some dm1) targets = AssertionFailed
      end).
    { intros reported' Hout. rewrite ?Hc, ?Hout in Hunit. cbn [andb] in Hunit.
      destruct headerFileName as [header|].
      - destruct (written (writeOutput t Header (Some header))); cbn [negb andb] in *;
          [| split; [reflexivity | now apply Hfailed]].
        destruct (written (writeOutput t Header _)); cbn [negb] in *;
          [| split; [reflexivity | now apply Hfailed]].
        now apply Hgo.
      - now apply Hgo. }
    destruct outFileName as [out|].
    + cbv zeta.
      destruct (written (writeOutput t outputType _)) eqn:Hw; cbn [negb].
      2: { split; [reflexivity |]. apply Hfailed. rewrite Hunit, ?Hc, ?Hw. reflexivity. }
      destruct (writeErrors (writeOutput t outputType _)) as [|n] eqn:Hwe.
      * cbn [Nat.add Nat.eqb negb]. rewrite Nat.add_0_r.
        apply (Hheaders reported). rewrite ?Hw, ?Hwe. reflexivity.
      * cbn [Nat.add Nat.eqb negb]. split; [reflexivity |].
        apply Hfailed. rewrite Hunit, ?Hc, ?Hw, ?Hwe. reflexivity.
    + cbn [Nat.add Nat.eqb negb]. rewrite Nat.add_0_r.
      now apply (Hheaders reported).
Qed.

End Loop.

End MultiTargetFacts.

(** X16.  What a result of 0 means for a multi-target build.  The build
    returns 0 exactly when none of the guards for C++ output, standard
    input, an explicit cpu or output to stdout applies, and either the
    common header could not be opened (the function then returns 0 before
    any target is compiled), or all of this holds: every target is valid,
    the targets have pairwise different ISAs, every unit compiled without
    error, every per-target output and both headers of every target were
    written, the passes of the global reconciler over the units returned,
    the least ISA compiled has a name and its target is valid for the
    dispatch module, the dispatch functions were created, the write of the
    dispatch module returned (whether or not it succeeded), and the
    dependencies, when asked for, were written.  Where the reconciler, the
    creation of the dispatch functions or the write of the dispatch module
    fails an assertion, the build returns nothing. *)
Theorem multi_target_success `{Driver.Environment} {U : Driver.Units}
    (srcFile : string) (arch cpu : option string) (target : string)
    (outputFlags : Driver.OutputFlags) (outputType : Driver.OutputType)
    (outFileName headerFileName includeFileName depsFileName depsTargetName
       hostStubFileName devStubFileName : option string) :
  Driver.hasComma target = true ->
  let targets := Driver.lExtractTargets target in
  let ISAs := DriverUnits.targetISA arch cpu <$> targets in
  (exists e,
      Driver.CompileAndOutput srcFile arch cpu (Some target) outputFlags outputType
        outFileName headerFileName includeFileName depsFileName depsTargetName
        hostStubFileName devStubFileName = Returned e
      /\ Driver.status e = 0)
  <-> outputType <> Driver.CXX /\ IsStdin srcFile = false /\ cpu = None
      /\ outFileName <> Some "-"
      /\ ((exists header, headerFileName = Some header
                          /\ Driver.fopenHeader header = false)
          \/ (Forall (fun t => DriverUnits.unitSucceeds srcFile arch cpu outputType
                                 outFileName headerFileName t = true) targets
              /\ NoDup ISAs
              /\ exists isa dispatchModule dispatchFuncs w,
                   DriverUnits.reconciled srcFile arch cpu None targets
                   = Returned (Some dispatchModule)
                   /\ isa ∈ ISAs /\ isa < Driver.NUM_ISAS
                   /\ (forall i, i ∈ ISAs -> isa <= i)
                   /\ Driver.ISAToTargetString isa <> ""
                   /\ let t := Driver.newTarget arch cpu
                                 (Some (Driver.ISAToTargetString isa)) in
                      Driver.isValid t = true
                      /\ Driver.lEmitDispatchModule dispatchModule
                           (DriverUnits.exported srcFile arch cpu ∅ targets)
                         = Returned dispatchFuncs
                      /\ Driver.lWriteDispatchModule isa outputType outFileName
                         = Returned w
                      /\ forall deps, depsFileName = Some deps ->
                           Driver.written (Driver.writeOutput t Driver.Deps (Some deps))
                           = true)).
Proof.
  intros Hcomma targets ISAs.
  unfold Driver.CompileAndOutput. rewrite Hcomma. unfold Driver.lCompileMulti.
  fold targets.
  destruct (bool_decide (outputType = Driver.CXX)) eqn:Hcxx.
  { apply bool_decide_eq_true in Hcxx.
    split; [intros (e & [= <-] & He); discriminate | tauto]. }
  apply bool_decide_eq_false in Hcxx.
  destruct (IsStdin srcFile) eqn:Hstdin.
  { split; [intros (e & [= <-] & He); discriminate
           | intros (_ & Hs & _); discriminate]. }
  destruct cpu as [c|].
  { split; [intros (e & [= <-] & He); discriminate
           | intros (_ & _ & Hc & _); discriminate]. }
  assert (Hsize : Nat.leb (length targets) 1 = false).
  { apply Nat.leb_gt. unfold targets.
    rewrite ExtractTargetsFacts.lExtractTargets_length.
    apply ExtractTargetsFacts.hasComma_commas in Hcomma. lia. }
  rewrite Hsize.
  destruct (bool_decide (outFileName = Some "-")) eqn:Hout.
  { apply bool_decide_eq_true in Hout.
    split; [intros (e & [= <-] & He); discriminate | tauto]. }
  apply bool_decide_eq_false in Hout.
  assert (Hopen : (match headerFileName with
                   | Some header => negb (Driver.fopenHeader header)
                   | None => false
                   end) = true
                  <-> exists header, headerFileName = Some header
                                     /\ Driver.fopenHeader header = false).
  { destruct headerFileName as [header|].
    - split; [intros Hneg; exists header; split;
                [reflexivity | now apply negb_true_iff] |].
      intros (h & [= <-] & ->). reflexivity.
    - split; [discriminate | intros (h & Hh & _); discriminate]. }
  destruct (match headerFileName with
            | Some header => negb (Driver.fopenHeader header)
            | None => false
            end).
  { split; [| intros _; eexists; split; reflexivity]. intros _.
    repeat (split; [assumption || reflexivity |]). left. now apply Hopen. }
  assert (Hclosed : ~ exists header, headerFileName = Some header
                                     /\ Driver.fopenHeader header = false).
  { intros Hex. apply Hopen in Hex. discriminate. }
  pose proof (MultiTargetFacts.lCompileTargets_outcome srcFile arch None outputType
                outFileName headerFileName targets [] None ∅ 0) as Hloop.
  destruct (Driver.lCompileTargets srcFile arch None outputType outFileName
              headerFileName [] None ∅ 0 0 targets)
    as [[e | [[[[targetMachines dispatchModule] exportedFunctions] errorCount]
               reported]] |].
  - destruct Hloop as [Hstatus Hnot].
    split; [intros (e' & [= <-] & He); congruence |].
    intros (_ & _ & _ & _ & [Hex | (Hall & Hnd & _)]); [contradiction |].
    exfalso. apply Hnot. split; [exact Hall |]. split; [exact Hnd |].
    intros i _ Hin. now apply elem_of_nil in Hin.
  - destruct Hloop as (-> & -> & Hrec & -> & Hall & Hnd & _). rewrite app_nil_r.
    fold ISAs.
    assert (Hrevin : forall i, i ∈ rev ISAs <-> i ∈ ISAs)
      by (intros i; rewrite !list_elem_of_In; symmetry; apply in_rev).
    assert (Hfirst : forall isa,
              Driver.lFirstTargetMachine (rev ISAs) = Some isa
              <-> isa ∈ ISAs /\ isa < Driver.NUM_ISAS
                  /\ forall i, i ∈ ISAs -> isa <= i).
    { intros isa. rewrite MultiTargetFacts.lFirstTargetMachine_Some, Hrevin.
      split; intros (Hin & Hlt & Hleast); (split; [exact Hin |]);
        (split; [exact Hlt |]); intros i Hi; apply Hleast; now apply Hrevin. }
    split.
    + intros (e & He & Hstatus).
      repeat (split; [assumption || reflexivity |]). right.
      split; [exact Hall |]. split; [exact Hnd |].
      destruct (Driver.lFirstTargetMachine (rev ISAs)) as [isa|] eqn:Hisa;
        [| discriminate].
      destruct (proj1 (Hfirst isa) eq_refl) as (Hin & Hlt & Hleast).
      destruct (String.eqb_spec (Driver.ISAToTargetString isa) "") as [Hname | Hname];
        [discriminate |].
      set (t0 := Driver.newTarget arch None (Some (Driver.ISAToTargetString isa))) in *.
      destruct (Driver.isValid t0) eqn:Hvalid; cbn [negb] in He;
        [| injection He as <-; discriminate].
      destruct dispatchModule as [dispatchModule|]; [| discriminate].
      destruct (Driver.lEmitDispatchModule dispatchModule _) as [dispatchFuncs|] eqn:Hemit;
        [| discriminate].
      destruct (Driver.lWriteDispatchModule isa outputType outFileName) as [w|] eqn:Hwrite;
        [| discriminate].
      exists isa, dispatchModule, dispatchFuncs, w.
      split; [exact Hrec |]. split; [exact Hin |]. split; [exact Hlt |].
      split; [exact Hleast |]. split; [exact Hname |]. cbv zeta. fold t0.
      split; [exact Hvalid |]. split; [exact Hemit |]. split; [exact Hwrite |].
      intros deps ->. cbv zeta in He.
      destruct (Driver.written (Driver.writeOutput t0 Driver.Deps (Some deps)));
        [reflexivity |].
      cbn [negb] in He. injection He as <-. discriminate.
    + intros (_ & _ & _ & _ & [Hex | (_ & _ & isa & dm & dispatchFuncs & w & Hrec'
                                      & Hin & Hlt & Hleast & Hname & Hrest)]);
        [contradiction |].
      rewrite Hrec in Hrec'. injection Hrec' as ->.
      rewrite (proj2 (Hfirst isa)) by (repeat split; assumption).
      destruct (String.eqb_spec (Driver.ISAToTargetString isa) "") as [Hn | _];
        [contradiction |].
      cbv zeta in Hrest. destruct Hrest as (Hvalid & Hemit & Hwrite & Hdeps).
      rewrite Hvalid, Hemit, Hwrite. cbn [negb]. cbv zeta.
      destruct depsFileName as [deps|].
      * rewrite (Hdeps deps eq_refl). cbn [negb]. eexists. split; reflexivity.
      * cbn [negb Driver.written]. eexists. split; reflexivity.
  - split; [intros (e & He & _); discriminate |].
    intros (_ & _ & _ & _ & [Hex | (_ & _ & isa & dm & dispatchFuncs & w & Hrec' & _)]);
      [contradiction |].
    rewrite Hloop in Hrec'. discriminate.
Qed.

Lemma multi_target_success_witness :
  MultiTargetExamples.compile "sse4,avx2" = Returned (Driver.exit 0 0)
  /\ NoDup (DriverUnits.targetISA (H := MultiTargetExamples.environment) None None
              <$> Driver.lExtractTargets "sse4,avx2")
  /\ (exists dispatchModule,
        DriverUnits.reconciled (H := MultiTargetExamples.environment)
          (U := MultiTargetExamples.units true) "a.ispc" None None None
          (Driver.lExtractTargets "sse4,avx2") = Returned (Some dispatchModule))
  /\ Driver.CompileAndOutput (H := MultiTargetExamples.environment)
       (U := MultiTargetExamples.unequalUnits) "a.ispc" None None (Some "sse4,avx2")
       DriverExamples.flags Driver.Bitcode (Some "a.bc") (Some "a.h")
       None None None None None
     = AssertionFailed.
Proof.
  pose proof (multi_target_success (H := MultiTargetExamples.environment)
                (U := MultiTargetExamples.units true)
                "a.ispc" None None "sse4,avx2" DriverExamples.flags Driver.Bitcode
                (Some "a.bc") (Some "a.h") None None None None None eq_refl) as Hok.
  cbv zeta in Hok.
  split; [reflexivity |].
  destruct (proj1 Hok) as (_ & _ & _ & _ & [(header & _ & Hopen) | (_ & Hnd & Hrest)]).
  { eexists. split; reflexivity. }
  { discriminate. }
  split; [exact Hnd |].
  destruct Hrest as (isa & dispatchModule & _ & _ & Hrec & _).
  split; [now exists dispatchModule |].
  reflexivity.
Defined.

(** ** What a successful single-target build has done *)

Module SingleTargetFacts.
Import Driver.

Section Outputs.
Context `{Environment}.

Lemma lWriteOutputs_outcome (t : Target) (outputs : list (OutputType * option string)) :
  forall errors,
    match lWriteOutputs t errors outputs with
    | inl e =>
        status e = 1
        /\ ~ Forall (fun o => written (writeOutput t o.1 o.2) = true) outputs
    | inr errors' =>
        Forall (fun o => written (writeOutput t o.1 o.2) = true) outputs
        /\ (errors' = 0
            <-> errors = 0
                /\ Forall (fun o => writeErrors (writeOutput t o.1 o.2) = 0) outputs)
    end.
Proof.
  induction outputs as [|[outputType fileName] outputs IH]; intros errors.
  - simpl. split; [constructor |]. split; [intros ->; split; [reflexivity | constructor] |].
    now intros [-> _].
  - cbn [lWriteOutputs]. cbv zeta.
    destruct (written (writeOutput t outputType fileName)) eqn:Hw; cbn [negb].
    + specialize (IH (errors + writeErrors (writeOutput t outputType fileName))).
      destruct (lWriteOutputs t _ outputs) as [e | errors'].
      * destruct IH as [Hs Hnot]. split; [exact Hs |].
        intros Hall. apply Forall_cons in Hall as [_ Hall]. contradiction.
      * destruct IH as [Hall Hz]. split; [constructor; assumption |].
        rewrite Hz, Forall_cons. cbn [fst snd]. split.
        -- intros [Hsum Herrs]. split; [lia |]. split; [lia | exact Herrs].
        -- intros [-> [-> Herrs]]. split; [reflexivity | exact Herrs].
    + split; [reflexivity |]. intros Hall. apply Forall_cons in Hall as [Hok _].
      cbn [fst snd] in Hok. congruence.
Qed.

End Outputs.

End SingleTargetFacts.

(** X17.  In single-target mode the function itself meets no assertion:
    it returns whenever the compilation of the unit and the writers of its
    outputs do.  What a result of 0 means for it: the target is valid, the
    unit compiled without error, C++ output went with a generic target and
    assembly or object output with a target that is not generic, and every
    output asked for (the main output, the header, the dependencies, the
    two offload stubs) was written without error. *)
Theorem single_target_success `{Driver.Environment} {U : Driver.Units}
    (srcFile : string) (arch cpu target : option string)
    (outputFlags : Driver.OutputFlags) (outputType : Driver.OutputType)
    (outFileName headerFileName includeFileName depsFileName depsTargetName
       hostStubFileName devStubFileName : option string) :
  Driver.singleTarget target ->
  let t := Driver.newTarget arch cpu target in
  let outputs := requestedOutputs outputFlags outputType outFileName headerFileName
                   depsFileName hostStubFileName devStubFileName in
  exists e,
    Driver.CompileAndOutput srcFile arch cpu target outputFlags outputType
      outFileName headerFileName includeFileName depsFileName depsTargetName
      hostStubFileName devStubFileName = Returned e
    /\ (Driver.status e = 0
        <-> Driver.isValid t = true
            /\ Driver.CompileFile (Driver.compileUnit srcFile t) = 0
            /\ (outputType = Driver.CXX -> genericTarget target = true)
            /\ (outputType = Driver.Asm \/ outputType = Driver.Object ->
                genericTarget target = false)
            /\ Forall (fun o => Driver.written (Driver.writeOutput t o.1 o.2) = true
                                /\ Driver.writeErrors (Driver.writeOutput t o.1 o.2) = 0)
                      outputs).
Proof.
  intros Hsingle t outputs.
  exists (Driver.lCompileSingle srcFile arch cpu target outputFlags outputType
            outFileName headerFileName depsFileName hostStubFileName devStubFileName).
  split.
  { unfold Driver.CompileAndOutput. destruct target as [tg|]; [| reflexivity].
    simpl in Hsingle. now rewrite Hsingle. }
  unfold Driver.lCompileSingle. fold t. fold (genericTarget target).
  fold (requestedOutputs outputFlags outputType outFileName headerFileName
          depsFileName hostStubFileName devStubFileName). fold outputs. cbv zeta.
  destruct (Driver.isValid t); [| split; [discriminate | intros [Hv _]; discriminate]].
  cbn [negb].
  unfold Driver.CompileFile.
  destruct (Driver.sourceOpened (Driver.compileUnit srcFile t));
    [| split; [discriminate | intros (_ & Hc & _); discriminate]].
  destruct (Driver.compileErrors (Driver.compileUnit srcFile t)) as [|n];
    [| split; [discriminate | intros (_ & Hc & _); discriminate]].
  cbn [Nat.eqb].
  destruct (bool_decide (outputType = Driver.CXX) && negb (genericTarget target)) eqn:Hcxx.
  { split; [discriminate |]. intros (_ & _ & Hgen & _).
    apply andb_true_iff in Hcxx as [Hty Hng]. apply bool_decide_eq_true in Hty.
    rewrite (Hgen Hty) in Hng. discriminate. }
  destruct ((bool_decide (outputType = Driver.Asm)
             || bool_decide (outputType = Driver.Object))
            && genericTarget target) eqn:Hobj.
  { split; [discriminate |]. intros (_ & _ & _ & Hgen & _).
    apply andb_true_iff in Hobj as [Hty Hg].
    rewrite Hgen in Hg; [discriminate |].
    apply orb_true_iff in Hty as [Hty | Hty]; apply bool_decide_eq_true in Hty; auto. }
  assert (Hrules : (outputType = Driver.CXX -> genericTarget target = true)
                   /\ (outputType = Driver.Asm \/ outputType = Driver.Object ->
                       genericTarget target = false)).
  { split.
    - intros Hty. apply andb_false_iff in Hcxx as [Hne | Hg].
      + apply bool_decide_eq_false in Hne. contradiction.
      + now apply negb_false_iff in Hg.
    - intros Hty. apply andb_false_iff in Hobj as [Hne | Hg]; [| exact Hg].
      apply orb_false_iff in Hne as [Ha Ho].
      apply bool_decide_eq_false in Ha, Ho. tauto. }
  pose proof (SingleTargetFacts.lWriteOutputs_outcome t outputs 0) as Hout.
  destruct (Driver.lWriteOutputs t 0 outputs) as [e | errors].
  - destruct Hout as [Hs Hnot]. split; [congruence |].
    intros (_ & _ & _ & _ & Hall). exfalso. apply Hnot.
    eapply Forall_impl; [exact Hall |]. now intros o [Hw _].
  - destruct Hout as [Hall Hz]. split.
    + intros Hstatus.
      assert (errors = 0) as -> by (destruct errors; [reflexivity | discriminate]).
      split; [reflexivity |]. split; [reflexivity |].
      split; [apply Hrules |]. split; [apply Hrules |].
      destruct (proj1 Hz eq_refl) as [_ Herrs].
      rewrite Forall_forall in *. intros o Ho. split; [now apply Hall | now apply Herrs].
    + intros (_ & _ & _ & _ & Hok).
      assert (errors = 0) as ->.
      { apply Hz. split; [reflexivity |].
        eapply Forall_impl; [exact Hok |]. now intros o [_ He]. }
      reflexivity.
Qed.

Lemma single_target_success_witness :
  DriverExamples.compile (DriverExamples.environment true true 0)
  = Returned (Driver.exit 0 0)
  /\ Driver.written
       (@Driver.writeOutput (DriverExamples.environment true true 0)
          (@Driver.newTarget (DriverExamples.environment true true 0)
             None None (Some "avx2"))
          Driver.Bitcode (Some "a.bc")) = true.
Proof.
  split; [reflexivity |].
  destruct (single_target_success (H := DriverExamples.environment true true 0)
              (U := DriverExamples.units true)
              "a.ispc" None None (Some "avx2") DriverExamples.flags
              Driver.Bitcode (Some "a.bc") None None None None None None
              eq_refl) as (e & He & Hzero).
  injection He as <-.
  destruct (proj1 Hzero eq_refl) as (_ & _ & _ & _ & Hall).
  apply Forall_cons in Hall as [[Hw _] _]. exact Hw.
Defined.

(** ** The order of the struct declarations in a header *)

Section StructDeclarationFacts.
Context `{TypeComparison}.

Lemma lEmitStructDecl_struct emitUnifs n es v c emitted :
  lEmitStructDecl emitUnifs (StructType n es v c) emitted
  = if negb emitUnifs && negb (lContainsPtrToVarying (StructType n es v c)) then emitted
    else if List.existsb (EqualIgnoringConst (StructType n es v c)) emitted then emitted
    else foldl (fun emitted e => lEmitElementDecl emitUnifs e emitted) emitted es
         ++ [StructType n es v c].
Proof.
  cbn [lEmitStructDecl].
  destruct (negb emitUnifs && negb (lContainsPtrToVarying (StructType n es v c)));
    [reflexivity |].
  destruct (List.existsb _ emitted); [reflexivity |]. f_equal.
  revert emitted. induction es as [|e es IH]; intros emitted; [reflexivity |].
  cbn [foldl]. rewrite IH. f_equal. clear IH.
  revert emitted. induction e; intros emitted; try reflexivity.
  unfold lEmitElementDecl. cbn [lGetElementStructType]. apply IHe.
Qed.

Lemma declaredIn_prefix (l l' : list ispcType) (e : ispcType) :
  l `prefix_of` l' -> declaredIn l e -> declaredIn l' e.
Proof.
  intros [k ->] (x & Hx & Hcover). exists x. split; [| exact Hcover].
  apply elem_of_app. now left.
Qed.

Lemma lEmitElementDecl_members (es : list ispcType) :
  Forall (fun t => forall s, lGetElementStructType t = Some s -> emits s) es ->
  forall emitted,
    let mid := foldl (fun emitted e => lEmitElementDecl true e emitted) emitted es in
    emitted `prefix_of` mid
    /\ (forall e, e ∈ omap lGetElementStructType es -> declaredIn mid e)
    /\ (declaredBeforeUse emitted -> declaredBeforeUse mid).
Proof.
  induction 1 as [|t es Ht _ IH]; intros emitted.
  - simpl. split; [reflexivity |]. split; [| trivial].
    intros e He. now apply elem_of_nil in He.
  - cbn [foldl]. cbv zeta.
    set (next := lEmitElementDecl true t emitted).
    destruct (IH next) as (Hpre & Hdecl & Hdbu).
    assert (Hnext : emitted `prefix_of` next
                    /\ (forall s, lGetElementStructType t = Some s -> declaredIn next s)
                    /\ (declaredBeforeUse emitted -> declaredBeforeUse next)).
    { unfold next, lEmitElementDecl.
      destruct (lGetElementStructType t) as [s|] eqn:Hs.
      - destruct (Ht s eq_refl emitted) as (H1 & H2 & H3).
        split; [exact H1 |]. split; [| exact H3]. now intros s' [= <-].
      - split; [reflexivity |]. split; [discriminate | trivial]. }
    destruct Hnext as (Hpre' & Hdecl' & Hdbu').
    split; [etransitivity; eassumption |]. split; [| auto].
    intros e He. apply list_elem_of_omap in He as (x & Hx & Hs).
    apply elem_of_cons in Hx as [-> | Hx].
    + apply (declaredIn_prefix next); [exact Hpre | now apply Hdecl'].
    + apply Hdecl. apply list_elem_of_omap. eauto.
Qed.

Lemma lEmitStructDecl_emits (t : ispcType) :
  forall s, lGetElementStructType t = Some s -> emits s.
Proof.
  induction t using ispcType_nested_ind; intros st Hst; try discriminate.
  - apply IHt. exact Hst.
  - injection Hst as <-. intros emitted. rewrite lEmitStructDecl_struct. cbn [negb andb].
    destruct (List.existsb (EqualIgnoringConst (StructType n es v c)) emitted) eqn:Hseen.
    + split; [reflexivity |]. split; [| trivial].
      apply List.existsb_exists in Hseen as (x & Hx & Heq).
      exists x. split; [now apply list_elem_of_In | now right].
    + match goal with
      | Hall : Forall _ es |- _ =>
          destruct (lEmitElementDecl_members es Hall emitted) as (Hpre & Hdecl & Hdbu)
      end.
      set (mid := foldl (fun emitted e => lEmitElementDecl true e emitted) emitted es) in *.
      split; [etransitivity; [exact Hpre | now apply prefix_app_r] |].
      split.
      * exists (StructType n es v c). split; [| now left].
        apply elem_of_app. right. now left.
      * intros Hold i st e Hi He. specialize (Hdbu Hold).
        destruct (decide (i < length mid)) as [Hlt | Hge].
        -- rewrite lookup_app_l in Hi by exact Hlt.
           rewrite take_app_le by lia. now apply (Hdbu i st e).
        -- assert (i = length mid) as ->.
           { apply lookup_lt_Some in Hi. rewrite length_app in Hi. simpl in Hi. lia. }
           rewrite lookup_app_r, Nat.sub_diag in Hi by lia. injection Hi as <-.
           rewrite take_app_length. now apply Hdecl.
Qed.

Lemma lEmitStructDecls_emits (structTypes : list ispcType) :
  Forall (fun st => CastType.isStructType st = true) structTypes ->
  forall emitted,
    let result := foldl (fun emitted st => lEmitStructDecl true st emitted)
                        emitted structTypes in
    emitted `prefix_of` result
    /\ (forall st, st ∈ structTypes -> declaredIn result st)
    /\ (declaredBeforeUse emitted -> declaredBeforeUse result).
Proof.
  induction 1 as [|st structTypes Hst _ IH]; intros emitted.
  - simpl. split; [reflexivity |]. split; [| trivial].
    intros st Hst. now apply elem_of_nil in Hst.
  - cbn [foldl]. cbv zeta.
    assert (Hemits : emits st).
    { destruct st; try discriminate.
      match goal with |- emits ?s => apply (lEmitStructDecl_emits s); reflexivity end. }
    destruct (Hemits emitted) as (H1 & H2 & H3).
    destruct (IH (lEmitStructDecl true st emitted)) as (Hpre & Hdecl & Hdbu).
    split; [etransitivity; eassumption |]. split; [| auto].
    intros st' Hin. apply elem_of_cons in Hin as [-> | Hin]; [| now apply Hdecl].
    now apply (declaredIn_prefix (lEmitStructDecl true st emitted)).
Qed.

End StructDeclarationFacts.

(** X18.  The struct declarations of a header come in an order in which
    a C compiler can read them: every struct of the list passed to
    [lEmitStructDecls] is declared (itself, or a struct that the comparison
    takes for it), and in front of every declaration stand the declarations
    of the structs that its members are, or are arrays of.  This holds for
    any comparison of types. *)
Theorem struct_declarations_before_use `{TypeComparison} (structTypes : list ispcType) :
  Forall (fun st => CastType.isStructType st = true) structTypes ->
  declaredBeforeUse (lEmitStructDecls structTypes true)
  /\ forall st, st ∈ structTypes -> declaredIn (lEmitStructDecls structTypes true) st.
Proof.
  intros Hstructs.
  destruct (lEmitStructDecls_emits structTypes Hstructs []) as (_ & Hdecl & Hdbu).
  split; [| exact Hdecl].
  apply Hdbu. intros i st e Hi. now rewrite lookup_nil in Hi.
Qed.

Lemma struct_declarations_before_use_witness :
  lEmitStructDecls (H := StructExamples.comparison) [StructExamples.Path] true
  = [StructExamples.Point; StructExamples.Path]
  /\ declaredBeforeUse (H := StructExamples.comparison)
       (lEmitStructDecls (H := StructExamples.comparison) [StructExamples.Path] true).
Proof.
  split; [reflexivity |].
  apply (struct_declarations_before_use (H := StructExamples.comparison)
           [StructExamples.Path]).
  repeat constructor.
Defined.

(** ** From the exported functions of the targets to the dispatch function *)

Module ExportedFunctionsFacts.

Lemma variant_Some functions name isa f :
  variant functions name isa = Some f ->
  exists ftv, functions !! name = Some ftv /\ ftv !! isa = Some (Some f).
Proof.
  unfold variant. destruct (functions !! name) as [ftv|]; [| discriminate].
  destruct (ftv !! isa) as [[g|]|] eqn:Hg; simpl; try discriminate.
  intros [= ->]. exists ftv. split; [reflexivity | exact Hg].
Qed.

(** One Symbol: its function becomes the variant of its name at the ISA
    of the target, and nothing else changes. *)
Lemma record_variant NUM_ISAS functions name f isa :
  sized NUM_ISAS functions -> isa < NUM_ISAS ->
  let functions' :=
    <[name := <[isa := Some f]> (default (replicate NUM_ISAS None) (functions !! name))]>
      functions in
  sized NUM_ISAS functions'
  /\ variant functions' name isa = Some f
  /\ forall n i, n <> name \/ i <> isa -> variant functions' n i = variant functions n i.
Proof.
  intros Hsized Hisa functions'.
  assert (Hlen : length (default (replicate NUM_ISAS None) (functions !! name)) = NUM_ISAS).
  { destruct (functions !! name) as [ftv|] eqn:Hn; simpl;
      [now apply (Hsized name) | apply length_replicate]. }
  split; [| split].
  - intros n ftv Hn. unfold functions' in Hn.
    apply lookup_insert_Some in Hn as [[_ <-] | [_ Hn]]; [| now apply (Hsized n)].
    now rewrite length_insert.
  - unfold variant, functions'. rewrite lookup_insert_eq.
    rewrite list_lookup_insert_eq by lia. reflexivity.
  - intros n i Hne. unfold variant, functions'.
    destruct (decide (n = name)) as [-> | Hn]; [| now rewrite lookup_insert_ne].
    destruct Hne as [Hne | Hne]; [contradiction |].
    rewrite lookup_insert_eq, list_lookup_insert_ne by congruence.
    destruct (functions !! name) as [ftv|]; [reflexivity |]. simpl.
    destruct (replicate NUM_ISAS None !! i) as [x|] eqn:Hx; [| reflexivity].
    apply lookup_replicate in Hx as [-> _]. reflexivity.
Qed.

(** One unit. *)
Lemma lGetExportedFunctions_variants NUM_ISAS isa syms :
  isa < NUM_ISAS -> NoDup (fst <$> syms) ->
  forall functions,
    sized NUM_ISAS functions ->
    sized NUM_ISAS (lGetExportedFunctions NUM_ISAS syms isa functions)
    /\ (forall n f, (n, f) ∈ syms ->
          variant (lGetExportedFunctions NUM_ISAS syms isa functions) n isa = Some f)
    /\ (forall n i, i <> isa \/ n ∉ fst <$> syms ->
          variant (lGetExportedFunctions NUM_ISAS syms isa functions) n i
          = variant functions n i).
Proof.
  intros Hisa. induction syms as [|[n0 f0] syms IH]; intros Hnd functions Hsized.
  - split; [exact Hsized |]. split; [| reflexivity].
    intros n f Hin. now apply elem_of_nil in Hin.
  - rewrite fmap_cons in Hnd. apply NoDup_cons in Hnd as [Hfresh Hnd].
    unfold lGetExportedFunctions. cbn [foldl fst snd]. cbv zeta.
    destruct (record_variant NUM_ISAS functions n0 f0 isa Hsized Hisa)
      as (Hsized1 & Hhere & Hother).
    cbv zeta in Hsized1, Hhere, Hother.
    set (functions1 := <[n0 := _]> functions) in *.
    fold (lGetExportedFunctions NUM_ISAS syms isa functions1).
    destruct (IH Hnd functions1 Hsized1) as (Hsized' & Hin' & Hout').
    split; [exact Hsized' |]. split.
    + intros n f Hin. apply elem_of_cons in Hin as [[= -> ->] | Hin]; [| now apply Hin'].
      rewrite Hout' by (now right). exact Hhere.
    + intros n i Hne. rewrite fmap_cons, not_elem_of_cons in Hne. cbn [fst] in Hne.
      rewrite Hout' by tauto. apply Hother. tauto.
Qed.

(** All units. *)
Lemma lCollectExportedFunctions_variants NUM_ISAS units :
  NoDup (fst <$> units) ->
  Forall (fun unit => unit.1 < NUM_ISAS /\ NoDup (fst <$> unit.2)) units ->
  forall functions,
    sized NUM_ISAS functions ->
    let functions' :=
      foldl (fun functions unit =>
               lGetExportedFunctions NUM_ISAS unit.2 unit.1 functions)
            functions units in
    sized NUM_ISAS functions'
    /\ (forall isa syms n f, (isa, syms) ∈ units -> (n, f) ∈ syms ->
          variant functions' n isa = Some f)
    /\ (forall n i, i ∉ fst <$> units -> variant functions' n i = variant functions n i).
Proof.
  induction units as [|[isa0 syms0] units IH]; intros Hnd Hunits functions Hsized.
  - simpl. split; [exact Hsized |]. split; [| reflexivity].
    intros isa syms n f Hin. now apply elem_of_nil in Hin.
  - rewrite fmap_cons in Hnd. apply NoDup_cons in Hnd as [Hfresh Hnd].
    apply Forall_cons in Hunits as [[Hisa0 Hnd0] Hunits]. cbn [fst snd] in *.
    cbn [foldl fst snd]. cbv zeta.
    destruct (lGetExportedFunctions_variants NUM_ISAS isa0 syms0 Hisa0 Hnd0
                functions Hsized) as (Hsized1 & Hin1 & Hout1).
    set (functions1 := lGetExportedFunctions NUM_ISAS syms0 isa0 functions) in *.
    destruct (IH Hnd Hunits functions1 Hsized1) as (Hsized' & Hin' & Hout').
    cbv zeta in Hsized', Hin', Hout'.
    split; [exact Hsized' |]. split.
    + intros isa syms n f Hin Hf.
      apply elem_of_cons in Hin as [[= -> ->] | Hin]; [| now apply (Hin' isa syms)].
      rewrite Hout' by exact Hfresh. now apply Hin1.
    + intros n i Hne. rewrite fmap_cons, not_elem_of_cons in Hne. cbn [fst] in Hne.
      rewrite Hout' by tauto. apply Hout1. left. tauto.
Qed.

End ExportedFunctionsFacts.

(** X19.  From compilation to dispatch: when the units of a multi-target
    build have pairwise different ISAs, the variant that a unit exports for
    a function is recorded under the function's name at the ISA of the unit
    and is not overwritten by the other units, the ISAs that were not
    compiled have no variant, and on a system whose best ISA is that of the
    unit the dispatch function built from the record invokes exactly this
    variant. *)
Theorem compiled_variant_is_dispatched (NUM_ISAS : nat)
    (units : list (nat * list (string * string))) (voidReturn : bool)
    (isa : nat) (syms : list (string * string)) (name f : string) :
  NoDup (fst <$> units) ->
  Forall (fun unit => unit.1 < NUM_ISAS /\ NoDup (fst <$> unit.2)) units ->
  (isa, syms) ∈ units -> (name, f) ∈ syms ->
  exists ftv,
    lCollectExportedFunctions NUM_ISAS units !! name = Some ftv
    /\ length ftv = NUM_ISAS
    /\ ftv !! isa = Some (Some f)
    /\ (forall i, i < NUM_ISAS -> i ∉ fst <$> units -> ftv !! i = Some None)
    /\ exists dispatchFunc,
         Dispatch.lCreateDispatchFunction NUM_ISAS true ftv voidReturn
         = Returned dispatchFunc
         /\ Dispatch.run (Z.of_nat isa) dispatchFunc = Dispatch.Finished [f].
Proof.
  intros Hnd Hunits Hunit Hsym.
  destruct (ExportedFunctionsFacts.lCollectExportedFunctions_variants NUM_ISAS units
              Hnd Hunits ∅) as (Hsized & Hin & Hout).
  { intros n ftv Hn. rewrite lookup_empty in Hn. discriminate. }
  cbv zeta in Hsized, Hin, Hout. fold (lCollectExportedFunctions NUM_ISAS units) in *.
  destruct (ExportedFunctionsFacts.variant_Some _ _ _ _ (Hin isa syms name f Hunit Hsym))
    as (ftv & Hftv & Hvariant).
  exists ftv. split; [exact Hftv |].
  pose proof (Hsized name ftv Hftv) as Hlen.
  split; [exact Hlen |]. split; [exact Hvariant |]. split.
  - intros i Hi Hne. specialize (Hout name i Hne).
    unfold variant in Hout. rewrite Hftv, lookup_empty in Hout.
    destruct (ftv !! i) as [[g|]|] eqn:Hg; simpl in Hout; try discriminate; [reflexivity |].
    apply lookup_ge_None in Hg. lia.
  - assert (Hisa : isa < NUM_ISAS) by (apply lookup_lt_Some in Hvariant; lia).
    eexists. split.
    + apply DispatchFacts.lCreateDispatchFunction_returns. now exists isa, f.
    + apply (proj1 (DispatchFacts.lCreateDispatchFunction_best NUM_ISAS ftv voidReturn
                      (Z.of_nat isa)) isa f).
      * exact Hisa.
      * exact Hvariant.
      * lia.
      * intros k g Hk _. lia.
Qed.

Lemma compiled_variant_is_dispatched_witness :
  let units := [(1, [("f", "f_sse4")]); (3, [("f", "f_avx2")])] in
  exists ftv dispatchFunc,
    lCollectExportedFunctions 5 units !! "f" = Some ftv
    /\ Dispatch.lCreateDispatchFunction 5 true ftv true = Returned dispatchFunc
    /\ Dispatch.run 1 dispatchFunc = Dispatch.Finished ["f_sse4"].
Proof.
  intros units.
  destruct (compiled_variant_is_dispatched 5 units true 1 [("f", "f_sse4")] "f" "f_sse4")
    as (ftv & Hftv & _ & _ & _ & dispatchFunc & Hbuilt & Hrun).
  - cbn. repeat constructor; rewrite ?elem_of_cons, ?elem_of_nil; intuition discriminate.
  - repeat constructor; cbn; try lia; rewrite ?elem_of_nil; tauto.
  - now left.
  - now left.
  - exists ftv, dispatchFunc. repeat split; assumption.
Defined.

(** ** Definitions after an extern declaration *)

(** X20.  A variable whose first declaration was [extern] is never final:
    its Symbol keeps the [extern] storage class, so that every later
    declaration of the same type that passes the preliminary checks is
    accepted, whatever its storage class and however many definitions came
    before: no conflict and no redefinition is reported, the global of the
    name is replaced by one with the new initializer, and the Symbol keeps
    its storage class, type and position. *)
Theorem extern_symbol_accepts_every_definition `{Collaborators}
    (m : IspcModule) (name : string) (sym : Symbol) (type sized : ispcType)
    (llvmType : LLVM.llvmType) (initExpr : option Expr) (isConst : bool)
    (storageClass : StorageClass) (pos : SourcePos) :
  consistent m ->
  SymTab.LookupVariable (symbolTable m) name = Some sym ->
  isExternClass (sym_storageClass sym) = true ->
  wellFormedGlobal m name type initExpr storageClass sized llvmType ->
  Ty.Equal (sym_type sym) sized = true ->
  exists m' mi llvmInitializer constValue,
    lGlobalInitializer m name sized llvmType initExpr storageClass pos
    = (mi, llvmInitializer, constValue)
    /\ AddGlobalVariable m name (Some type) initExpr isConst storageClass pos
       = Returned m'
    /\ errorCount m' = errorCount mi /\ diagnostics m' = diagnostics mi
    /\ SymTab.LookupVariable (symbolTable m') name
       = Some {| sym_name := name; sym_pos := sym_pos sym; sym_type := sym_type sym;
                 sym_storageClass := sym_storageClass sym;
                 sym_constValue := constValue; sym_storagePtr := Some name |}
    /\ getNamedGlobal (module m') name
       = Some {| gv_name := name; gv_valueType := llvmType; gv_isConstant := isConst;
                 gv_linkage := ExternalLinkage; gv_initializer := llvmInitializer |}.
Proof.
  intros Hm Hvar Hext Hwf Hequal.
  rewrite (AddGlobalVariable_wellFormed _ _ _ _ _ _ _ _ _ Hwf).
  destruct (lGlobalInitializer m name sized llvmType initExpr storageClass pos)
    as [[mi init] cv] eqn:Hinit.
  destruct (lGlobalInitializer_frame _ _ _ _ _ _ _ _ _ _ Hinit) as [(Hst & Hmod & _) _].
  destruct (variables_named m Hm name sym Hvar) as [Hname Hptr].
  destruct (variables_emitted m Hm name sym Hvar) as (gv & Hgv & _ & _).
  assert (Hstatic : bool_decide (sym_storageClass sym = SC_STATIC) = false).
  { apply bool_decide_eq_false. intros Hs. rewrite Hs in Hext. discriminate. }
  exists (lDefineGlobal mi sym (Some gv) llvmType isConst init cv), mi, init, cv.
  split; [reflexivity |]. split.
  - unfold lResolveGlobal. rewrite Hst. rewrite Hvar, Hequal, Hext. cbn [negb orb andb].
    rewrite Hptr. cbn [mbind option_bind]. rewrite Hmod, Hgv.
    now rewrite andb_false_r.
  - split; [reflexivity |]. split; [reflexivity |]. split.
    + unfold SymTab.LookupVariable, lDefineGlobal. cbn. rewrite Hname.
      apply lookup_insert_eq.
    + unfold lDefineGlobal. cbn [module]. rewrite Hmod.
      apply GlobalListFacts.getNamedGlobal_Some in Hgv as [_ Hgvname].
      rewrite Hgvname, Hstatic, Hname.
      pose proof (GlobalListFacts.getNamedGlobal_replace (module m)
                    {| gv_name := name; gv_valueType := llvmType;
                       gv_isConstant := isConst; gv_linkage := ExternalLinkage;
                       gv_initializer := init |} name) as Hrep.
      cbn [gv_name] in Hrep. rewrite String.eqb_refl in Hrep. exact Hrep.
Qed.

Lemma consistent_declaredExtern : consistent StateExamples.declaredExtern.
Proof.
  apply lDefineGlobal_consistent.
  - apply consistent_newModule.
  - reflexivity.
  - reflexivity.
  - discriminate.
Qed.

Lemma extern_symbol_accepts_every_definition_witness :
  exists m',
    AddGlobalVariable (H := Examples.collaborators) StateExamples.declaredExtern "x"
      (Some Examples.int32) (Some Examples.one) false SC_NONE (Examples.line 2)
    = Returned m'
    /\ errorCount m' = 0
    /\ getNamedGlobal (module m') "x"
       = Some {| gv_name := "x"; gv_valueType := LLVM.IntegerTy 32;
                 gv_isConstant := false; gv_linkage := ExternalLinkage;
                 gv_initializer := Some (ConstantData (LLVM.IntegerTy 32) [1%Z]) |}.
Proof.
  destruct (extern_symbol_accepts_every_definition (H := Examples.collaborators)
              StateExamples.declaredExtern "x" _ Examples.int32 Examples.int32
              (LLVM.IntegerTy 32) (Some Examples.one) false SC_NONE (Examples.line 2)
              consistent_declaredExtern eq_refl eq_refl)
    as (m' & mi & init & cv & Hinit & Hret & Herr & _ & _ & Hgv).
  - split; (reflexivity || discriminate).
  - reflexivity.
  - injection Hinit as <- <- <-.
    exists m'. split; [exact Hret |]. split; [exact Herr | exact Hgv].
Defined.

(** ** When a function is registered *)

Section Registration.
Context `{Collaborators}.

(** The scan falls out of the loop exactly when every overload has
    another type and other parameter types. *)
Lemma lScanOverloads_done functionType pos overloadFuncs :
  forall m,
    (forall s, s ∈ overloadFuncs -> is_Some (CastType.toFunctionType (sym_type s))) ->
    let passes :=
      forall o, o ∈ overloadFuncs ->
        exists ot, CastType.toFunctionType (sym_type o) = Some ot
                   /\ Ty.Equal (sym_type o) (funType functionType) = false
                   /\ sameParameterTypes ot functionType = false in
    match lScanOverloads m functionType pos overloadFuncs with
    | ScanReturn m' => frame m m' /\ ~ passes
    | ScanAssert => False
    | ScanDone m' => frame m m' /\ passes
    end.
Proof.
  induction overloadFuncs as [|o rest IH]; intros m Htyped passes.
  - simpl. split; [apply StateFacts.frame_refl |]. intros s Hs. now apply elem_of_nil in Hs.
  - cbn [lScanOverloads].
    destruct (Htyped o ltac:(left)) as [ot Hot]. rewrite Hot.
    destruct (Ty.Equal (sym_type o) (funType functionType)) eqn:Heq.
    { split; [apply StateFacts.frame_refl |]. intros Hp.
      destruct (Hp o ltac:(left)) as (ot' & _ & Hne & _). congruence. }
    set (m1 := if isExported functionType || isExported ot
               then Error pos (ExportOverloadError (sym_pos o)) m else m).
    assert (H1 : frame m m1).
    { unfold m1. match goal with |- frame _ (if ?b then _ else _) => destruct b end;
        frame_tac. }
    destruct (sameParameterTypes ot functionType) eqn:Hsame.
    { split; [frame_tac |]. intros Hp.
      destruct (Hp o ltac:(left)) as (ot' & Hot' & _ & Hne). congruence. }
    specialize (IH m1 (fun s Hs => Htyped s ltac:(now right))). cbv zeta in IH.
    destruct (lScanOverloads m1 functionType pos rest) as [m'| |m'].
    + destruct IH as [Hfr Hnot]. split; [eapply StateFacts.frame_trans; eassumption |].
      intros Hp. apply Hnot. intros o' Ho'. apply Hp. now right.
    + exact IH.
    + destruct IH as [Hfr Hall]. split; [eapply StateFacts.frame_trans; eassumption |].
      intros o' Ho'. apply elem_of_cons in Ho' as [-> | Ho']; [eauto | now apply Hall].
Qed.

End Registration.

(** X21.  From a consistent state, [AddFunctionDeclaration] appends the
    new function to the overloads of its name exactly when: no variable has
    the name; every overload already there has another type and other
    parameter types; the function is not a task with C linkage; a function
    with C linkage has no overload; the function type can be lowered; and
    [inline] and [noinline] are not both given.  The errors reported for the
    signature itself (an illegal return or parameter type of an exported
    function, a task that returns a value, struct parameters, a missing
    default value) do not keep the function out of the symbol table. *)
Theorem function_registered_exactly_when `{Collaborators}
    (m : IspcModule) (name : string) (functionType : FunctionType)
    (storageClass : StorageClass) (isInline isNoInline : bool) (pos : SourcePos) :
  consistent m ->
  let overloads := SymTab.LookupFunctions (symbolTable m) name in
  let externC := bool_decide (storageClass = SC_EXTERN_C) in
  let funSym := {| sym_name := name; sym_pos := pos; sym_type := funType functionType;
                   sym_storageClass := storageClass;
                   sym_constValue := None; sym_storagePtr := None |} in
  exists m',
    AddFunctionDeclaration m name functionType storageClass isInline isNoInline pos
    = Returned m'
    /\ (SymTab.LookupFunctions (symbolTable m') name = overloads ++ [funSym]
        <-> SymTab.LookupVariable (symbolTable m) name = None
            /\ (forall o, o ∈ overloads ->
                  exists ot, CastType.toFunctionType (sym_type o) = Some ot
                             /\ Ty.Equal (sym_type o) (funType functionType) = false
                             /\ sameParameterTypes ot functionType = false)
            /\ externC && isTask functionType = false
            /\ (externC = true -> overloads = [])
            /\ is_Some (LLVMFunctionType functionType externC)
            /\ isNoInline && isInline = false).
Proof.
  intros Hm overloads externC funSym.
  assert (Htyped : forall s, s ∈ overloads ->
                             is_Some (CastType.toFunctionType (sym_type s))).
  { intros s Hs. apply LookupFunctions_elem_of in Hs as (l & Hl & Hs).
    now apply (functions_typed m Hm name l). }
  assert (Hquiet : forall m' (conditions : Prop),
             frame m m' -> ~ conditions ->
             (SymTab.LookupFunctions (symbolTable m') name = overloads ++ [funSym]
              <-> conditions)).
  { intros m' conditions (Hst & _) Hnot. rewrite Hst. fold overloads. split; [| tauto].
    intros Heq. apply (f_equal length) in Heq. rewrite length_app in Heq. simpl in Heq. lia. }
  unfold AddFunctionDeclaration.
  destruct (SymTab.LookupVariable (symbolTable m) name) as [v|] eqn:Hvar.
  { eexists. split; [reflexivity |]. apply Hquiet; [frame_tac |].
    intros [Hnone _]. discriminate. }
  fold overloads.
  pose proof (lScanOverloads_done functionType pos overloads m Htyped) as Hscan.
  cbv zeta in Hscan.
  destruct (lScanOverloads m functionType pos overloads) as [m1| |m1].
  { eexists. split; [reflexivity |]. destruct Hscan as [Hfr Hnot].
    apply Hquiet; [exact Hfr | tauto]. }
  { contradiction. }
  destruct Hscan as [Hfr1 Hpass]. cbv zeta. fold externC.
  destruct (externC && isTask functionType) eqn:Htask.
  { eexists. split; [reflexivity |]. apply Hquiet; [frame_tac |].
    intros (_ & _ & Hno & _). discriminate. }
  assert (Hst1 : symbolTable m1 = symbolTable m) by apply Hfr1.
  rewrite Hst1. fold overloads.
  destruct (if externC then overloads else []) as [|f [|f' fs]] eqn:Hc.
  2: { assert (externC = true /\ overloads <> []) as [Hx Hne]
         by (destruct externC; [split; [reflexivity | congruence] | discriminate]).
       destruct (Ty.Equal (sym_type f) (funType functionType));
         eexists; (split; [reflexivity |]); (apply Hquiet; [frame_tac |]);
         intros (_ & _ & _ & Hnil & _); now apply Hne, Hnil. }
  2: { assert (externC = true /\ overloads <> []) as [Hx Hne]
         by (destruct externC; [split; [reflexivity | congruence] | discriminate]).
       eexists; (split; [reflexivity |]); (apply Hquiet; [frame_tac |]);
         intros (_ & _ & _ & Hnil & _); now apply Hne, Hnil. }
  assert (Hlinkage : externC = true -> overloads = [])
    by (intros Hx; now rewrite Hx in Hc).
  destruct (LLVMFunctionType functionType externC) as [llvmFunctionType|] eqn:Hllvm.
  2: { eexists. split; [reflexivity |]. apply Hquiet; [frame_tac |].
       intros (_ & _ & _ & _ & [x Hx] & _). discriminate. }
  destruct (isNoInline && isInline) eqn:Hinline.
  { eexists. split; [reflexivity |]. apply Hquiet; [frame_tac |].
    intros (_ & _ & _ & _ & _ & Hno). discriminate. }
  set (m2 := if isExported functionType
                && negb (lRecursiveCheckValidParamType (returnType functionType) false)
             then Error pos (ExportReturnTypeError name) m1 else m1).
  set (m3 := if isTask functionType && negb (Ty.IsVoidType (returnType functionType))
             then Error pos TaskReturnTypeError m2 else m2).
  set (m4 := if isExported functionType || isExternC functionType
             then lCheckForStructParameters functionType pos m3 else m3).
  set (m5 := lCheckParameters functionType m4 false 0 (paramTypes functionType)).
  assert (Hfr5 : frame m m5).
  { assert (frame m1 m2)
      by (unfold m2; match goal with |- frame _ (if ?b then _ else _) => destruct b end;
          frame_tac).
    assert (frame m2 m3)
      by (unfold m3; match goal with |- frame _ (if ?b then _ else _) => destruct b end;
          frame_tac).
    assert (frame m3 m4).
    { unfold m4. match goal with |- frame _ (if ?b then _ else _) => destruct b end;
        [apply lCheckForStructParameters_frame | apply StateFacts.frame_refl]. }
    assert (frame m4 m5) by apply lCheckParameters_frame.
    repeat (eapply StateFacts.frame_trans; [eassumption |]). apply StateFacts.frame_refl. }
  destruct Hfr5 as (Hst & Hmod & Hrep).
  destruct (AddFunction_consistent m5 funSym) as [Hadd _].
  - apply (StateFacts.consistent_frame m); [exact Hm | now split].
  - rewrite Hst. exact Hvar.
  - eauto.
  - rewrite Hst. intros s Hs. destruct (Hpass s Hs) as (ot & _ & Hne & _). exact Hne.
  - fold funSym. rewrite Hadd. eexists. split; [reflexivity |].
    split; [intros _ | intros _].
    + split; [reflexivity |]. split; [exact Hpass |]. split; [reflexivity |].
      split; [exact Hlinkage |]. split; [eauto | reflexivity].
    + unfold SymTab.LookupFunctions at 1. cbn. rewrite lookup_insert_eq, Hst. reflexivity.
Qed.

Lemma function_registered_exactly_when_witness :
  let g := {| returnType := AtomicType TYPE_VOID Uniform false;
              paramTypes := [AtomicType TYPE_FLOAT Varying false];
              paramNames := ["a"]; paramDefaults := [None];
              paramPositions := [Examples.line 1];
              isTask := false; isExported := true; isExternC := false |} in
  exists m',
    AddFunctionDeclaration (H := Examples.collaborators) newModule "g" g SC_NONE
      false false (Examples.line 1) = Returned m'
    /\ errorCount m' = 1
    /\ SymTab.LookupFunctions (symbolTable m') "g"
       = [{| sym_name := "g"; sym_pos := Examples.line 1; sym_type := funType g;
             sym_storageClass := SC_NONE; sym_constValue := None;
             sym_storagePtr := None |}].
Proof.
  intros g.
  destruct (function_registered_exactly_when (H := Examples.collaborators)
              newModule "g" g SC_NONE false false (Examples.line 1)
              consistent_newModule) as (m' & Hret & Hiff).
  exists m'. split; [exact Hret |]. split.
  - vm_compute in Hret. injection Hret as <-. reflexivity.
  - apply Hiff. split; [reflexivity |]. split.
    + intros o Ho. now apply elem_of_nil in Ho.
    + split; [reflexivity |]. split; [discriminate |]. split; [eexists |]; reflexivity.
Defined.

(** ** The types collected for a header *)

Section ExportedTypesFacts.
Context `{TypeConversion}.

Lemma listed_prefix (l l' : list ispcType) (t : ispcType) :
  l `prefix_of` l' -> listed l t -> listed l' t.
Proof.
  intros [k ->] (x & Hx & Heq). exists x. split; [| exact Heq].
  apply elem_of_app. now left.
Qed.

Lemma extends_refl lists : extends lists lists.
Proof. repeat split; reflexivity. Qed.

Lemma extends_trans l1 l2 l3 : extends l1 l2 -> extends l2 l3 -> extends l1 l3.
Proof.
  intros (H1 & H2 & H3) (H4 & H5 & H6). repeat split; etransitivity; eassumption.
Qed.

Lemma listedByClass_extends lists lists' t :
  extends lists lists' -> listedByClass lists t -> listedByClass lists' t.
Proof.
  intros (H1 & H2 & H3) (Hs & He & Hv).
  repeat split; intros Hc; eapply listed_prefix; eauto.
Qed.

Lemma lAddTypeIfNew_outcome (cast : ispcType -> bool) (type : ispcType)
      (l : list ispcType) :
  match lAddTypeIfNew cast type l with
  | Returned l' =>
      l `prefix_of` l' /\ listed l' type
      /\ (distinctTypes l -> distinctTypes l')
      /\ (Forall (fun t => cast t = true) l -> Forall (fun t => cast t = true) l')
  | AssertionFailed => cast (GetAsNonConstType type) = false
  end.
Proof.
  unfold lAddTypeIfNew. cbv zeta.
  destruct (List.existsb _ l) eqn:Hseen.
  - split; [reflexivity |]. split; [| tauto].
    apply List.existsb_exists in Hseen as (x & Hx & Heq).
    exists x. split; [now apply list_elem_of_In | exact Heq].
  - destruct (cast (GetAsNonConstType type)) eqn:Hcast; [| reflexivity].
    split; [now apply prefix_app_r |]. split; [| split].
    + exists (GetAsNonConstType type). split; [| apply TyFacts.Equal_refl].
      apply elem_of_app. right. now left.
    + intros Hd i j x y Hi Hj Hij.
      assert (Hi' : l !! i = Some x).
      { apply lookup_lt_Some in Hj. rewrite length_app in Hj. simpl in Hj.
        rewrite lookup_app_l in Hi by lia. exact Hi. }
      destruct (decide (j < length l)) as [Hlt | Hge].
      * rewrite lookup_app_l in Hj by exact Hlt. now apply (Hd i j).
      * rewrite lookup_app_r in Hj by lia.
        apply list_elem_of_lookup_2, list_elem_of_singleton in Hj. subst y.
        apply not_true_is_false. intros Heq.
        assert (Hex : List.existsb (fun exported =>
                                      Ty.Equal exported (GetAsNonConstType type)) l = true).
        { apply List.existsb_exists. exists x. split; [| exact Heq].
          apply list_elem_of_In. now apply list_elem_of_lookup_2 in Hi'. }
        congruence.
    + intros Hall. apply Forall_app. split; [exact Hall |]. now constructor.
Qed.

Lemma lGetExportedTypesOfAll_collects (types : list ispcType) :
  Forall collects types ->
  forall lists,
    match lGetExportedTypesOfAll types lists with
    | Returned lists' =>
        extends lists lists'
        /\ (wellSorted lists -> wellSorted lists')
        /\ forall t t', t ∈ types -> appearsIn t' t -> listedByClass lists' t'
    | AssertionFailed => ~ keepsClass
    end.
Proof.
  induction 1 as [|t types Ht _ IH]; intros lists.
  - simpl. split; [apply extends_refl |]. split; [trivial |].
    intros t t' Hin. now apply elem_of_nil in Hin.
  - cbn [lGetExportedTypesOfAll]. specialize (Ht lists).
    destruct (lGetExportedTypes t lists) as [lists1|]; [| exact Ht].
    destruct Ht as (Hext1 & Hwf1 & Hcov1). specialize (IH lists1).
    destruct (lGetExportedTypesOfAll types lists1) as [lists'|]; [| exact IH].
    destruct IH as (Hext & Hwf & Hcov).
    split; [eapply extends_trans; eassumption |]. split; [auto |].
    intros u t' Hin Happ. apply elem_of_cons in Hin as [-> | Hin].
    + eapply listedByClass_extends; [exact Hext | now apply Hcov1].
    + now apply (Hcov u).
Qed.

Lemma lGetExportedTypes_struct n es v c lists :
  lGetExportedTypes (StructType n es v c) lists
  = match lAddTypeIfNew CastType.isStructType (StructType n es v c)
            (exportedStructTypes lists) with
    | AssertionFailed => AssertionFailed
    | Returned structs =>
        lGetExportedTypesOfAll es
          {| exportedStructTypes := structs;
             exportedEnumTypes := exportedEnumTypes lists;
             exportedVectorTypes := exportedVectorTypes lists |}
    end.
Proof. reflexivity. Qed.

Lemma lGetExportedTypes_function r ps ns ds pp tk ex xc lists :
  lGetExportedTypes (FunctionTy r ps ns ds pp tk ex xc) lists
  = match lGetExportedTypes r lists with
    | AssertionFailed => AssertionFailed
    | Returned lists => lGetExportedTypesOfAll ps lists
    end.
Proof. reflexivity. Qed.

Lemma listedByClass_other lists t :
  CastType.isStructType t = false -> isEnumType t = false ->
  CastType.isVectorType t = false -> listedByClass lists t.
Proof. intros H1 H2 H3. repeat split; congruence. Qed.

Lemma lGetExportedTypes_collects (type : ispcType) : collects type.
Proof.
  induction type using ispcType_nested_ind; intros lists.
  - (* atomic *)
    simpl. split; [apply extends_refl |]. split; [trivial |].
    intros t' Happ. inversion Happ; subst. now apply listedByClass_other.
  - (* enum *)
    cbn [lGetExportedTypes].
    pose proof (lAddTypeIfNew_outcome isEnumType (EnumType n v c)
                  (exportedEnumTypes lists)) as Hadd.
    destruct (lAddTypeIfNew isEnumType (EnumType n v c) (exportedEnumTypes lists))
      as [enums|].
    + destruct Hadd as (Hpre & Hlisted & Hdist & Hclass).
      split; [repeat split; (reflexivity || exact Hpre) |]. split.
      * intros [H1 H2 H3 H4 H5 H6]. split; cbn; auto.
      * intros t' Happ. inversion Happ; subst. repeat split; try discriminate.
        intros _. exact Hlisted.
    + intros Hkeep. destruct (Hkeep (EnumType n v c)) as (_ & He & _).
      rewrite Hadd in He. discriminate.
  - (* pointer *)
    cbn [lGetExportedTypes]. specialize (IHtype lists).
    destruct (lGetExportedTypes type lists) as [lists'|]; [| exact IHtype].
    destruct IHtype as (Hext & Hwf & Hcov). split; [exact Hext |]. split; [exact Hwf |].
    intros t' Happ. inversion Happ; subst; [now apply listedByClass_other | now apply Hcov].
  - (* reference *)
    cbn [lGetExportedTypes]. specialize (IHtype lists).
    destruct (lGetExportedTypes type lists) as [lists'|]; [| exact IHtype].
    destruct IHtype as (Hext & Hwf & Hcov). split; [exact Hext |]. split; [exact Hwf |].
    intros t' Happ. inversion Happ; subst; [now apply listedByClass_other | now apply Hcov].
  - (* array *)
    cbn [lGetExportedTypes]. specialize (IHtype lists).
    destruct (lGetExportedTypes type lists) as [lists'|]; [| exact IHtype].
    destruct IHtype as (Hext & Hwf & Hcov). split; [exact Hext |]. split; [exact Hwf |].
    intros t' Happ. inversion Happ; subst; [now apply listedByClass_other | now apply Hcov].
  - (* vector *)
    cbn [lGetExportedTypes].
    pose proof (lAddTypeIfNew_outcome CastType.isVectorType (VectorType type n)
                  (exportedVectorTypes lists)) as Hadd.
    destruct (lAddTypeIfNew CastType.isVectorType (VectorType type n)
                (exportedVectorTypes lists)) as [vectors|].
    + destruct Hadd as (Hpre & Hlisted & Hdist & Hclass).
      split; [repeat split; (reflexivity || exact Hpre) |]. split.
      * intros [H1 H2 H3 H4 H5 H6]. split; cbn; auto.
      * intros t' Happ. inversion Happ; subst. repeat split; try discriminate.
        intros _. exact Hlisted.
    + intros Hkeep. destruct (Hkeep (VectorType type n)) as (_ & _ & Hv).
      rewrite Hadd in Hv. discriminate.
  - (* struct *)
    rewrite lGetExportedTypes_struct.
    pose proof (lAddTypeIfNew_outcome CastType.isStructType (StructType n es v c)
                  (exportedStructTypes lists)) as Hadd.
    destruct (lAddTypeIfNew CastType.isStructType (StructType n es v c)
                (exportedStructTypes lists)) as [structs|].
    2: { intros Hkeep. destruct (Hkeep (StructType n es v c)) as (Hs & _ & _).
         rewrite Hadd in Hs. discriminate. }
    destruct Hadd as (Hpre & Hlisted & Hdist & Hclass).
    set (lists1 := {| exportedStructTypes := structs;
                      exportedEnumTypes := exportedEnumTypes lists;
                      exportedVectorTypes := exportedVectorTypes lists |}).
    assert (Hext1 : extends lists lists1)
      by (repeat split; (reflexivity || exact Hpre)).
    match goal with
    | Hall : Forall _ es |- _ =>
        pose proof (lGetExportedTypesOfAll_collects es Hall lists1) as Hrest
    end.
    destruct (lGetExportedTypesOfAll es lists1) as [lists'|]; [| exact Hrest].
    destruct Hrest as (Hext & Hwf & Hcov).
    split; [eapply extends_trans; eassumption |]. split.
    + intros [H1 H2 H3 H4 H5 H6]. apply Hwf. split; cbn; auto.
    + intros t' Happ. inversion Happ; subst; [| now apply (Hcov e)].
      repeat split; try discriminate. intros _.
      apply (listed_prefix structs); [apply Hext | exact Hlisted].
  - (* undefined struct *)
    simpl. split; [apply extends_refl |]. split; [trivial |].
    intros t' Happ. inversion Happ; subst. now apply listedByClass_other.
  - (* function *)
    rewrite lGetExportedTypes_function. specialize (IHtype lists).
    destruct (lGetExportedTypes type lists) as [lists1|]; [| exact IHtype].
    destruct IHtype as (Hext1 & Hwf1 & Hcov1).
    match goal with
    | Hall : Forall _ ps |- _ =>
        pose proof (lGetExportedTypesOfAll_collects ps Hall lists1) as Hrest
    end.
    destruct (lGetExportedTypesOfAll ps lists1) as [lists'|]; [| exact Hrest].
    destruct Hrest as (Hext & Hwf & Hcov).
    split; [eapply extends_trans; eassumption |]. split; [auto |].
    intros t' Happ. inversion Happ; subst.
    + now apply listedByClass_other.
    + eapply listedByClass_extends; [exact Hext | now apply Hcov1].
    + now apply (Hcov p).
Qed.

End ExportedTypesFacts.

(** X22.  The types collected for the header from the signatures of the
    exported functions: the three lists only grow; if each held types of
    its class, no two of them [Equal], it still does; every struct, enum
    and vector type that appears in a return or parameter type, behind
    references, pointers and arrays, among the members of structs or in the
    signature of a function type, is listed (without [const]) in the list of
    its class; and the cast asserted in [lAddTypeIfNew] only fails when
    removing [const] changes the class of a type. *)
Theorem exported_types_collected `{TypeConversion}
    (funcs : list FunctionType) (lists : ExportedTypeLists) :
  (keepsClass -> exists lists', lGetExportedParamTypes funcs lists = Returned lists')
  /\ forall lists',
       lGetExportedParamTypes funcs lists = Returned lists' ->
       extends lists lists'
       /\ (wellSorted lists -> wellSorted lists')
       /\ forall ftype t t',
            ftype ∈ funcs -> t = returnType ftype \/ t ∈ paramTypes ftype ->
            appearsIn t' t -> listedByClass lists' t'.
Proof.
  assert (Hall : forall types, Forall collects types)
    by (intros types; apply Forall_forall; intros t _; apply lGetExportedTypes_collects).
  assert (Hmain :
            match lGetExportedParamTypes funcs lists with
            | Returned lists' =>
                extends lists lists'
                /\ (wellSorted lists -> wellSorted lists')
                /\ forall ftype t t',
                     ftype ∈ funcs -> t = returnType ftype \/ t ∈ paramTypes ftype ->
                     appearsIn t' t -> listedByClass lists' t'
            | AssertionFailed => ~ keepsClass
            end).
  { revert lists. induction funcs as [|ftype funcs IH]; intros lists.
    - simpl. split; [apply extends_refl |]. split; [trivial |].
      intros ftype t t' Hin. now apply elem_of_nil in Hin.
    - cbn [lGetExportedParamTypes].
      pose proof (lGetExportedTypes_collects (returnType ftype) lists) as Hret.
      destruct (lGetExportedTypes (returnType ftype) lists) as [lists1|]; [| exact Hret].
      destruct Hret as (Hext1 & Hwf1 & Hcov1).
      pose proof (lGetExportedTypesOfAll_collects (paramTypes ftype) (Hall _) lists1)
        as Hparams.
      destruct (lGetExportedTypesOfAll (paramTypes ftype) lists1) as [lists2|];
        [| exact Hparams].
      destruct Hparams as (Hext2 & Hwf2 & Hcov2). specialize (IH lists2).
      destruct (lGetExportedParamTypes funcs lists2) as [lists'|]; [| exact IH].
      destruct IH as (Hext & Hwf & Hcov).
      split; [eapply extends_trans; [| exact Hext]; eapply extends_trans; eassumption |].
      split; [auto |].
      intros f t t' Hin Ht Happ. apply elem_of_cons in Hin as [-> | Hin].
      + apply (listedByClass_extends lists2); [exact Hext |].
        destruct Ht as [-> | Ht].
        * apply (listedByClass_extends lists1); [exact Hext2 | now apply Hcov1].
        * now apply (Hcov2 t).
      + now apply (Hcov f t). }
  split.
  - intros Hkeep. destruct (lGetExportedParamTypes funcs lists) as [lists'|];
      [eauto | contradiction].
  - intros lists' Hret. now rewrite Hret in Hmain.
Qed.

Lemma exported_types_collected_witness :
  exists lists',
    lGetExportedParamTypes (H := StructExamples.conversion) [StructExamples.walk]
      StructExamples.noTypes = Returned lists'
    /\ listed (H := StructExamples.conversion) (exportedStructTypes lists')
         StructExamples.Point
    /\ wellSorted lists'.
Proof.
  destruct (exported_types_collected (H := StructExamples.conversion)
              [StructExamples.walk] StructExamples.noTypes) as [Hreturns Hdone].
  destruct Hreturns as [lists' Hret]; [intros t; repeat split |].
  destruct (Hdone lists' Hret) as (_ & Hwf & Hcov).
  exists lists'. split; [exact Hret |]. split.
  - apply (Hcov StructExamples.walk (PointerType StructExamples.Path Uniform false false)
             StructExamples.Point).
    + now left.
    + right. now left.
    + apply appears_pointee.
      apply (appears_member _ _ _ _ _ (ArrayType StructExamples.Point 4)); [now left |].
      apply appears_element, appears_here.
    + reflexivity.
  - apply Hwf. split; cbn; try constructor;
      intros i j x y Hi; now rewrite lookup_nil in Hi.
Defined.
